(** * Hyrise execution core: task state machine, hash join, sort-merge join

    A shallow embedding of
    - [AbstractTask] (scheduler/abstract_task.cpp),
    - [JoinHash] and [JoinHash::JoinHashImpl] (operators/join_hash.cpp),
    - [JoinSortMerge] and [JoinSortMerge::JoinSortMergeImpl]
      (operators/join_sort_merge.cpp),
    with the properties of the engine specification proved about them.

    Conventions.  C++ [size_t] indices are [nat]; chunk ids and chunk
    offsets are [N] (they are 32-bit and [NULL_ROW_ID] uses the largest
    one); column values are [Z].  A call either returns, throws, or runs
    into an unchecked access out of range, which is undefined behaviour in
    C++ and a result of its own here. *)

From Stdlib Require Import ZArith NArith Bool Lia String.
From stdpp Require Import base option list strings.

Local Open Scope nat_scope.

(** ** Results of calls that may throw *)

(** [Assert] and [Fail] (utils/assert.hpp) throw [std::logic_error];
    [std::optional::value] throws [std::bad_optional_access];
    [std::vector::reserve] throws [std::length_error]. *)
Inductive Exception : Type :=
  logic_error | bad_optional_access | length_error.

Inductive Outcome (A : Type) : Type :=
| Returned (a : A)
| Thrown (e : Exception)
| UndefinedBehaviour.
Arguments Returned {A} a.
Arguments Thrown {A} e.
Arguments UndefinedBehaviour {A}.

Definition Outcome_bind {A B : Type} (f : A -> Outcome B) (x : Outcome A)
    : Outcome B :=
  match x with
  | Returned a => f a
  | Thrown e => Thrown e
  | UndefinedBehaviour => UndefinedBehaviour
  end.

#[global] Instance Outcome_ret : MRet Outcome := @Returned.
#[global] Instance Outcome_mbind : MBind Outcome := @Outcome_bind.
#[global] Instance Outcome_fmap : FMap Outcome :=
  fun A B f x => Outcome_bind (fun a => Returned (f a)) x.

(** An unchecked access: defined only when the element is there. *)
Definition defined {A : Type} (x : option A) : Outcome A :=
  match x with
  | Some a => Returned a
  | None => UndefinedBehaviour
  end.

(** A fatal assertion: the call throws [std::logic_error]. *)
Definition AssertionFailed {A : Type} : Outcome A := Thrown logic_error.

(** [Assert(cond, msg)]: continue with [k] when [cond] holds. *)
Definition Assert {A : Type} (cond : bool) (k : Outcome A) : Outcome A :=
  if cond then k else AssertionFailed.

(** [DebugAssert(cond, msg)] is [Assert] in a debug build ([HYRISE_DEBUG])
    and expands to nothing in a release build. *)
Definition DebugAssert {A : Type} (HYRISE_DEBUG : bool) (cond : bool)
    (k : Outcome A) : Outcome A :=
  if HYRISE_DEBUG then Assert cond k else k.

(** A loop over a container whose body may throw. *)
Fixpoint for_each {A S : Type} (body : S -> A -> Outcome S) (s : S)
    (l : list A) : Outcome S :=
  match l with
  | [] => Returned s
  | x :: rest => s' ← body s x; for_each body s' rest
  end.

(** ** Storage: row identifiers, position lists, segments, tables *)

Module Storage.

Abbreviation ColumnID := nat (only parsing).

(** The largest 32-bit chunk offset is reserved (types.hpp). *)
Definition INVALID_CHUNK_OFFSET : N := 4294967295%N.

Record RowID : Type := mkRowID { chunk_id : N; chunk_offset : N }.

#[global] Instance RowID_eq_dec : EqDecision RowID.
Proof. solve_decision. Defined.

Definition NULL_ROW_ID : RowID := mkRowID 0 INVALID_CHUNK_OFFSET.

Definition is_null (r : RowID) : bool :=
  N.eqb (chunk_offset r) INVALID_CHUNK_OFFSET.

Abbreviation PosList := (list RowID).

(** The values a cell can hold: [NULL], a 32-bit or 64-bit integer, a
    string (floating-point columns are left out). *)
Inductive AllTypeVariant : Type :=
| NullValue
| IntValue (i : Z)
| LongValue (i : Z)
| StringValue (s : string).

(** Modelled from the spec: [operator==] on [AllTypeVariant]
    (all_type_variant.hpp, null_value.hpp) is absent from the sources;
    the specification describes it as strict equality in which NULL is not
    equal to NULL.  Values of different data types are different. *)
Definition variant_eqb (a b : AllTypeVariant) : bool :=
  match a, b with
  | IntValue x, IntValue y => Z.eqb x y
  | LongValue x, LongValue y => Z.eqb x y
  | StringValue x, StringValue y => bool_decide (x = y)
  | _, _ => false
  end.

Inductive TableType : Type := Data | References.

#[global] Instance TableType_eq_dec : EqDecision TableType.
Proof. solve_decision. Defined.

(** A table is its type, its number of columns and its chunks; a chunk is
    one segment per column.  Dictionary segments read like value segments
    and are not distinguished. *)
Inductive Segment : Type :=
| ValueSegment (values : list AllTypeVariant)
| ReferenceSegment (referenced_table : Table) (referenced_column_id : ColumnID)
    (pos_list : PosList)
with Table : Type :=
| mkTable (type : TableType) (column_count : nat)
    (chunks : list (list Segment)).

Abbreviation Chunk := (list Segment).
Abbreviation Segments := (list Segment).

Definition type (t : Table) : TableType :=
  match t with mkTable ty _ _ => ty end.
Definition column_count (t : Table) : nat :=
  match t with mkTable _ n _ => n end.
Definition chunks (t : Table) : list Chunk :=
  match t with mkTable _ _ cs => cs end.
Definition chunk_count (t : Table) : nat := length (chunks t).

Definition get_chunk (t : Table) (c : N) : option Chunk :=
  chunks t !! N.to_nat c.
Definition get_segment (c : Chunk) (column_id : ColumnID) : option Segment :=
  c !! column_id.

Definition segment_size (s : Segment) : nat :=
  match s with
  | ValueSegment values => length values
  | ReferenceSegment _ _ pos_list => length pos_list
  end.

Definition chunk_size (c : Chunk) : nat :=
  match c with
  | [] => 0
  | s :: _ => segment_size s
  end.

Definition row_count (t : Table) : nat :=
  foldr (fun c n => chunk_size c + n) 0 (chunks t).

(** [dynamic_pointer_cast<const ReferenceSegment>]: a null pointer when
    the segment is of another class. *)
Definition as_reference_segment (s : Segment)
    : option (Table * ColumnID * PosList) :=
  match s with
  | ReferenceSegment t c p => Some (t, c, p)
  | ValueSegment _ => None
  end.

(** Modelled from the spec: [BaseSegment::operator[]] (value_segment.cpp,
    reference_segment.cpp) is absent from the sources.  A value segment is
    a dense array; a reference segment's rows are indirections through its
    position list into the referenced table, [NULL_ROW_ID] reading as
    NULL; a reference segment never references another reference
    segment. *)
Definition segment_at (s : Segment) (offset : N) : option AllTypeVariant :=
  match s with
  | ValueSegment values => values !! N.to_nat offset
  | ReferenceSegment t column_id pos_list =>
      r ← pos_list !! N.to_nat offset;
      if is_null r then Some NullValue
      else
        c ← get_chunk t (chunk_id r);
        s' ← get_segment c column_id;
        match s' with
        | ValueSegment values => values !! N.to_nat (chunk_offset r)
        | ReferenceSegment _ _ _ => None
        end
  end.

(** Modelled from the spec: [Table::create_dummy_table] (table.cpp) is
    absent from the sources; it yields an empty table of type [Data] with
    the given column definitions. *)
Definition create_dummy_table (columns : nat) : Table :=
  mkTable Data columns [].

End Storage.

(** ** Join modes and predicate conditions (types.hpp) *)

Inductive JoinMode : Type :=
| Inner | Left | Right | Outer | Cross | Semi | Anti.

#[global] Instance JoinMode_eq_dec : EqDecision JoinMode.
Proof. solve_decision. Defined.

Definition JoinMode_eqb (a b : JoinMode) : bool := bool_decide (a = b).

Inductive PredicateCondition : Type :=
| Equals | NotEquals | LessThan | LessThanEquals | GreaterThan
| GreaterThanEquals | Between | InList | NotInList | Like | NotLike
| IsNull | IsNotNull.

#[global] Instance PredicateCondition_eq_dec : EqDecision PredicateCondition.
Proof. solve_decision. Defined.

Definition PredicateCondition_eqb (a b : PredicateCondition) : bool :=
  bool_decide (a = b).

(** ** The task state machine (scheduler/abstract_task.cpp) *)

Module Task.

(** The states of [TaskState] (abstract_task.hpp), in lifecycle order. *)
Inductive TaskState : Type :=
| Created | Scheduled | Enqueued | AssignedToWorker | Started | Done.

#[global] Instance TaskState_eq_dec : EqDecision TaskState.
Proof. solve_decision. Defined.

Definition TaskState_eqb (a b : TaskState) : bool := bool_decide (a = b).

(** [_try_transition_to]: the atomic [exchange] installs [new_state]
    first; the validity check on the previous state comes afterwards.  The
    result pairs the value of [_state] after the call with what the call
    did. *)
Definition _try_transition_to (previous_state new_state : TaskState)
    : TaskState * Outcome bool :=
  (new_state,
   match new_state with
   | Scheduled =>
       Assert (TaskState_eqb previous_state Created) (Returned true)
   | Enqueued =>
       if TaskState_eqb previous_state Enqueued then Returned false
       else Assert (TaskState_eqb previous_state Scheduled) (Returned true)
   | AssignedToWorker =>
       if TaskState_eqb previous_state AssignedToWorker then Returned false
       else Assert (TaskState_eqb previous_state Enqueued) (Returned true)
   | Started =>
       Assert (TaskState_eqb previous_state Scheduled
               || TaskState_eqb previous_state AssignedToWorker)
              (Returned true)
   | Done =>
       Assert (TaskState_eqb previous_state Started) (Returned true)
   | Created => AssertionFailed  (* default: Fail(...) *)
   end).

(** The states a task enters through a sequence of transition requests:
    every call that returns [true] contributes the state it installed, a
    call that returns [false] contributes nothing, and the first failed
    assertion ends the task's life. *)
Fixpoint states_entered (st : TaskState) (requests : list TaskState)
    : list TaskState :=
  match requests with
  | [] => []
  | new_state :: rest =>
      match _try_transition_to st new_state with
      | (st', Returned true) => st' :: states_entered st' rest
      | (st', Returned false) => states_entered st' rest
      | (_, _) => []
      end
  end.

(** A freshly constructed task is [Created]. *)
Definition observed_states (requests : list TaskState) : list TaskState :=
  Created :: states_entered Created requests.

(** The two complete lifecycles: with and without a stay in a queue. *)
Definition lifecycle_direct : list TaskState :=
  [Created; Scheduled; Started; Done].
Definition lifecycle_queued : list TaskState :=
  [Created; Scheduled; Enqueued; AssignedToWorker; Started; Done].

(** The edges of the lifecycle. *)
Definition legal_transition (previous_state new_state : TaskState) : bool :=
  match previous_state, new_state with
  | Created, Scheduled
  | Scheduled, Enqueued
  | Enqueued, AssignedToWorker
  | Scheduled, Started
  | AssignedToWorker, Started
  | Started, Done => true
  | _, _ => false
  end.

(** Re-entry into one of the two idempotent states. *)
Definition idempotent_reentry (previous_state new_state : TaskState) : bool :=
  match previous_state, new_state with
  | Enqueued, Enqueued | AssignedToWorker, AssignedToWorker => true
  | _, _ => false
  end.

(** *** Tasks and their dependencies *)

Abbreviation TaskID := nat (only parsing).

Record AbstractTask : Type := mkTask {
  _state : TaskState;
  _pending_predecessors : nat;
  _predecessors : list TaskID;
  _successors : list TaskID
}.

(** Tasks are shared objects ([shared_ptr]); the store maps a task's
    identity to its current fields, so that a task that is its own
    successor, or the successor of several tasks, is one object. *)
Abbreviation TaskStore := (list AbstractTask).

Definition is_scheduled (t : AbstractTask) : bool :=
  TaskState_eqb (_state t) Scheduled
  || TaskState_eqb (_state t) AssignedToWorker
  || TaskState_eqb (_state t) Started.

Definition is_ready (t : AbstractTask) : bool :=
  Nat.eqb (_pending_predecessors t) 0.

(** The largest value of the counter [_pending_predecessors], an unsigned
    32-bit integer. *)
Definition UINT32_MAX : N := 4294967295.

(** [_pending_predecessors++]: an increment of the largest value wraps
    around. *)
Definition increment (n : nat) : nat :=
  if (N.of_nat n =? UINT32_MAX)%N then 0 else S n.

Definition add_pending_predecessor (from : TaskID) (t : AbstractTask)
    : AbstractTask :=
  {| _state := _state t;
     _pending_predecessors := increment (_pending_predecessors t);
     _predecessors := _predecessors t ++ [from];
     _successors := _successors t |}.

Definition add_successor (succ : TaskID) (t : AbstractTask) : AbstractTask :=
  {| _state := _state t;
     _pending_predecessors := _pending_predecessors t;
     _predecessors := _predecessors t;
     _successors := _successors t ++ [succ] |}.

(** [this->set_as_predecessor_of(successor)]. *)
Definition set_as_predecessor_of (store : TaskStore) (this successor : TaskID)
    : Outcome TaskStore :=
  t ← defined (store !! this);
  _ ← defined (store !! successor);
  Assert (negb (is_scheduled t))
    (Returned
       (alter (add_successor successor) this
          (alter (add_pending_predecessor this) successor store))).

(** The state of a fresh task after a sequence of transition requests. *)
Definition state_after (requests : list TaskState) : TaskState :=
  default Created (last (observed_states requests)).

End Task.

(** ** Executing tasks (scheduler/abstract_task.cpp) *)

Module TaskExecution.
Import Task.

(** The calls an execution makes to code outside of [AbstractTask]: the
    virtual [_on_execute] of a task, its [_done_callback], and
    [Worker::execute_next] of the worker of the current thread.  They
    are recorded in the order in which they are made; what they do is
    not part of the embedding: they are taken to return and not to call
    back into the tasks. *)
Inductive Event : Type :=
| on_execute (task : TaskID)
| done_callback (task : TaskID)
| execute_next (task : TaskID).

#[global] Instance Event_eq_dec : EqDecision Event.
Proof. solve_decision. Defined.

(** The tasks of a program: the fields of [Task.AbstractTask], the tasks
    whose [_done_callback] is set, the tasks whose [_done] is true, and
    the calls made so far. *)
Record Tasks : Type := mkTasks {
  store : TaskStore;
  callbacks : list TaskID;
  done : list TaskID;
  events : list Event
}.

Definition with_store (w : Tasks) (s : TaskStore) : Tasks :=
  mkTasks s (callbacks w) (done w) (events w).

Definition record (w : Tasks) (e : Event) : Tasks :=
  mkTasks (store w) (callbacks w) (done w) (events w ++ [e]).

Definition set_state (st : TaskState) (t : AbstractTask) : AbstractTask :=
  mkTask st (_pending_predecessors t) (_predecessors t) (_successors t).

Definition set_pending_predecessors (n : nat) (t : AbstractTask)
    : AbstractTask :=
  mkTask (_state t) n (_predecessors t) (_successors t).

(** [is_done] *)
Definition is_done (w : Tasks) (this : TaskID) : bool :=
  bool_decide (this ∈ done w).

(** [this->_try_transition_to(new_state)] on the task in the store. *)
Definition transition (w : Tasks) (this : TaskID) (new_state : TaskState)
    : Outcome (Tasks * bool) :=
  task ← defined (store w !! this);
  success ← snd (_try_transition_to (_state task) new_state);
  Returned
    (with_store w
       (alter (set_state (fst (_try_transition_to (_state task) new_state)))
          this (store w)),
     success).

(** [try_mark_as_enqueued] and [try_mark_as_assigned_to_worker] *)
Definition try_mark_as_enqueued (w : Tasks) (this : TaskID)
    : Outcome (Tasks * bool) :=
  transition w this Enqueued.

Definition try_mark_as_assigned_to_worker (w : Tasks) (this : TaskID)
    : Outcome (Tasks * bool) :=
  transition w this AssignedToWorker.

(** [--_pending_predecessors] on the unsigned 32-bit counter: a decrement
    of 0 wraps around. *)
Definition decrement (n : nat) : nat :=
  if Nat.eqb n 0 then 2 ^ 32 - 1 else n - 1.

Section Execution.

Variable HYRISE_DEBUG : bool.

(** Whether [Worker::get_this_thread_worker()] returns a worker. *)
Variable current_worker : bool.

(** [set_done_callback] *)
Definition set_done_callback (w : Tasks) (this : TaskID) : Outcome Tasks :=
  task ← defined (store w !! this);
  DebugAssert HYRISE_DEBUG (negb (is_scheduled task))
    (Returned (mkTasks (store w) (this :: callbacks w) (done w) (events w))).

(** [this->_on_predecessor_done()]; [execute] is [AbstractTask::execute]. *)
Definition _on_predecessor_done (execute : Tasks -> TaskID -> Outcome Tasks)
    (w : Tasks) (this : TaskID) : Outcome Tasks :=
  task ← defined (store w !! this);
  let new_predecessor_count := decrement (_pending_predecessors task) in
  let w :=
    with_store w
      (alter (set_pending_predecessors new_predecessor_count) this (store w)) in
  if Nat.eqb new_predecessor_count 0 then
    if current_worker then
      if negb (is_scheduled task) then Returned w
      else Returned (record w (execute_next this))
    else
      if is_scheduled task then execute w this else Returned w
  else Returned w.

(** [this->execute()].  A call of [execute] from [_on_predecessor_done]
    starts a task that has not been started before, so that the calls are
    nested at most as deep as there are tasks; [fuel] bounds the
    depth. *)
Fixpoint execute (fuel : nat) (w : Tasks) (this : TaskID) : Outcome Tasks :=
  match fuel with
  | 0 => UndefinedBehaviour
  | S fuel' =>
      started ← transition w this Started;
      let w := fst started in
      task ← defined (store w !! this);
      DebugAssert HYRISE_DEBUG (is_ready task)
        (let w := record w (on_execute this) in
         finished ← transition w this Done;
         let w := fst finished in
         task ← defined (store w !! this);
         w ← for_each (_on_predecessor_done (execute fuel')) w
               (_successors task);
         let w :=
           if bool_decide (this ∈ callbacks w)
           then record w (done_callback this) else w in
         Returned (mkTasks (store w) (callbacks w) (this :: done w) (events w)))
  end.

End Execution.

End TaskExecution.

(** ** The sort-merge join (operators/join_sort_merge.cpp) *)

Module JoinSortMerge.
Import Storage.

(** The join column has an integer type: [T] is [Z]. *)
Record MaterializedValue : Type :=
  mkMaterializedValue { row_id : RowID; value : Z }.

Abbreviation MaterializedSegment := (list MaterializedValue).
Abbreviation MaterializedSegmentList := (list (list MaterializedValue)).

(** What [RadixClusterSort<T>::execute] hands to the join
    (join_sort_merge/radix_cluster_sort.hpp): the clusters of both sides,
    each sorted by value, and the rows whose join value is NULL, kept
    only for the side an outer mode asks for. *)
Record RadixClusterOutput : Type := mkRadixClusterOutput {
  clusters_left : MaterializedSegmentList;
  clusters_right : MaterializedSegmentList;
  null_rows_left : PosList;
  null_rows_right : PosList
}.

Record TablePosition : Type := mkTablePosition { cluster : nat; index : nat }.

Record TableRange : Type :=
  mkTableRange { range_start : TablePosition; range_end : TablePosition }.

(** [position.to(other)] *)
Definition to (from upto : TablePosition) : TableRange :=
  mkTableRange from upto.

(** [TableRange(cluster, start_index, end_index)] *)
Definition cluster_range (c start_index end_index : nat) : TableRange :=
  mkTableRange (mkTablePosition c start_index) (mkTablePosition c end_index).

(** The row ids [TableRange::for_every_row_id] hands to its action, in
    order.  The ranges the join builds lie inside the table; a cluster or
    an index beyond it would be an unchecked access and contributes no
    row here. *)
Definition for_every_row_id (table : MaterializedSegmentList)
    (range : TableRange) : list RowID :=
  let first := cluster (range_start range) in
  let last := cluster (range_end range) in
  concat
    (map
       (fun c =>
          let segment := default [] (table !! c) in
          let start_index :=
            if Nat.eqb c first then index (range_start range) else 0 in
          let end_index :=
            if Nat.eqb c last then index (range_end range)
            else length segment in
          map row_id (take (end_index - start_index) (drop start_index segment)))
       (seq first (S last - first))).

Inductive CompareResult : Type := Less | Greater | Equal.

(** [_compare] *)
Definition _compare (left right : Z) : CompareResult :=
  if Z.ltb left right then Less
  else if Z.eqb left right then Equal
  else Greater.

(** [std::upper_bound] over [values[first, first + count)] with the
    comparison [a.value < b.value]: the bisection of the standard library
    ([fuel] bounds the iterations; [count] of them are enough). *)
Fixpoint upper_bound (fuel : nat) (values : MaterializedSegment) (v : Z)
    (first count : nat) : nat :=
  match fuel with
  | 0 => first
  | S fuel' =>
      if Nat.eqb count 0 then first
      else
        let step := count / 2 in
        let middle := first + step in
        match values !! middle with
        | None => first
        | Some m =>
            if Z.ltb v (value m)
            then upper_bound fuel' values v first step
            else upper_bound fuel' values v (S middle) (count - step - 1)
        end
  end.

(** [_run_length] *)
Definition _run_length (start_index : nat) (values : MaterializedSegment)
    : nat :=
  match values !! start_index with
  | None => 0      (* start_index >= values->size() *)
  | Some start_position =>
      let count := length values - start_index in
      upper_bound count values (value start_position) start_index count
      - start_index
  end.

(** The operator object: its input tables (the outputs of the input
    operators; [None] for a null pointer) and its parameters. *)
Record Operator : Type := mkOperator {
  input_left : option Table;
  input_right : option Table;
  join_mode : JoinMode;
  _column_ids : ColumnID * ColumnID;
  _predicate_condition : PredicateCondition
}.

Definition supported_condition (op : PredicateCondition) : bool :=
  match op with
  | Equals | LessThan | GreaterThan | LessThanEquals | GreaterThanEquals
  | NotEquals => true
  | _ => false
  end.

(** The read-only part of [JoinSortMergeImpl] during the merge. *)
Record Impl : Type := mkImpl {
  _sorted_left_table : MaterializedSegmentList;
  _sorted_right_table : MaterializedSegmentList;
  _null_rows_left : PosList;
  _null_rows_right : PosList;
  _left_table : Table;            (* _sort_merge_join.input_table_left() *)
  _left_column_id : ColumnID;
  _op : PredicateCondition;
  _mode : JoinMode;
  _cluster_count : nat;
  _end_of_left_table : TablePosition;
  _end_of_right_table : TablePosition
}.

(** The output row ids of each cluster. *)
Record Output : Type := mkOutput {
  _output_pos_lists_left : list PosList;
  _output_pos_lists_right : list PosList
}.

(** The two run windows of [_join_cluster]. *)
Record Runs : Type := mkRuns {
  left_run_start : nat;
  left_run_end : nat;
  right_run_start : nat;
  right_run_end : nat
}.

Section Build.

Variable HYRISE_DEBUG : bool.

(** The constructor [JoinSortMerge::JoinSortMerge]. *)
Definition JoinSortMerge (left right : option Table) (mode : JoinMode)
    (column_ids : ColumnID * ColumnID) (op : PredicateCondition)
    : Outcome Operator :=
  DebugAssert HYRISE_DEBUG (negb (JoinMode_eqb mode Cross))
 (DebugAssert HYRISE_DEBUG
    ((negb (JoinMode_eqb mode Semi) && negb (JoinMode_eqb mode Anti))
     || PredicateCondition_eqb op Equals)
 (DebugAssert HYRISE_DEBUG (bool_decide (left <> None))
 (DebugAssert HYRISE_DEBUG (bool_decide (right <> None))
 (DebugAssert HYRISE_DEBUG (supported_condition op)
 (DebugAssert HYRISE_DEBUG
    (negb (PredicateCondition_eqb op NotEquals) || JoinMode_eqb mode Inner)
    (Returned (mkOperator left right mode column_ids op))))))).

(** [_end_of_table] *)
Definition _end_of_table (table : MaterializedSegmentList)
    : Outcome TablePosition :=
  DebugAssert HYRISE_DEBUG (negb (Nat.eqb (length table) 0))
    (let last_cluster := length table - 1 in
     segment ← defined (table !! last_cluster);
     Returned (mkTablePosition last_cluster (length segment))).

Section Merge.

Variable impl : Impl.

Definition pairs_kept : bool :=
  negb (JoinMode_eqb (_mode impl) Semi) && negb (JoinMode_eqb (_mode impl) Anti).

(** [_emit_combination] *)
Definition _emit_combination (out : Output) (output_cluster : nat)
    (left right : RowID) : Output :=
  mkOutput
    (alter (fun l => l ++ [left]) output_cluster (_output_pos_lists_left out))
    (alter (fun l => l ++ [right]) output_cluster (_output_pos_lists_right out)).

(** [_emit_all_combinations] *)
Definition _emit_all_combinations (out : Output) (output_cluster : nat)
    (left_range right_range : TableRange) : Output :=
  if pairs_kept then
    foldl
      (fun out left_row_id =>
         foldl
           (fun out right_row_id =>
              _emit_combination out output_cluster left_row_id right_row_id)
           out (for_every_row_id (_sorted_right_table impl) right_range))
      out (for_every_row_id (_sorted_left_table impl) left_range)
  else
    foldl
      (fun out left_row_id =>
         mkOutput
           (alter (fun l => l ++ [left_row_id]) output_cluster
              (_output_pos_lists_left out))
           (_output_pos_lists_right out))
      out (for_every_row_id (_sorted_left_table impl) left_range).

(** [_emit_right_null_combinations] *)
Definition _emit_right_null_combinations (out : Output) (output_cluster : nat)
    (left_range : TableRange) : Output :=
  foldl
    (fun out left_row_id =>
       _emit_combination out output_cluster left_row_id NULL_ROW_ID)
    out (for_every_row_id (_sorted_left_table impl) left_range).

(** [_emit_left_null_combinations] *)
Definition _emit_left_null_combinations (out : Output) (output_cluster : nat)
    (right_range : TableRange) : Output :=
  foldl
    (fun out right_row_id =>
       _emit_combination out output_cluster NULL_ROW_ID right_row_id)
    out (for_every_row_id (_sorted_right_table impl) right_range).

(** [_join_runs] *)
Definition _join_runs (out : Output) (left_run right_run : TableRange)
    (compare_result : CompareResult) : Outcome Output :=
  let cluster_number := cluster (range_start left_run) in
  let end_of_left := _end_of_left_table impl in
  let end_of_right := _end_of_right_table impl in
  match _op impl with
  | Equals =>
      match compare_result with
      | Equal =>
          Returned (_emit_all_combinations out cluster_number left_run right_run)
      | Less =>
          if JoinMode_eqb (_mode impl) Left || JoinMode_eqb (_mode impl) Outer
          then Returned (_emit_right_null_combinations out cluster_number left_run)
          else Returned out
      | Greater =>
          if JoinMode_eqb (_mode impl) Right || JoinMode_eqb (_mode impl) Outer
          then Returned (_emit_left_null_combinations out cluster_number right_run)
          else Returned out
      end
  | NotEquals =>
      match compare_result with
      | Greater =>
          Returned (_emit_all_combinations out cluster_number
                      (to (range_start left_run) end_of_left) right_run)
      | Equal =>
          let out1 :=
            _emit_all_combinations out cluster_number
              (to (range_end left_run) end_of_left) right_run in
          Returned (_emit_all_combinations out1 cluster_number left_run
                      (to (range_end right_run) end_of_right))
      | Less =>
          Returned (_emit_all_combinations out cluster_number left_run
                      (to (range_start right_run) end_of_right))
      end
  | GreaterThan =>
      match compare_result with
      | Greater =>
          Returned (_emit_all_combinations out cluster_number
                      (to (range_start left_run) end_of_left) right_run)
      | Equal =>
          Returned (_emit_all_combinations out cluster_number
                      (to (range_end left_run) end_of_left) right_run)
      | Less => Returned out
      end
  | GreaterThanEquals =>
      match compare_result with
      | Greater | Equal =>
          Returned (_emit_all_combinations out cluster_number
                      (to (range_start left_run) end_of_left) right_run)
      | Less => Returned out
      end
  | LessThan =>
      match compare_result with
      | Less =>
          Returned (_emit_all_combinations out cluster_number left_run
                      (to (range_start right_run) end_of_right))
      | Equal =>
          Returned (_emit_all_combinations out cluster_number left_run
                      (to (range_end right_run) end_of_right))
      | Greater => Returned out
      end
  | LessThanEquals =>
      match compare_result with
      | Less | Equal =>
          Returned (_emit_all_combinations out cluster_number left_run
                      (to (range_start right_run) end_of_right))
      | Greater => Returned out
      end
  | _ => Thrown logic_error   (* default: "Unknown PredicateCondition" *)
  end.

(** The runs after the left, or the right, window has moved on. *)
Definition advance_left (left_cluster : MaterializedSegment) (runs : Runs)
    : Runs :=
  mkRuns (left_run_end runs)
         (left_run_end runs + _run_length (left_run_end runs) left_cluster)
         (right_run_start runs) (right_run_end runs).

Definition advance_right (right_cluster : MaterializedSegment) (runs : Runs)
    : Runs :=
  mkRuns (left_run_start runs) (left_run_end runs)
         (right_run_end runs)
         (right_run_end runs + _run_length (right_run_end runs) right_cluster).

(** The condition of the merge loop of [_join_cluster]. *)
Definition runs_left (left_cluster right_cluster : MaterializedSegment)
    (runs : Runs) : bool :=
  Nat.ltb (left_run_start runs) (length left_cluster)
  && Nat.ltb (right_run_start runs) (length right_cluster).

(** The body of the merge loop of [_join_cluster]. *)
Definition join_cluster_iteration (cluster_number : nat)
    (left_cluster right_cluster : MaterializedSegment)
    (runs : Runs) (out : Output) : Outcome (Runs * Output) :=
  l ← defined (left_cluster !! left_run_start runs);
  r ← defined (right_cluster !! right_run_start runs);
  let compare_result := _compare (value l) (value r) in
  let left_run :=
    cluster_range cluster_number (left_run_start runs) (left_run_end runs) in
  let right_run :=
    cluster_range cluster_number (right_run_start runs) (right_run_end runs) in
  out' ← _join_runs out left_run right_run compare_result;
  Returned
    (match compare_result with
     | Equal => advance_right right_cluster (advance_left left_cluster runs)
     | Less => advance_left left_cluster runs
     | Greater => advance_right right_cluster runs
     end, out').

(** The merge loop; every iteration moves a window, so that
    [length left_cluster + length right_cluster] iterations are enough. *)
Fixpoint join_cluster_loop (fuel : nat) (cluster_number : nat)
    (left_cluster right_cluster : MaterializedSegment)
    (runs : Runs) (out : Output) : Outcome (Runs * Output) :=
  if runs_left left_cluster right_cluster runs then
    match fuel with
    | 0 => UndefinedBehaviour
    | S fuel' =>
        st ← join_cluster_iteration cluster_number left_cluster right_cluster
               runs out;
        join_cluster_loop fuel' cluster_number left_cluster right_cluster
          (fst st) (snd st)
    end
  else Returned (runs, out).

(** The typed segment accessor on the left input's join column, read with
    [.value()]. *)
Definition access_value (row : RowID) : Outcome Z :=
  chunk ← defined (get_chunk (_left_table impl) (chunk_id row));
  segment ← defined (get_segment chunk (_left_column_id impl));
  v ← defined (segment_at segment (chunk_offset row));
  match v with
  | IntValue z => Returned z
  | NullValue => Thrown bad_optional_access
  | _ => UndefinedBehaviour
  end.

(** The loop of [_remove_row_ids_from_materialized_segment]: [input] is
    what [input_segment_iter] has ahead, [m] the element under
    [matches_iter] and [matches_rest] what follows it. *)
Fixpoint anti_merge (input : MaterializedSegment) (m : RowID)
    (matches_rest : PosList) : Outcome PosList :=
  match input with
  | [] => Returned []
  | x :: input' =>
      semi_join_value ← access_value m;
      if Z.eqb (value x) semi_join_value then
        match matches_rest with
        | [] => Returned (map row_id input')
        | m' :: rest => anti_merge input' m' rest
        end
      else if Z.ltb (value x) semi_join_value then
        pos_list ← anti_merge input' m matches_rest;
        Returned (row_id x :: pos_list)
      else Returned (map row_id input)
  end.

(** [_remove_row_ids_from_materialized_segment] *)
Definition _remove_row_ids_from_materialized_segment (matches : PosList)
    (input_segment : MaterializedSegment) : Outcome PosList :=
  if Nat.ltb (length input_segment) (length matches)
  then Thrown length_error    (* reserve() of a wrapped-around size *)
  else
    match matches with
    | [] => Returned (map row_id input_segment)
    | m :: rest => anti_merge input_segment m rest
    end.

(** [_join_cluster] *)
Definition _join_cluster (out : Output) (cluster_number : nat)
    : Outcome Output :=
  left_cluster ← defined (_sorted_left_table impl !! cluster_number);
  right_cluster ← defined (_sorted_right_table impl !! cluster_number);
  let left_size := length left_cluster in
  let right_size := length right_cluster in
  let runs0 :=
    mkRuns 0 (0 + _run_length 0 left_cluster)
           0 (0 + _run_length 0 right_cluster) in
  st ← join_cluster_loop (left_size + right_size) cluster_number
         left_cluster right_cluster runs0 out;
  let runs := fst st in
  let right_rest :=
    cluster_range cluster_number (right_run_start runs) right_size in
  let left_rest :=
    cluster_range cluster_number (left_run_start runs) left_size in
  out2 ←
    (if Nat.ltb (left_run_start runs) left_size
     then _join_runs (snd st) left_rest right_rest Less
     else if Nat.ltb (right_run_start runs) right_size
     then _join_runs (snd st) left_rest right_rest Greater
     else Returned (snd st));
  if JoinMode_eqb (_mode impl) Anti then
    matches ← defined (_output_pos_lists_left out2 !! cluster_number);
    pos_list ← _remove_row_ids_from_materialized_segment matches left_cluster;
    Returned (mkOutput (<[cluster_number := pos_list]> (_output_pos_lists_left out2))
                       (_output_pos_lists_right out2))
  else Returned out2.

(** [_table_min_value] *)
Fixpoint first_value (table : MaterializedSegmentList) : Outcome Z :=
  match table with
  | [] => Thrown logic_error          (* "Every partition is empty" *)
  | [] :: rest => first_value rest
  | (x :: _) :: _ => Returned (value x)
  end.

Definition _table_min_value (sorted_table : MaterializedSegmentList)
    : Outcome Z :=
  DebugAssert HYRISE_DEBUG (negb (PredicateCondition_eqb (_op impl) Equals))
 (DebugAssert HYRISE_DEBUG (negb (Nat.eqb (length sorted_table) 0))
    (first_value sorted_table)).

(** [_table_max_value]: the partitions [partition_id - 1, ..., 0]. *)
Fixpoint last_value (sorted_table : MaterializedSegmentList)
    (partition_id : nat) : Outcome Z :=
  match partition_id with
  | 0 => Thrown logic_error           (* "Every partition is empty" *)
  | S p =>
      partition ← defined (sorted_table !! p);
      match last partition with
      | Some x => Returned (value x)
      | None => last_value sorted_table p
      end
  end.

Definition _table_max_value (sorted_table : MaterializedSegmentList)
    : Outcome Z :=
  DebugAssert HYRISE_DEBUG (negb (PredicateCondition_eqb (_op impl) Equals))
 (DebugAssert HYRISE_DEBUG (negb (Nat.eqb (length sorted_table) 0))
    (last_value sorted_table (length sorted_table))).

(** The first index of [partition] whose value satisfies [condition]. *)
Fixpoint first_index (condition : Z -> bool) (partition : MaterializedSegment)
    (index : nat) : option nat :=
  match partition with
  | [] => None
  | x :: rest =>
      if condition (value x) then Some index
      else first_index condition rest (S index)
  end.

(** [_first_value_that_satisfies], from partition [partition_id] on. *)
Fixpoint first_value_from (condition : Z -> bool)
    (partitions : MaterializedSegmentList) (partition_id : nat)
    : option TablePosition :=
  match partitions with
  | [] => None
  | partition :: rest =>
      match last partition with
      | Some back =>
          if condition (value back) then
            match first_index condition partition 0 with
            | Some index => Some (mkTablePosition partition_id index)
            | None => first_value_from condition rest (S partition_id)
            end
          else first_value_from condition rest (S partition_id)
      | None => first_value_from condition rest (S partition_id)
      end
  end.

Definition _first_value_that_satisfies (sorted_table : MaterializedSegmentList)
    (condition : Z -> bool) : option TablePosition :=
  first_value_from condition sorted_table 0.

(** The last index below [index] whose value satisfies [condition]. *)
Fixpoint last_index (condition : Z -> bool) (partition : MaterializedSegment)
    (index : nat) : option nat :=
  match index with
  | 0 => None
  | S i =>
      match partition !! i with
      | Some x => if condition (value x) then Some i
                  else last_index condition partition i
      | None => last_index condition partition i
      end
  end.

(** [_first_value_that_satisfies_reverse], over the partitions
    [partition_id - 1, ..., 0]. *)
Fixpoint first_value_reverse_from (condition : Z -> bool)
    (sorted_table : MaterializedSegmentList) (partition_id : nat)
    : option TablePosition :=
  match partition_id with
  | 0 => None
  | S p =>
      let partition := default [] (sorted_table !! p) in
      match partition with
      | front :: _ =>
          if condition (value front) then
            match last_index condition partition (length partition) with
            | Some index => Some (mkTablePosition p (index + 1))
            | None => first_value_reverse_from condition sorted_table p
            end
          else first_value_reverse_from condition sorted_table p
      | [] => first_value_reverse_from condition sorted_table p
      end
  end.

Definition _first_value_that_satisfies_reverse
    (sorted_table : MaterializedSegmentList) (condition : Z -> bool)
    : option TablePosition :=
  first_value_reverse_from condition sorted_table (length sorted_table).

(** [_left_outer_non_equi_join] *)
Definition _left_outer_non_equi_join (out : Output) : Outcome Output :=
  left_min_value ← _table_min_value (_sorted_left_table impl);
  left_max_value ← _table_max_value (_sorted_left_table impl);
  end_of_right_table ← _end_of_table (_sorted_right_table impl);
  let table := _sorted_right_table impl in
  let from_start result :=
    match result with
    | Some position =>
        _emit_left_null_combinations out 0 (to (mkTablePosition 0 0) position)
    | None => out
    end in
  let to_end result :=
    match result with
    | Some position =>
        _emit_left_null_combinations out 0 (to position end_of_right_table)
    | None => out
    end in
  Returned
    match _op impl with
    | LessThan =>
        from_start (_first_value_that_satisfies table
                      (fun v => Z.gtb v left_min_value))
    | LessThanEquals =>
        from_start (_first_value_that_satisfies table
                      (fun v => Z.geb v left_min_value))
    | GreaterThan =>
        to_end (_first_value_that_satisfies_reverse table
                  (fun v => Z.ltb v left_max_value))
    | GreaterThanEquals =>
        to_end (_first_value_that_satisfies_reverse table
                  (fun v => Z.leb v left_max_value))
    | _ => out
    end.

(** [_right_outer_non_equi_join] *)
Definition _right_outer_non_equi_join (out : Output) : Outcome Output :=
  right_min_value ← _table_min_value (_sorted_right_table impl);
  right_max_value ← _table_max_value (_sorted_right_table impl);
  end_of_left_table ← _end_of_table (_sorted_left_table impl);
  let table := _sorted_left_table impl in
  let from_start result :=
    match result with
    | Some position =>
        _emit_right_null_combinations out 0 (to (mkTablePosition 0 0) position)
    | None => out
    end in
  let to_end result :=
    match result with
    | Some position =>
        _emit_right_null_combinations out 0 (to position end_of_left_table)
    | None => out
    end in
  Returned
    match _op impl with
    | LessThan =>
        to_end (_first_value_that_satisfies_reverse table
                  (fun v => Z.ltb v right_max_value))
    | LessThanEquals =>
        to_end (_first_value_that_satisfies_reverse table
                  (fun v => Z.leb v right_max_value))
    | GreaterThan =>
        from_start (_first_value_that_satisfies table
                      (fun v => Z.gtb v right_min_value))
    | GreaterThanEquals =>
        from_start (_first_value_that_satisfies table
                      (fun v => Z.geb v right_min_value))
    | _ => out
    end.

(** The body of the cluster loop of [_perform_join].  The jobs of the
    clusters write to their own output lists only; they are run here one
    after the other, in cluster order. *)
Definition perform_join_cluster (out : Output) (cluster_number : nat)
    : Outcome Output :=
  let out :=
    mkOutput (<[cluster_number := []]> (_output_pos_lists_left out))
             (<[cluster_number := []]> (_output_pos_lists_right out)) in
  if (JoinMode_eqb (_mode impl) Inner || JoinMode_eqb (_mode impl) Semi)
     && PredicateCondition_eqb (_op impl) Equals
  then
    left_cluster ← defined (_sorted_left_table impl !! cluster_number);
    right_cluster ← defined (_sorted_right_table impl !! cluster_number);
    if Nat.eqb (length left_cluster) 0 || Nat.eqb (length right_cluster) 0
    then Returned out
    else _join_cluster out cluster_number
  else _join_cluster out cluster_number.

(** [_perform_join] *)
Definition _perform_join (out : Output) : Outcome Output :=
  out ← for_each perform_join_cluster out (seq 0 (_cluster_count impl));
  out ←
    (if (JoinMode_eqb (_mode impl) Left || JoinMode_eqb (_mode impl) Outer)
        && negb (PredicateCondition_eqb (_op impl) Equals)
     then _left_outer_non_equi_join out else Returned out);
  if (JoinMode_eqb (_mode impl) Right || JoinMode_eqb (_mode impl) Outer)
     && negb (PredicateCondition_eqb (_op impl) Equals)
  then _right_outer_non_equi_join out else Returned out.

End Merge.

(** [_dereference_pos_list] *)
Definition _dereference_pos_list (input_table : Table) (column_id : ColumnID)
    (pos_list : PosList) : Outcome PosList :=
  input_pos_lists ←
    for_each
      (fun lists chunk =>
         base_segment ← defined (get_segment chunk column_id);
         reference_segment ← defined (as_reference_segment base_segment);
         Returned (lists ++ [snd reference_segment]))
      [] (chunks input_table);
  for_each
    (fun new_pos_list row =>
       if is_null row then Returned (new_pos_list ++ [NULL_ROW_ID])
       else
         input_pos_list ← defined (input_pos_lists !! N.to_nat (chunk_id row));
         referenced ← defined (input_pos_list !! N.to_nat (chunk_offset row));
         Returned (new_pos_list ++ [referenced]))
    [] pos_list.

(** [_add_output_segments] *)
Definition _add_output_segments (output_segments : Segments)
    (input_table : Table) (pos_list : PosList) : Outcome Segments :=
  for_each
    (fun output_segments column_id =>
       if bool_decide (type input_table = References) then
         new_pos_list ← _dereference_pos_list input_table column_id pos_list;
         if Nat.ltb 0 (chunk_count input_table) then
           chunk ← defined (get_chunk input_table 0);
           base_segment ← defined (get_segment chunk column_id);
           ref_segment ← defined (as_reference_segment base_segment);
           Returned
             (output_segments
              ++ [ReferenceSegment (fst (fst ref_segment))
                    (snd (fst ref_segment)) new_pos_list])
         else
           let dummy_table := create_dummy_table (column_count input_table) in
           Returned
             (output_segments ++ [ReferenceSegment dummy_table column_id pos_list])
       else
         Returned
           (output_segments ++ [ReferenceSegment input_table column_id pos_list]))
    output_segments (seq 0 (column_count input_table)).

(** The merge of [JoinSortMergeImpl::_on_execute]: the clusters that the
    radix cluster sort delivered are joined, and the rows with a NULL join
    value are appended as one more pair of position lists. *)
Definition merge_phase (left_table : Table) (column_ids : ColumnID * ColumnID)
    (op : PredicateCondition) (mode : JoinMode) (cluster_count : nat)
    (sort_output : RadixClusterOutput) : Outcome Output :=
  let include_null_left := JoinMode_eqb mode Left || JoinMode_eqb mode Outer in
  let include_null_right := JoinMode_eqb mode Right || JoinMode_eqb mode Outer in
  end_of_left_table ← _end_of_table (clusters_left sort_output);
  end_of_right_table ← _end_of_table (clusters_right sort_output);
  let impl :=
    mkImpl (clusters_left sort_output) (clusters_right sort_output)
           (null_rows_left sort_output) (null_rows_right sort_output)
           left_table (fst column_ids) op mode cluster_count
           end_of_left_table end_of_right_table in
  out ← _perform_join impl
          (mkOutput (replicate cluster_count []) (replicate cluster_count []));
  if include_null_left || include_null_right then
    let from_left := if include_null_left then null_rows_left sort_output else [] in
    let from_right := if include_null_right then null_rows_right sort_output else [] in
    let null_output_left := from_left ++ map (fun _ => NULL_ROW_ID) from_right in
    let null_output_right := map (fun _ => NULL_ROW_ID) from_left ++ from_right in
    Returned (mkOutput (_output_pos_lists_left out ++ [null_output_left])
                       (_output_pos_lists_right out ++ [null_output_right]))
  else Returned out.

(** [JoinSortMergeImpl::_on_execute], from the output of the radix cluster
    sort on: one chunk of reference segments per pair of position lists,
    appended to an output table of type [References]
    ([_initialize_output_table]). *)
Definition _on_execute (left_table right_table : Table)
    (column_ids : ColumnID * ColumnID) (op : PredicateCondition)
    (mode : JoinMode) (cluster_count : nat) (sort_output : RadixClusterOutput)
    : Outcome Table :=
  out ← merge_phase left_table column_ids op mode cluster_count sort_output;
  let right_kept := negb (JoinMode_eqb mode Semi) && negb (JoinMode_eqb mode Anti) in
  result_chunks ←
    for_each
      (fun result_chunks pos_list_id =>
         left_pos_list ← defined (_output_pos_lists_left out !! pos_list_id);
         output_segments ← _add_output_segments [] left_table left_pos_list;
         output_segments ←
           (if right_kept then
              right_pos_list ← defined (_output_pos_lists_right out !! pos_list_id);
              _add_output_segments output_segments right_table right_pos_list
            else Returned output_segments);
         Returned (result_chunks ++ [output_segments]))
      [] (seq 0 (length (_output_pos_lists_left out)));
  Returned
    (mkTable References
       (column_count left_table
        + (if right_kept then column_count right_table else 0))
       result_chunks).

End Build.

End JoinSortMerge.

(** ** The hash join (operators/join_hash.cpp) *)

Module JoinHash.
Import Storage.

Record JoinPredicate : Type := mkJoinPredicate {
  column_id_pair : ColumnID * ColumnID;
  predicate_condition : PredicateCondition
}.

(** The operator object; the inputs are the output tables of the input
    operators. *)
Record Operator : Type := mkOperator {
  _input_left : Table;
  _input_right : Table;
  _mode : JoinMode;
  _column_ids : ColumnID * ColumnID;
  _predicate_condition : PredicateCondition;
  _radix_bits : option nat;
  _additional_join_predicates : list JoinPredicate
}.

(** The arguments [JoinHash::_on_execute] constructs [JoinHashImpl] from:
    [_left] is the build side, [_right] the probe side.
    ([_calculate_radix_bits] is floating-point arithmetic and stays
    outside of the embedding; [radix_bits] is the optional argument.) *)
Record Impl : Type := mkImpl {
  _left : Table;
  _right : Table;
  impl_mode : JoinMode;
  impl_column_ids : ColumnID * ColumnID;
  impl_predicate_condition : PredicateCondition;
  _inputs_swapped : bool;
  radix_bits : option nat;
  impl_additional_join_predicates : list JoinPredicate
}.

(** The outcome of the hash-table lookups of one radix partition: every
    probe row of the partition, in order, with the build rows whose
    primary join key is equal to its own (none for a NULL key). *)
Abbreviation PrimaryMatches := (list (RowID * list RowID)).

Section Build.

Variable HYRISE_DEBUG : bool.

(** [flip_predicate_condition] (types.cpp) is not part of the sources; it
    returns the flipped condition or fails. *)
Variable flip_predicate_condition : PredicateCondition -> Outcome PredicateCondition.

(** The constructor [JoinHash::JoinHash]. *)
Definition JoinHash (left right : Table) (mode : JoinMode)
    (column_ids : ColumnID * ColumnID) (predicate_condition : PredicateCondition)
    (radix_bits : option nat) (additional_join_predicates : list JoinPredicate)
    : Outcome Operator :=
  DebugAssert HYRISE_DEBUG (PredicateCondition_eqb predicate_condition Equals)
    (Returned (mkOperator left right mode column_ids predicate_condition
                 radix_bits additional_join_predicates)).

(** [JoinHash::_on_execute] up to the construction of [_impl]. *)
Definition make_impl (join : Operator) : Outcome Impl :=
  let inputs_swapped :=
    JoinMode_eqb (_mode join) Left || JoinMode_eqb (_mode join) Anti
    || JoinMode_eqb (_mode join) Semi in
  let inputs_swapped :=
    if negb inputs_swapped
       && Nat.ltb (row_count (_input_right join)) (row_count (_input_left join))
    then true else inputs_swapped in
  let build_operator := if inputs_swapped then _input_right join else _input_left join in
  let probe_operator := if inputs_swapped then _input_left join else _input_right join in
  let build_column_id :=
    if inputs_swapped then snd (_column_ids join) else fst (_column_ids join) in
  let probe_column_id :=
    if inputs_swapped then fst (_column_ids join) else snd (_column_ids join) in
  additional_join_predicates ←
    (if inputs_swapped then
       for_each
         (fun predicates pred =>
            flipped ← flip_predicate_condition (predicate_condition pred);
            Returned
              (predicates
               ++ [mkJoinPredicate
                     (snd (column_id_pair pred), fst (column_id_pair pred))
                     flipped]))
         [] (_additional_join_predicates join)
     else Returned (_additional_join_predicates join));
  Returned
    (mkImpl build_operator probe_operator (_mode join)
       (build_column_id, probe_column_id) (_predicate_condition join)
       inputs_swapped (_radix_bits join) additional_join_predicates).

(** [segment[offset]] of the segment of [column_id] in the row's chunk. *)
Definition cell (table : Table) (row : RowID) (column_id : ColumnID)
    : Outcome AllTypeVariant :=
  chunk ← defined (get_chunk table (chunk_id row));
  segment ← defined (get_segment chunk column_id);
  defined (segment_at segment (chunk_offset row)).

(** The inner loop of [_apply_additional_join_predicates]: the value of
    [row_pair_satisfies_predicates] for one pair of rows. *)
Fixpoint row_pair_satisfies_predicates (left right : Table)
    (left_row_id right_row_id : RowID) (join_predicates : list JoinPredicate)
    : Outcome bool :=
  match join_predicates with
  | [] => Returned true
  | pred :: rest =>
      DebugAssert HYRISE_DEBUG
        (PredicateCondition_eqb (predicate_condition pred) Equals)
        (left_value ← cell left left_row_id (fst (column_id_pair pred));
         right_value ← cell right right_row_id (snd (column_id_pair pred));
         if negb (variant_eqb left_value right_value) then Returned false
         else row_pair_satisfies_predicates left right left_row_id
                right_row_id rest)
  end.

(** The outer loop of [_apply_additional_join_predicates]. *)
Fixpoint select_rows (left right : Table)
    (join_predicates : list JoinPredicate)
    (left_rows_to_verify right_rows_to_verify : PosList)
    : Outcome (PosList * PosList) :=
  match left_rows_to_verify with
  | [] => Returned ([], [])
  | left_row_id :: left_rest =>
      match right_rows_to_verify with
      | [] => UndefinedBehaviour
      | right_row_id :: right_rest =>
          keep ← row_pair_satisfies_predicates left right left_row_id
                   right_row_id join_predicates;
          selection ← select_rows left right join_predicates left_rest right_rest;
          Returned
            (if keep : bool
             then (left_row_id :: fst selection, right_row_id :: snd selection)
             else selection)
      end
  end.

(** [_apply_additional_join_predicates]: the pair of position lists its
    two in-out arguments hold afterwards. *)
Definition _apply_additional_join_predicates (left : Table)
    (left_rows_to_verify : PosList) (right : Table)
    (right_rows_to_verify : PosList) (join_predicates : list JoinPredicate)
    : Outcome (PosList * PosList) :=
  DebugAssert HYRISE_DEBUG
    (Nat.eqb (length left_rows_to_verify) (length right_rows_to_verify))
    (match join_predicates with
     | [] => Returned (left_rows_to_verify, right_rows_to_verify)
     | _ :: _ =>
         select_rows left right join_predicates left_rows_to_verify
           right_rows_to_verify
     end).

(** Modelled from the spec: [probe] (join_hash/join_hash_steps.hpp) is
    absent from the sources; [JoinHashImpl::_on_execute] hands it the two
    tables and the additional predicates.  For every probe row it emits
    [(build_row, probe_row)] for every match; the additional predicates
    are applied to these candidate pairs after the primary hash match, and
    a pair survives iff all predicates pass; in the modes that keep the
    probe side ([Left], [Right]) a probe row without a match is emitted as
    [(NULL_ROW_ID, probe_row)]. *)
Definition probe_row (keep_nulls : bool) (left right : Table)
    (additional_join_predicates : list JoinPredicate)
    (lists : PosList * PosList) (candidate : RowID * list RowID)
    : Outcome (PosList * PosList) :=
  let probe_row_id := fst candidate in
  let matches := snd candidate in
  kept ← _apply_additional_join_predicates left matches right
           (replicate (length matches) probe_row_id)
           additional_join_predicates;
  match fst kept with
  | [] =>
      if keep_nulls
      then Returned (fst lists ++ [NULL_ROW_ID], snd lists ++ [probe_row_id])
      else Returned lists
  | _ :: _ => Returned (fst lists ++ fst kept, snd lists ++ snd kept)
  end.

Definition probe (keep_nulls : bool) (left right : Table)
    (additional_join_predicates : list JoinPredicate)
    (partition : PrimaryMatches) : Outcome (PosList * PosList) :=
  for_each (probe_row keep_nulls left right additional_join_predicates)
    ([], []) partition.

(** Modelled from the spec: [probe_semi_anti]
    (join_hash/join_hash_steps.hpp) is absent from the sources.  Semi
    emits a probe row once if any match exists, Anti emits it iff no match
    exists; a match is a candidate pair that passes all additional
    predicates. *)
Definition probe_semi_anti_row (mode : JoinMode) (left right : Table)
    (additional_join_predicates : list JoinPredicate)
    (pos_list : PosList) (candidate : RowID * list RowID) : Outcome PosList :=
  let probe_row_id := fst candidate in
  let matches := snd candidate in
  kept ← _apply_additional_join_predicates left matches right
           (replicate (length matches) probe_row_id)
           additional_join_predicates;
  let matched := negb (Nat.eqb (length (fst kept)) 0) in
  Returned
    (if bool_decide (mode = Semi) then
       if matched then pos_list ++ [probe_row_id] else pos_list
     else
       if matched then pos_list else pos_list ++ [probe_row_id]).

Definition probe_semi_anti (mode : JoinMode) (left right : Table)
    (additional_join_predicates : list JoinPredicate)
    (partition : PrimaryMatches) : Outcome PosList :=
  for_each (probe_semi_anti_row mode left right additional_join_predicates)
    [] partition.

(** The probe phase of [JoinHashImpl::_on_execute]: the left and right
    position lists of every partition. *)
Definition probe_phase (impl : Impl) (partitions : list PrimaryMatches)
    : Outcome (list PosList * list PosList) :=
  let mode := impl_mode impl in
  let predicates := impl_additional_join_predicates impl in
  if JoinMode_eqb mode Semi || JoinMode_eqb mode Anti then
    right_pos_lists ←
      for_each
        (fun lists partition =>
           pos_list ← probe_semi_anti mode (_left impl) (_right impl)
                        predicates partition;
           Returned (lists ++ [pos_list]))
        [] partitions;
    Returned (replicate (length partitions) [], right_pos_lists)
  else
    let keep_nulls := JoinMode_eqb mode Left || JoinMode_eqb mode Right in
    lists ←
      for_each
        (fun lists partition =>
           pair ← probe keep_nulls (_left impl) (_right impl) predicates
                    partition;
           Returned (fst lists ++ [fst pair], snd lists ++ [snd pair]))
        ([], []) partitions;
    Returned lists.

(** Modelled from the spec: [write_output_segments]
    (join_hash/join_hash_steps.hpp) is absent from the sources.  It
    converts a position list into one reference segment per column of the
    input table; if the input is already a reference table, the position
    list is dereferenced against the underlying data table, so that the
    output never stacks a reference on a reference. *)
Definition write_output_segments (output_segments : Segments)
    (input_table : Table) (pos_list : PosList) : Outcome Segments :=
  JoinSortMerge._add_output_segments output_segments input_table pos_list.

(** The loop of [JoinHashImpl::_on_execute] that turns the position lists
    of the partitions into the chunks of the output table.  The call of
    [_apply_additional_join_predicates] at this place is commented out in
    the source: the lists are written as the probe phase left them. *)
Definition write_partition (impl : Impl) (chunks : list Segments)
    (lists : PosList * PosList) : Outcome (list Segments) :=
  let left := fst lists in
  let right := snd lists in
  let only_output_right_input :=
    _inputs_swapped impl
    && (JoinMode_eqb (impl_mode impl) Semi || JoinMode_eqb (impl_mode impl) Anti) in
  match left, right with
  | [], [] => Returned chunks
  | _, _ =>
      output_segments ←
        (if _inputs_swapped impl then
           segments ← write_output_segments [] (_right impl) right;
           if negb only_output_right_input
           then write_output_segments segments (_left impl) left
           else Returned segments
         else
           segments ← write_output_segments [] (_left impl) left;
           write_output_segments segments (_right impl) right);
      Returned (chunks ++ [output_segments])
  end.

(** [JoinHashImpl::_on_execute], from the hash lookups on. *)
Definition _on_execute (impl : Impl) (partitions : list PrimaryMatches)
    : Outcome Table :=
  lists ← probe_phase impl partitions;
  chunks ←
    for_each
      (fun chunks partition_id =>
         left ← defined (fst lists !! partition_id);
         right ← defined (snd lists !! partition_id);
         write_partition impl chunks (left, right))
      [] (seq 0 (length (fst lists)));
  let only_output_right_input :=
    _inputs_swapped impl
    && (JoinMode_eqb (impl_mode impl) Semi || JoinMode_eqb (impl_mode impl) Anti) in
  Returned
    (mkTable References
       (column_count (_right impl)
        + (if only_output_right_input then 0 else column_count (_left impl)))
       chunks).

End Build.

End JoinHash.

(** * Properties *)

(** ** The task state machine *)

Section TaskProperties.
Import Task.

(** What is left of a lifecycle once a task is in state [st]. *)
Definition lifecycle_rest (st : TaskState) : list (list TaskState) :=
  match st with
  | Created => [[Scheduled; Started; Done];
                [Scheduled; Enqueued; AssignedToWorker; Started; Done]]
  | Scheduled => [[Started; Done]; [Enqueued; AssignedToWorker; Started; Done]]
  | Enqueued => [[AssignedToWorker; Started; Done]]
  | AssignedToWorker => [[Started; Done]]
  | Started => [[Done]]
  | Done => [[]]
  end.

Lemma prefix_nil_any {A : Type} (l : list A) : [] `prefix_of` l.
Proof. exists l. reflexivity. Qed.

Lemma states_entered_rest (requests : list TaskState) :
  forall st, exists rest,
    In rest (lifecycle_rest st) /\ states_entered st requests `prefix_of` rest.
Proof.
  induction requests as [|new_state requests IH]; intros st.
  - destruct st; simpl; eexists; (split; [left; reflexivity | apply prefix_nil_any]).
  - destruct st, new_state; simpl;
      try (eexists; split; [left; reflexivity | apply prefix_nil_any]);
      match goal with
      | |- context [?s :: states_entered ?s requests] =>
          destruct (IH s) as [rest [Hin Hpre]]; simpl in Hin;
          exists (s :: rest); split; [| apply prefix_cons, Hpre];
          intuition (subst; auto)
      | |- context [states_entered ?s requests] =>
          destruct (IH s) as [rest [Hin Hpre]]; simpl in Hin;
          exists rest; split; [| exact Hpre]; intuition auto
      end.
Qed.

(** The result of every transition request, by the kind of the request. *)
Lemma try_transition_to_outcome (previous_state new_state : TaskState) :
  _try_transition_to previous_state new_state =
  (new_state,
   if legal_transition previous_state new_state then Returned true
   else if idempotent_reentry previous_state new_state then Returned false
   else AssertionFailed).
Proof. destruct previous_state, new_state; reflexivity. Qed.

(** C6.  From [Created] on, the states a task passes through form a prefix
    of [Created, Scheduled, Started, Done] or of [Created, Scheduled,
    Enqueued, AssignedToWorker, Started, Done], whatever transitions are
    requested.  A request for [Enqueued] in state [Enqueued], or for
    [AssignedToWorker] in state [AssignedToWorker], returns [false] and
    leaves the state as it is; a request along an edge of the lifecycle
    returns [true]; every other request fails a fatal assertion. *)
Theorem task_state_lifecycle :
  (forall requests,
     observed_states requests `prefix_of` lifecycle_direct
     \/ observed_states requests `prefix_of` lifecycle_queued)
  /\ _try_transition_to Enqueued Enqueued = (Enqueued, Returned false)
  /\ _try_transition_to AssignedToWorker AssignedToWorker
     = (AssignedToWorker, Returned false)
  /\ (forall previous_state new_state,
        snd (_try_transition_to previous_state new_state) =
        if legal_transition previous_state new_state then Returned true
        else if idempotent_reentry previous_state new_state then Returned false
        else AssertionFailed).
Proof.
  split; [| split; [reflexivity | split; [reflexivity |]]].
  - intros requests. unfold observed_states.
    destruct (states_entered_rest requests Created) as [rest [Hin Hpre]].
    simpl in Hin. destruct Hin as [<- | [<- | []]].
    + left. apply prefix_cons, Hpre.
    + right. apply prefix_cons, Hpre.
  - intros p n. rewrite try_transition_to_outcome. reflexivity.
Qed.

(** A task that was scheduled and then pushed to a queue, and a fresh
    one. *)
Definition enqueued_task : AbstractTask :=
  mkTask (state_after [Scheduled; Enqueued]) 0 [] [].
Definition finished_task : AbstractTask :=
  mkTask (state_after [Scheduled; Started; Done]) 0 [] [].
Definition fresh_task : AbstractTask := mkTask Created 0 [] [].

(** [set_as_predecessor_of] fails its assertion exactly for a task that is
    [Scheduled], [AssignedToWorker] or [Started]. *)
Lemma set_as_predecessor_of_asserts (store : TaskStore) (this successor : TaskID)
    (t s : AbstractTask) :
  store !! this = Some t -> store !! successor = Some s ->
  set_as_predecessor_of store this successor = AssertionFailed
  <-> In (_state t) [Scheduled; AssignedToWorker; Started].
Proof.
  intros Ht Hs. unfold set_as_predecessor_of. rewrite Ht, Hs.
  destruct t as [st pending preds succs]. unfold is_scheduled.
  destruct st; cbn; split; intros H;
    try discriminate; try reflexivity; intuition discriminate.
Qed.

(** C7, on the code: a task in state [Enqueued], and a task in state
    [Done], are past [Created], and [set_as_predecessor_of] accepts both
    as the predecessor of a fresh task: the successor's counter of pending
    predecessors goes up and no assertion fails. *)
Theorem set_as_predecessor_of_after_enqueue :
  _state enqueued_task = Enqueued
  /\ set_as_predecessor_of [enqueued_task; fresh_task] 0 1
     = Returned [mkTask Enqueued 0 [] [1]; mkTask Created 1 [0] []]
  /\ _state finished_task = Done
  /\ set_as_predecessor_of [finished_task; fresh_task] 0 1
     = Returned [mkTask Done 0 [] [1]; mkTask Created 1 [0] []].
Proof. repeat split. Qed.

End TaskProperties.

(** ** Hash join: input swapping *)

Section HashJoinSwapping.
Import Storage JoinHash.

Variable flip_predicate_condition : PredicateCondition -> Outcome PredicateCondition.

(** [q] is [p] with its column pair swapped and its condition flipped. *)
Definition swapped_predicate (p q : JoinPredicate) : Prop :=
  column_id_pair q = (snd (column_id_pair p), fst (column_id_pair p))
  /\ flip_predicate_condition (predicate_condition p)
     = Returned (predicate_condition q).

Definition flips (p : JoinPredicate) : Prop :=
  exists c, flip_predicate_condition (predicate_condition p) = Returned c.

Definition swap_and_flip (predicates : list JoinPredicate) (pred : JoinPredicate)
    : Outcome (list JoinPredicate) :=
  flipped ← flip_predicate_condition (predicate_condition pred);
  Returned
    (predicates
     ++ [mkJoinPredicate (snd (column_id_pair pred), fst (column_id_pair pred))
           flipped]).

Lemma swap_and_flip_all (predicates : list JoinPredicate) :
  Forall flips predicates ->
  forall acc, exists flipped,
    for_each swap_and_flip acc predicates = Returned (acc ++ flipped)
    /\ Forall2 swapped_predicate predicates flipped.
Proof.
  induction 1 as [|p ps [c Hc] _ IH]; intros acc.
  - exists []. split; [simpl; now rewrite app_nil_r | constructor].
  - simpl. unfold swap_and_flip at 2. rewrite Hc. simpl.
    destruct (IH (acc ++
      [mkJoinPredicate (snd (column_id_pair p), fst (column_id_pair p)) c]))
      as [qs [Hqs HF]].
    eexists (_ :: qs). split.
    + rewrite Hqs. now rewrite <- app_assoc.
    + constructor; [split; [reflexivity | exact Hc] | exact HF].
Qed.

(** What [make_impl] owes to the join it is called on. *)
Definition swap_contract (join : Operator) (impl : Impl) : Prop :=
  (_mode join = Left \/ _mode join = Semi \/ _mode join = Anti ->
   _inputs_swapped impl = true)
  /\ (~ (_mode join = Left \/ _mode join = Semi \/ _mode join = Anti) ->
      (_inputs_swapped impl = true
       <-> row_count (_input_left join) > row_count (_input_right join)))
  /\ impl_predicate_condition impl = _predicate_condition join
  /\ impl_mode impl = _mode join
  /\ (if _inputs_swapped impl
      then _left impl = _input_right join
           /\ _right impl = _input_left join
           /\ impl_column_ids impl
              = (snd (_column_ids join), fst (_column_ids join))
           /\ Forall2 swapped_predicate (_additional_join_predicates join)
                (impl_additional_join_predicates impl)
      else _left impl = _input_left join
           /\ _right impl = _input_right join
           /\ impl_column_ids impl = _column_ids join
           /\ impl_additional_join_predicates impl
              = _additional_join_predicates join).

(** C3.  The inputs of a hash join are swapped whenever the mode is
    [Left], [Semi] or [Anti]; in the other modes they are swapped iff the
    left input has more rows than the right one.  With a swap, build and
    probe table and the two join columns are exchanged, every additional
    predicate has its column pair swapped and its condition flipped by
    [flip_predicate_condition]; without one, all of them are passed on as
    they are.  The primary predicate condition is the same in both
    cases. *)
Theorem hash_join_input_swapping (join : Operator) :
  Forall flips (_additional_join_predicates join) ->
  exists impl,
    make_impl flip_predicate_condition join = Returned impl
    /\ swap_contract join impl.
Proof.
  intros Hflips. unfold make_impl, swap_contract.
  destruct (swap_and_flip_all _ Hflips []) as [flipped [Hall HF]].
  fold swap_and_flip. rewrite Hall. simpl.
  destruct (Nat.ltb_spec (row_count (_input_right join))
              (row_count (_input_left join))) as [Hlt | Hge];
    destruct join as [l r mode ids cond bits preds]; simpl in *;
    destruct mode; simpl; eexists; (split; [reflexivity |]); simpl;
    repeat split; auto; try discriminate; try lia;
    try (intros [? | [? | ?]]; discriminate);
    try (intros; exfalso; intuition discriminate);
    try (destruct ids; reflexivity).
Qed.

End HashJoinSwapping.

(** [flip_predicate_condition] as types.cpp defines it for the
    comparisons; other conditions cannot be flipped. *)
Definition flip_comparison (c : PredicateCondition) : Outcome PredicateCondition :=
  match c with
  | Equals => Returned Equals
  | NotEquals => Returned NotEquals
  | LessThan => Returned GreaterThan
  | LessThanEquals => Returned GreaterThanEquals
  | GreaterThan => Returned LessThan
  | GreaterThanEquals => Returned LessThanEquals
  | _ => AssertionFailed
  end.

Definition int_table (rows : list Z) : Storage.Table :=
  Storage.mkTable Storage.Data 2
    [[Storage.ValueSegment (map Storage.IntValue rows);
      Storage.ValueSegment (map Storage.IntValue rows)]].

(** An inner join of three rows with two: the larger left input makes the
    join swap its inputs. *)
Definition swapping_join : JoinHash.Operator :=
  JoinHash.mkOperator (int_table [1; 2; 3]%Z) (int_table [2; 3]%Z) Inner (0, 1)
    Equals None [JoinHash.mkJoinPredicate (1, 0) Equals].

Lemma hash_join_input_swapping_witness :
  Forall (flips flip_comparison)
    (JoinHash._additional_join_predicates swapping_join)
  /\ exists impl,
       JoinHash.make_impl flip_comparison swapping_join = Returned impl
       /\ swap_contract flip_comparison swapping_join impl.
Proof.
  assert (H : Forall (flips flip_comparison)
                (JoinHash._additional_join_predicates swapping_join)).
  { repeat constructor. exists Equals. reflexivity. }
  split; [exact H |].
  exact (hash_join_input_swapping flip_comparison swapping_join H).
Defined.

(** ** Sort-merge join: the supported combinations of mode and condition *)

Section SortMergeContract.
Import Storage JoinSortMerge.

(** The combinations the constructor's assertions turn down. *)
Definition rejected (left right : option Table) (mode : JoinMode)
    (op : PredicateCondition) : Prop :=
  mode = Cross
  \/ ((mode = Semi \/ mode = Anti) /\ op <> Equals)
  \/ left = None
  \/ right = None
  \/ supported_condition op = false
  \/ (op = NotEquals /\ mode <> Inner).

Ltac settle_rejected :=
  unfold rejected in *; cbn in *;
  solve [ intuition (discriminate || congruence) ].

Lemma rejected_dec left right mode op :
  rejected left right mode op \/ ~ rejected left right mode op.
Proof.
  destruct left, right, mode, op;
    first [ right; settle_rejected | left; settle_rejected ].
Qed.

(** The assertions of the constructor.  In a debug build the constructor
    of the sort-merge join fails an assertion exactly for the rejected
    combinations and returns the operator for every other one; in a
    release build the assertions are compiled out and the constructor
    always returns. *)
Lemma sort_merge_join_contract :
  forall left right mode column_ids op,
    (JoinSortMerge true left right mode column_ids op = AssertionFailed
     <-> rejected left right mode op)
    /\ (JoinSortMerge true left right mode column_ids op
        = Returned (mkOperator left right mode column_ids op)
        <-> ~ rejected left right mode op)
    /\ JoinSortMerge false left right mode column_ids op
       = Returned (mkOperator left right mode column_ids op).
Proof.
  intros left right mode column_ids op.
  split; [| split; [| reflexivity]].
  - destruct (rejected_dec left right mode op) as [Hr | Hn].
    + split; [intros _; exact Hr | intros _].
      destruct left, right, mode, op; try reflexivity;
        exfalso; settle_rejected.
    + split; [| intros Hr; contradiction].
      destruct left, right, mode, op; cbn; try discriminate;
        intros _; exfalso; settle_rejected.
  - destruct (rejected_dec left right mode op) as [Hr | Hn].
    + split; [| intros Hn; contradiction].
      destruct left, right, mode, op; cbn; try discriminate;
        intros _; exfalso; settle_rejected.
    + split; [intros _; exact Hn | intros _].
      destruct left, right, mode, op; try reflexivity;
        exfalso; settle_rejected.
Qed.

(** Two small inputs with the integer join columns [1, 3] and [0, 2, 4],
    and the clusters a one-cluster sort delivers for them. *)
Definition left_input : Table :=
  mkTable Data 1 [[ValueSegment [IntValue 1; IntValue 3]]].
Definition right_input : Table :=
  mkTable Data 1 [[ValueSegment [IntValue 0; IntValue 2; IntValue 4]]].
Definition sorted_inputs : RadixClusterOutput :=
  mkRadixClusterOutput
    [[mkMaterializedValue (mkRowID 0 0) 1; mkMaterializedValue (mkRowID 0 1) 3]]
    [[mkMaterializedValue (mkRowID 0 0) 0; mkMaterializedValue (mkRowID 0 1) 2;
      mkMaterializedValue (mkRowID 0 2) 4]]
    [] [].

(** C5, as the specification states it, fails: a full [Outer] join on
    [<] passes the constructor of a debug build, and its execution returns
    the joined position lists (three matches and the padding of the right
    row [0]). *)
Lemma outer_less_than_is_accepted :
  JoinSortMerge true (Some left_input) (Some right_input) Outer (0, 0) LessThan
  = Returned (mkOperator (Some left_input) (Some right_input) Outer (0, 0) LessThan)
  /\ merge_phase true left_input (0, 0) LessThan Outer 1 sorted_inputs
     = Returned
         (mkOutput
            [[mkRowID 0 0; mkRowID 0 0; mkRowID 0 1; NULL_ROW_ID]; []]
            [[mkRowID 0 1; mkRowID 0 2; mkRowID 0 2; mkRowID 0 0]; []])
  /\ exists table,
       _on_execute true left_input right_input (0, 0) LessThan Outer 1
         sorted_inputs = Returned table.
Proof.
  split; [reflexivity | split; [vm_compute; reflexivity |]].
  eexists. vm_compute. reflexivity.
Qed.

End SortMergeContract.

(** ** Sort-merge join: what the emit functions append *)

Section SortMergeEmit.
Import Storage JoinSortMerge.

(** The output after the pairs of [pairs] have been appended, in order, to
    the two position lists of [output_cluster]. *)
Definition append_pairs (out : Output) (output_cluster : nat)
    (pairs : list (RowID * RowID)) : Output :=
  mkOutput
    (alter (fun l => l ++ map fst pairs) output_cluster
       (_output_pos_lists_left out))
    (alter (fun l => l ++ map snd pairs) output_cluster
       (_output_pos_lists_right out)).

(** The output after [rows] have been appended to the left list only. *)
Definition append_left (out : Output) (output_cluster : nat) (rows : PosList)
    : Output :=
  mkOutput
    (alter (fun l => l ++ rows) output_cluster (_output_pos_lists_left out))
    (_output_pos_lists_right out).

Lemma append_pairs_nil out c : append_pairs out c [] = out.
Proof.
  destruct out as [l r]. unfold append_pairs. simpl.
  f_equal; apply list_alter_id; intros x; apply app_nil_r.
Qed.

Lemma append_pairs_app out c p q :
  append_pairs (append_pairs out c p) c q = append_pairs out c (p ++ q).
Proof.
  destruct out as [l r]. unfold append_pairs. simpl.
  rewrite !list_alter_alter_eq.
  f_equal; apply list_alter_ext; auto; intros x _; simpl;
    now rewrite map_app, app_assoc.
Qed.

Lemma append_left_nil out c : append_left out c [] = out.
Proof.
  destruct out as [l r]. unfold append_left. simpl.
  f_equal; apply list_alter_id; intros x; apply app_nil_r.
Qed.

Lemma append_left_app out c p q :
  append_left (append_left out c p) c q = append_left out c (p ++ q).
Proof.
  destruct out as [l r]. unfold append_left. simpl.
  rewrite !list_alter_alter_eq.
  f_equal; apply list_alter_ext; auto; intros x _; simpl;
    now rewrite app_assoc.
Qed.

Lemma emit_combination_pairs out c l r :
  _emit_combination out c l r = append_pairs out c [(l, r)].
Proof. reflexivity. Qed.

Lemma foldl_emit_pairs (f : RowID -> list (RowID * RowID)) c rows :
  forall out,
    foldl (fun out row => append_pairs out c (f row)) out rows
    = append_pairs out c (concat (map f rows)).
Proof.
  induction rows as [|x rows IH]; intros out; simpl.
  - now rewrite append_pairs_nil.
  - rewrite IH, append_pairs_app. reflexivity.
Qed.

Lemma foldl_ext {A B : Type} (f g : A -> B -> A) (l : list B) :
  (forall a b, f a b = g a b) -> forall a, foldl f a l = foldl g a l.
Proof.
  intros H. induction l as [|x l IH]; intros a; simpl; [reflexivity |].
  now rewrite H, IH.
Qed.

Lemma concat_map_singleton {A B : Type} (f : A -> B) (l : list A) :
  concat (map (fun x => [f x]) l) = map f l.
Proof. induction l; simpl; congruence. Qed.

Lemma list_prod_concat {A B : Type} (l : list A) (l' : list B) :
  concat (map (fun x => map (pair x) l') l) = list_prod l l'.
Proof. induction l as [|a l IH]; simpl; [reflexivity | now rewrite IH]. Qed.

Variable impl : Impl.

(** The rows of a range of the left, and of the right, sorted table. *)
Definition left_rows (range : TableRange) : list RowID :=
  for_every_row_id (_sorted_left_table impl) range.
Definition right_rows (range : TableRange) : list RowID :=
  for_every_row_id (_sorted_right_table impl) range.

Lemma emit_all_combinations_pairs out c left_range right_range :
  pairs_kept impl = true ->
  _emit_all_combinations impl out c left_range right_range
  = append_pairs out c
      (list_prod (left_rows left_range) (right_rows right_range)).
Proof.
  intros Hkept. unfold _emit_all_combinations. rewrite Hkept.
  rewrite <- list_prod_concat.
  rewrite <- (foldl_emit_pairs
                (fun l => map (pair l) (right_rows right_range))).
  apply foldl_ext. intros a l.
  rewrite <- concat_map_singleton.
  rewrite <- (foldl_emit_pairs (fun r => [(l, r)])).
  reflexivity.
Qed.

Lemma emit_all_combinations_left out c left_range right_range :
  pairs_kept impl = false ->
  _emit_all_combinations impl out c left_range right_range
  = append_left out c (left_rows left_range).
Proof.
  intros Hkept. unfold _emit_all_combinations. rewrite Hkept.
  fold (left_rows left_range).
  generalize (left_rows left_range) as rows. intros rows. revert out.
  induction rows as [|x rows IH]; intros out; simpl.
  - now rewrite append_left_nil.
  - rewrite IH. fold (append_left out c [x]).
    now rewrite append_left_app.
Qed.

Lemma emit_right_null_combinations_pairs out c left_range :
  _emit_right_null_combinations impl out c left_range
  = append_pairs out c
      (map (fun l => (l, NULL_ROW_ID)) (left_rows left_range)).
Proof.
  unfold _emit_right_null_combinations.
  rewrite <- concat_map_singleton.
  rewrite <- (foldl_emit_pairs (fun l => [(l, NULL_ROW_ID)])).
  reflexivity.
Qed.

Lemma emit_left_null_combinations_pairs out c right_range :
  _emit_left_null_combinations impl out c right_range
  = append_pairs out c
      (map (fun r => (NULL_ROW_ID, r)) (right_rows right_range)).
Proof.
  unfold _emit_left_null_combinations.
  rewrite <- concat_map_singleton.
  rewrite <- (foldl_emit_pairs (fun r => [(NULL_ROW_ID, r)])).
  reflexivity.
Qed.

End SortMergeEmit.

(** ** Sort-merge join: one step of the merge for [>] *)

Section SortMergeGreaterThan.
Import Storage JoinSortMerge.

(** C2, as the code has it.  For the predicate [>] (in a mode that keeps
    pairs, as every mode the constructor accepts with [>] does) one
    iteration of the merge loop on the current runs does the following.
    Equal values: it emits [L_after x R], the left rows behind the left
    run up to the end of the left table with the right run, and advances
    both runs.  Left value smaller: it emits nothing and advances the left
    run.  Left value greater: it emits [L_from_start x R], the left rows
    from the start of the left run up to the end of the left table with
    the right run, and advances the right run. *)
Theorem greater_than_iteration (impl : Impl) (cluster_number : nat)
    (left_cluster right_cluster : MaterializedSegment) (runs : Runs)
    (out : Output) (l r : MaterializedValue) :
  _op impl = GreaterThan ->
  pairs_kept impl = true ->
  left_cluster !! left_run_start runs = Some l ->
  right_cluster !! right_run_start runs = Some r ->
  let R :=
    right_rows impl
      (cluster_range cluster_number (right_run_start runs) (right_run_end runs)) in
  let L_from_start :=
    left_rows impl
      (to (mkTablePosition cluster_number (left_run_start runs))
          (_end_of_left_table impl)) in
  let L_after :=
    left_rows impl
      (to (mkTablePosition cluster_number (left_run_end runs))
          (_end_of_left_table impl)) in
  join_cluster_iteration impl cluster_number left_cluster right_cluster runs out
  = Returned
      (if Z.eqb (value l) (value r) then
         (advance_right right_cluster (advance_left left_cluster runs),
          append_pairs out cluster_number (list_prod L_after R))
       else if Z.ltb (value l) (value r) then
         (advance_left left_cluster runs, out)
       else
         (advance_right right_cluster runs,
          append_pairs out cluster_number (list_prod L_from_start R))).
Proof.
  intros Hop Hkept Hl Hr R L_from_start L_after.
  unfold join_cluster_iteration. rewrite Hl, Hr. cbn.
  unfold _compare, _join_runs. rewrite Hop.
  destruct (Z.ltb_spec (value l) (value r)) as [Hlt | Hge].
  - assert (Hne : Z.eqb (value l) (value r) = false) by (apply Z.eqb_neq; lia).
    rewrite Hne. reflexivity.
  - destruct (Z.eqb_spec (value l) (value r)) as [Heq | Hne]; cbn;
      rewrite emit_all_combinations_pairs by exact Hkept; reflexivity.
Qed.

(** The row of the specification's table for [>], word for word: "Equal:
    emit [L_from_start x R]; advance L.  Less: advance R.  Greater: emit
    [L_from_start x R]; advance L." *)
Definition greater_than_row_of_table (impl : Impl) (cluster_number : nat)
    (left_cluster right_cluster : MaterializedSegment) (runs : Runs)
    (out : Output) : Outcome (Runs * Output) :=
  l ← defined (left_cluster !! left_run_start runs);
  r ← defined (right_cluster !! right_run_start runs);
  let R :=
    right_rows impl
      (cluster_range cluster_number (right_run_start runs) (right_run_end runs)) in
  let L_from_start :=
    left_rows impl
      (to (mkTablePosition cluster_number (left_run_start runs))
          (_end_of_left_table impl)) in
  Returned
    match _compare (value l) (value r) with
    | Equal =>
        (advance_left left_cluster runs,
         append_pairs out cluster_number (list_prod L_from_start R))
    | Less => (advance_right right_cluster runs, out)
    | Greater =>
        (advance_left left_cluster runs,
         append_pairs out cluster_number (list_prod L_from_start R))
    end.

(** An inner join on [>] over one cluster per side. *)
Definition one_cluster_join (left_values right_values : list Z) : Impl :=
  let materialize values :=
    imap (fun i v => mkMaterializedValue (mkRowID 0 (N.of_nat i)) v) values in
  mkImpl [materialize left_values] [materialize right_values] [] []
    (mkTable Data 1 [[ValueSegment (map IntValue left_values)]]) 0
    GreaterThan Inner 1
    (mkTablePosition 0 (length left_values))
    (mkTablePosition 0 (length right_values)).

Definition first_iteration (impl : Impl) : Outcome (Runs * Output) :=
  let left_cluster := default [] (_sorted_left_table impl !! 0) in
  let right_cluster := default [] (_sorted_right_table impl !! 0) in
  join_cluster_iteration impl 0 left_cluster right_cluster
    (mkRuns 0 (_run_length 0 left_cluster) 0 (_run_length 0 right_cluster))
    (mkOutput [[]] [[]]).

Definition first_iteration_of_table (impl : Impl) : Outcome (Runs * Output) :=
  let left_cluster := default [] (_sorted_left_table impl !! 0) in
  let right_cluster := default [] (_sorted_right_table impl !! 0) in
  greater_than_row_of_table impl 0 left_cluster right_cluster
    (mkRuns 0 (_run_length 0 left_cluster) 0 (_run_length 0 right_cluster))
    (mkOutput [[]] [[]]).

(** C2, as the specification states it, fails in each of its three cases.
    Equal values ([2, 5] against [2, 3]): the code emits the pair of left
    row 1 and right row 0 and advances both runs, the table emits two
    pairs and advances the left run only.  Left smaller ([1, 5] against
    [2, 3]): the code advances the left run, the table the right run.
    Left greater ([4, 5] against [2, 3]): the code advances the right run,
    the table the left run. *)
Lemma greater_than_row_of_table_differs :
  (first_iteration (one_cluster_join [2; 5]%Z [2; 3]%Z)
   = Returned (mkRuns 1 2 1 2, mkOutput [[mkRowID 0 1]] [[mkRowID 0 0]])
   /\ first_iteration_of_table (one_cluster_join [2; 5]%Z [2; 3]%Z)
      = Returned (mkRuns 1 2 0 1,
                  mkOutput [[mkRowID 0 0; mkRowID 0 1]]
                           [[mkRowID 0 0; mkRowID 0 0]]))
  /\ (first_iteration (one_cluster_join [1; 5]%Z [2; 3]%Z)
      = Returned (mkRuns 1 2 0 1, mkOutput [[]] [[]])
      /\ first_iteration_of_table (one_cluster_join [1; 5]%Z [2; 3]%Z)
         = Returned (mkRuns 0 1 1 2, mkOutput [[]] [[]]))
  /\ (first_iteration (one_cluster_join [4; 5]%Z [2; 3]%Z)
      = Returned (mkRuns 0 1 1 2,
                  mkOutput [[mkRowID 0 0; mkRowID 0 1]]
                           [[mkRowID 0 0; mkRowID 0 0]])
      /\ first_iteration_of_table (one_cluster_join [4; 5]%Z [2; 3]%Z)
         = Returned (mkRuns 1 2 0 1,
                     mkOutput [[mkRowID 0 0; mkRowID 0 1]]
                              [[mkRowID 0 0; mkRowID 0 0]])).
Proof. repeat split; vm_compute; reflexivity. Qed.

Lemma greater_than_iteration_witness :
  let impl := one_cluster_join [2; 5]%Z [2; 3]%Z in
  _op impl = GreaterThan
  /\ pairs_kept impl = true
  /\ join_cluster_iteration impl 0
       [mkMaterializedValue (mkRowID 0 0) 2; mkMaterializedValue (mkRowID 0 1) 5]
       [mkMaterializedValue (mkRowID 0 0) 2; mkMaterializedValue (mkRowID 0 1) 3]
       (mkRuns 0 1 0 1) (mkOutput [[]] [[]])
     = Returned (mkRuns 1 2 1 2, mkOutput [[mkRowID 0 1]] [[mkRowID 0 0]]).
Proof.
  split; [reflexivity | split; [reflexivity |]].
  exact (greater_than_iteration (one_cluster_join [2; 5]%Z [2; 3]%Z) 0
           [mkMaterializedValue (mkRowID 0 0) 2; mkMaterializedValue (mkRowID 0 1) 5]
           [mkMaterializedValue (mkRowID 0 0) 2; mkMaterializedValue (mkRowID 0 1) 3]
           (mkRuns 0 1 0 1) (mkOutput [[]] [[]])
           (mkMaterializedValue (mkRowID 0 0) 2)
           (mkMaterializedValue (mkRowID 0 0) 2)
           eq_refl eq_refl eq_refl eq_refl).
Defined.

End SortMergeGreaterThan.

(** ** Loops *)

Section Loops.
Context {A S : Type}.

Lemma for_each_invariant (P : S -> Prop) (body : S -> A -> Outcome S)
    (l : list A) :
  (forall s x s', In x l -> P s -> body s x = Returned s' -> P s') ->
  forall s s', P s -> for_each body s l = Returned s' -> P s'.
Proof.
  induction l as [|x l IH]; intros Hstep s s' Hs Hrun; simpl in Hrun.
  - now injection Hrun as <-.
  - destruct (body s x) as [s1 | e |] eqn:Hbody; try discriminate.
    cbn in Hrun.
    apply (IH (fun s0 y s1' Hy => Hstep s0 y s1' (or_intror Hy)) s1 s');
      [| exact Hrun].
    apply (Hstep s x s1); [now left | exact Hs | exact Hbody].
Qed.

Lemma for_each_app (body : S -> A -> Outcome S) (l1 l2 : list A) (s : S) :
  for_each body s (l1 ++ l2) = (s' ← for_each body s l1; for_each body s' l2).
Proof.
  revert s. induction l1 as [|x l1 IH]; intros s; simpl; [reflexivity |].
  destruct (body s x) as [s1 | e |]; cbn; [apply IH | reflexivity | reflexivity].
Qed.

End Loops.

(** Reduce the binds of a sequence of calls whose results are known. *)
Ltac run := cbn [mbind Outcome_mbind Outcome_bind defined fst snd].

Lemma bind_returned {A B : Type} (x : Outcome A) (f : A -> Outcome B) (b : B) :
  (x ≫= f) = Returned b -> exists a, x = Returned a /\ f a = Returned b.
Proof. destruct x as [a | e |]; cbn; intros H; try discriminate; eauto. Qed.

Lemma defined_returned {A : Type} (x : option A) (a : A) :
  defined x = Returned a -> x = Some a.
Proof. destruct x; cbn; intros H; [now injection H as -> | discriminate]. Qed.

(** ** The output of a join references data tables only *)

Section OutputSegments.
Import Storage.

(** A reference segment whose referenced table holds the data itself. *)
Definition references_data (s : Segment) : Prop :=
  exists t c p, s = ReferenceSegment t c p /\ type t = Data.

(** The invariant of the data model on a join input: if the table is a
    reference table, its segments reference data tables. *)
Definition well_formed_input (t : Table) : Prop :=
  type t = References -> Forall (Forall references_data) (chunks t).

(** The invariant on a join output. *)
Definition well_formed_output (t : Table) : Prop :=
  type t = References /\ Forall (Forall references_data) (chunks t).

(** The row that [row] of a reference table stands for in column
    [column_id]: the entry of the position list of the row's segment. *)
Definition dereferenced (input_table : Table) (column_id : ColumnID)
    (row : RowID) : option RowID :=
  if is_null row then Some NULL_ROW_ID
  else
    chunk ← get_chunk input_table (chunk_id row);
    segment ← get_segment chunk column_id;
    reference ← as_reference_segment segment;
    snd reference !! N.to_nat (chunk_offset row).

Definition collect_pos_list (column_id : ColumnID) (lists : list PosList)
    (chunk : Chunk) : Outcome (list PosList) :=
  base_segment ← defined (get_segment chunk column_id);
  reference_segment ← defined (as_reference_segment base_segment);
  Returned (lists ++ [snd reference_segment]).

Lemma collect_pos_lists column_id (cs : list Chunk) :
  forall lists lists',
    for_each (collect_pos_list column_id) lists cs = Returned lists' ->
    exists collected,
      lists' = lists ++ collected
      /\ Forall2
           (fun chunk pos_list =>
              exists segment reference,
                get_segment chunk column_id = Some segment
                /\ as_reference_segment segment = Some reference
                /\ snd reference = pos_list)
           cs collected.
Proof.
  induction cs as [|chunk cs IH]; intros lists lists' Hrun; simpl in Hrun.
  - injection Hrun as <-. exists []. split; [now rewrite app_nil_r | constructor].
  - apply bind_returned in Hrun as [lists1 [Hone Hrun]].
    unfold collect_pos_list in Hone.
    apply bind_returned in Hone as [segment [Hseg Hone]].
    apply bind_returned in Hone as [reference [Href Hone]].
    apply defined_returned in Hseg, Href. injection Hone as <-.
    destruct (IH _ _ Hrun) as [collected [-> HF]].
    exists (snd reference :: collected). split; [now rewrite <- app_assoc |].
    constructor; [eauto | exact HF].
Qed.

Lemma dereference_pos_list_rows input_table column_id pos_list new_pos_list :
  JoinSortMerge._dereference_pos_list input_table column_id pos_list
  = Returned new_pos_list ->
  Forall2 (fun row row' => dereferenced input_table column_id row = Some row')
    pos_list new_pos_list.
Proof.
  unfold JoinSortMerge._dereference_pos_list. intros H.
  apply bind_returned in H. destruct H as [lists [Hlists H]].
  fold (collect_pos_list column_id) in Hlists.
  apply collect_pos_lists in Hlists. destruct Hlists as [collected [-> HF]].
  simpl in H.
  assert (Hgen : forall rows acc out,
    for_each
      (fun new_pos_list row =>
         if is_null row then Returned (new_pos_list ++ [NULL_ROW_ID])
         else
           input_pos_list ← defined (collected !! N.to_nat (chunk_id row));
           referenced ← defined (input_pos_list !! N.to_nat (chunk_offset row));
           Returned (new_pos_list ++ [referenced]))
      acc rows = Returned out ->
    exists rows', out = acc ++ rows'
      /\ Forall2 (fun row row' => dereferenced input_table column_id row = Some row')
           rows rows').
  { induction rows as [|row rows IH]; intros acc out Hrun; simpl in Hrun.
    - injection Hrun as <-. exists []. split; [now rewrite app_nil_r | constructor].
    - apply bind_returned in Hrun. destruct Hrun as [acc1 [Hone Hrun]].
      destruct (IH _ _ Hrun) as [rows' [-> HF']].
      unfold dereferenced.
      destruct (is_null row) eqn:Hnull.
      + injection Hone as <-. exists (NULL_ROW_ID :: rows').
        split; [now rewrite <- app_assoc |].
        constructor; [now rewrite Hnull | exact HF'].
      + apply bind_returned in Hone as [input_pos_list [Hlist Hone]].
        apply bind_returned in Hone as [referenced [Hrow Hone]].
        apply defined_returned in Hlist, Hrow. injection Hone as <-.
        exists (referenced :: rows').
        split; [now rewrite <- app_assoc |].
        constructor; [| exact HF'].
        rewrite Hnull. unfold get_chunk.
        destruct (Forall2_lookup_r _ _ _ _ _ HF Hlist)
          as [chunk [Hchunk [segment [reference [Hseg [Href Hsnd]]]]]].
        rewrite Hchunk. cbn. rewrite Hseg. cbn. rewrite Href. cbn.
        now rewrite Hsnd. }
  destruct (Hgen _ _ _ H) as [rows' [-> HF']]. exact HF'.
Qed.

(** The segment [_add_output_segments] builds for column [column_id]: a
    data table is referenced as it is; a reference table with chunks is
    looked through, the new segment references what the segment of the
    column in the first chunk references and holds the dereferenced
    position list; a reference table without chunks is replaced by a dummy
    table. *)
Definition output_segment_of (input_table : Table) (pos_list : PosList)
    (column_id : ColumnID) (s : Segment) : Prop :=
  match type input_table with
  | Data => s = ReferenceSegment input_table column_id pos_list
  | References =>
      if Nat.ltb 0 (chunk_count input_table) then
        exists chunk segment t c p0 p,
          get_chunk input_table 0 = Some chunk
          /\ get_segment chunk column_id = Some segment
          /\ as_reference_segment segment = Some (t, c, p0)
          /\ s = ReferenceSegment t c p
          /\ Forall2
               (fun row row' =>
                  dereferenced input_table column_id row = Some row')
               pos_list p
      else
        s = ReferenceSegment (create_dummy_table (column_count input_table))
              column_id pos_list
  end.

Definition add_output_segment (input_table : Table) (pos_list : PosList)
    (output_segments : Segments) (column_id : ColumnID) : Outcome Segments :=
  if bool_decide (type input_table = References) then
    new_pos_list ←
      JoinSortMerge._dereference_pos_list input_table column_id pos_list;
    if Nat.ltb 0 (chunk_count input_table) then
      chunk ← defined (get_chunk input_table 0);
      base_segment ← defined (get_segment chunk column_id);
      ref_segment ← defined (as_reference_segment base_segment);
      Returned
        (output_segments
         ++ [ReferenceSegment (fst (fst ref_segment))
               (snd (fst ref_segment)) new_pos_list])
    else
      let dummy_table := create_dummy_table (column_count input_table) in
      Returned
        (output_segments ++ [ReferenceSegment dummy_table column_id pos_list])
  else
    Returned
      (output_segments ++ [ReferenceSegment input_table column_id pos_list]).

Lemma add_output_segment_spec input_table pos_list acc column_id out :
  add_output_segment input_table pos_list acc column_id = Returned out ->
  exists s, out = acc ++ [s]
            /\ output_segment_of input_table pos_list column_id s.
Proof.
  unfold add_output_segment, output_segment_of. intros H.
  destruct (type input_table) eqn:Hty.
  - rewrite bool_decide_eq_false_2 in H by discriminate.
    injection H as <-. eauto.
  - rewrite bool_decide_eq_true_2 in H by reflexivity.
    apply bind_returned in H as [new_pos_list [Hderef H]].
    apply dereference_pos_list_rows in Hderef.
    destruct (Nat.ltb 0 (chunk_count input_table)).
    + apply bind_returned in H as [chunk [Hchunk H]].
      apply bind_returned in H as [segment [Hseg H]].
      apply bind_returned in H as [[[t c] p0] [Href H]].
      apply defined_returned in Hchunk, Hseg, Href. injection H as <-.
      eexists. split; [reflexivity |].
      exists chunk, segment, t, c, p0, new_pos_list. auto.
    + injection H as <-. eauto.
Qed.

Lemma add_output_segments_spec input_table pos_list :
  forall columns acc out,
    for_each (add_output_segment input_table pos_list) acc columns
    = Returned out ->
    exists segments,
      out = acc ++ segments
      /\ Forall2 (output_segment_of input_table pos_list) columns segments.
Proof.
  induction columns as [|column_id columns IH]; intros acc out H; simpl in H.
  - injection H as <-. exists []. split; [now rewrite app_nil_r | constructor].
  - apply bind_returned in H as [acc1 [Hone H]].
    apply add_output_segment_spec in Hone as [s [-> Hs]].
    destruct (IH _ _ H) as [segments [-> HF]].
    exists (s :: segments). split; [now rewrite <- app_assoc |].
    now constructor.
Qed.

Lemma output_segment_references_data input_table pos_list column_id s :
  well_formed_input input_table ->
  output_segment_of input_table pos_list column_id s ->
  references_data s.
Proof.
  unfold well_formed_input, output_segment_of. intros Hwf Hs.
  destruct (type input_table) eqn:Hty.
  - subst s. now exists input_table, column_id, pos_list.
  - destruct (Nat.ltb 0 (chunk_count input_table)).
    + destruct Hs as (chunk & segment & t & c & p0 & p & Hc & Hseg & Href & -> & _).
      exists t, c, p. split; [reflexivity |].
      specialize (Hwf eq_refl).
      unfold get_chunk in Hc. unfold get_segment in Hseg.
      pose proof (Forall_lookup_1 _ _ _ _ Hwf Hc) as Hchunk.
      pose proof (Forall_lookup_1 _ _ _ _ Hchunk Hseg) as (t' & c' & p' & -> & Ht').
      simpl in Href. now injection Href as <- <- <-.
    + subst s. eexists _, _, _. split; reflexivity.
Qed.

Lemma add_output_segments_references_data input_table pos_list acc out :
  well_formed_input input_table ->
  Forall references_data acc ->
  JoinSortMerge._add_output_segments acc input_table pos_list = Returned out ->
  Forall references_data out.
Proof.
  intros Hwf Hacc H. unfold JoinSortMerge._add_output_segments in H.
  fold (add_output_segment input_table pos_list) in H.
  apply add_output_segments_spec in H as [segments [-> HF]].
  apply Forall_app. split; [exact Hacc |].
  clear Hacc. induction HF as [|c s cs ss Hs _ IH]; constructor; [| exact IH].
  eapply output_segment_references_data; eauto.
Qed.

(** The output table of the sort-merge join. *)
Lemma sort_merge_output_references_data HYRISE_DEBUG left right column_ids op
    mode cluster_count sort_output table :
  well_formed_input left -> well_formed_input right ->
  JoinSortMerge._on_execute HYRISE_DEBUG left right column_ids op mode
    cluster_count sort_output = Returned table ->
  well_formed_output table.
Proof.
  intros Hl Hr H. unfold JoinSortMerge._on_execute in H.
  apply bind_returned in H as [out [_ H]].
  apply bind_returned in H as [result_chunks [Hchunks H]].
  injection H as <-. split; [reflexivity |]. simpl.
  revert Hchunks.
  apply (for_each_invariant (Forall (Forall references_data)));
    [| constructor].
  intros chunks pos_list_id chunks' _ Hinv Hbody.
  apply bind_returned in Hbody as [left_pos_list [_ Hbody]].
  apply bind_returned in Hbody as [segments [Hleft Hbody]].
  apply bind_returned in Hbody as [segments' [Hright Hbody]].
  injection Hbody as <-.
  apply Forall_app. split; [exact Hinv |]. constructor; [| constructor].
  apply add_output_segments_references_data in Hleft; [| exact Hl | constructor].
  destruct (negb (JoinMode_eqb mode Semi) && negb (JoinMode_eqb mode Anti)).
  - apply bind_returned in Hright as [right_pos_list [_ Hright]].
    eapply add_output_segments_references_data; eauto.
  - now injection Hright as <-.
Qed.

(** The output table of the hash join. *)
Lemma hash_output_references_data HYRISE_DEBUG impl partitions table :
  well_formed_input (JoinHash._left impl) ->
  well_formed_input (JoinHash._right impl) ->
  JoinHash._on_execute HYRISE_DEBUG impl partitions = Returned table ->
  well_formed_output table.
Proof.
  intros Hl Hr H. unfold JoinHash._on_execute in H.
  apply bind_returned in H as [lists [_ H]].
  apply bind_returned in H as [result_chunks [Hchunks H]].
  injection H as <-. split; [reflexivity |]. simpl.
  revert Hchunks.
  apply (for_each_invariant (Forall (Forall references_data)));
    [| constructor].
  intros chunks partition_id chunks' _ Hinv Hbody.
  apply bind_returned in Hbody as [left_list [_ Hbody]].
  apply bind_returned in Hbody as [right_list [_ Hbody]].
  unfold JoinHash.write_partition in Hbody. simpl in Hbody.
  assert (Hsegments : forall segments,
    (if JoinHash._inputs_swapped impl
     then
       segments ← JoinHash.write_output_segments [] (JoinHash._right impl) right_list;
       if negb (JoinHash._inputs_swapped impl
                && (JoinMode_eqb (JoinHash.impl_mode impl) Semi
                    || JoinMode_eqb (JoinHash.impl_mode impl) Anti))
       then JoinHash.write_output_segments segments (JoinHash._left impl) left_list
       else Returned segments
     else
       segments ← JoinHash.write_output_segments [] (JoinHash._left impl) left_list;
       JoinHash.write_output_segments segments (JoinHash._right impl) right_list)
    = Returned segments -> Forall references_data segments).
  { intros segments Hs. unfold JoinHash.write_output_segments in Hs.
    destruct (JoinHash._inputs_swapped impl).
    - apply bind_returned in Hs as [segments1 [H1 Hs]].
      apply add_output_segments_references_data in H1; [| exact Hr | constructor].
      destruct (negb _).
      + eapply add_output_segments_references_data; [exact Hl | exact H1 | exact Hs].
      + now injection Hs as <-.
    - apply bind_returned in Hs as [segments1 [H1 Hs]].
      apply add_output_segments_references_data in H1; [| exact Hl | constructor].
      eapply add_output_segments_references_data; eauto. }
  destruct left_list as [|l0 left_list], right_list as [|r0 right_list].
  - now injection Hbody as <-.
  - apply bind_returned in Hbody as [segments [Hs Hbody]].
    injection Hbody as <-. apply Forall_app. split; [exact Hinv |].
    constructor; [apply Hsegments; exact Hs | constructor].
  - apply bind_returned in Hbody as [segments [Hs Hbody]].
    injection Hbody as <-. apply Forall_app. split; [exact Hinv |].
    constructor; [apply Hsegments; exact Hs | constructor].
  - apply bind_returned in Hbody as [segments [Hs Hbody]].
    injection Hbody as <-. apply Forall_app. split; [exact Hinv |].
    constructor; [apply Hsegments; exact Hs | constructor].
Qed.

(** C9.  If the inputs of a join respect the data model (the segments of
    a reference table reference data tables), every segment of the output
    table of the sort-merge join, and of the hash join, is a reference
    segment that references a data table; and for an input of type
    [References] the segment built for a column holds the join's position
    list dereferenced through the input's own position lists. *)
Theorem join_output_references_data (HYRISE_DEBUG : bool) (left right : Table) :
  well_formed_input left ->
  well_formed_input right ->
  (forall column_ids op mode cluster_count sort_output table,
     JoinSortMerge._on_execute HYRISE_DEBUG left right column_ids op mode
       cluster_count sort_output = Returned table ->
     well_formed_output table)
  /\ (forall impl partitions table,
        (JoinHash._left impl = left /\ JoinHash._right impl = right)
        \/ (JoinHash._left impl = right /\ JoinHash._right impl = left) ->
        JoinHash._on_execute HYRISE_DEBUG impl partitions = Returned table ->
        well_formed_output table)
  /\ (forall input_table pos_list segments,
        input_table = left \/ input_table = right ->
        JoinSortMerge._add_output_segments [] input_table pos_list
        = Returned segments ->
        Forall2 (output_segment_of input_table pos_list)
          (seq 0 (column_count input_table)) segments).
Proof.
  intros Hl Hr. split; [| split].
  - intros column_ids op mode cluster_count sort_output table H.
    exact (sort_merge_output_references_data _ _ _ _ _ _ _ _ _ Hl Hr H).
  - intros impl partitions table [[El Er] | [El Er]] H; subst left right.
    + exact (hash_output_references_data _ _ _ _ Hl Hr H).
    + exact (hash_output_references_data _ _ _ _ Hr Hl H).
  - intros input_table pos_list segments _ H.
    unfold JoinSortMerge._add_output_segments in H.
    fold (add_output_segment input_table pos_list) in H.
    apply add_output_segments_spec in H as [segs [-> HF]]. exact HF.
Qed.

End OutputSegments.

(** A reference table over the rows of [left_input], in reverse order, and
    its sorted cluster. *)
Definition referencing_input : Storage.Table :=
  Storage.mkTable Storage.References 1
    [[Storage.ReferenceSegment left_input 0
        [Storage.mkRowID 0 1; Storage.mkRowID 0 0]]].

Definition sorted_referencing_inputs : JoinSortMerge.RadixClusterOutput :=
  JoinSortMerge.mkRadixClusterOutput
    [[JoinSortMerge.mkMaterializedValue (Storage.mkRowID 0 1) 1;
      JoinSortMerge.mkMaterializedValue (Storage.mkRowID 0 0) 3]]
    (JoinSortMerge.clusters_right sorted_inputs)
    [] [].

Lemma join_output_references_data_witness :
  well_formed_input referencing_input
  /\ well_formed_input right_input
  /\ exists table,
       JoinSortMerge._on_execute true referencing_input right_input (0, 0)
         LessThan Inner 1 sorted_referencing_inputs = Returned table
       /\ well_formed_output table.
Proof.
  assert (Hl : well_formed_input referencing_input).
  { intros _. repeat constructor.
    exists left_input, 0, [Storage.mkRowID 0 1; Storage.mkRowID 0 0].
    split; reflexivity. }
  assert (Hr : well_formed_input right_input) by (intros H; discriminate H).
  split; [exact Hl | split; [exact Hr |]].
  eexists. split; [vm_compute; reflexivity |].
  apply (proj1 (join_output_references_data true referencing_input right_input
                  Hl Hr)
           (0, 0) LessThan Inner 1 sorted_referencing_inputs).
  vm_compute. reflexivity.
Defined.

(** ** Hash join: the additional join predicates *)

Section HashJoinPredicates.
Import Storage JoinHash.

Variable HYRISE_DEBUG : bool.
Variables left right : Table.

(** The two cells a predicate cites compare equal under [==]. *)
Definition compares_equal (l r : RowID) (pred : JoinPredicate) : Prop :=
  exists lv rv,
    cell left l (fst (column_id_pair pred)) = Returned lv
    /\ cell right r (snd (column_id_pair pred)) = Returned rv
    /\ variant_eqb lv rv = true.

Definition all_compare_equal (predicates : list JoinPredicate) (l r : RowID)
    : Prop :=
  Forall (compares_equal l r) predicates.

Lemma row_pair_satisfies_predicates_spec l r predicates keep :
  row_pair_satisfies_predicates HYRISE_DEBUG left right l r predicates
  = Returned keep ->
  keep = true <-> all_compare_equal predicates l r.
Proof.
  revert keep. induction predicates as [|pred rest IH]; intros keep H; simpl in H.
  - injection H as <-. split; [constructor | reflexivity].
  - assert (Hbody :
      (left_value ← cell left l (fst (column_id_pair pred));
       right_value ← cell right r (snd (column_id_pair pred));
       if negb (variant_eqb left_value right_value) then Returned false
       else row_pair_satisfies_predicates HYRISE_DEBUG left right l r rest)
      = Returned keep).
    { unfold DebugAssert, Assert in H.
      destruct HYRISE_DEBUG; [| exact H].
      destruct (PredicateCondition_eqb _ _); [exact H | discriminate]. }
    clear H.
    apply bind_returned in Hbody as [lv [Hlv Hbody]].
    apply bind_returned in Hbody as [rv [Hrv Hbody]].
    destruct (variant_eqb lv rv) eqn:Heq; simpl in Hbody.
    + rewrite (IH _ Hbody). split.
      * intros Hrest. constructor; [exists lv, rv; auto | exact Hrest].
      * intros Hall. now inversion Hall.
    + injection Hbody as <-. split; [discriminate |].
      intros Hall. inversion Hall as [|? ? (lv' & rv' & Hlv' & Hrv' & Heq') _].
      congruence.
Qed.

Lemma select_rows_spec predicates :
  forall ls rs selection,
    select_rows HYRISE_DEBUG left right predicates ls rs
    = Returned selection ->
    length (fst selection) = length (snd selection)
    /\ length (fst selection) <= length ls
    /\ forall l r,
         In (l, r) (combine (fst selection) (snd selection))
         <-> In (l, r) (combine ls rs)
             /\ all_compare_equal predicates l r.
Proof.
  induction ls as [|l0 ls IH]; intros rs selection H;
    simpl in H.
  - injection H as <-. simpl.
    split; [reflexivity | split; [lia | intros l r; tauto]].
  - destruct rs as [|r0 rs]; [discriminate |].
    apply bind_returned in H as [keep [Hkeep H]].
    apply bind_returned in H as [rest [Hrest H]].
    apply row_pair_satisfies_predicates_spec in Hkeep.
    destruct (IH _ _ Hrest) as [Hlen [Hle Hin]].
    injection H as <-. destruct keep; simpl.
    + split; [now f_equal | split; [lia |]]. intros l r. rewrite Hin.
      split.
      * intros [E | [Hc Ha]]; [| tauto].
        injection E as <- <-. split; [now left | now apply Hkeep].
      * intros [[E | Hc] Ha]; [now left | right; tauto].
    + split; [exact Hlen | split; [lia |]]. intros l r. rewrite Hin.
      split; [tauto |].
      intros [[E | Hc] Ha]; [| tauto].
      injection E as <- <-. apply Hkeep in Ha. discriminate.
Qed.

(** [_apply_additional_join_predicates] keeps, of the pairs it is handed,
    exactly those on which every predicate compares equal. *)
Lemma apply_additional_join_predicates_spec predicates ls rs
    selection :
  length ls = length rs ->
  _apply_additional_join_predicates HYRISE_DEBUG left ls right
    rs predicates = Returned selection ->
  length (fst selection) = length (snd selection)
  /\ length (fst selection) <= length ls
  /\ forall l r,
       In (l, r) (combine (fst selection) (snd selection))
       <-> In (l, r) (combine ls rs)
           /\ all_compare_equal predicates l r.
Proof.
  intros Hlen H. unfold _apply_additional_join_predicates in H.
  assert (Hbody :
    match predicates with
    | [] => Returned (ls, rs)
    | _ :: _ =>
        select_rows HYRISE_DEBUG left right predicates ls rs
    end = Returned selection).
  { unfold DebugAssert, Assert in H.
    destruct HYRISE_DEBUG; [| exact H].
    destruct (Nat.eqb _ _); [exact H | discriminate]. }
  clear H. destruct predicates as [|pred rest].
  - injection Hbody as <-. simpl. split; [exact Hlen | split; [lia |]].
    intros l r. split; [intros Hin; split; [exact Hin | constructor] | tauto].
  - now apply select_rows_spec.
Qed.

Lemma combine_app_same {A B : Type} (l1 l2 : list A) (k1 k2 : list B) :
  length l1 = length k1 ->
  combine (l1 ++ l2) (k1 ++ k2) = combine l1 k1 ++ combine l2 k2.
Proof.
  revert k1. induction l1 as [|x l1 IH]; intros [|y k1] H; simpl in *;
    try discriminate; [reflexivity |].
  f_equal. apply IH. now injection H.
Qed.

Lemma in_combine_replicate {A B : Type} (l : list A) (y : B) (a : A) (b : B) :
  In (a, b) (combine l (replicate (length l) y)) <-> In a l /\ b = y.
Proof.
  induction l as [|x l IH]; simpl; [tauto |].
  rewrite IH. split.
  - intros [E | [Hin ->]]; [injection E as <- <-; auto | auto].
  - intros [[-> | Hin] ->]; [now left | right; auto].
Qed.

Variable predicates : list JoinPredicate.

(** The candidate pairs of a partition: a probe row with one of the build
    rows that the hash table returned for it. *)
Definition candidate (partition : PrimaryMatches) (b p : RowID) : Prop :=
  exists matches, In (p, matches) partition /\ In b matches.

Lemma kept_of_candidate p matches kept :
  _apply_additional_join_predicates HYRISE_DEBUG left matches right
    (replicate (length matches) p) predicates = Returned kept ->
  length (fst kept) = length (snd kept)
  /\ (forall b q, In (b, q) (combine (fst kept) (snd kept))
                  <-> q = p /\ In b matches /\ all_compare_equal predicates b q)
  /\ (fst kept = [] <-> forall b, In b matches -> ~ all_compare_equal predicates b p).
Proof.
  intros H.
  apply apply_additional_join_predicates_spec in H
    as [Hlen [_ Hin]]; [| now rewrite length_replicate].
  assert (Hpairs : forall b q,
    In (b, q) (combine (fst kept) (snd kept))
    <-> q = p /\ In b matches /\ all_compare_equal predicates b q).
  { intros b q. rewrite Hin, in_combine_replicate. tauto. }
  split; [exact Hlen | split; [exact Hpairs |]].
  destruct kept as [[|b0 bs] [|q0 qs]]; simpl in *; try discriminate.
  - split; [| reflexivity]. intros _ b Hb Hh.
    apply (proj2 (Hpairs b p)). auto.
  - split; [discriminate |]. intros Hnone. exfalso.
    destruct (proj1 (Hpairs b0 q0) (or_introl eq_refl)) as [-> [Hb Hh]].
    exact (Hnone b0 Hb Hh).
Qed.

Lemma probe_row_spec keep_nulls lists p matches lists' :
  length (fst lists) = length (snd lists) ->
  probe_row HYRISE_DEBUG keep_nulls left right predicates lists (p, matches)
  = Returned lists' ->
  length (fst lists') = length (snd lists')
  /\ forall b q,
       is_null b = false ->
       (In (b, q) (combine (fst lists') (snd lists'))
        <-> In (b, q) (combine (fst lists) (snd lists))
            \/ (q = p /\ In b matches /\ all_compare_equal predicates b q)).
Proof.
  intros Hlen H. unfold probe_row in H. simpl in H.
  apply bind_returned in H as [kept [Hkept H]].
  apply kept_of_candidate in Hkept as [Hklen [Hpairs Hnone]].
  destruct kept as [[|b0 bs] kr]; simpl in H.
  - assert (Hno : forall b q,
      ~ (q = p /\ In b matches /\ all_compare_equal predicates b q)).
    { intros b q [-> [Hb Hh]]. exact (proj1 Hnone eq_refl b Hb Hh). }
    destruct keep_nulls; injection H as <-; simpl.
    + rewrite !length_app, Hlen. split; [reflexivity |].
      intros b q Hb. rewrite combine_app_same by exact Hlen.
      rewrite in_app_iff. simpl. split.
      * intros [Hin | [E | []]]; [now left |].
        injection E as <- <-. discriminate.
      * intros [Hin | Hc]; [now left | destruct (Hno _ _ Hc)].
    + split; [exact Hlen |]. intros b q _. split; [now left |].
      intros [Hin | Hc]; [exact Hin | destruct (Hno _ _ Hc)].
  - injection H as <-. simpl fst in *. simpl snd in *.
    rewrite !length_app, Hlen, Hklen. split; [reflexivity |].
    intros b q _. rewrite combine_app_same by exact Hlen.
    rewrite in_app_iff, Hpairs. tauto.
Qed.

Lemma probe_spec keep_nulls partition :
  forall lists lists',
    length (fst lists) = length (snd lists) ->
    for_each (probe_row HYRISE_DEBUG keep_nulls left right predicates) lists
      partition = Returned lists' ->
    length (fst lists') = length (snd lists')
    /\ forall b q,
         is_null b = false ->
         (In (b, q) (combine (fst lists') (snd lists'))
          <-> In (b, q) (combine (fst lists) (snd lists))
              \/ (candidate partition b q /\ all_compare_equal predicates b q)).
Proof.
  unfold candidate.
  induction partition as [|[p matches] partition IH]; intros lists lists' Hlen H;
    simpl in H.
  - injection H as <-. split; [exact Hlen |]. intros b q _.
    split; [now left |]. intros [Hin | [[m [[] _]] _]]. exact Hin.
  - apply bind_returned in H as [lists1 [Hone H]].
    apply probe_row_spec in Hone as [Hlen1 Hin1]; [| exact Hlen].
    destruct (IH _ _ Hlen1 H) as [Hlen' Hin']. split; [exact Hlen' |].
    intros b q Hb. rewrite (Hin' b q Hb), (Hin1 b q Hb). simpl. split.
    + intros [[Hin | [-> [Hm Hh]]] | [[m [Hpm Hm]] Hh]]; eauto 8.
    + intros [Hin | [[m [[E | Hpm] Hm]] Hh]]; eauto 8.
      injection E as <- <-. auto.
Qed.

Lemma probe_semi_anti_spec mode partition :
  forall pos_list pos_list',
    for_each (probe_semi_anti_row HYRISE_DEBUG mode left right predicates)
      pos_list partition = Returned pos_list' ->
    forall q,
      In q pos_list'
      <-> In q pos_list
          \/ if bool_decide (mode = Semi)
             then exists b, candidate partition b q /\ all_compare_equal predicates b q
             else exists matches,
                    In (q, matches) partition
                    /\ forall b, In b matches -> ~ all_compare_equal predicates b q.
Proof.
  unfold candidate.
  induction partition as [|[p matches] partition IH]; intros pos_list pos_list' H q;
    simpl in H.
  - injection H as <-. split; [now left |].
    intros [Hin | Hc]; [exact Hin |].
    destruct (bool_decide _); [destruct Hc as [b [[m [[] _]] _]]
                              | destruct Hc as [m [[] _]]].
  - apply bind_returned in H as [pos_list1 [Hone H]].
    rewrite (IH _ _ H q). clear IH H.
    unfold probe_semi_anti_row in Hone. simpl in Hone.
    apply bind_returned in Hone as [kept [Hkept Hone]].
    apply kept_of_candidate in Hkept as [Hklen [Hpairs Hnone]].
    injection Hone as <-.
    assert (Hsome : fst kept <> [] -> exists b, In b matches /\ all_compare_equal predicates b p).
    { destruct kept as [[|b0 bs] [|q0 qs]]; simpl in *; try discriminate;
        [congruence |]. intros _.
      destruct (proj1 (Hpairs b0 q0) (or_introl eq_refl)) as [-> [Hb Hh]].
      eauto. }
   
    destruct (bool_decide (mode = Semi)).
    + destruct (fst kept) as [|b0 bs] eqn:Hfst; simpl.
      * pose proof (proj1 Hnone eq_refl) as Hno. split.
        -- intros [Hin | [b [[m [Hpm Hm]] Hh]]]; [now left | right].
           exists b. split; [exists m; split; [now right | exact Hm] | exact Hh].
        -- intros [Hin | [b [[m [[E | Hpm] Hm]] Hh]]]; [now left | | right; eauto].
           injection E as <- <-. destruct (Hno b Hm Hh).
      * destruct (Hsome ltac:(discriminate)) as [b [Hb Hh]].
        rewrite in_app_iff. simpl. split.
        -- intros [[Hin | [<- | []]] | [b' [[m [Hpm Hm]] Hh']]];
             [now left | right | right].
           ++ exists b. split; [exists matches; split; [now left | exact Hb] | exact Hh].
           ++ exists b'. split; [exists m; split; [now right | exact Hm] | exact Hh'].
        -- intros [Hin | [b' [[m [[E | Hpm] Hm]] Hh']]]; [tauto | | right; eauto].
           injection E as <- <-. tauto.
    + destruct (fst kept) as [|b0 bs] eqn:Hfst; simpl.
      * pose proof (proj1 Hnone eq_refl) as Hno.
        rewrite in_app_iff. simpl. split.
        -- intros [[Hin | [<- | []]] | [m [Hpm Hall]]]; [now left | right | right].
           ++ exists matches. split; [now left | exact Hno].
           ++ exists m. split; [now right | exact Hall].
        -- intros [Hin | [m [[E | Hpm] Hall]]]; [tauto | | right; eauto].
           injection E as <- <-. tauto.
      * destruct (Hsome ltac:(discriminate)) as [b [Hb Hh]]. split.
        -- intros [Hin | [m [Hpm Hall]]]; [now left | right].
           exists m. split; [now right | exact Hall].
        -- intros [Hin | [m [[E | Hpm] Hall]]]; [now left | | right; eauto].
           injection E as <- <-. destruct (Hall b Hb Hh).
Qed.

End HashJoinPredicates.

Section HashJoinProbe.
Import Storage JoinHash.

Variable HYRISE_DEBUG : bool.

Lemma for_each_collect {A B : Type} (f : A -> Outcome B) (l : list A) :
  forall acc out,
    for_each (fun ys x => y ← f x; Returned (ys ++ [y])) acc l = Returned out ->
    exists ys, out = acc ++ ys /\ Forall2 (fun x y => f x = Returned y) l ys.
Proof.
  induction l as [|x l IH]; intros acc out H; simpl in H.
  - injection H as <-. exists []. split; [now rewrite app_nil_r | constructor].
  - apply bind_returned in H as [acc1 [Hone H]].
    apply bind_returned in Hone as [y [Hy Hone]]. injection Hone as <-.
    destruct (IH _ _ H) as [ys [-> HF]].
    exists (y :: ys). split; [now rewrite <- app_assoc | now constructor].
Qed.

Lemma for_each_collect_pairs {A B C : Type} (f : A -> Outcome (B * C))
    (l : list A) :
  forall acc out,
    for_each
      (fun lists x =>
         pair ← f x; Returned (fst lists ++ [fst pair], snd lists ++ [snd pair]))
      acc l = Returned out ->
    exists pairs,
      fst out = fst acc ++ map fst pairs
      /\ snd out = snd acc ++ map snd pairs
      /\ Forall2 (fun x pair => f x = Returned pair) l pairs.
Proof.
  induction l as [|x l IH]; intros acc out H; simpl in H.
  - injection H as <-. exists []. simpl. rewrite !app_nil_r.
    repeat split. constructor.
  - apply bind_returned in H as [acc1 [Hone H]].
    apply bind_returned in Hone as [pair [Hpair Hone]]. injection Hone as <-.
    destruct (IH _ _ H) as [pairs [Hl [Hr HF]]]. simpl in Hl, Hr.
    exists (pair :: pairs). simpl.
    rewrite Hl, Hr, <- !app_assoc. repeat split. now constructor.
Qed.

(** What the position lists of partition [i] owe to the candidate pairs of
    the partition, by join mode. *)
Definition filtered_by_predicates (impl : Impl) (partition : PrimaryMatches)
    (L R : PosList) : Prop :=
  let holds :=
    all_compare_equal (_left impl) (_right impl)
      (impl_additional_join_predicates impl) in
  match impl_mode impl with
  | Semi =>
      forall p, In p R <-> exists b, candidate partition b p /\ holds b p
  | Anti =>
      forall p,
        In p R
        <-> exists matches,
              In (p, matches) partition
              /\ forall b, In b matches -> ~ holds b p
  | _ =>
      length L = length R
      /\ forall b p,
           is_null b = false ->
           (In (b, p) (combine L R) <-> candidate partition b p /\ holds b p)
  end.

(** The lists of a probe phase that returns are filtered. *)
Lemma probe_phase_filtered (impl : Impl)
    (partitions : list PrimaryMatches) (lists : list PosList * list PosList) :
  probe_phase HYRISE_DEBUG impl partitions = Returned lists ->
  length (fst lists) = length partitions
  /\ length (snd lists) = length partitions
  /\ forall i partition L R,
       partitions !! i = Some partition ->
       fst lists !! i = Some L ->
       snd lists !! i = Some R ->
       filtered_by_predicates impl partition L R.
Proof.
  intros H. unfold probe_phase in H.
  destruct (JoinMode_eqb (impl_mode impl) Semi
            || JoinMode_eqb (impl_mode impl) Anti) eqn:Hmode.
  - apply bind_returned in H as [right_pos_lists [Hright H]].
    injection H as <-. simpl.
    apply for_each_collect in Hright as [Rs [-> HF]]. simpl.
    rewrite length_replicate. split; [reflexivity |].
    split; [symmetry; exact (Forall2_length _ _ _ HF) |].
    intros i partition L R Hp _ HR.
    destruct (Forall2_lookup_l _ _ _ _ _ HF Hp) as [R' [HR' Hprobe]].
    assert (R' = R) by congruence. subst R'.
    unfold probe_semi_anti in Hprobe.
    pose proof (probe_semi_anti_spec HYRISE_DEBUG (_left impl) (_right impl)
                  (impl_additional_join_predicates impl) (impl_mode impl)
                  partition [] R Hprobe) as Hspec.
    unfold filtered_by_predicates.
    destruct (impl_mode impl); try discriminate; intros p;
      rewrite (Hspec p); simpl; tauto.
  - apply bind_returned in H as [lists1 [Hlists H]]. injection H as <-.
    apply for_each_collect_pairs in Hlists as [pairs [Hl [Hr HF]]].
    simpl in Hl, Hr. rewrite Hl, Hr, !length_map.
    split; [symmetry; exact (Forall2_length _ _ _ HF) |].
    split; [symmetry; exact (Forall2_length _ _ _ HF) |].
    intros i partition L R Hp HL HR.
    destruct (Forall2_lookup_l _ _ _ _ _ HF Hp) as [pair [Hpair Hprobe]].
    rewrite list_lookup_fmap, Hpair in HL, HR. simpl in HL, HR.
    injection HL as <-. injection HR as <-.
    unfold probe in Hprobe.
    destruct (probe_spec HYRISE_DEBUG (_left impl) (_right impl)
                (impl_additional_join_predicates impl) _ partition ([], []) pair
                eq_refl Hprobe) as [Hlen Hin].
    unfold filtered_by_predicates.
    destruct (impl_mode impl); try discriminate;
      (split; [exact Hlen |]); intros b p Hb; rewrite (Hin b p Hb);
      simpl; tauto.
Qed.

(** The cells that the additional predicates cite exist for every
    candidate pair, and the predicates pass the assertion of a debug
    build. *)
Definition cells_defined (left right : Table) (pred : JoinPredicate)
    (b p : RowID) : Prop :=
  (exists v, cell left b (fst (column_id_pair pred)) = Returned v)
  /\ (exists v, cell right p (snd (column_id_pair pred)) = Returned v).

Definition probe_inputs_valid (impl : Impl) (partitions : list PrimaryMatches)
    : Prop :=
  (HYRISE_DEBUG = true ->
   Forall (fun pred => predicate_condition pred = Equals)
     (impl_additional_join_predicates impl))
  /\ forall partition p matches b pred,
       In partition partitions -> In (p, matches) partition -> In b matches ->
       In pred (impl_additional_join_predicates impl) ->
       cells_defined (_left impl) (_right impl) pred b p.

Lemma row_pair_satisfies_predicates_returns left right b p predicates :
  (HYRISE_DEBUG = true ->
   Forall (fun pred => predicate_condition pred = Equals) predicates) ->
  (forall pred, In pred predicates -> cells_defined left right pred b p) ->
  exists keep,
    row_pair_satisfies_predicates HYRISE_DEBUG left right b p predicates
    = Returned keep.
Proof.
  induction predicates as [|pred rest IH]; intros Hdebug Hcells; simpl.
  - eauto.
  - destruct (Hcells pred (or_introl eq_refl)) as [[lv Hlv] [rv Hrv]].
    destruct IH as [keep Hkeep].
    { intros Hd. specialize (Hdebug Hd). now inversion Hdebug. }
    { intros pred' Hin. apply Hcells. now right. }
    assert (Hbody :
      exists keep',
        (left_value ← cell left b (fst (column_id_pair pred));
         right_value ← cell right p (snd (column_id_pair pred));
         if negb (variant_eqb left_value right_value) then Returned false
         else row_pair_satisfies_predicates HYRISE_DEBUG left right b p rest)
        = Returned keep').
    { rewrite Hlv, Hrv. cbn. destruct (variant_eqb lv rv); cbn; eauto. }
    unfold DebugAssert, Assert. destruct HYRISE_DEBUG; [| exact Hbody].
    specialize (Hdebug eq_refl). inversion Hdebug as [|? ? Heq _]. subst.
    rewrite Heq. exact Hbody.
Qed.

Lemma apply_additional_join_predicates_returns left right p matches predicates :
  (HYRISE_DEBUG = true ->
   Forall (fun pred => predicate_condition pred = Equals) predicates) ->
  (forall b pred, In b matches -> In pred predicates ->
                  cells_defined left right pred b p) ->
  exists kept,
    _apply_additional_join_predicates HYRISE_DEBUG left matches right
      (replicate (length matches) p) predicates = Returned kept.
Proof.
  intros Hdebug Hcells. unfold _apply_additional_join_predicates.
  assert (Hbody :
    exists kept,
      match predicates with
      | [] => Returned (matches, replicate (length matches) p)
      | _ :: _ =>
          select_rows HYRISE_DEBUG left right predicates matches
            (replicate (length matches) p)
      end = Returned kept).
  { destruct predicates as [|pred rest]; [eauto |].
    remember (pred :: rest) as predicates eqn:E. clear E.
    induction matches as [|b matches IH]; simpl; [eauto |].
    destruct (row_pair_satisfies_predicates_returns left right b p predicates
                Hdebug) as [keep ->].
    { intros pred' Hin. apply Hcells; [now left | exact Hin]. }
    destruct IH as [rest' ->].
    { intros b' pred' Hb Hin. apply Hcells; [now right | exact Hin]. }
    cbn. eauto. }
  unfold DebugAssert, Assert. destruct HYRISE_DEBUG; [| exact Hbody].
  rewrite length_replicate, Nat.eqb_refl. exact Hbody.
Qed.

Lemma for_each_returns {A S : Type} (body : S -> A -> Outcome S) (l : list A) :
  (forall s x, In x l -> exists s', body s x = Returned s') ->
  forall s, exists s', for_each body s l = Returned s'.
Proof.
  induction l as [|x l IH]; intros Hbody s; simpl; [eauto |].
  destruct (Hbody s x (or_introl eq_refl)) as [s1 ->]. cbn.
  apply IH. intros s0 y Hy. apply Hbody. now right.
Qed.

Lemma probe_phase_returns (impl : Impl) (partitions : list PrimaryMatches) :
  probe_inputs_valid impl partitions ->
  exists lists, probe_phase HYRISE_DEBUG impl partitions = Returned lists.
Proof.
  intros [Hdebug Hcells]. unfold probe_phase.
  destruct (JoinMode_eqb (impl_mode impl) Semi
            || JoinMode_eqb (impl_mode impl) Anti).
  - destruct (for_each_returns
      (fun lists partition =>
         pos_list ← probe_semi_anti HYRISE_DEBUG (impl_mode impl) (_left impl)
                      (_right impl) (impl_additional_join_predicates impl)
                      partition;
         Returned (lists ++ [pos_list])) partitions) with (s := @nil PosList)
      as [lists ->]; [| cbn; eauto].
    intros acc partition Hpart. unfold probe_semi_anti.
    destruct (for_each_returns
      (probe_semi_anti_row HYRISE_DEBUG (impl_mode impl) (_left impl)
         (_right impl) (impl_additional_join_predicates impl)) partition)
      with (s := @nil RowID) as [pos_list ->]; [| cbn; eauto].
    intros acc' [p matches] Hin. unfold probe_semi_anti_row. simpl.
    destruct (apply_additional_join_predicates_returns (_left impl)
                (_right impl) p matches _ Hdebug) as [kept ->]; [| cbn; eauto].
    intros b pred Hb Hpred. eapply Hcells; eauto.
  - destruct (for_each_returns
      (fun lists partition =>
         pair ← probe HYRISE_DEBUG
                  (JoinMode_eqb (impl_mode impl) Left
                   || JoinMode_eqb (impl_mode impl) Right)
                  (_left impl) (_right impl)
                  (impl_additional_join_predicates impl) partition;
         Returned (fst lists ++ [fst pair], snd lists ++ [snd pair]))
      partitions) with (s := (@nil PosList, @nil PosList))
      as [lists ->]; [| cbn; eauto].
    intros acc partition Hpart. unfold probe.
    destruct (for_each_returns
      (probe_row HYRISE_DEBUG
         (JoinMode_eqb (impl_mode impl) Left
          || JoinMode_eqb (impl_mode impl) Right)
         (_left impl) (_right impl) (impl_additional_join_predicates impl))
      partition) with (s := (@nil RowID, @nil RowID)) as [pair ->];
      [| cbn; eauto].
    intros acc' [p matches] Hin. unfold probe_row. simpl.
    destruct (apply_additional_join_predicates_returns (_left impl)
                (_right impl) p matches _ Hdebug) as [kept ->].
    { intros b pred Hb Hpred. eapply Hcells; eauto. }
    cbn. destruct kept as [[|b0 bs] qs]; simpl; [destruct (_ || _) |]; eauto.
Qed.

(** C1.  In every join mode the position lists the probe phase leaves for
    a partition are filtered by the additional predicates.  In the modes
    that emit pairs, a pair of a build row and a probe row is in the lists
    iff it is a candidate pair of the primary hash match and on every
    additional predicate the two cited cells compare equal (a cell that is
    NULL is equal to nothing); pairs that fail a predicate are not in the
    lists.  Semi emits a probe row iff one of its candidate pairs
    passes all predicates, Anti iff none does. *)
Theorem hash_join_additional_predicates (impl : Impl)
    (partitions : list PrimaryMatches) :
  impl_additional_join_predicates impl <> [] ->
  probe_inputs_valid impl partitions ->
  exists lists,
    probe_phase HYRISE_DEBUG impl partitions = Returned lists
    /\ length (fst lists) = length partitions
    /\ length (snd lists) = length partitions
    /\ forall i partition L R,
         partitions !! i = Some partition ->
         fst lists !! i = Some L ->
         snd lists !! i = Some R ->
         filtered_by_predicates impl partition L R.
Proof.
  intros _ Hvalid.
  destruct (probe_phase_returns impl partitions Hvalid) as [lists Hlists].
  exists lists. split; [exact Hlists |].
  exact (probe_phase_filtered impl partitions lists Hlists).
Qed.

End HashJoinProbe.

(** A build table with the keys [2, 2, 3] and a probe table with the keys
    [2, 3, 4], each with a second column; the join is on the keys, with
    the additional predicate that the second columns are equal. *)
Definition build_table : Storage.Table :=
  Storage.mkTable Storage.Data 2
    [[Storage.ValueSegment (map Storage.IntValue [2; 2; 3]%Z);
      Storage.ValueSegment (map Storage.IntValue [10; 20; 30]%Z)]].

Definition probe_table : Storage.Table :=
  Storage.mkTable Storage.Data 2
    [[Storage.ValueSegment (map Storage.IntValue [2; 3; 4]%Z);
      Storage.ValueSegment
        [Storage.IntValue 20; Storage.IntValue 30; Storage.NullValue]]].

Definition two_predicate_join (mode : JoinMode) : JoinHash.Impl :=
  JoinHash.mkImpl build_table probe_table mode (0, 0) Equals false None
    [JoinHash.mkJoinPredicate (1, 1) Equals].

(** The hash lookups of the only partition: probe row 0 finds the build
    rows 0 and 1, probe row 1 finds build row 2, probe row 2 finds
    nothing. *)
Definition primary_matches : list JoinHash.PrimaryMatches :=
  [[(Storage.mkRowID 0 0, [Storage.mkRowID 0 0; Storage.mkRowID 0 1]);
    (Storage.mkRowID 0 1, [Storage.mkRowID 0 2]);
    (Storage.mkRowID 0 2, [])]].

Lemma primary_matches_valid mode :
  probe_inputs_valid true (two_predicate_join mode) primary_matches.
Proof.
  split; [intros _; repeat constructor |].
  intros partition p matches b pred Hpart Hin Hb Hpred.
  simpl in Hpart. destruct Hpart as [<- | []].
  simpl in Hpred. destruct Hpred as [<- | []].
  simpl in Hin. destruct Hin as [E | [E | [E | []]]]; injection E as <- <-;
    simpl in Hb; intuition subst; split; eexists; reflexivity.
Qed.

(** The inner join keeps the pair of build row 1 with probe row 0 and the
    pair of build row 2 with probe row 1; the candidate pair of build row
    0 with probe row 0 fails the additional predicate. *)
Example probe_phase_inner :
  JoinHash.probe_phase true (two_predicate_join Inner) primary_matches
  = Returned ([[Storage.mkRowID 0 1; Storage.mkRowID 0 2]],
              [[Storage.mkRowID 0 0; Storage.mkRowID 0 1]]).
Proof. reflexivity. Qed.

Lemma hash_join_additional_predicates_witness :
  JoinHash.impl_additional_join_predicates (two_predicate_join Inner) <> []
  /\ probe_inputs_valid true (two_predicate_join Inner) primary_matches
  /\ exists lists,
       JoinHash.probe_phase true (two_predicate_join Inner) primary_matches
       = Returned lists
       /\ length (fst lists) = length primary_matches
       /\ length (snd lists) = length primary_matches
       /\ forall i partition L R,
            primary_matches !! i = Some partition ->
            fst lists !! i = Some L ->
            snd lists !! i = Some R ->
            filtered_by_predicates (two_predicate_join Inner) partition L R.
Proof.
  assert (Hne : JoinHash.impl_additional_join_predicates
                  (two_predicate_join Inner) <> []) by discriminate.
  split; [exact Hne |].
  split; [exact (primary_matches_valid Inner) |].
  exact (hash_join_additional_predicates true (two_predicate_join Inner)
           primary_matches Hne (primary_matches_valid Inner)).
Defined.

(** ** Sort-merge join: runs of equal values *)

Section Runs.
Import Storage JoinSortMerge.

(** A cluster as the radix cluster sort delivers it: sorted by value. *)
Definition sorted_by_value (segment : MaterializedSegment) : Prop :=
  forall i j x y,
    i <= j -> segment !! i = Some x -> segment !! j = Some y ->
    (value x <= value y)%Z.

Lemma upper_bound_spec (segment : MaterializedSegment) (v : Z) (start : nat) :
  sorted_by_value segment ->
  forall fuel first count,
    count <= fuel ->
    first + count <= length segment ->
    start <= first ->
    (forall i y, start <= i < first -> segment !! i = Some y ->
                 (value y <= v)%Z) ->
    (forall i y, first + count <= i -> segment !! i = Some y ->
                 (v < value y)%Z) ->
    let r := upper_bound fuel segment v first count in
    first <= r <= first + count
    /\ (forall i y, start <= i < r -> segment !! i = Some y -> (value y <= v)%Z)
    /\ (forall i y, r <= i -> segment !! i = Some y -> (v < value y)%Z).
Proof.
  intros Hsorted. induction fuel as [|fuel IH];
    intros first count Hfuel Hbound Hstart Hlow Hhigh; cbn [upper_bound].
  - assert (count = 0) by lia. subst count.
    split; [lia | split; [exact Hlow |]].
    intros i y Hi. apply Hhigh. lia.
  - destruct (Nat.eqb_spec count 0) as [-> | Hpos].
    + split; [lia | split; [exact Hlow |]].
      intros i y Hi. apply Hhigh. lia.
    + assert (Hstep : count / 2 < count) by (apply Nat.div_lt; lia).
      destruct (lookup_lt_is_Some_2 segment (first + count / 2)) as [m Hm];
        [lia |].
      rewrite Hm. destruct (Z.ltb_spec v (value m)) as [Hlt | Hge].
      * destruct (IH first (count / 2)) as [Hr [Hl Hh]]; try lia; auto.
        { intros i y Hi Hy.
          pose proof (Hsorted (first + count / 2) i m y Hi Hm Hy). lia. }
        split; [lia | split; assumption].
      * destruct (IH (S (first + count / 2)) (count - count / 2 - 1))
          as [Hr [Hl Hh]]; try lia; auto.
        { intros i y Hi Hy.
          destruct (Nat.lt_ge_cases i first) as [Hbelow | Habove].
          - apply (Hlow i y); [lia | exact Hy].
          - pose proof (Hsorted i (first + count / 2) y m ltac:(lia) Hy Hm).
            lia. }
        { intros i y Hi. apply Hhigh. lia. }
        split; [lia | split; assumption].
Qed.

(** The run that starts at [start] ends where the values become greater;
    all its values are the value at [start]. *)
Lemma run_length_spec (segment : MaterializedSegment) (start : nat)
    (x : MaterializedValue) :
  sorted_by_value segment ->
  segment !! start = Some x ->
  let run_end := start + _run_length start segment in
  start < run_end <= length segment
  /\ (forall i y, start <= i < run_end -> segment !! i = Some y ->
                  value y = value x)
  /\ (forall i y, run_end <= i -> segment !! i = Some y ->
                  (value x < value y)%Z).
Proof.
  intros Hsorted Hx. unfold _run_length. rewrite Hx.
  pose proof (lookup_lt_Some _ _ _ Hx) as Hlt.
  destruct (upper_bound_spec segment (value x) start Hsorted
              (length segment - start) start (length segment - start))
    as [Hr [Hl Hh]]; try lia.
  { intros i y Hi Hy. apply lookup_lt_Some in Hy. exfalso. lia. }
  set (r := upper_bound _ _ _ _ _) in *.
  assert (Hgt : start < r).
  { destruct (Nat.lt_ge_cases start r) as [H | H]; [exact H |].
    pose proof (Hh start x H Hx). lia. }
  replace (start + (r - start)) with r by lia.
  split; [lia | split; [| exact Hh]].
  intros i y Hi Hy.
  pose proof (Hl i y Hi Hy).
  pose proof (Hsorted start i x y ltac:(lia) Hx Hy). lia.
Qed.

Lemma run_length_bound (segment : MaterializedSegment) (start : nat) :
  sorted_by_value segment ->
  start <= length segment ->
  start + _run_length start segment <= length segment.
Proof.
  intros Hsorted Hle.
  destruct (segment !! start) as [x |] eqn:Hx.
  - pose proof (run_length_spec segment start x Hsorted Hx). simpl in *. lia.
  - unfold _run_length. rewrite Hx. lia.
Qed.

(** The rows of a range inside one cluster. *)
Lemma for_every_row_id_cluster_range table c start_index end_index :
  for_every_row_id table (cluster_range c start_index end_index)
  = map row_id
      (take (end_index - start_index)
         (drop start_index (default [] (table !! c)))).
Proof.
  unfold for_every_row_id, cluster_range. simpl.
  replace (S c - c) with 1 by lia. simpl.
  rewrite Nat.eqb_refl. apply app_nil_r.
Qed.

End Runs.

(** ** Sort-merge join: the merge loop of a cluster *)

Section MergeLoop.
Import Storage JoinSortMerge.

Variable impl : Impl.
Variable cluster_number : nat.
Variables left_cluster right_cluster : MaterializedSegment.
Hypothesis left_sorted : sorted_by_value left_cluster.
Hypothesis right_sorted : sorted_by_value right_cluster.
Hypothesis condition_supported : supported_condition (_op impl) = true.

(** Both windows are runs: they end where [_run_length] says. *)
Definition runs_ok (runs : Runs) : Prop :=
  left_run_end runs
  = left_run_start runs + _run_length (left_run_start runs) left_cluster
  /\ right_run_end runs
     = right_run_start runs + _run_length (right_run_start runs) right_cluster
  /\ left_run_start runs <= length left_cluster
  /\ right_run_start runs <= length right_cluster.

(** The rows that are still ahead of the two windows. *)
Definition rows_ahead (runs : Runs) : nat :=
  (length left_cluster - left_run_start runs)
  + (length right_cluster - right_run_start runs).

(** The windows after an iteration on the values [l] and [r]. *)
Definition next_runs (runs : Runs) (l r : MaterializedValue) : Runs :=
  match _compare (value l) (value r) with
  | Equal => advance_right right_cluster (advance_left left_cluster runs)
  | Less => advance_left left_cluster runs
  | Greater => advance_right right_cluster runs
  end.

Definition left_run (runs : Runs) : TableRange :=
  cluster_range cluster_number (left_run_start runs) (left_run_end runs).
Definition right_run (runs : Runs) : TableRange :=
  cluster_range cluster_number (right_run_start runs) (right_run_end runs).

Lemma join_runs_returns out left_range right_range compare_result :
  exists out',
    _join_runs impl out left_range right_range compare_result = Returned out'.
Proof.
  unfold _join_runs.
  destruct (_op impl); try discriminate; destruct compare_result;
    try (eexists; reflexivity);
    match goal with |- context [if ?b then _ else _] => destruct b end;
    eexists; reflexivity.
Qed.

Lemma iteration_unfold runs out l r :
  left_cluster !! left_run_start runs = Some l ->
  right_cluster !! right_run_start runs = Some r ->
  join_cluster_iteration impl cluster_number left_cluster right_cluster runs out
  = (out' ← _join_runs impl out (left_run runs) (right_run runs)
              (_compare (value l) (value r));
     Returned (next_runs runs l r, out')).
Proof.
  intros Hl Hr. unfold join_cluster_iteration. rewrite Hl, Hr. reflexivity.
Qed.

Lemma runs_left_lookup runs :
  runs_left left_cluster right_cluster runs = true ->
  exists l r,
    left_cluster !! left_run_start runs = Some l
    /\ right_cluster !! right_run_start runs = Some r.
Proof.
  unfold runs_left. intros H. apply andb_true_iff in H as [Hl Hr].
  apply Nat.ltb_lt in Hl, Hr.
  destruct (lookup_lt_is_Some_2 left_cluster _ Hl) as [l Hl'].
  destruct (lookup_lt_is_Some_2 right_cluster _ Hr) as [r Hr'].
  eauto.
Qed.

Lemma next_runs_ok runs l r :
  runs_ok runs ->
  left_cluster !! left_run_start runs = Some l ->
  right_cluster !! right_run_start runs = Some r ->
  runs_ok (next_runs runs l r)
  /\ rows_ahead (next_runs runs l r) < rows_ahead runs.
Proof.
  intros (Hle & Hre & Hlb & Hrb) Hl Hr.
  pose proof (run_length_spec left_cluster _ l left_sorted Hl) as [Hl1 _].
  pose proof (run_length_spec right_cluster _ r right_sorted Hr) as [Hr1 _].
  pose proof (lookup_lt_Some _ _ _ Hl). pose proof (lookup_lt_Some _ _ _ Hr).
  unfold next_runs, runs_ok, rows_ahead, advance_left, advance_right.
  destruct (_compare (value l) (value r)); simpl; rewrite ?Hle, ?Hre;
    repeat split; try reflexivity; try lia.
Qed.

(** The merge loop returns, and what holds before it and is kept by every
    iteration holds after it. *)
Lemma join_cluster_loop_spec (P : Runs -> Output -> Prop) :
  (forall runs out l r out',
     runs_ok runs -> P runs out ->
     left_cluster !! left_run_start runs = Some l ->
     right_cluster !! right_run_start runs = Some r ->
     _join_runs impl out (left_run runs) (right_run runs)
       (_compare (value l) (value r)) = Returned out' ->
     P (next_runs runs l r) out') ->
  forall fuel runs out,
    runs_ok runs -> P runs out -> rows_ahead runs <= fuel ->
    exists runs' out',
      join_cluster_loop impl fuel cluster_number left_cluster right_cluster
        runs out = Returned (runs', out')
      /\ runs_ok runs' /\ P runs' out'
      /\ runs_left left_cluster right_cluster runs' = false.
Proof.
  intros Hstep. induction fuel as [|fuel IH]; intros runs out Hok HP Hfuel.
  - simpl. destruct (runs_left left_cluster right_cluster runs) eqn:Hleft.
    + exfalso. unfold runs_left in Hleft. unfold rows_ahead in Hfuel.
      apply andb_true_iff in Hleft as [Hl Hr]. apply Nat.ltb_lt in Hl, Hr. lia.
    + eauto 6.
  - simpl. destruct (runs_left left_cluster right_cluster runs) eqn:Hleft;
      [| eauto 6].
    destruct (runs_left_lookup runs Hleft) as (l & r & Hl & Hr).
    rewrite (iteration_unfold runs out l r Hl Hr).
    destruct (join_runs_returns out (left_run runs) (right_run runs)
                (_compare (value l) (value r))) as [out' Hout].
    rewrite Hout. cbn.
    destruct (next_runs_ok runs l r Hok Hl Hr) as [Hok' Hless].
    apply IH; [exact Hok' | | lia].
    eapply Hstep; eauto.
Qed.

End MergeLoop.

(** ** Sort-merge join: Semi and Anti in one cluster *)

Section SemiAntiCluster.
Import Storage JoinSortMerge.

(** A left row has a join partner in the right cluster. *)
Definition has_match (right_cluster : MaterializedSegment)
    (x : MaterializedValue) : bool :=
  existsb (fun y => Z.eqb (value y) (value x)) right_cluster.

Lemma has_match_true right_cluster x :
  has_match right_cluster x = true
  <-> exists j y, right_cluster !! j = Some y /\ value y = value x.
Proof.
  unfold has_match. rewrite existsb_exists. split.
  - intros [y [Hin Heq]]. apply list_elem_of_In, list_elem_of_lookup in Hin.
    destruct Hin as [j Hj]. exists j, y. split; [exact Hj | now apply Z.eqb_eq].
  - intros (j & y & Hj & Heq). exists y. split; [| now apply Z.eqb_eq].
    apply list_elem_of_In, list_elem_of_lookup. eauto.
Qed.

Lemma has_match_false right_cluster x :
  (forall j y, right_cluster !! j = Some y -> value y <> value x) ->
  has_match right_cluster x = false.
Proof.
  intros H. destruct (has_match right_cluster x) eqn:E; [| reflexivity].
  apply has_match_true in E as (j & y & Hj & Heq). destruct (H j y Hj Heq).
Qed.

Lemma filter_all {A : Type} (f : A -> bool) (l : list A) :
  (forall i x, l !! i = Some x -> f x = true) -> List.filter f l = l.
Proof.
  induction l as [|a l IH]; intros H; simpl; [reflexivity |].
  rewrite (H 0 a eq_refl). f_equal. apply IH. intros i x. apply (H (S i)).
Qed.

Lemma filter_none {A : Type} (f : A -> bool) (l : list A) :
  (forall i x, l !! i = Some x -> f x = false) -> List.filter f l = [].
Proof.
  induction l as [|a l IH]; intros H; simpl; [reflexivity |].
  rewrite (H 0 a eq_refl). apply IH. intros i x. apply (H (S i)).
Qed.

Lemma lookup_run {A : Type} (l : list A) (s e i : nat) (x : A) :
  take (e - s) (drop s l) !! i = Some x ->
  l !! (s + i) = Some x /\ s <= s + i < e.
Proof.
  intros H. apply lookup_take_Some in H as [H Hi].
  rewrite lookup_drop in H. split; [exact H | lia].
Qed.

Variable impl : Impl.
Variable cluster_number : nat.
Variables left_cluster right_cluster : MaterializedSegment.
Hypothesis left_sorted : sorted_by_value left_cluster.
Hypothesis right_sorted : sorted_by_value right_cluster.
Hypothesis left_at :
  _sorted_left_table impl !! cluster_number = Some left_cluster.
Hypothesis right_at :
  _sorted_right_table impl !! cluster_number = Some right_cluster.
Hypothesis equi : _op impl = Equals.
Hypothesis left_only : _mode impl = Semi \/ _mode impl = Anti.

Lemma pairs_not_kept : pairs_kept impl = false.
Proof. unfold pairs_kept. destruct left_only as [-> | ->]; reflexivity. Qed.

Lemma equi_supported : supported_condition (_op impl) = true.
Proof. now rewrite equi. Qed.

(** [_join_runs] of a Semi or Anti join on equality: the left run is
    emitted when the runs are equal, nothing otherwise. *)
Lemma join_runs_semi out left_range right_range compare_result :
  cluster (range_start left_range) = cluster_number ->
  _join_runs impl out left_range right_range compare_result
  = Returned
      match compare_result with
      | Equal => append_left out cluster_number (left_rows impl left_range)
      | _ => out
      end.
Proof.
  intros Hc. unfold _join_runs. rewrite equi, Hc.
  destruct compare_result.
  - destruct left_only as [-> | ->]; reflexivity.
  - destruct left_only as [-> | ->]; reflexivity.
  - now rewrite emit_all_combinations_left by exact pairs_not_kept.
Qed.

(** The invariant of the loop: the output holds the rows of the left
    cluster before the left window that have a match; the rows before one
    window are smaller than the rows from the other window on. *)
Definition semi_invariant (out0 : Output) (runs : Runs) (out : Output) : Prop :=
  out = append_left out0 cluster_number
          (map row_id
             (List.filter (has_match right_cluster)
                (take (left_run_start runs) left_cluster)))
  /\ (forall j y i x,
        j < right_run_start runs -> right_cluster !! j = Some y ->
        left_run_start runs <= i -> left_cluster !! i = Some x ->
        (value y < value x)%Z)
  /\ (forall i x j y,
        i < left_run_start runs -> left_cluster !! i = Some x ->
        right_run_start runs <= j -> right_cluster !! j = Some y ->
        (value x < value y)%Z).

Lemma semi_invariant_step out0 runs out l r out' :
  runs_ok left_cluster right_cluster runs ->
  semi_invariant out0 runs out ->
  left_cluster !! left_run_start runs = Some l ->
  right_cluster !! right_run_start runs = Some r ->
  _join_runs impl out (left_run cluster_number runs)
    (right_run cluster_number runs) (_compare (value l) (value r))
  = Returned out' ->
  semi_invariant out0 (next_runs left_cluster right_cluster runs l r) out'.
Proof.
  intros (Hle & Hre & Hlb & Hrb) (Hout & I1 & I2) Hl Hr Hruns.
  rewrite join_runs_semi in Hruns by reflexivity.
  pose proof (run_length_spec left_cluster _ l left_sorted Hl) as (L1 & L2 & L3).
  pose proof (run_length_spec right_cluster _ r right_sorted Hr) as (R1 & R2 & R3).
  simpl in L1, L2, L3, R1, R2, R3. rewrite <- Hle in L1, L2, L3.
  rewrite <- Hre in R1, R2, R3.
  assert (Hrun :
    take (left_run_end runs) left_cluster
    = take (left_run_start runs) left_cluster
      ++ take (left_run_end runs - left_run_start runs)
           (drop (left_run_start runs) left_cluster)).
  { rewrite take_take_drop. f_equal. lia. }
  unfold next_runs, _compare in *.
  destruct (Z.ltb_spec (value l) (value r)) as [Hlt | Hge].
  - (* Less: the left run has no partner *)
    injection Hruns as <-. unfold semi_invariant, advance_left. simpl.
    split; [| split].
    + rewrite Hrun, List.filter_app, (filter_none _ (take _ (drop _ _))), app_nil_r;
        [exact Hout |].
      intros k x Hk. apply lookup_run in Hk as [Hx Hk].
      apply has_match_false. intros j y Hy.
      pose proof (L2 _ _ Hk Hx).
      destruct (Nat.lt_ge_cases j (right_run_start runs)) as [Hj | Hj].
      * pose proof (I1 j y _ l Hj Hy (Nat.le_refl _) Hl). lia.
      * pose proof (right_sorted _ _ r y Hj Hr Hy). lia.
    + intros j y i x Hj Hy Hi Hx. apply (I1 j y i x); auto. lia.
    + intros i x j y Hi Hx Hj Hy.
      destruct (Nat.lt_ge_cases i (left_run_start runs)) as [Hb | Hb].
      * apply (I2 i x j y); auto.
      * pose proof (L2 i x ltac:(lia) Hx).
        pose proof (right_sorted _ _ r y Hj Hr Hy). lia.
  - destruct (Z.eqb_spec (value l) (value r)) as [Heq | Hne].
    + (* Equal: the left run is emitted *)
      injection Hruns as <-. unfold semi_invariant, advance_left, advance_right.
      simpl. split; [| split].
      * unfold left_rows, left_run.
        rewrite for_every_row_id_cluster_range, left_at. simpl.
        rewrite Hout, append_left_app, <- map_app, Hrun, List.filter_app.
        rewrite (filter_all _ (take _ (drop _ _))); [reflexivity |].
        intros k x Hk. apply lookup_run in Hk as [Hx Hk].
        apply has_match_true. exists (right_run_start runs), r.
        split; [exact Hr |]. rewrite (L2 _ _ Hk Hx). congruence.
      * intros j y i x Hj Hy Hi Hx. pose proof (L3 i x Hi Hx).
        destruct (Nat.lt_ge_cases j (right_run_start runs)) as [Hb | Hb].
        -- pose proof (I1 j y _ l Hb Hy (Nat.le_refl _) Hl). lia.
        -- pose proof (R2 j y ltac:(lia) Hy). lia.
      * intros i x j y Hi Hx Hj Hy. pose proof (R3 j y Hj Hy).
        destruct (Nat.lt_ge_cases i (left_run_start runs)) as [Hb | Hb].
        -- pose proof (I2 i x _ r Hb Hx (Nat.le_refl _) Hr). lia.
        -- pose proof (L2 i x ltac:(lia) Hx). lia.
    + (* Greater: the right run has no partner *)
      injection Hruns as <-. unfold semi_invariant, advance_right. simpl.
      split; [exact Hout | split].
      * intros j y i x Hj Hy Hi Hx.
        destruct (Nat.lt_ge_cases j (right_run_start runs)) as [Hb | Hb].
        -- apply (I1 j y i x); auto.
        -- pose proof (R2 j y ltac:(lia) Hy).
           pose proof (left_sorted _ _ l x Hi Hl Hx). lia.
      * intros i x j y Hi Hx Hj Hy. apply (I2 i x j y); auto. lia.
Qed.

(** The rows of the left cluster that a Semi join keeps, and those an
    Anti join keeps. *)
Definition semi_rows : PosList :=
  map row_id (List.filter (has_match right_cluster) left_cluster).
Definition anti_rows : PosList :=
  map row_id
    (List.filter (fun x => negb (has_match right_cluster x)) left_cluster).

Lemma join_cluster_loop_semi out0 :
  exists runs,
    join_cluster_loop impl (length left_cluster + length right_cluster)
      cluster_number left_cluster right_cluster
      (mkRuns 0 (0 + _run_length 0 left_cluster)
              0 (0 + _run_length 0 right_cluster)) out0
    = Returned (runs, append_left out0 cluster_number semi_rows).
Proof.
  destruct (join_cluster_loop_spec impl cluster_number left_cluster
              right_cluster left_sorted right_sorted equi_supported
              (semi_invariant out0))
    with (fuel := length left_cluster + length right_cluster)
         (runs := mkRuns 0 (0 + _run_length 0 left_cluster)
                         0 (0 + _run_length 0 right_cluster))
         (out := out0)
    as (runs & out & Hloop & Hok & (Hout & I1 & _) & Hleft).
  - intros runs out l r out' Hok Hinv Hl Hr Hruns.
    eapply semi_invariant_step; eauto.
  - unfold runs_ok. simpl. repeat split; lia.
  - unfold semi_invariant. simpl. rewrite append_left_nil.
    repeat split; intros; lia.
  - unfold rows_ahead. simpl. lia.
  - exists runs. rewrite Hloop. f_equal. f_equal. rewrite Hout.
    unfold semi_rows. f_equal. f_equal.
    rewrite <- (take_drop (left_run_start runs) left_cluster) at 2.
    rewrite List.filter_app, (filter_none _ (drop _ _)), app_nil_r;
      [reflexivity |].
    intros k x Hk. rewrite lookup_drop in Hk.
    apply has_match_false. intros j y Hy.
    pose proof (lookup_lt_Some _ _ _ Hk) as Hkb.
    pose proof (lookup_lt_Some _ _ _ Hy) as Hyb.
    unfold runs_left in Hleft. apply andb_false_iff in Hleft.
    destruct Hleft as [H | H]; apply Nat.ltb_ge in H; [exfalso; lia |].
    pose proof (I1 j y (left_run_start runs + k) x ltac:(lia) Hy ltac:(lia) Hk).
    lia.
Qed.

(** What [_join_cluster] leaves behind before the Anti short cut. *)
Lemma join_cluster_rest runs out :
  (if Nat.ltb (left_run_start runs) (length left_cluster)
   then _join_runs impl out
          (cluster_range cluster_number (left_run_start runs)
             (length left_cluster))
          (cluster_range cluster_number (right_run_start runs)
             (length right_cluster)) Less
   else if Nat.ltb (right_run_start runs) (length right_cluster)
   then _join_runs impl out
          (cluster_range cluster_number (left_run_start runs)
             (length left_cluster))
          (cluster_range cluster_number (right_run_start runs)
             (length right_cluster)) Greater
   else Returned out) = Returned out.
Proof.
  destruct (Nat.ltb _ _); [now rewrite join_runs_semi |].
  destruct (Nat.ltb _ _); [now rewrite join_runs_semi | reflexivity].
Qed.

(** The cluster job of a Semi join appends the matching left rows. *)
Lemma join_cluster_semi out0 :
  _mode impl = Semi ->
  _join_cluster impl out0 cluster_number
  = Returned (append_left out0 cluster_number semi_rows).
Proof.
  intros Hmode. unfold _join_cluster. rewrite left_at, right_at. run.
  destruct (join_cluster_loop_semi out0) as [runs ->]. run.
  rewrite join_cluster_rest. run. rewrite Hmode. reflexivity.
Qed.

Lemma sorted_tail (x : MaterializedValue) (l : MaterializedSegment) :
  sorted_by_value (x :: l) ->
  sorted_by_value l
  /\ forall i y, l !! i = Some y -> (value x <= value y)%Z.
Proof.
  intros H. split.
  - intros i j a b Hij Ha Hb. apply (H (S i) (S j) a b); auto. lia.
  - intros i y Hy. apply (H 0 (S i) x y); auto. lia.
Qed.

Lemma filter_head {A B : Type} (f : A -> bool) (g : A -> B) (l : list A)
    (b : B) (rest : list B) :
  map g (List.filter f l) = b :: rest ->
  exists i y, l !! i = Some y /\ f y = true /\ g y = b.
Proof.
  induction l as [|a l IH]; simpl; [discriminate |].
  destruct (f a) eqn:Hfa; simpl.
  - intros E. injection E as E _. exists 0, a. auto.
  - intros E. destruct (IH E) as (i & y & Hy & Hf & Hg). exists (S i), y. auto.
Qed.

Lemma filter_negb_all {A : Type} (f : A -> bool) (l : list A) :
  List.filter f l = [] -> List.filter (fun x => negb (f x)) l = l.
Proof.
  induction l as [|a l IH]; simpl; [reflexivity |].
  destruct (f a); simpl; [discriminate |]. intros H. f_equal. auto.
Qed.

(** The anti-merge of a sorted segment against the rows selected from it
    by their value leaves the rows that were not selected. *)
Lemma anti_merge_complement (selected : Z -> bool) :
  forall input m matches_rest,
    sorted_by_value input ->
    (forall i x, input !! i = Some x ->
                 access_value impl (row_id x) = Returned (value x)) ->
    map row_id (List.filter (fun x => selected (value x)) input)
    = m :: matches_rest ->
    anti_merge impl input m matches_rest
    = Returned
        (map row_id (List.filter (fun x => negb (selected (value x))) input)).
Proof.
  induction input as [|x input IH]; intros m matches_rest Hsorted Haccess Hsel;
    [discriminate |].
  destruct (sorted_tail x input Hsorted) as [Htail Hmin].
  assert (Haccess' : forall i y, input !! i = Some y ->
            access_value impl (row_id y) = Returned (value y)).
  { intros i y Hy. apply (Haccess (S i)). exact Hy. }
  simpl in Hsel. cbn [anti_merge List.filter].
  destruct (selected (value x)) eqn:Hx; simpl in Hsel |- *.
  - injection Hsel as <- Hrest.
    rewrite (Haccess 0 x eq_refl). cbn. rewrite Z.eqb_refl.
    destruct matches_rest as [|m' rest].
    + f_equal. f_equal. symmetry.
      apply (filter_negb_all (fun y => selected (value y))).
      now destruct (List.filter _ input).
    + now apply IH.
  - destruct (filter_head _ _ _ _ _ Hsel) as (i & y & Hy & Hsy & <-).
    rewrite (Haccess' i y Hy). cbn.
    pose proof (Hmin i y Hy).
    assert (value x <> value y) by congruence.
    destruct (Z.eqb_spec (value x) (value y)) as [E | _]; [contradiction |].
    destruct (Z.ltb_spec (value x) (value y)) as [_ | Hge]; [| lia].
    rewrite (IH _ _ Htail Haccess' Hsel). reflexivity.
Qed.

Hypothesis left_values :
  forall i x, left_cluster !! i = Some x ->
              access_value impl (row_id x) = Returned (value x).

Lemma has_match_by_value x :
  has_match right_cluster x
  = existsb (fun y => Z.eqb (value y) (value x)) right_cluster.
Proof. reflexivity. Qed.

Lemma remove_row_ids_anti :
  _remove_row_ids_from_materialized_segment impl semi_rows left_cluster
  = Returned anti_rows.
Proof.
  unfold _remove_row_ids_from_materialized_segment, semi_rows, anti_rows.
  assert (Hlen : length (map row_id (List.filter (has_match right_cluster)
                                       left_cluster))
                 <= length left_cluster).
  { rewrite length_map. apply List.filter_length_le. }
  destruct (Nat.ltb_spec (length left_cluster)
              (length (map row_id (List.filter (has_match right_cluster)
                                     left_cluster)))) as [H | _]; [lia |].
  destruct (map row_id (List.filter (has_match right_cluster) left_cluster))
    as [|m rest] eqn:Hsel.
  - f_equal. f_equal. symmetry. apply filter_negb_all.
    now destruct (List.filter _ left_cluster).
  - apply (anti_merge_complement
             (fun v => existsb (fun y => Z.eqb (value y) v) right_cluster));
      auto.
Qed.

(** The cluster job of an Anti join replaces the (empty) list of the
    cluster by the left rows without a match. *)
Lemma join_cluster_anti out0 :
  _mode impl = Anti ->
  _output_pos_lists_left out0 !! cluster_number = Some [] ->
  _join_cluster impl out0 cluster_number
  = Returned
      (mkOutput (<[cluster_number := anti_rows]> (_output_pos_lists_left out0))
                (_output_pos_lists_right out0)).
Proof.
  intros Hmode Hempty. unfold _join_cluster. rewrite left_at, right_at. run.
  destruct (join_cluster_loop_semi out0) as [runs ->]. run.
  rewrite join_cluster_rest. run. rewrite Hmode.
  change (JoinMode_eqb Anti Anti) with true. cbv iota.
  unfold append_left. cbn [_output_pos_lists_left _output_pos_lists_right].
  rewrite list_lookup_alter_eq, Hempty.
  cbn [fmap option_fmap option_map]. rewrite app_nil_l. run.
  rewrite remove_row_ids_anti. run. f_equal. f_equal.
  rewrite !list_insert_alter, list_alter_alter_eq. reflexivity.
Qed.

End SemiAntiCluster.

(** ** Sort-merge join: Semi and Anti over all clusters *)

Section SemiAntiJoin.
Import Storage JoinSortMerge.

(** The join value of a row of the left input, as the typed accessor
    reads it. *)
Definition join_column_value (left_table : Table) (column_id : ColumnID)
    (row : RowID) : Outcome Z :=
  chunk ← defined (get_chunk left_table (chunk_id row));
  segment ← defined (get_segment chunk column_id);
  v ← defined (segment_at segment (chunk_offset row));
  match v with
  | IntValue z => Returned z
  | NullValue => Thrown bad_optional_access
  | _ => UndefinedBehaviour
  end.

(** What the radix cluster sort owes to the left input: it materialises
    every row whose join value is not NULL, once, with that value, and no
    other row. *)
Definition materialized_from (left_table : Table) (column_id : ColumnID)
    (clusters : MaterializedSegmentList) : Prop :=
  NoDup (map row_id (concat clusters))
  /\ (forall x, In x (concat clusters) ->
                join_column_value left_table column_id (row_id x)
                = Returned (value x))
  /\ (forall row z,
        join_column_value left_table column_id row = Returned z ->
        In row (map row_id (concat clusters))).

Lemma filter_partition {A : Type} (f : A -> bool) (l : list A) :
  List.filter f l ++ List.filter (fun x => negb (f x)) l ≡ₚ l.
Proof.
  induction l as [|a l IH]; simpl; [reflexivity |].
  destruct (f a); simpl.
  - now constructor.
  - rewrite <- Permutation_middle. now constructor.
Qed.

Lemma concat_partition {A B : Type} (G G' H : A -> list B) (l : list A) :
  (forall a, G a ++ G' a ≡ₚ H a) ->
  concat (map G l) ++ concat (map G' l) ≡ₚ concat (map H l).
Proof.
  intros Hperm. induction l as [|a l IH]; simpl; [reflexivity |].
  rewrite <- (Hperm a), <- IH, <- !app_assoc.
  apply Permutation_app_head. apply Permutation_app_swap_app.
Qed.

Lemma take_S_insert {A : Type} (l : list A) (k : nat) (x : A) :
  k < length l -> take (S k) (<[k:=x]> l) = take k l ++ [x].
Proof.
  intros Hk. rewrite (take_S_r _ _ x) by now apply list_lookup_insert_eq.
  now rewrite take_insert_ge by lia.
Qed.

(** A loop over the clusters whose body stores a list for its cluster. *)
Lemma for_each_cluster (body : Output -> nat -> Outcome Output)
    (F : nat -> PosList) (n : nat) :
  (forall out c,
     c < n ->
     length (_output_pos_lists_left out) = n ->
     length (_output_pos_lists_right out) = n ->
     body out c
     = Returned (mkOutput (<[c:=F c]> (_output_pos_lists_left out))
                          (<[c:=[]]> (_output_pos_lists_right out)))) ->
  for_each body (mkOutput (replicate n []) (replicate n [])) (seq 0 n)
  = Returned (mkOutput (map F (seq 0 n)) (replicate n [])).
Proof.
  intros Hbody.
  assert (Hgen : forall m k left right,
    k + m = n -> length left = n -> length right = n ->
    for_each body (mkOutput left right) (seq k m)
    = Returned (mkOutput (take k left ++ map F (seq k m))
                         (take k right ++ replicate m []))).
  { induction m as [|m IH]; intros k left right Hkm Hl Hr; simpl.
    - rewrite !app_nil_r, !take_ge by lia. reflexivity.
    - rewrite Hbody by (simpl; lia). run. simpl.
      rewrite IH by (rewrite ?length_insert; lia).
      rewrite !take_S_insert by lia. now rewrite <- !app_assoc. }
  rewrite (Hgen n 0) by (rewrite ?length_replicate; lia).
  reflexivity.
Qed.

Variable HYRISE_DEBUG : bool.
Variable left_table : Table.
Variable column_ids : ColumnID * ColumnID.
Variable cluster_count : nat.
Variable sort_output : RadixClusterOutput.

Hypothesis some_cluster : 0 < cluster_count.
Hypothesis left_count : length (clusters_left sort_output) = cluster_count.
Hypothesis right_count : length (clusters_right sort_output) = cluster_count.
Hypothesis left_sorted : Forall sorted_by_value (clusters_left sort_output).
Hypothesis right_sorted : Forall sorted_by_value (clusters_right sort_output).

Definition left_cluster_at (c : nat) : MaterializedSegment :=
  default [] (clusters_left sort_output !! c).
Definition right_cluster_at (c : nat) : MaterializedSegment :=
  default [] (clusters_right sort_output !! c).

Lemma end_of_table_returns (table : MaterializedSegmentList) :
  0 < length table -> exists p, _end_of_table HYRISE_DEBUG table = Returned p.
Proof.
  intros Hlen. unfold _end_of_table, DebugAssert, Assert.
  destruct (lookup_lt_is_Some_2 table (length table - 1)) as [s Hs]; [lia |].
  rewrite Hs. destruct (Nat.eqb_spec (length table) 0) as [E | _]; [lia |].
  destruct HYRISE_DEBUG; simpl; eauto.
Qed.

(** The implementation object of an equality join in [mode]. *)
Definition equi_impl (mode : JoinMode) (end_left end_right : TablePosition)
    : Impl :=
  mkImpl (clusters_left sort_output) (clusters_right sort_output)
    (null_rows_left sort_output) (null_rows_right sort_output)
    left_table (fst column_ids) Equals mode cluster_count end_left end_right.

Lemma cluster_lookups c :
  c < cluster_count ->
  clusters_left sort_output !! c = Some (left_cluster_at c)
  /\ clusters_right sort_output !! c = Some (right_cluster_at c)
  /\ sorted_by_value (left_cluster_at c)
  /\ sorted_by_value (right_cluster_at c).
Proof.
  intros Hc. unfold left_cluster_at, right_cluster_at.
  destruct (lookup_lt_is_Some_2 (clusters_left sort_output) c) as [l Hl];
    [lia |].
  destruct (lookup_lt_is_Some_2 (clusters_right sort_output) c) as [r Hr];
    [lia |].
  rewrite Hl, Hr. simpl. repeat split.
  - exact (Forall_lookup_1 _ _ _ _ left_sorted Hl).
  - exact (Forall_lookup_1 _ _ _ _ right_sorted Hr).
Qed.

Lemma perform_join_cluster_semi end_left end_right out c :
  c < cluster_count ->
  length (_output_pos_lists_left out) = cluster_count ->
  perform_join_cluster (equi_impl Semi end_left end_right) out c
  = Returned
      (mkOutput
         (<[c:=semi_rows (left_cluster_at c) (right_cluster_at c)]>
            (_output_pos_lists_left out))
         (<[c:=[]]> (_output_pos_lists_right out))).
Proof.
  intros Hc Hlen. destruct (cluster_lookups c Hc) as (Hl & Hr & Hls & Hrs).
  unfold perform_join_cluster. simpl. rewrite Hl, Hr. run.
  destruct (Nat.eqb_spec (length (left_cluster_at c)) 0) as [El | Nl];
    [| destruct (Nat.eqb_spec (length (right_cluster_at c)) 0) as [Er | Nr]];
    simpl.
  - apply nil_length_inv in El. rewrite El. reflexivity.
  - apply nil_length_inv in Er. rewrite Er. unfold semi_rows.
    rewrite (filter_none _ (left_cluster_at c)); [reflexivity |].
    intros i x _. reflexivity.
  - rewrite (join_cluster_semi _ c (left_cluster_at c) (right_cluster_at c));
      auto.
    unfold append_left. simpl. f_equal. f_equal.
    rewrite !list_insert_alter, list_alter_alter_eq. reflexivity.
Qed.

Hypothesis left_values :
  forall x, In x (concat (clusters_left sort_output)) ->
            join_column_value left_table (fst column_ids) (row_id x)
            = Returned (value x).

Lemma perform_join_cluster_anti end_left end_right out c :
  c < cluster_count ->
  length (_output_pos_lists_left out) = cluster_count ->
  perform_join_cluster (equi_impl Anti end_left end_right) out c
  = Returned
      (mkOutput
         (<[c:=anti_rows (left_cluster_at c) (right_cluster_at c)]>
            (_output_pos_lists_left out))
         (<[c:=[]]> (_output_pos_lists_right out))).
Proof.
  intros Hc Hlen. destruct (cluster_lookups c Hc) as (Hl & Hr & Hls & Hrs).
  unfold perform_join_cluster. simpl.
  rewrite (join_cluster_anti _ c (left_cluster_at c) (right_cluster_at c));
    auto.
  - simpl. f_equal. f_equal. apply list_insert_insert_eq.
  - intros i x Hx. apply left_values.
    apply in_concat. exists (left_cluster_at c). split.
    + apply list_elem_of_In. eapply list_elem_of_lookup_2. exact Hl.
    + apply list_elem_of_In. eapply list_elem_of_lookup_2. exact Hx.
  - simpl. apply list_lookup_insert_eq. lia.
Qed.

(** The merge of a Semi, and of an Anti, join on equality returns, with
    the selected left rows of every cluster. *)
Lemma merge_phase_semi :
  merge_phase HYRISE_DEBUG left_table column_ids Equals Semi cluster_count
    sort_output
  = Returned
      (mkOutput
         (map (fun c => semi_rows (left_cluster_at c) (right_cluster_at c))
            (seq 0 cluster_count))
         (replicate cluster_count [])).
Proof.
  unfold merge_phase.
  destruct (end_of_table_returns (clusters_left sort_output)) as [el ->];
    [lia |].
  destruct (end_of_table_returns (clusters_right sort_output)) as [er ->];
    [lia |].
  run. fold (equi_impl Semi el er). unfold _perform_join.
  rewrite (for_each_cluster _
             (fun c => semi_rows (left_cluster_at c) (right_cluster_at c))).
  - reflexivity.
  - intros out c Hc Hl _. now apply perform_join_cluster_semi.
Qed.

Lemma merge_phase_anti :
  merge_phase HYRISE_DEBUG left_table column_ids Equals Anti cluster_count
    sort_output
  = Returned
      (mkOutput
         (map (fun c => anti_rows (left_cluster_at c) (right_cluster_at c))
            (seq 0 cluster_count))
         (replicate cluster_count [])).
Proof.
  unfold merge_phase.
  destruct (end_of_table_returns (clusters_left sort_output)) as [el ->];
    [lia |].
  destruct (end_of_table_returns (clusters_right sort_output)) as [er ->];
    [lia |].
  run. fold (equi_impl Anti el er). unfold _perform_join.
  rewrite (for_each_cluster _
             (fun c => anti_rows (left_cluster_at c) (right_cluster_at c))).
  - reflexivity.
  - intros out c Hc Hl _. now apply perform_join_cluster_anti.
Qed.

Lemma clusters_by_index :
  clusters_left sort_output = map left_cluster_at (seq 0 cluster_count).
Proof.
  apply list_eq. intros i. rewrite list_lookup_fmap.
  destruct (Nat.lt_ge_cases i cluster_count) as [Hi | Hi].
  - rewrite lookup_seq_lt by exact Hi. simpl.
    destruct (cluster_lookups i Hi) as [-> _]. reflexivity.
  - rewrite lookup_seq_ge by exact Hi. simpl.
    apply lookup_ge_None. lia.
Qed.

End SemiAntiJoin.

Section SemiAntiPartition.
Import Storage JoinSortMerge.

(** C8, as the code has it.  On an equality predicate, and on clusters as
    the radix cluster sort delivers them, the Semi join and the Anti join
    both return; the rows of the two results are disjoint; together they
    are the rows of the left input whose join value is not NULL (the rows
    that were materialised), each once; so the sizes of the two results
    sum to the number of these rows. *)
Theorem semi_anti_partition (HYRISE_DEBUG : bool) (left_table : Table)
    (column_ids : ColumnID * ColumnID) (cluster_count : nat)
    (sort_output : RadixClusterOutput) :
  0 < cluster_count ->
  length (clusters_left sort_output) = cluster_count ->
  length (clusters_right sort_output) = cluster_count ->
  Forall sorted_by_value (clusters_left sort_output) ->
  Forall sorted_by_value (clusters_right sort_output) ->
  materialized_from left_table (fst column_ids) (clusters_left sort_output) ->
  exists semi anti,
    merge_phase HYRISE_DEBUG left_table column_ids Equals Semi cluster_count
      sort_output = Returned semi
    /\ merge_phase HYRISE_DEBUG left_table column_ids Equals Anti
         cluster_count sort_output = Returned anti
    /\ let semi_result := concat (_output_pos_lists_left semi) in
       let anti_result := concat (_output_pos_lists_left anti) in
       (forall row, In row semi_result -> ~ In row anti_result)
       /\ NoDup (semi_result ++ anti_result)
       /\ (forall row,
             In row (semi_result ++ anti_result)
             <-> exists z,
                   join_column_value left_table (fst column_ids) row
                   = Returned z)
       /\ length semi_result + length anti_result
          = length (concat (clusters_left sort_output)).
Proof.
  intros Hsome Hleft Hright Hls Hrs (Hnodup & Hvalues & Hcomplete).
  eexists _, _. split; [now apply merge_phase_semi |].
  split; [now apply merge_phase_anti |]. simpl.
  set (S := concat (map _ (seq 0 cluster_count))).
  set (A := concat (map _ (seq 0 cluster_count))).
  assert (Hperm : S ++ A ≡ₚ map row_id (concat (clusters_left sort_output))).
  { rewrite (clusters_by_index cluster_count sort_output) at 1 by assumption.
    rewrite concat_map, map_map. subst S A.
    apply (concat_partition
             (fun c => semi_rows (left_cluster_at sort_output c)
                         (right_cluster_at sort_output c))
             (fun c => anti_rows (left_cluster_at sort_output c)
                         (right_cluster_at sort_output c))).
    intros c. unfold semi_rows, anti_rows. rewrite <- map_app.
    apply Permutation_map. apply filter_partition. }
  assert (HnodupSA : NoDup (S ++ A)) by now rewrite Hperm.
  split; [| split; [exact HnodupSA | split]].
  - intros row HS HA. apply NoDup_app in HnodupSA as (_ & Hdisj & _).
    apply (Hdisj row); now apply list_elem_of_In.
  - intros row. rewrite <- !list_elem_of_In, Hperm, list_elem_of_In.
    split.
    + intros Hin. apply in_map_iff in Hin as (x & <- & Hx). eauto.
    + intros [z Hz]. eauto.
  - rewrite <- length_app, Hperm. apply length_map.
Qed.

(** A left input whose second row has a NULL join value, a right input,
    and what the radix cluster sort delivers for them in a Semi or Anti
    join: the row with the NULL is in no cluster. *)
Definition left_with_null : Table :=
  mkTable Data 1 [[ValueSegment [IntValue 1; NullValue; IntValue 3]]].

Definition sorted_without_null : RadixClusterOutput :=
  mkRadixClusterOutput
    [[mkMaterializedValue (mkRowID 0 0) 1; mkMaterializedValue (mkRowID 0 2) 3]]
    [[mkMaterializedValue (mkRowID 0 0) 3]]
    [] [].

Lemma sorted_two (a b : MaterializedValue) :
  (value a <= value b)%Z -> sorted_by_value [a; b].
Proof.
  intros Hab i j x y Hij Hx Hy.
  destruct i as [|[|i]], j as [|[|j]]; simpl in Hx, Hy;
    try discriminate; try lia;
    injection Hx as <-; injection Hy as <-; lia.
Qed.

Lemma sorted_one (a : MaterializedValue) : sorted_by_value [a].
Proof.
  intros i j x y Hij Hx Hy.
  destruct i as [|i], j as [|j]; simpl in Hx, Hy; try discriminate.
  injection Hx as <-. injection Hy as <-. lia.
Qed.

Lemma left_with_null_materialized :
  materialized_from left_with_null 0 (clusters_left sorted_without_null).
Proof.
  split; [| split].
  - apply (bool_decide_unpack _). vm_compute. exact I.
  - simpl. intros x [<- | [<- | []]]; reflexivity.
  - intros [cid off] z. unfold join_column_value, get_chunk. simpl.
    destruct (N.to_nat cid) as [|c] eqn:Ec; simpl; [| discriminate].
    assert (cid = 0%N) by lia. subst cid.
    destruct (N.to_nat off) as [|[|[|o]]] eqn:Eo; simpl; try discriminate;
      intros _.
    + assert (off = 0%N) by lia. subst off. now left.
    + assert (off = 2%N) by lia. subst off. right. now left.
Qed.

(** C8, as the specification states it, fails: with a NULL in the join
    column of the left input, the Semi result (the row with value 3) and
    the Anti result (the row with value 1) together have two rows, the
    left input has three. *)
Lemma semi_anti_miss_null_rows :
  materialized_from left_with_null 0 (clusters_left sorted_without_null)
  /\ merge_phase true left_with_null (0, 0) Equals Semi 1 sorted_without_null
     = Returned (mkOutput [[mkRowID 0 2]] [[]])
  /\ merge_phase true left_with_null (0, 0) Equals Anti 1 sorted_without_null
     = Returned (mkOutput [[mkRowID 0 0]] [[]])
  /\ row_count left_with_null = 3.
Proof.
  split; [exact left_with_null_materialized |].
  repeat split; vm_compute; reflexivity.
Qed.

Lemma semi_anti_partition_witness :
  0 < 1
  /\ length (clusters_left sorted_without_null) = 1
  /\ length (clusters_right sorted_without_null) = 1
  /\ Forall sorted_by_value (clusters_left sorted_without_null)
  /\ Forall sorted_by_value (clusters_right sorted_without_null)
  /\ materialized_from left_with_null 0 (clusters_left sorted_without_null)
  /\ exists semi anti,
       merge_phase true left_with_null (0, 0) Equals Semi 1
         sorted_without_null = Returned semi
       /\ merge_phase true left_with_null (0, 0) Equals Anti 1
            sorted_without_null = Returned anti
       /\ (forall row,
             In row (concat (_output_pos_lists_left semi)) ->
             ~ In row (concat (_output_pos_lists_left anti)))
       /\ NoDup (concat (_output_pos_lists_left semi)
                 ++ concat (_output_pos_lists_left anti))
       /\ (forall row,
             In row (concat (_output_pos_lists_left semi)
                     ++ concat (_output_pos_lists_left anti))
             <-> exists z,
                   join_column_value left_with_null 0 row = Returned z)
       /\ length (concat (_output_pos_lists_left semi))
          + length (concat (_output_pos_lists_left anti))
          = length (concat (clusters_left sorted_without_null)).
Proof.
  assert (Hl : Forall sorted_by_value (clusters_left sorted_without_null)).
  { repeat constructor. apply sorted_two. simpl. lia. }
  assert (Hr : Forall sorted_by_value (clusters_right sorted_without_null)).
  { repeat constructor. apply sorted_one. }
  split; [lia | split; [reflexivity | split; [reflexivity |]]].
  split; [exact Hl | split; [exact Hr |]].
  split; [exact left_with_null_materialized |].
  exact (semi_anti_partition true left_with_null (0, 0) 1 sorted_without_null
           ltac:(lia) eq_refl eq_refl Hl Hr left_with_null_materialized).
Defined.

End SemiAntiPartition.

(** ** Sort-merge join: the output lists are aligned lists of partners *)

Section Partners.
Import Storage JoinSortMerge.

(** The predicate condition on two join values. *)
Definition holds (op : PredicateCondition) (l r : Z) : Prop :=
  match op with
  | Equals => l = r
  | NotEquals => l <> r
  | LessThan => (l < r)%Z
  | LessThanEquals => (l <= r)%Z
  | GreaterThan => (l > r)%Z
  | GreaterThanEquals => (l >= r)%Z
  | _ => False
  end.

(** The clusters of a join that is not on equality are cut at common
    split values: what is in a cluster, on either side, is smaller than
    what is in a later cluster. *)
Definition range_clustered (left right : MaterializedSegmentList) : Prop :=
  forall c1 c2 s1 s2 x y,
    c1 < c2 ->
    left !! c1 = Some s1 \/ right !! c1 = Some s1 ->
    left !! c2 = Some s2 \/ right !! c2 = Some s2 ->
    In x s1 -> In y s2 -> (value x < value y)%Z.

Definition materialized_in (table : MaterializedSegmentList) (row : RowID)
    : Prop :=
  exists x, In x (concat table) /\ row_id x = row.

(** [left] and [right] stand at the same index of the two output lists of
    a cluster: they are a row of the left input and a row of the right
    input whose join values satisfy the predicate, or one of them is
    [NULL_ROW_ID] and pads a row of the other input. *)
Definition partners (left_clusters right_clusters : MaterializedSegmentList)
    (null_left null_right : PosList) (op : PredicateCondition)
    (left right : RowID) : Prop :=
  (exists x y,
     In x (concat left_clusters) /\ In y (concat right_clusters)
     /\ row_id x = left /\ row_id y = right
     /\ holds op (value x) (value y))
  \/ (right = NULL_ROW_ID
      /\ (materialized_in left_clusters left \/ In left null_left))
  \/ (left = NULL_ROW_ID
      /\ (materialized_in right_clusters right \/ In right null_right)).

Variable impl : Impl.

Definition join_partner : RowID -> RowID -> Prop :=
  partners (_sorted_left_table impl) (_sorted_right_table impl)
    (_null_rows_left impl) (_null_rows_right impl) (_op impl).

Definition aligned_lists (L R : PosList) : Prop :=
  length L = length R
  /\ Forall (fun p => join_partner (fst p) (snd p)) (combine L R).

(** The invariant of the output during the merge. *)
Definition aligned (out : Output) : Prop :=
  Forall2 aligned_lists (_output_pos_lists_left out)
    (_output_pos_lists_right out).

Lemma combine_fst_snd {A B : Type} (l : list (A * B)) :
  combine (map fst l) (map snd l) = l.
Proof. induction l as [|[a b] l IH]; simpl; congruence. Qed.

Lemma append_pairs_aligned out c pairs :
  aligned out ->
  Forall (fun p => join_partner (fst p) (snd p)) pairs ->
  aligned (append_pairs out c pairs).
Proof.
  intros Hal Hpairs. unfold aligned, append_pairs. simpl.
  apply Forall2_alter; [exact Hal |].
  intros L R _ _ [Hlen HF]. split.
  - rewrite !length_app, !length_map. lia.
  - rewrite combine_app_same by exact Hlen. rewrite combine_fst_snd.
    apply Forall_app. auto.
Qed.

Lemma in_table (table : MaterializedSegmentList) c segment i x :
  table !! c = Some segment -> segment !! i = Some x -> In x (concat table).
Proof.
  intros Hc Hx. apply in_concat. exists segment. split.
  - apply list_elem_of_In. eapply list_elem_of_lookup_2. exact Hc.
  - apply list_elem_of_In. eapply list_elem_of_lookup_2. exact Hx.
Qed.

(** Where the rows of a range are in the table. *)
Lemma in_for_every_row_id table range row :
  In row (for_every_row_id table range) ->
  exists c segment i x,
    table !! c = Some segment /\ segment !! i = Some x /\ row_id x = row
    /\ cluster (range_start range) <= c <= cluster (range_end range)
    /\ (c = cluster (range_start range) -> index (range_start range) <= i)
    /\ (c = cluster (range_end range) -> i < index (range_end range)).
Proof.
  unfold for_every_row_id. intros H.
  apply in_concat in H as (rows & Hrows & Hrow).
  apply in_map_iff in Hrows as (c & <- & Hc). apply in_seq in Hc.
  apply in_map_iff in Hrow as (x & <- & Hx).
  apply list_elem_of_In, list_elem_of_lookup in Hx as [k Hk].
  apply lookup_take_Some in Hk as [Hk Hlt]. rewrite lookup_drop in Hk.
  destruct (table !! c) as [segment |] eqn:Hseg; simpl in Hk;
    [| discriminate].
  eexists c, segment, _, x. repeat split; eauto; try lia.
  - intros ->. rewrite Nat.eqb_refl. lia.
  - intros ->. rewrite Nat.eqb_refl in Hlt. lia.
Qed.

Lemma pairs_partner (A B : list RowID) :
  (forall l r, In l A -> In r B -> join_partner l r) ->
  Forall (fun p => join_partner (fst p) (snd p)) (list_prod A B).
Proof.
  intros H. apply List.Forall_forall. intros [l r] Hin.
  apply in_prod_iff in Hin as [Hl Hr]. now apply H.
Qed.

Lemma real_partner cx sx ix x cy sy iy y :
  _sorted_left_table impl !! cx = Some sx -> sx !! ix = Some x ->
  _sorted_right_table impl !! cy = Some sy -> sy !! iy = Some y ->
  holds (_op impl) (value x) (value y) ->
  join_partner (row_id x) (row_id y).
Proof.
  intros Hcx Hx Hcy Hy Hh. left. exists x, y.
  split; [eapply in_table; eauto |].
  split; [eapply in_table; eauto |]. auto.
Qed.

Variable cluster_number : nat.
Variables left_cluster right_cluster : MaterializedSegment.
Hypothesis left_at :
  _sorted_left_table impl !! cluster_number = Some left_cluster.
Hypothesis right_at :
  _sorted_right_table impl !! cluster_number = Some right_cluster.
Hypothesis clustered :
  _op impl <> Equals ->
  range_clustered (_sorted_left_table impl) (_sorted_right_table impl).
Hypothesis kept : pairs_kept impl = true.

Lemma in_left_run row s e :
  In row (left_rows impl (cluster_range cluster_number s e)) ->
  exists i x, left_cluster !! i = Some x /\ row_id x = row /\ s <= i < e.
Proof.
  intros H. apply in_for_every_row_id in H
    as (c & seg & i & x & Hc & Hx & Hrow & Hcl & Hs & He). simpl in *.
  assert (c = cluster_number) by lia. subst c.
  rewrite left_at in Hc. injection Hc as <-.
  exists i, x. repeat split; auto; lia.
Qed.

Lemma in_right_run row s e :
  In row (right_rows impl (cluster_range cluster_number s e)) ->
  exists i x, right_cluster !! i = Some x /\ row_id x = row /\ s <= i < e.
Proof.
  intros H. apply in_for_every_row_id in H
    as (c & seg & i & x & Hc & Hx & Hrow & Hcl & Hs & He). simpl in *.
  assert (c = cluster_number) by lia. subst c.
  rewrite right_at in Hc. injection Hc as <-.
  exists i, x. repeat split; auto; lia.
Qed.

Lemma in_left_from row s upto :
  In row (left_rows impl (to (mkTablePosition cluster_number s) upto)) ->
  exists c seg i x,
    _sorted_left_table impl !! c = Some seg /\ seg !! i = Some x
    /\ row_id x = row
    /\ ((c = cluster_number /\ seg = left_cluster /\ s <= i)
        \/ cluster_number < c).
Proof.
  intros H. apply in_for_every_row_id in H
    as (c & seg & i & x & Hc & Hx & Hrow & Hcl & Hs & He). simpl in *.
  exists c, seg, i, x. repeat split; auto.
  destruct (Nat.eq_dec c cluster_number) as [-> | Hne]; [left | right; lia].
  rewrite left_at in Hc. injection Hc as <-. auto.
Qed.

Lemma in_right_from row s upto :
  In row (right_rows impl (to (mkTablePosition cluster_number s) upto)) ->
  exists c seg i x,
    _sorted_right_table impl !! c = Some seg /\ seg !! i = Some x
    /\ row_id x = row
    /\ ((c = cluster_number /\ seg = right_cluster /\ s <= i)
        \/ cluster_number < c).
Proof.
  intros H. apply in_for_every_row_id in H
    as (c & seg & i & x & Hc & Hx & Hrow & Hcl & Hs & He). simpl in *.
  exists c, seg, i, x. repeat split; auto.
  destruct (Nat.eq_dec c cluster_number) as [-> | Hne]; [left | right; lia].
  rewrite right_at in Hc. injection Hc as <-. auto.
Qed.

(** The left rows from an index of the cluster on, up to the end of the
    table, with a range of right rows of the cluster. *)
Lemma left_from_sound s upto rs re :
  _op impl <> Equals ->
  (forall vx vy, (vy < vx)%Z -> holds (_op impl) vx vy) ->
  (forall i x j y,
     s <= i -> left_cluster !! i = Some x ->
     rs <= j < re -> right_cluster !! j = Some y ->
     holds (_op impl) (value x) (value y)) ->
  forall l r,
    In l (left_rows impl (to (mkTablePosition cluster_number s) upto)) ->
    In r (right_rows impl (cluster_range cluster_number rs re)) ->
    join_partner l r.
Proof.
  intros Hne Hlater Hin l r Hl Hr.
  apply in_left_from in Hl as (c & seg & i & x & Hc & Hx & <- & Hpos).
  apply in_right_run in Hr as (j & y & Hy & <- & Hj).
  eapply real_partner; eauto.
  destruct Hpos as [(-> & -> & Hi) | Hlt]; [eauto |].
  apply Hlater.
  apply (clustered Hne cluster_number c right_cluster seg y x); auto.
  - apply list_elem_of_In. eapply list_elem_of_lookup_2. exact Hy.
  - apply list_elem_of_In. eapply list_elem_of_lookup_2. exact Hx.
Qed.

(** A range of left rows of the cluster with the right rows from an index
    of the cluster on, up to the end of the table. *)
Lemma right_from_sound s upto ls le :
  _op impl <> Equals ->
  (forall vx vy, (vx < vy)%Z -> holds (_op impl) vx vy) ->
  (forall i x j y,
     ls <= i < le -> left_cluster !! i = Some x ->
     s <= j -> right_cluster !! j = Some y ->
     holds (_op impl) (value x) (value y)) ->
  forall l r,
    In l (left_rows impl (cluster_range cluster_number ls le)) ->
    In r (right_rows impl (to (mkTablePosition cluster_number s) upto)) ->
    join_partner l r.
Proof.
  intros Hne Hlater Hin l r Hl Hr.
  apply in_left_run in Hl as (i & x & Hx & <- & Hi).
  apply in_right_from in Hr as (c & seg & j & y & Hc & Hy & <- & Hpos).
  eapply real_partner; eauto.
  destruct Hpos as [(-> & -> & Hj) | Hlt]; [eauto |].
  apply Hlater.
  apply (clustered Hne cluster_number c left_cluster seg x y); auto.
  - apply list_elem_of_In. eapply list_elem_of_lookup_2. exact Hx.
  - apply list_elem_of_In. eapply list_elem_of_lookup_2. exact Hy.
Qed.

Lemma runs_sound ls le rs re :
  (forall i x j y,
     ls <= i < le -> left_cluster !! i = Some x ->
     rs <= j < re -> right_cluster !! j = Some y ->
     holds (_op impl) (value x) (value y)) ->
  forall l r,
    In l (left_rows impl (cluster_range cluster_number ls le)) ->
    In r (right_rows impl (cluster_range cluster_number rs re)) ->
    join_partner l r.
Proof.
  intros Hin l r Hl Hr.
  apply in_left_run in Hl as (i & x & Hx & <- & Hi).
  apply in_right_run in Hr as (j & y & Hy & <- & Hj).
  eapply real_partner; eauto.
Qed.

Lemma left_padding_sound range :
  Forall (fun p => join_partner (fst p) (snd p))
    (map (fun r => (NULL_ROW_ID, r)) (right_rows impl range)).
Proof.
  apply List.Forall_forall. intros [l r] Hin.
  apply in_map_iff in Hin as (r' & E & Hr). injection E as <- <-.
  right. right. split; [reflexivity | left].
  apply in_for_every_row_id in Hr as (c & seg & i & x & Hc & Hx & <- & _).
  exists x. split; [eapply in_table; eauto | reflexivity].
Qed.

Lemma right_padding_sound range :
  Forall (fun p => join_partner (fst p) (snd p))
    (map (fun l => (l, NULL_ROW_ID)) (left_rows impl range)).
Proof.
  apply List.Forall_forall. intros [l r] Hin.
  apply in_map_iff in Hin as (l' & E & Hl). injection E as <- <-.
  right. left. split; [reflexivity | left].
  apply in_for_every_row_id in Hl as (c & seg & i & x & Hc & Hx & <- & _).
  exists x. split; [eapply in_table; eauto | reflexivity].
Qed.

(** What a call of [_join_runs] may rely on: how the values of the two
    windows compare, and that the rows behind a window are greater than
    the rows in the other one. *)
Definition compares (compare_result : CompareResult) (l r : Z) : Prop :=
  match compare_result with
  | Equal => l = r
  | Less => (l < r)%Z
  | Greater => (l > r)%Z
  end.

Definition windows (ls le rs re : nat) (compare_result : CompareResult)
    : Prop :=
  (forall i x j y,
     ls <= i < le -> left_cluster !! i = Some x ->
     rs <= j < re -> right_cluster !! j = Some y ->
     compares compare_result (value x) (value y))
  /\ (compare_result <> Less ->
      forall i x j y,
        le <= i -> left_cluster !! i = Some x ->
        rs <= j < re -> right_cluster !! j = Some y ->
        (value y < value x)%Z)
  /\ (compare_result <> Greater ->
      forall i x j y,
        ls <= i < le -> left_cluster !! i = Some x ->
        re <= j -> right_cluster !! j = Some y ->
        (value x < value y)%Z).

Ltac in_cluster W1 W2 W3 edge :=
  let i := fresh "i" in
  let x := fresh "x" in
  let j := fresh "j" in
  let y := fresh "y" in
  let Hi := fresh "Hi" in
  let Hx := fresh "Hx" in
  let Hj := fresh "Hj" in
  let Hy := fresh "Hy" in
  intros i x j y Hi Hx Hj Hy;
  first
    [ pose proof (W1 i x j y ltac:(lia) Hx ltac:(lia) Hy); simpl in *; lia
    | pose proof (W2 ltac:(discriminate) i x j y ltac:(lia) Hx ltac:(lia) Hy);
      simpl in *; lia
    | pose proof (W3 ltac:(discriminate) i x j y ltac:(lia) Hx ltac:(lia) Hy);
      simpl in *; lia
    | destruct (Nat.lt_ge_cases i edge);
      [ pose proof (W1 i x j y ltac:(lia) Hx ltac:(lia) Hy)
      | pose proof (W2 ltac:(discriminate) i x j y ltac:(lia) Hx ltac:(lia) Hy) ];
      simpl in *; lia
    | destruct (Nat.lt_ge_cases j edge);
      [ pose proof (W1 i x j y ltac:(lia) Hx ltac:(lia) Hy)
      | pose proof (W3 ltac:(discriminate) i x j y ltac:(lia) Hx ltac:(lia) Hy) ];
      simpl in *; lia ].

(** [_join_runs] keeps the output aligned. *)
Lemma join_runs_aligned out ls le rs re compare_result out' :
  windows ls le rs re compare_result ->
  aligned out ->
  _join_runs impl out (cluster_range cluster_number ls le)
    (cluster_range cluster_number rs re) compare_result = Returned out' ->
  aligned out'.
Proof.
  intros (W1 & W2 & W3) Hal H. unfold _join_runs in H.
  cbn [cluster_range range_start range_end cluster] in H.
  fold (cluster_range cluster_number ls le) in H.
  fold (cluster_range cluster_number rs re) in H.
  set (op := _op impl) in H.
  assert (Hop : _op impl = op) by reflexivity. clearbody op.
  destruct op; try discriminate; destruct compare_result;
    repeat match type of H with
           | context [if ?b then _ else _] => destruct b
           end;
    injection H as <-; try exact Hal;
    rewrite ?emit_all_combinations_pairs by exact kept;
    rewrite ?emit_right_null_combinations_pairs,
            ?emit_left_null_combinations_pairs;
    repeat (apply append_pairs_aligned;
            [| first [ apply left_padding_sound
                     | apply right_padding_sound
                     | apply pairs_partner ]]);
    try exact Hal.
  all: first
    [ apply runs_sound; rewrite Hop; in_cluster W1 W2 W3 le
    | apply left_from_sound;
      [ rewrite Hop; discriminate
      | rewrite Hop; simpl; intros; lia
      | rewrite Hop; in_cluster W1 W2 W3 le ]
    | apply right_from_sound;
      [ rewrite Hop; discriminate
      | rewrite Hop; simpl; intros; lia
      | rewrite Hop; in_cluster W1 W2 W3 re ] ].
Qed.

Hypothesis left_sorted : sorted_by_value left_cluster.
Hypothesis right_sorted : sorted_by_value right_cluster.
Hypothesis condition_supported : supported_condition (_op impl) = true.

(** The windows of an iteration of the merge loop are as [_join_runs]
    needs them. *)
Lemma windows_of_runs runs l r :
  runs_ok left_cluster right_cluster runs ->
  left_cluster !! left_run_start runs = Some l ->
  right_cluster !! right_run_start runs = Some r ->
  windows (left_run_start runs) (left_run_end runs)
    (right_run_start runs) (right_run_end runs)
    (_compare (value l) (value r)).
Proof.
  intros (Hle & Hre & _ & _) Hl Hr.
  destruct (run_length_spec left_cluster _ l left_sorted Hl)
    as (_ & Lrun & Lbeyond).
  destruct (run_length_spec right_cluster _ r right_sorted Hr)
    as (_ & Rrun & Rbeyond).
  rewrite <- Hle in Lrun, Lbeyond. rewrite <- Hre in Rrun, Rbeyond.
  unfold _compare.
  destruct (Z.ltb_spec (value l) (value r)) as [Hlt | Hge];
    [| destruct (Z.eqb_spec (value l) (value r)) as [Heq | Hne]];
    repeat split; try (intros Hc; now contradiction Hc);
    intros; simpl;
    repeat match goal with
           | Hx : left_cluster !! ?i = Some ?x |- _ =>
               first [ pose proof (Lrun i x ltac:(lia) Hx)
                     | pose proof (Lbeyond i x ltac:(lia) Hx) ];
               clear Hx
           | Hy : right_cluster !! ?j = Some ?y |- _ =>
               first [ pose proof (Rrun j y ltac:(lia) Hy)
                     | pose proof (Rbeyond j y ltac:(lia) Hy) ];
               clear Hy
           end; lia.
Qed.

Lemma not_anti : JoinMode_eqb (_mode impl) Anti = false.
Proof.
  unfold pairs_kept in kept. apply andb_true_iff in kept as [_ H].
  now apply negb_true_iff in H.
Qed.

(** [_join_cluster] returns, and keeps the output aligned. *)
Lemma join_cluster_aligned out :
  aligned out ->
  exists out',
    _join_cluster impl out cluster_number = Returned out' /\ aligned out'.
Proof.
  intros Hal. unfold _join_cluster. rewrite left_at, right_at. run.
  destruct (join_cluster_loop_spec impl cluster_number left_cluster
              right_cluster left_sorted right_sorted condition_supported
              (fun _ o => aligned o))
    with (fuel := length left_cluster + length right_cluster)
         (runs := mkRuns 0 (0 + _run_length 0 left_cluster)
                         0 (0 + _run_length 0 right_cluster))
         (out := out)
    as (runs & out1 & Hloop & Hok & Hal1 & Hleft).
  - intros runs o l r o' Hok Ho Hl Hr Hruns.
    unfold left_run, right_run in Hruns.
    eapply join_runs_aligned; [| exact Ho | exact Hruns].
    now apply windows_of_runs.
  - unfold runs_ok. simpl. repeat split; lia.
  - exact Hal.
  - unfold rows_ahead. simpl. lia.
  - rewrite Hloop. run. rewrite not_anti.
    unfold runs_left in Hleft.
    destruct (Nat.ltb_spec (left_run_start runs) (length left_cluster))
      as [Hl | Hl].
    + destruct (Nat.ltb_spec (right_run_start runs) (length right_cluster))
        as [Hr | Hr]; [discriminate |].
      destruct (join_runs_returns impl condition_supported out1
                  (cluster_range cluster_number (left_run_start runs)
                     (length left_cluster))
                  (cluster_range cluster_number (right_run_start runs)
                     (length right_cluster)) Less) as [out2 H2].
      rewrite H2. run. exists out2. split; [reflexivity |].
      eapply join_runs_aligned; [| exact Hal1 | exact H2].
      repeat split; try (intros Hc; now contradiction Hc);
        intros;
        repeat match goal with
               | Hx : _ !! _ = Some _ |- _ => apply lookup_lt_Some in Hx
               end;
        exfalso; lia.
    + destruct (Nat.ltb_spec (right_run_start runs) (length right_cluster))
        as [Hr | Hr]; [| now exists out1].
      destruct (join_runs_returns impl condition_supported out1
                  (cluster_range cluster_number (left_run_start runs)
                     (length left_cluster))
                  (cluster_range cluster_number (right_run_start runs)
                     (length right_cluster)) Greater) as [out2 H2].
      rewrite H2. run. exists out2. split; [reflexivity |].
      eapply join_runs_aligned; [| exact Hal1 | exact H2].
      repeat split; try (intros Hc; now contradiction Hc);
        intros;
        repeat match goal with
               | Hx : _ !! _ = Some _ |- _ => apply lookup_lt_Some in Hx
               end;
        exfalso; lia.
Qed.

(** The job of a cluster returns, and keeps the output aligned. *)
Lemma perform_join_cluster_aligned out :
  aligned out ->
  exists out',
    perform_join_cluster impl out cluster_number = Returned out'
    /\ aligned out'.
Proof.
  intros Hal. unfold perform_join_cluster.
  assert (Hreset :
    aligned (mkOutput (<[cluster_number := []]> (_output_pos_lists_left out))
                      (<[cluster_number := []]> (_output_pos_lists_right out)))).
  { unfold aligned. simpl. apply Forall2_insert; [exact Hal |].
    split; [reflexivity | constructor]. }
  destruct ((JoinMode_eqb (_mode impl) Inner || JoinMode_eqb (_mode impl) Semi)
            && PredicateCondition_eqb (_op impl) Equals).
  - rewrite left_at, right_at. run.
    destruct (Nat.eqb (length left_cluster) 0
              || Nat.eqb (length right_cluster) 0); [eauto |].
    now apply join_cluster_aligned.
  - now apply join_cluster_aligned.
Qed.

End Partners.

(** ** Sort-merge join: the rows an outer join on an inequality pads *)

Section OuterPatches.
Import Storage JoinSortMerge.

Variable HYRISE_DEBUG : bool.
Variable impl : Impl.

Lemma DebugAssert_holds {A : Type} (k : Outcome A) :
  DebugAssert HYRISE_DEBUG true k = k.
Proof. now destruct HYRISE_DEBUG. Qed.

Lemma first_value_returns (table : MaterializedSegmentList) :
  concat table <> [] -> exists v, first_value table = Returned v.
Proof.
  induction table as [|[|x partition] rest IH]; simpl; intros H;
    [congruence | auto | eauto].
Qed.

Lemma last_value_returns (table : MaterializedSegmentList) (n : nat) :
  n <= length table ->
  concat (take n table) <> [] ->
  exists v, last_value table n = Returned v.
Proof.
  induction n as [|n IH]; intros Hn Hne.
  - now rewrite take_0 in Hne.
  - cbn [last_value].
    destruct (lookup_lt_is_Some_2 table n) as [partition Hp]; [lia |].
    rewrite Hp. run.
    destruct (last partition) as [x |] eqn:Hlast; [eauto |].
    apply IH; [lia |].
    rewrite (take_S_r _ _ _ Hp), concat_app in Hne.
    apply last_None in Hlast. subst partition.
    simpl in Hne. now rewrite app_nil_r in Hne.
Qed.

Hypothesis inequality : _op impl <> Equals.

Lemma not_equals : PredicateCondition_eqb (_op impl) Equals = false.
Proof.
  unfold PredicateCondition_eqb. now apply bool_decide_eq_false_2.
Qed.

Lemma table_min_value_returns (table : MaterializedSegmentList) :
  concat table <> [] ->
  exists v, _table_min_value HYRISE_DEBUG impl table = Returned v.
Proof.
  intros Hne. unfold _table_min_value. rewrite not_equals. simpl.
  rewrite DebugAssert_holds.
  destruct table as [|partition rest]; [now contradiction Hne |].
  simpl length. simpl Nat.eqb. simpl negb. rewrite DebugAssert_holds.
  now apply first_value_returns.
Qed.

Lemma table_max_value_returns (table : MaterializedSegmentList) :
  concat table <> [] ->
  exists v, _table_max_value HYRISE_DEBUG impl table = Returned v.
Proof.
  intros Hne. unfold _table_max_value. rewrite not_equals. simpl negb.
  rewrite DebugAssert_holds.
  destruct (Nat.eqb_spec (length table) 0) as [E | _].
  - apply nil_length_inv in E. subst table. now contradiction Hne.
  - simpl negb. rewrite DebugAssert_holds.
    apply last_value_returns; [lia |]. now rewrite take_ge by lia.
Qed.

Lemma end_of_table_position (table : MaterializedSegmentList) :
  concat table <> [] ->
  exists p, _end_of_table HYRISE_DEBUG table = Returned p.
Proof.
  intros Hne. unfold _end_of_table.
  destruct (Nat.eqb_spec (length table) 0) as [E | N].
  - apply nil_length_inv in E. subst table. now contradiction Hne.
  - simpl negb. rewrite DebugAssert_holds.
    destruct (lookup_lt_is_Some_2 table (length table - 1)) as [s ->];
      [lia |].
    run. eauto.
Qed.

Lemma left_null_aligned out c (position : option TablePosition)
    (range : TablePosition -> TableRange) :
  aligned impl out ->
  aligned impl
    match position with
    | Some p => _emit_left_null_combinations impl out c (range p)
    | None => out
    end.
Proof.
  intros Hal. destruct position as [p |]; [| exact Hal].
  rewrite emit_left_null_combinations_pairs.
  apply append_pairs_aligned; [exact Hal | apply left_padding_sound].
Qed.

Lemma right_null_aligned out c (position : option TablePosition)
    (range : TablePosition -> TableRange) :
  aligned impl out ->
  aligned impl
    match position with
    | Some p => _emit_right_null_combinations impl out c (range p)
    | None => out
    end.
Proof.
  intros Hal. destruct position as [p |]; [| exact Hal].
  rewrite emit_right_null_combinations_pairs.
  apply append_pairs_aligned; [exact Hal | apply right_padding_sound].
Qed.

(** [_left_outer_non_equi_join] returns, and keeps the output aligned. *)
Lemma left_outer_non_equi_join_aligned out :
  concat (_sorted_left_table impl) <> [] ->
  concat (_sorted_right_table impl) <> [] ->
  aligned impl out ->
  exists out',
    _left_outer_non_equi_join HYRISE_DEBUG impl out = Returned out'
    /\ aligned impl out'.
Proof.
  intros Hl Hr Hal. unfold _left_outer_non_equi_join.
  destruct (table_min_value_returns _ Hl) as [lo ->].
  destruct (table_max_value_returns _ Hl) as [hi ->].
  destruct (end_of_table_position _ Hr) as [e ->]. run.
  eexists. split; [reflexivity |].
  destruct (_op impl); try exact Hal;
    first [ apply (left_null_aligned out 0 _ (fun p => to (mkTablePosition 0 0) p))
          | apply (left_null_aligned out 0 _ (fun p => to p e)) ];
    exact Hal.
Qed.

(** [_right_outer_non_equi_join] returns, and keeps the output aligned. *)
Lemma right_outer_non_equi_join_aligned out :
  concat (_sorted_left_table impl) <> [] ->
  concat (_sorted_right_table impl) <> [] ->
  aligned impl out ->
  exists out',
    _right_outer_non_equi_join HYRISE_DEBUG impl out = Returned out'
    /\ aligned impl out'.
Proof.
  intros Hl Hr Hal. unfold _right_outer_non_equi_join.
  destruct (table_min_value_returns _ Hr) as [lo ->].
  destruct (table_max_value_returns _ Hr) as [hi ->].
  destruct (end_of_table_position _ Hl) as [e ->]. run.
  eexists. split; [reflexivity |].
  destruct (_op impl); try exact Hal;
    first [ apply (right_null_aligned out 0 _ (fun p => to (mkTablePosition 0 0) p))
          | apply (right_null_aligned out 0 _ (fun p => to p e)) ];
    exact Hal.
Qed.

End OuterPatches.

(** ** Sort-merge join: the output lists are aligned *)

Section AlignedOutput.
Import Storage JoinSortMerge.

Lemma for_each_total {A S : Type} (P : S -> Prop)
    (body : S -> A -> Outcome S) (l : list A) :
  (forall s x, In x l -> P s -> exists s', body s x = Returned s' /\ P s') ->
  forall s, P s -> exists s', for_each body s l = Returned s' /\ P s'.
Proof.
  induction l as [|x l IH]; intros Hbody s Hs; simpl; [eauto |].
  destruct (Hbody s x (or_introl eq_refl) Hs) as (s1 & -> & Hs1). cbn.
  apply IH; [| exact Hs1]. intros s0 y Hy. apply Hbody. now right.
Qed.

Lemma combine_map_r {A B : Type} (f : A -> B) (l : list A) :
  combine l (map f l) = map (fun x => (x, f x)) l.
Proof. induction l as [|x l IH]; simpl; congruence. Qed.

Lemma combine_map_l {A B : Type} (f : A -> B) (l : list A) :
  combine (map f l) l = map (fun x => (f x, x)) l.
Proof. induction l as [|x l IH]; simpl; congruence. Qed.

Lemma Forall_combine_lookup {A B : Type} (P : A * B -> Prop)
    (l : list A) (k : list B) i a b :
  Forall P (combine l k) -> l !! i = Some a -> k !! i = Some b -> P (a, b).
Proof.
  revert k i. induction l as [|x l IH]; intros [|y k] [|i] HF Ha Hb;
    try discriminate; simpl in *.
  - injection Ha as <-. injection Hb as <-. now inversion HF.
  - inversion HF; subst. eauto.
Qed.

Variable HYRISE_DEBUG : bool.
Variable left_table : Table.
Variable column_ids : ColumnID * ColumnID.
Variable op : PredicateCondition.
Variable mode : JoinMode.
Variable cluster_count : nat.
Variable sort_output : RadixClusterOutput.

Hypothesis some_cluster : 0 < cluster_count.
Hypothesis left_count : length (clusters_left sort_output) = cluster_count.
Hypothesis right_count : length (clusters_right sort_output) = cluster_count.
Hypothesis left_sorted : Forall sorted_by_value (clusters_left sort_output).
Hypothesis right_sorted : Forall sorted_by_value (clusters_right sort_output).
Hypothesis condition_supported : supported_condition op = true.
Hypothesis pairs : mode <> Semi /\ mode <> Anti.
Hypothesis clustered :
  op <> Equals ->
  range_clustered (clusters_left sort_output) (clusters_right sort_output).
Hypothesis rows_to_pad :
  op <> Equals -> mode <> Inner ->
  concat (clusters_left sort_output) <> []
  /\ concat (clusters_right sort_output) <> [].

(** The implementation object of the join. *)
Definition merge_impl (end_left end_right : TablePosition) : Impl :=
  mkImpl (clusters_left sort_output) (clusters_right sort_output)
    (null_rows_left sort_output) (null_rows_right sort_output)
    left_table (fst column_ids) op mode cluster_count end_left end_right.

Lemma merge_impl_keeps_pairs end_left end_right :
  pairs_kept (merge_impl end_left end_right) = true.
Proof.
  unfold pairs_kept. simpl. destruct pairs as [Hs Ha].
  destruct mode; try reflexivity; [now contradiction Hs | now contradiction Ha].
Qed.

Lemma perform_join_aligned end_left end_right :
  exists out,
    _perform_join HYRISE_DEBUG (merge_impl end_left end_right)
      (mkOutput (replicate cluster_count []) (replicate cluster_count []))
    = Returned out
    /\ aligned (merge_impl end_left end_right) out.
Proof.
  set (impl := merge_impl end_left end_right).
  unfold _perform_join.
  destruct (for_each_total (aligned impl) (perform_join_cluster impl)
              (seq 0 (_cluster_count impl)))
    with (s := mkOutput (replicate cluster_count []) (replicate cluster_count []))
    as (out1 & -> & Hal1).
  - intros out c Hc Hal. apply in_seq in Hc. simpl in Hc.
    destruct (lookup_lt_is_Some_2 (clusters_left sort_output) c) as [l Hl];
      [lia |].
    destruct (lookup_lt_is_Some_2 (clusters_right sort_output) c) as [r Hr];
      [lia |].
    apply (perform_join_cluster_aligned impl c l r Hl Hr clustered
             (merge_impl_keeps_pairs end_left end_right)
             (Forall_lookup_1 _ _ _ _ left_sorted Hl)
             (Forall_lookup_1 _ _ _ _ right_sorted Hr)
             condition_supported out Hal).
  - unfold aligned. simpl. apply Forall2_replicate.
    split; [reflexivity | constructor].
  - run. change (_mode impl) with mode. change (_op impl) with op.
    destruct (bool_decide_reflect (op = Equals)) as [E | N].
    + unfold PredicateCondition_eqb. rewrite (bool_decide_eq_true_2 _ E).
      rewrite !andb_false_r. run. eauto.
    + unfold PredicateCondition_eqb. rewrite (bool_decide_eq_false_2 _ N).
      rewrite !andb_true_r.
      assert (Hpatch : forall o,
        aligned impl o ->
        exists o',
          (if JoinMode_eqb mode Right || JoinMode_eqb mode Outer
           then _right_outer_non_equi_join HYRISE_DEBUG impl o
           else Returned o) = Returned o'
          /\ aligned impl o').
      { intros o Ho. destruct (JoinMode_eqb mode Right || JoinMode_eqb mode Outer)
          eqn:Hmode; [| eauto].
        destruct rows_to_pad as [Hl Hr]; [exact N | | ].
        { intros ->. discriminate Hmode. }
        now apply right_outer_non_equi_join_aligned. }
      destruct (JoinMode_eqb mode Left || JoinMode_eqb mode Outer) eqn:Hmode.
      * destruct rows_to_pad as [Hl Hr]; [exact N | | ].
        { intros ->. discriminate Hmode. }
        destruct (left_outer_non_equi_join_aligned HYRISE_DEBUG impl N out1
                    Hl Hr Hal1) as (out2 & -> & Hal2).
        run. now apply Hpatch.
      * run. now apply Hpatch.
Qed.

Lemma null_rows_aligned end_left end_right (from_left from_right : PosList) :
  (forall l, In l from_left -> In l (null_rows_left sort_output)) ->
  (forall r, In r from_right -> In r (null_rows_right sort_output)) ->
  aligned_lists (merge_impl end_left end_right)
    (from_left ++ map (fun _ => NULL_ROW_ID) from_right)
    (map (fun _ => NULL_ROW_ID) from_left ++ from_right).
Proof.
  intros Hl Hr. split.
  - rewrite !length_app, !length_map. reflexivity.
  - rewrite combine_app_same by now rewrite length_map.
    rewrite combine_map_r, combine_map_l. apply Forall_app. split.
    + apply List.Forall_forall. intros [l r] Hin.
      apply in_map_iff in Hin as (x & E & Hx). injection E as <- <-.
      right. left. split; [reflexivity | right]. simpl. auto.
    + apply List.Forall_forall. intros [l r] Hin.
      apply in_map_iff in Hin as (x & E & Hx). injection E as <- <-.
      right. right. split; [reflexivity | right]. simpl. auto.
Qed.

(** The merge returns, with aligned output lists. *)
Lemma merge_phase_aligned :
  exists end_left end_right out,
    merge_phase HYRISE_DEBUG left_table column_ids op mode cluster_count
      sort_output = Returned out
    /\ aligned (merge_impl end_left end_right) out.
Proof.
  unfold merge_phase.
  destruct (end_of_table_returns HYRISE_DEBUG cluster_count sort_output
              some_cluster left_count right_count (clusters_left sort_output))
    as [el ->]; [lia |].
  destruct (end_of_table_returns HYRISE_DEBUG cluster_count sort_output
              some_cluster left_count right_count (clusters_right sort_output))
    as [er ->]; [lia |].
  run. fold (merge_impl el er).
  destruct (perform_join_aligned el er) as (out & -> & Hal). run.
  exists el, er.
  destruct (JoinMode_eqb mode Left || JoinMode_eqb mode Outer || _); [| eauto].
  eexists. split; [reflexivity |].
  unfold aligned. simpl. apply Forall2_app; [exact Hal |].
  constructor; [| constructor].
  apply null_rows_aligned.
  - destruct (JoinMode_eqb mode Left || JoinMode_eqb mode Outer);
      [auto | intros l []].
  - destruct (JoinMode_eqb mode Right || JoinMode_eqb mode Outer);
      [auto | intros r []].
Qed.

End AlignedOutput.

Section SortMergePartners.
Import Storage JoinSortMerge.

(** The output lists are aligned.  For a sort-merge join in a mode other
    than Semi and Anti, on
    clusters as the radix cluster sort delivers them (sorted by value;
    cut at common split values when the predicate is not an equality;
    not empty on both sides when an outer join on an inequality has rows
    to pad), the merge returns, and after it, the lists of the rows with
    a NULL join value included, the left and the right output position
    list of every output cluster have the same length, and the entries at
    the same index are join partners: a left and a right row whose join
    values satisfy the predicate, or a row of one input and
    [NULL_ROW_ID] as its padding. *)
Lemma sort_merge_output_partners (HYRISE_DEBUG : bool) (left_table : Table)
    (column_ids : ColumnID * ColumnID) (op : PredicateCondition)
    (mode : JoinMode) (cluster_count : nat) (sort_output : RadixClusterOutput) :
  mode <> Semi /\ mode <> Anti ->
  supported_condition op = true ->
  0 < cluster_count ->
  length (clusters_left sort_output) = cluster_count ->
  length (clusters_right sort_output) = cluster_count ->
  Forall sorted_by_value (clusters_left sort_output) ->
  Forall sorted_by_value (clusters_right sort_output) ->
  (op <> Equals ->
   range_clustered (clusters_left sort_output) (clusters_right sort_output)) ->
  (op <> Equals -> mode <> Inner ->
   concat (clusters_left sort_output) <> []
   /\ concat (clusters_right sort_output) <> []) ->
  exists out,
    merge_phase HYRISE_DEBUG left_table column_ids op mode cluster_count
      sort_output = Returned out
    /\ Forall2
         (fun left_pos_list right_pos_list =>
            length left_pos_list = length right_pos_list
            /\ forall r left_row right_row,
                 left_pos_list !! r = Some left_row ->
                 right_pos_list !! r = Some right_row ->
                 partners (clusters_left sort_output)
                   (clusters_right sort_output)
                   (null_rows_left sort_output) (null_rows_right sort_output)
                   op left_row right_row)
         (_output_pos_lists_left out) (_output_pos_lists_right out).
Proof.
  intros Hmode Hop Hsome Hlc Hrc Hls Hrs Hclustered Hpad.
  destruct (merge_phase_aligned HYRISE_DEBUG left_table column_ids op mode
              cluster_count sort_output Hsome Hlc Hrc Hls Hrs Hop Hmode
              Hclustered Hpad) as (el & er & out & Hrun & Hal).
  exists out. split; [exact Hrun |].
  eapply Forall2_impl; [exact Hal |].
  intros L R [Hlen HF]. split; [exact Hlen |].
  intros r left_row right_row Hl Hr.
  exact (Forall_combine_lookup _ L R r left_row right_row HF Hl Hr).
Qed.

(** A left input with the join values [1, 3, NULL] and a right input with
    [0, 2, 4], sorted into two clusters that are cut at the value 2. *)
Definition left_with_padding : Table :=
  mkTable Data 1 [[ValueSegment [IntValue 1; IntValue 3; NullValue]]].

Definition range_clusters : RadixClusterOutput :=
  mkRadixClusterOutput
    [[mkMaterializedValue (mkRowID 0 0) 1];
     [mkMaterializedValue (mkRowID 0 1) 3]]
    [[mkMaterializedValue (mkRowID 0 0) 0; mkMaterializedValue (mkRowID 0 1) 2];
     [mkMaterializedValue (mkRowID 0 2) 4]]
    [mkRowID 0 2] [].

Lemma range_clusters_clustered :
  range_clustered (clusters_left range_clusters)
    (clusters_right range_clusters).
Proof.
  intros c1 c2 s1 s2 x y Hlt H1 H2 Hx Hy.
  destruct c1 as [|[|c1]], c2 as [|[|c2]]; try lia; simpl in H1, H2;
    destruct H1 as [H1 | H1], H2 as [H2 | H2]; try discriminate;
    injection H1 as <-; injection H2 as <-; simpl in Hx, Hy;
    repeat match goal with
           | H : _ \/ _ |- _ => destruct H as [H | H]
           | H : False |- _ => destruct H
           end; subst; simpl; lia.
Qed.

Lemma sort_merge_output_partners_witness :
  (Outer <> Semi /\ Outer <> Anti)
  /\ supported_condition LessThan = true
  /\ 0 < 2
  /\ Forall sorted_by_value (clusters_left range_clusters)
  /\ Forall sorted_by_value (clusters_right range_clusters)
  /\ range_clustered (clusters_left range_clusters)
       (clusters_right range_clusters)
  /\ exists out,
       merge_phase true left_with_padding (0, 0) LessThan Outer 2
         range_clusters = Returned out
       /\ Forall2
            (fun left_pos_list right_pos_list =>
               length left_pos_list = length right_pos_list
               /\ forall r left_row right_row,
                    left_pos_list !! r = Some left_row ->
                    right_pos_list !! r = Some right_row ->
                    partners (clusters_left range_clusters)
                      (clusters_right range_clusters)
                      (null_rows_left range_clusters)
                      (null_rows_right range_clusters)
                      LessThan left_row right_row)
            (_output_pos_lists_left out) (_output_pos_lists_right out).
Proof.
  assert (Hmode : Outer <> Semi /\ Outer <> Anti) by (split; discriminate).
  assert (Hl : Forall sorted_by_value (clusters_left range_clusters)).
  { repeat constructor; apply sorted_one. }
  assert (Hr : Forall sorted_by_value (clusters_right range_clusters)).
  { repeat constructor; [apply sorted_two; simpl; lia | apply sorted_one]. }
  split; [exact Hmode | split; [reflexivity | split; [lia |]]].
  split; [exact Hl | split; [exact Hr |]].
  split; [exact range_clusters_clustered |].
  assert (Hpad : LessThan <> Equals -> Outer <> Inner ->
                 concat (clusters_left range_clusters) <> []
                 /\ concat (clusters_right range_clusters) <> []).
  { intros _ _. split; discriminate. }
  exact (sort_merge_output_partners true left_with_padding (0, 0) LessThan
           Outer 2 range_clusters Hmode eq_refl ltac:(lia) eq_refl eq_refl
           Hl Hr (fun _ => range_clusters_clustered) Hpad).
Defined.

(** The merge of the example: the pairs of the two clusters, the padding
    of the right row with the value 0, and the left row with the NULL
    join value in a list of its own. *)
Example range_clusters_merge :
  merge_phase true left_with_padding (0, 0) LessThan Outer 2 range_clusters
  = Returned
      (mkOutput
         [[mkRowID 0 0; mkRowID 0 0; NULL_ROW_ID]; [mkRowID 0 1]; [mkRowID 0 2]]
         [[mkRowID 0 1; mkRowID 0 2; mkRowID 0 0]; [mkRowID 0 2]; [NULL_ROW_ID]]).
Proof. vm_compute. reflexivity. Qed.

End SortMergePartners.

(** * Further properties of the code *)

(** ** Sort-merge join: runs, ranges and positions of a sorted table *)

Section RunsOfACluster.
Import Storage JoinSortMerge.

(** X1: [_run_length] on a cluster that is sorted by value.  From a start
    index inside the cluster it returns the length of the run of the
    value that stands there: the run is not empty, it ends inside the
    cluster, all its rows have that value, and every row behind it has a
    greater one.  From a start index at or behind the end of the cluster
    it returns 0. *)
Theorem run_length_is_the_run (segment : MaterializedSegment) (start : nat) :
  sorted_by_value segment ->
  (length segment <= start -> _run_length start segment = 0)
  /\ forall x,
       segment !! start = Some x ->
       0 < _run_length start segment
       /\ start + _run_length start segment <= length segment
       /\ (forall i y,
             start <= i < start + _run_length start segment ->
             segment !! i = Some y -> value y = value x)
       /\ (forall i y,
             start + _run_length start segment <= i ->
             segment !! i = Some y -> (value x < value y)%Z).
Proof.
  intros Hsorted. split.
  - intros Hge. unfold _run_length.
    now rewrite (proj2 (lookup_ge_None segment start) Hge).
  - intros x Hx.
    destruct (run_length_spec segment start x Hsorted Hx) as (Hb & Hrun & Hbeyond).
    simpl in Hb. repeat split; [lia | lia | exact Hrun | exact Hbeyond].
Qed.

Definition run_example : MaterializedSegment :=
  [mkMaterializedValue (mkRowID 0 4) 1; mkMaterializedValue (mkRowID 0 0) 2;
   mkMaterializedValue (mkRowID 0 3) 2; mkMaterializedValue (mkRowID 0 1) 2;
   mkMaterializedValue (mkRowID 0 2) 7].

Lemma run_example_sorted : sorted_by_value run_example.
Proof.
  intros i j x y Hij Hx Hy.
  destruct i as [|[|[|[|[|i]]]]], j as [|[|[|[|[|j]]]]]; simpl in Hx, Hy;
    try discriminate; try lia;
    injection Hx as <-; injection Hy as <-; simpl; lia.
Qed.

Lemma run_length_is_the_run_witness :
  sorted_by_value run_example
  /\ _run_length 1 run_example = 3
  /\ (length run_example <= 1 -> _run_length 1 run_example = 0)
  /\ forall x,
       run_example !! 1 = Some x ->
       0 < _run_length 1 run_example
       /\ 1 + _run_length 1 run_example <= length run_example
       /\ (forall i y,
             1 <= i < 1 + _run_length 1 run_example ->
             run_example !! i = Some y -> value y = value x)
       /\ (forall i y,
             1 + _run_length 1 run_example <= i ->
             run_example !! i = Some y -> (value x < value y)%Z).
Proof.
  split; [exact run_example_sorted | split; [reflexivity |]].
  exact (run_length_is_the_run run_example 1 run_example_sorted).
Defined.

End RunsOfACluster.

Section PositionsOfATable.
Import Storage JoinSortMerge.

Lemma concat_lookups {A : Type} (table : list (list A)) :
  concat (map (fun c => default [] (table !! c)) (seq 0 (length table)))
  = concat table.
Proof.
  f_equal. apply list_eq. intros c. rewrite list_lookup_fmap.
  destruct (Nat.lt_ge_cases c (length table)) as [Hc | Hc].
  - rewrite lookup_seq_lt by exact Hc. simpl.
    destruct (lookup_lt_is_Some_2 table c Hc) as [s Hs]. now rewrite Hs.
  - rewrite lookup_seq_ge by exact Hc. simpl. symmetry.
    now apply lookup_ge_None.
Qed.

(** X2: the range from the first position of a sorted table to
    [_end_of_table] is the whole table: [for_every_row_id] hands out the
    row id of every row of every cluster, in the order of the table.  On
    a table without clusters [_end_of_table] fails the assertion of a
    debug build and reads no cluster in a release build. *)
Theorem whole_table_range (HYRISE_DEBUG : bool)
    (table : MaterializedSegmentList) :
  (table = [] ->
   _end_of_table HYRISE_DEBUG table
   = if HYRISE_DEBUG then Thrown logic_error else UndefinedBehaviour)
  /\ (table <> [] ->
      exists end_of_table,
        _end_of_table HYRISE_DEBUG table = Returned end_of_table
        /\ for_every_row_id table (to (mkTablePosition 0 0) end_of_table)
           = map row_id (concat table)).
Proof.
  split.
  - intros ->. now destruct HYRISE_DEBUG.
  - intros Hne. unfold _end_of_table.
    assert (Hlen : 0 < length table) by (destruct table; simpl; [easy | lia]).
    destruct (lookup_lt_is_Some_2 table (length table - 1)) as [last Hlast];
      [lia |].
    rewrite Hlast.
    replace (negb (length table =? 0)) with true
      by (symmetry; apply negb_true_iff, Nat.eqb_neq; lia).
    exists (mkTablePosition (length table - 1) (length last)). split.
    + now destruct HYRISE_DEBUG.
    + unfold for_every_row_id, to.
      cbn [range_start range_end cluster index].
      replace (S (length table - 1) - 0) with (length table) by lia.
      rewrite <- (concat_lookups table), concat_map, map_map.
      f_equal. apply map_ext_in. intros c Hc. apply in_seq in Hc.
      destruct (lookup_lt_is_Some_2 table c ltac:(lia)) as [s Hs].
      rewrite Hs. change (default [] (Some s)) with s.
      assert (Hend :
        (if c =? length table - 1 then length last else length s) = length s).
      { destruct (Nat.eqb_spec c (length table - 1)) as [-> | _];
          [congruence | reflexivity]. }
      rewrite Hend. destruct (c =? 0); rewrite Nat.sub_0_r, drop_0;
        now rewrite firstn_all.
Qed.

End PositionsOfATable.

Section ExtremesOfATable.
Import Storage JoinSortMerge.

(** The rows of a table are in the order of their values: inside every
    cluster, and from one cluster to the next. *)
Definition table_sorted (table : MaterializedSegmentList) : Prop :=
  forall c1 i1 c2 i2 s1 s2 x y,
    table !! c1 = Some s1 -> s1 !! i1 = Some x ->
    table !! c2 = Some s2 -> s2 !! i2 = Some y ->
    c1 < c2 \/ (c1 = c2 /\ i1 <= i2) ->
    (value x <= value y)%Z.

Lemma in_concat_lookup {A : Type} (table : list (list A)) (x : A) :
  In x (concat table)
  <-> exists c s i, table !! c = Some s /\ s !! i = Some x.
Proof.
  rewrite in_concat. split.
  - intros (s & Hs & Hx).
    apply list_elem_of_In, list_elem_of_lookup in Hs as [c Hc].
    apply list_elem_of_In, list_elem_of_lookup in Hx as [i Hi]. eauto.
  - intros (c & s & i & Hc & Hi). exists s. split.
    + apply list_elem_of_In. eapply list_elem_of_lookup_2. exact Hc.
    + apply list_elem_of_In. eapply list_elem_of_lookup_2. exact Hi.
Qed.

Lemma first_value_position (table : MaterializedSegmentList) (v : Z) :
  first_value table = Returned v ->
  exists c s x,
    table !! c = Some s /\ s !! 0 = Some x /\ value x = v
    /\ forall c', c' < c -> table !! c' = Some [].
Proof.
  induction table as [|[|x partition] rest IH]; simpl; intros H;
    [discriminate | |].
  - destruct (IH H) as (c & s & x & Hc & Hx & Hv & Hbefore).
    exists (S c), s, x. repeat split; auto.
    intros [|c'] Hlt; [reflexivity | apply Hbefore; lia].
  - injection H as <-. exists 0, (x :: partition), x.
    repeat split; auto. intros c' Hlt. lia.
Qed.

Lemma last_value_position (table : MaterializedSegmentList) (n : nat) (v : Z) :
  last_value table n = Returned v ->
  exists c s x,
    c < n /\ table !! c = Some s /\ last s = Some x /\ value x = v
    /\ forall c', c < c' < n -> table !! c' = Some [].
Proof.
  induction n as [|n IH]; cbn [last_value]; intros H; [discriminate |].
  apply bind_returned in H as (partition & Hp & H).
  apply defined_returned in Hp.
  destruct (last partition) as [x |] eqn:Hlast.
  - injection H as <-. exists n, partition, x.
    repeat split; auto. intros c' Hc'. lia.
  - destruct (IH H) as (c & s & x & Hc & Hs & Hx & Hv & Hafter).
    exists c, s, x. repeat split; auto.
    intros c' Hc'. destruct (Nat.eq_dec c' n) as [-> | Hne].
    + apply last_None in Hlast. now subst partition.
    + apply Hafter. lia.
Qed.

(** The first value of a sorted table is its smallest, the last its
    largest. *)
Lemma first_value_is_least (table : MaterializedSegmentList) (lo : Z) :
  table_sorted table ->
  first_value table = Returned lo ->
  (exists x, In x (concat table) /\ value x = lo)
  /\ forall y, In y (concat table) -> (lo <= value y)%Z.
Proof.
  intros Hsorted Hlo.
  destruct (first_value_position table lo Hlo)
    as (c & s & x & Hc & Hx & Hv & Hbefore).
  split; [exists x; split; [apply in_concat_lookup; eauto | exact Hv] |].
  intros y Hy. apply in_concat_lookup in Hy as (e & u & i & He & Hi).
  rewrite <- Hv. apply (Hsorted c 0 e i s u x y Hc Hx He Hi).
  destruct (Nat.lt_trichotomy e c) as [Hlt | [-> | Hgt]].
  - rewrite (Hbefore e Hlt) in He. injection He as <-. discriminate Hi.
  - right. split; [reflexivity | lia].
  - now left.
Qed.

Lemma last_value_is_greatest (table : MaterializedSegmentList) (hi : Z) :
  table_sorted table ->
  last_value table (length table) = Returned hi ->
  (exists x, In x (concat table) /\ value x = hi)
  /\ forall y, In y (concat table) -> (value y <= hi)%Z.
Proof.
  intros Hsorted Hhi.
  destruct (last_value_position table _ hi Hhi)
    as (d & t & z & Hd & Ht & Hz & Hw & Hafter).
  assert (Hz' : t !! (length t - 1) = Some z).
  { rewrite last_lookup in Hz.
    now replace (length t - 1) with (pred (length t)) by lia. }
  split; [exists z; split; [apply in_concat_lookup; eauto | exact Hw] |].
  intros y Hy. apply in_concat_lookup in Hy as (e & u & i & He & Hi).
  pose proof (lookup_lt_Some _ _ _ He) as Hebound.
  pose proof (lookup_lt_Some _ _ _ Hi) as Hibound.
  rewrite <- Hw. apply (Hsorted e i d (length t - 1) u t y z He Hi Ht Hz').
  destruct (Nat.lt_trichotomy d e) as [Hlt | [-> | Hgt]].
  - rewrite (Hafter e (conj Hlt Hebound)) in He. injection He as <-.
    discriminate Hi.
  - right. split; [reflexivity |].
    assert (u = t) by congruence. subst u. lia.
  - now left.
Qed.

Variable HYRISE_DEBUG : bool.
Variable impl : Impl.

(** X3: on a table that is sorted as a whole and has a row,
    [_table_min_value] returns the value of a row of the table that no
    row of the table is below, and [_table_max_value] the value of a row
    that no row is above.  (A debug build asserts that the join is not on
    equality, where the table has no order as a whole.) *)
Theorem table_min_max_value (table : MaterializedSegmentList) :
  (HYRISE_DEBUG = true -> _op impl <> Equals) ->
  table_sorted table ->
  concat table <> [] ->
  exists lo hi,
    _table_min_value HYRISE_DEBUG impl table = Returned lo
    /\ _table_max_value HYRISE_DEBUG impl table = Returned hi
    /\ (exists x, In x (concat table) /\ value x = lo)
    /\ (exists x, In x (concat table) /\ value x = hi)
    /\ forall y, In y (concat table) -> (lo <= value y <= hi)%Z.
Proof.
  intros Hop Hsorted Hne.
  assert (Hlen : length table <> 0).
  { intros E. apply nil_length_inv in E. subst table. now contradiction Hne. }
  assert (Hmin : _table_min_value HYRISE_DEBUG impl table = first_value table).
  { unfold _table_min_value, DebugAssert, Assert.
    destruct HYRISE_DEBUG; [| reflexivity].
    unfold PredicateCondition_eqb.
    rewrite (bool_decide_eq_false_2 _ (Hop eq_refl)).
    now rewrite (proj2 (Nat.eqb_neq _ _) Hlen). }
  assert (Hmax : _table_max_value HYRISE_DEBUG impl table
                 = last_value table (length table)).
  { unfold _table_max_value, DebugAssert, Assert.
    destruct HYRISE_DEBUG; [| reflexivity].
    unfold PredicateCondition_eqb.
    rewrite (bool_decide_eq_false_2 _ (Hop eq_refl)).
    now rewrite (proj2 (Nat.eqb_neq _ _) Hlen). }
  destruct (first_value_returns table Hne) as [lo Hlo].
  destruct (last_value_returns table (length table)) as [hi Hhi];
    [lia | now rewrite take_ge by lia |].
  exists lo, hi. rewrite Hmin, Hmax. split; [exact Hlo | split; [exact Hhi |]].
  destruct (first_value_is_least table lo Hsorted Hlo) as (Hx & Hleast).
  destruct (last_value_is_greatest table hi Hsorted Hhi) as (Hz & Hgreatest).
  split; [exact Hx | split; [exact Hz |]].
  intros y Hy. split; [now apply Hleast | now apply Hgreatest].
Qed.

End ExtremesOfATable.

Section SearchInATable.
Import Storage JoinSortMerge.

Lemma first_index_spec (condition : Z -> bool) (partition : MaterializedSegment)
    (offset : nat) :
  match first_index condition partition offset with
  | Some index =>
      offset <= index
      /\ (exists x, partition !! (index - offset) = Some x
                    /\ condition (value x) = true)
      /\ forall i y, i < index - offset -> partition !! i = Some y ->
                     condition (value y) = false
  | None =>
      forall i y, partition !! i = Some y -> condition (value y) = false
  end.
Proof.
  revert offset. induction partition as [|x rest IH]; intros offset; simpl.
  - intros i y H. discriminate H.
  - destruct (condition (value x)) eqn:Hx.
    + split; [lia | split].
      * exists x. now rewrite Nat.sub_diag.
      * intros i y Hi. lia.
    + specialize (IH (S offset)).
      destruct (first_index condition rest (S offset)) as [index |].
      * destruct IH as (Hle & (z & Hz & Hcz) & Hbefore).
        split; [lia | split].
        -- exists z. split; [| exact Hcz].
           replace (index - offset) with (S (index - S offset)) by lia.
           exact Hz.
        -- intros [|i] y Hi Hy; simpl in Hy.
           ++ now injection Hy as <-.
           ++ apply (Hbefore i y); [lia | exact Hy].
      * intros [|i] y Hy; simpl in Hy.
        -- now injection Hy as <-.
        -- now apply (IH i y).
Qed.

(** A condition that holds of every value above one it holds of. *)
Definition upward_closed (condition : Z -> bool) : Prop :=
  forall a b, (a <= b)%Z -> condition a = true -> condition b = true.

(** A condition that holds of every value below one it holds of. *)
Definition downward_closed (condition : Z -> bool) : Prop :=
  forall a b, (a <= b)%Z -> condition b = true -> condition a = true.

Lemma first_value_from_spec (condition : Z -> bool)
    (partitions : MaterializedSegmentList) (partition_id : nat) :
  upward_closed condition ->
  Forall sorted_by_value partitions ->
  match first_value_from condition partitions partition_id with
  | Some position =>
      partition_id <= cluster position
      /\ (exists s x,
            partitions !! (cluster position - partition_id) = Some s
            /\ s !! index position = Some x /\ condition (value x) = true)
      /\ forall c i s y,
           partitions !! c = Some s -> s !! i = Some y ->
           c < cluster position - partition_id
           \/ (c = cluster position - partition_id /\ i < index position) ->
           condition (value y) = false
  | None =>
      forall c i s y,
        partitions !! c = Some s -> s !! i = Some y ->
        condition (value y) = false
  end.
Proof.
  intros Hup. revert partition_id.
  induction partitions as [|partition rest IH]; intros partition_id Hsorted;
    cbn [first_value_from].
  - intros c i s y H. discriminate H.
  - inversion Hsorted as [|? ? Hpartition Hrest]; subst.
    specialize (IH (S partition_id) Hrest).
    assert (Hskip :
      (forall i y, partition !! i = Some y -> condition (value y) = false) ->
      match first_value_from condition rest (S partition_id) with
      | Some position =>
          partition_id <= cluster position
          /\ (exists s x,
                (partition :: rest) !! (cluster position - partition_id) = Some s
                /\ s !! index position = Some x /\ condition (value x) = true)
          /\ forall c i s y,
               (partition :: rest) !! c = Some s -> s !! i = Some y ->
               c < cluster position - partition_id
               \/ (c = cluster position - partition_id /\ i < index position) ->
               condition (value y) = false
      | None =>
          forall c i s y,
            (partition :: rest) !! c = Some s -> s !! i = Some y ->
            condition (value y) = false
      end).
    { intros Hnone.
      destruct (first_value_from condition rest (S partition_id))
        as [position |].
      - destruct IH as (Hle & (s & x & Hs & Hx & Hcx) & Hbefore).
        split; [lia | split].
        + exists s, x. split; [| auto].
          replace (cluster position - partition_id)
            with (S (cluster position - S partition_id)) by lia.
          exact Hs.
        + intros [|c] i s' y Hs' Hy Hpos; simpl in Hs'.
          * injection Hs' as <-. now apply (Hnone i y).
          * apply (Hbefore c i s' y Hs' Hy). lia.
      - intros [|c] i s' y Hs' Hy; simpl in Hs'.
        + injection Hs' as <-. now apply (Hnone i y).
        + now apply (IH c i s' y). }
    destruct (last partition) as [back |] eqn:Hback.
    + destruct (condition (value back)) eqn:Hcback.
      * pose proof (first_index_spec condition partition 0) as Hfirst.
        destruct (first_index condition partition 0) as [index |].
        -- destruct Hfirst as (_ & (x & Hx & Hcx) & Hbefore).
           rewrite Nat.sub_0_r in Hx, Hbefore.
           cbn [cluster JoinSortMerge.index]. rewrite Nat.sub_diag.
           split; [lia | split].
           ++ exists partition, x. auto.
           ++ intros c i s y Hs Hy [Hc | [-> Hi]]; [lia |].
              simpl in Hs. injection Hs as <-. now apply (Hbefore i y).
        -- apply Hskip. exact Hfirst.
      * apply Hskip. intros i y Hy.
        destruct (condition (value y)) eqn:Hcy; [| reflexivity].
        rewrite last_lookup in Hback.
        pose proof (lookup_lt_Some _ _ _ Hy) as Hi.
        pose proof (Hpartition i (pred (length partition)) y back
                      ltac:(lia) Hy Hback) as Hle.
        rewrite (Hup _ _ Hle Hcy) in Hcback. discriminate.
    + apply Hskip. apply last_None in Hback. subst partition.
      intros i y Hy. discriminate Hy.
Qed.

(** X4: [_first_value_that_satisfies] on clusters that are sorted by
    value, for a condition that is upward closed (as [> v] and [>= v]
    are).  If it returns a position, the row there satisfies the
    condition and no row before it, in the order of the table, does; if
    it returns nothing, no row of the table satisfies the condition. *)
Theorem first_value_that_satisfies_is_first (condition : Z -> bool)
    (table : MaterializedSegmentList) :
  upward_closed condition ->
  Forall sorted_by_value table ->
  match _first_value_that_satisfies table condition with
  | Some position =>
      (exists s x,
         table !! cluster position = Some s
         /\ s !! index position = Some x /\ condition (value x) = true)
      /\ forall c i s y,
           table !! c = Some s -> s !! i = Some y ->
           c < cluster position \/ (c = cluster position /\ i < index position) ->
           condition (value y) = false
  | None =>
      forall y, In y (concat table) -> condition (value y) = false
  end.
Proof.
  intros Hup Hsorted. unfold _first_value_that_satisfies.
  pose proof (first_value_from_spec condition table 0 Hup Hsorted) as H.
  destruct (first_value_from condition table 0) as [position |].
  - destruct H as (_ & Hat & Hbefore). rewrite Nat.sub_0_r in Hat, Hbefore.
    split; [exact Hat | exact Hbefore].
  - intros y Hy. apply in_concat_lookup in Hy as (c & s & i & Hs & Hi).
    exact (H c i s y Hs Hi).
Qed.

End SearchInATable.

Section ReverseSearchInATable.
Import Storage JoinSortMerge.

Lemma last_index_spec (condition : Z -> bool) (partition : MaterializedSegment)
    (n : nat) :
  match last_index condition partition n with
  | Some index =>
      index < n
      /\ (exists x, partition !! index = Some x /\ condition (value x) = true)
      /\ forall i y, index < i < n -> partition !! i = Some y ->
                     condition (value y) = false
  | None =>
      forall i y, i < n -> partition !! i = Some y ->
                  condition (value y) = false
  end.
Proof.
  induction n as [|n IH]; cbn [last_index].
  - intros i y Hi. lia.
  - assert (Hnext :
      (forall y, partition !! n = Some y -> condition (value y) = false) ->
      match last_index condition partition n with
      | Some index =>
          index < S n
          /\ (exists x, partition !! index = Some x
                        /\ condition (value x) = true)
          /\ forall i y, index < i < S n -> partition !! i = Some y ->
                         condition (value y) = false
      | None =>
          forall i y, i < S n -> partition !! i = Some y ->
                      condition (value y) = false
      end).
    { intros Hn. destruct (last_index condition partition n) as [index |].
      - destruct IH as (Hlt & Hat & Hafter). split; [lia | split; [exact Hat |]].
        intros i y Hi Hy. destruct (Nat.eq_dec i n) as [-> | Hne];
          [now apply Hn | apply (Hafter i y); [lia | exact Hy]].
      - intros i y Hi Hy. destruct (Nat.eq_dec i n) as [-> | Hne];
          [now apply Hn | apply (IH i y); [lia | exact Hy]]. }
    destruct (partition !! n) as [x |] eqn:Hx.
    + destruct (condition (value x)) eqn:Hcx.
      * split; [lia | split; [eauto |]]. intros i y Hi. lia.
      * apply Hnext. intros y Hy. now injection Hy as <-.
    + apply Hnext. intros y Hy. discriminate Hy.
Qed.

Lemma first_value_reverse_from_spec (condition : Z -> bool)
    (table : MaterializedSegmentList) :
  downward_closed condition ->
  Forall sorted_by_value table ->
  forall n,
    n <= length table ->
    match first_value_reverse_from condition table n with
    | Some position =>
        0 < index position
        /\ (exists s x,
              table !! cluster position = Some s
              /\ s !! (index position - 1) = Some x
              /\ condition (value x) = true)
        /\ forall c i s y,
             table !! c = Some s -> s !! i = Some y ->
             (cluster position < c /\ c < n)
             \/ (c = cluster position /\ index position <= i) ->
             condition (value y) = false
    | None =>
        forall c i s y,
          c < n -> table !! c = Some s -> s !! i = Some y ->
          condition (value y) = false
    end.
Proof.
  intros Hdown Hsorted.
  induction n as [|n IH]; intros Hn; cbn [first_value_reverse_from].
  - intros c i s y Hc. lia.
  - specialize (IH ltac:(lia)).
    destruct (lookup_lt_is_Some_2 table n ltac:(lia)) as [partition Hp].
    rewrite Hp. change (default [] (Some partition)) with partition.
    pose proof (Forall_lookup_1 _ _ _ _ Hsorted Hp) as Hpartition.
    assert (Hskip :
      (forall i y, partition !! i = Some y -> condition (value y) = false) ->
      match first_value_reverse_from condition table n with
      | Some position =>
          0 < index position
          /\ (exists s x,
                table !! cluster position = Some s
                /\ s !! (index position - 1) = Some x
                /\ condition (value x) = true)
          /\ forall c i s y,
               table !! c = Some s -> s !! i = Some y ->
               (cluster position < c /\ c < S n)
               \/ (c = cluster position /\ index position <= i) ->
               condition (value y) = false
      | None =>
          forall c i s y,
            c < S n -> table !! c = Some s -> s !! i = Some y ->
            condition (value y) = false
      end).
    { intros Hnone.
      destruct (first_value_reverse_from condition table n) as [position |].
      - destruct IH as (Hpos & Hat & Hafter). split; [exact Hpos |].
        split; [exact Hat |].
        intros c i s y Hs Hy [[Hc Hcn] | [-> Hi]].
        + destruct (Nat.eq_dec c n) as [-> | Hne].
          * assert (s = partition) by congruence. subst s.
            now apply (Hnone i y).
          * apply (Hafter c i s y Hs Hy). left. lia.
        + apply (Hafter _ i s y Hs Hy). now right.
      - intros c i s y Hc Hs Hy. destruct (Nat.eq_dec c n) as [-> | Hne].
        + assert (s = partition) by congruence. subst s.
          now apply (Hnone i y).
        + apply (IH c i s y); [lia | exact Hs | exact Hy]. }
    destruct partition as [|front tail] eqn:Epartition.
    + apply Hskip. intros i y Hy. discriminate Hy.
    + rewrite <- Epartition in *.
      assert (Hfront : partition !! 0 = Some front) by now rewrite Epartition.
      clear Epartition.
      destruct (condition (value front)) eqn:Hcfront.
      * pose proof (last_index_spec condition partition (length partition))
          as Hlast.
        destruct (last_index condition partition (length partition))
          as [index |].
        -- destruct Hlast as (Hlt & (x & Hx & Hcx) & Hafter).
           cbn [cluster JoinSortMerge.index].
           split; [lia | split].
           ++ exists partition, x.
              replace (index + 1 - 1) with index by lia. auto.
           ++ intros c i s y Hs Hy [[Hc Hcn] | [-> Hi]]; [lia |].
              assert (s = partition) by congruence. subst s.
              pose proof (lookup_lt_Some _ _ _ Hy).
              apply (Hafter i y); [lia | exact Hy].
        -- apply Hskip. intros i y Hy.
           pose proof (lookup_lt_Some _ _ _ Hy).
           now apply (Hlast i y).
      * apply Hskip. intros i y Hy.
        destruct (condition (value y)) eqn:Hcy; [| reflexivity].
        pose proof (Hpartition 0 i front y ltac:(lia) Hfront Hy) as Hle.
        rewrite (Hdown _ _ Hle Hcy) in Hcfront. discriminate.
Qed.

(** X5: [_first_value_that_satisfies_reverse] on clusters that are sorted
    by value, for a condition that is downward closed (as [< v] and
    [<= v] are).  If it returns a position, the position is the one
    behind the last row that satisfies the condition: the row before it
    satisfies the condition, and no row at or behind it, in the order of
    the table, does; if it returns nothing, no row of the table satisfies
    the condition. *)
Theorem first_value_that_satisfies_reverse_is_last (condition : Z -> bool)
    (table : MaterializedSegmentList) :
  downward_closed condition ->
  Forall sorted_by_value table ->
  match _first_value_that_satisfies_reverse table condition with
  | Some position =>
      0 < index position
      /\ (exists s x,
            table !! cluster position = Some s
            /\ s !! (index position - 1) = Some x
            /\ condition (value x) = true)
      /\ forall c i s y,
           table !! c = Some s -> s !! i = Some y ->
           cluster position < c
           \/ (c = cluster position /\ index position <= i) ->
           condition (value y) = false
  | None =>
      forall y, In y (concat table) -> condition (value y) = false
  end.
Proof.
  intros Hdown Hsorted. unfold _first_value_that_satisfies_reverse.
  pose proof (first_value_reverse_from_spec condition table Hdown Hsorted)
    as Hgen.
  specialize (Hgen (length table) (Nat.le_refl _)).
  destruct (first_value_reverse_from condition table (length table))
    as [position |].
  - destruct Hgen as (Hpos & Hat & Hafter). split; [exact Hpos |].
    split; [exact Hat |].
    intros c i s y Hs Hy [Hc | Hc].
    + apply (Hafter c i s y Hs Hy). left. split; [exact Hc |].
      exact (lookup_lt_Some _ _ _ Hs).
    + apply (Hafter c i s y Hs Hy). now right.
  - intros y Hy. apply in_concat_lookup in Hy as (c & s & i & Hs & Hi).
    exact (Hgen c i s y (lookup_lt_Some _ _ _ Hs) Hs Hi).
Qed.

End ReverseSearchInATable.

Section SearchExamples.
Import Storage JoinSortMerge.

(** A right input with the join values [0, 2, 4] in two clusters, in a
    join on [<]. *)
Definition searched_table : MaterializedSegmentList :=
  [[mkMaterializedValue (mkRowID 0 0) 0; mkMaterializedValue (mkRowID 0 1) 2];
   [mkMaterializedValue (mkRowID 0 2) 4]].

Definition searching_join : Impl :=
  mkImpl [[mkMaterializedValue (mkRowID 0 0) 1]; []] searched_table [] []
    left_with_padding 0 LessThan Outer 2
    (mkTablePosition 1 0) (mkTablePosition 1 1).

Lemma searched_table_clusters : Forall sorted_by_value searched_table.
Proof. repeat constructor; [apply sorted_two; simpl; lia | apply sorted_one]. Qed.

Lemma searched_table_sorted : table_sorted searched_table.
Proof.
  intros c1 i1 c2 i2 s1 s2 x y H1 Hx H2 Hy Hpos.
  destruct c1 as [|[|c1]]; simpl in H1; try discriminate;
    injection H1 as <-;
    destruct c2 as [|[|c2]]; simpl in H2; try discriminate;
    injection H2 as <-;
    destruct i1 as [|[|i1]]; simpl in Hx; try discriminate;
    injection Hx as <-;
    destruct i2 as [|[|i2]]; simpl in Hy; try discriminate;
    injection Hy as <-; simpl; lia.
Qed.

Lemma table_min_max_value_witness :
  table_sorted searched_table
  /\ exists lo hi,
       _table_min_value true searching_join searched_table = Returned lo
       /\ _table_max_value true searching_join searched_table = Returned hi
       /\ (exists x, In x (concat searched_table) /\ value x = lo)
       /\ (exists x, In x (concat searched_table) /\ value x = hi)
       /\ forall y, In y (concat searched_table) -> (lo <= value y <= hi)%Z.
Proof.
  split; [exact searched_table_sorted |].
  assert (Hop : true = true -> _op searching_join <> Equals)
    by (intros _; discriminate).
  assert (Hne : concat searched_table <> []) by discriminate.
  exact (table_min_max_value true searching_join searched_table Hop
           searched_table_sorted Hne).
Defined.

Lemma greater_than_upward_closed (v : Z) : upward_closed (fun w => Z.gtb w v).
Proof.
  intros a b Hle Ha. apply Z.gtb_lt in Ha. apply Z.gtb_lt. lia.
Qed.

Lemma less_than_downward_closed (v : Z) : downward_closed (fun w => Z.ltb w v).
Proof.
  intros a b Hle Hb. apply Z.ltb_lt in Hb. apply Z.ltb_lt. lia.
Qed.

Lemma first_value_that_satisfies_is_first_witness :
  _first_value_that_satisfies searched_table (fun w => Z.gtb w 1)
  = Some (mkTablePosition 0 1)
  /\ match _first_value_that_satisfies searched_table (fun w => Z.gtb w 1) with
     | Some position =>
         (exists s x,
            searched_table !! cluster position = Some s
            /\ s !! index position = Some x /\ Z.gtb (value x) 1 = true)
         /\ forall c i s y,
              searched_table !! c = Some s -> s !! i = Some y ->
              c < cluster position
              \/ (c = cluster position /\ i < index position) ->
              Z.gtb (value y) 1 = false
     | None =>
         forall y, In y (concat searched_table) -> Z.gtb (value y) 1 = false
     end.
Proof.
  split; [reflexivity |].
  exact (first_value_that_satisfies_is_first (fun w => Z.gtb w 1)
           searched_table (greater_than_upward_closed 1)
           searched_table_clusters).
Defined.

Lemma first_value_that_satisfies_reverse_is_last_witness :
  _first_value_that_satisfies_reverse searched_table (fun w => Z.ltb w 3)
  = Some (mkTablePosition 0 2)
  /\ match _first_value_that_satisfies_reverse searched_table
             (fun w => Z.ltb w 3) with
     | Some position =>
         0 < index position
         /\ (exists s x,
               searched_table !! cluster position = Some s
               /\ s !! (index position - 1) = Some x
               /\ Z.ltb (value x) 3 = true)
         /\ forall c i s y,
              searched_table !! c = Some s -> s !! i = Some y ->
              cluster position < c
              \/ (c = cluster position /\ index position <= i) ->
              Z.ltb (value y) 3 = false
     | None =>
         forall y, In y (concat searched_table) -> Z.ltb (value y) 3 = false
     end.
Proof.
  split; [reflexivity |].
  exact (first_value_that_satisfies_reverse_is_last (fun w => Z.ltb w 3)
           searched_table (less_than_downward_closed 3)
           searched_table_clusters).
Defined.

End SearchExamples.

(** ** Sort-merge join on equality: the pairs of a cluster *)

Section EquiCluster.
Import Storage JoinSortMerge.

(** The right rows of a cluster that have the join value of [x], as pairs
    with [x]. *)
Definition partners_of (right_cluster : MaterializedSegment)
    (x : MaterializedValue) : list (RowID * RowID) :=
  map (fun y => (row_id x, row_id y))
    (List.filter (fun y => Z.eqb (value y) (value x)) right_cluster).

(** What a join on equality owes to a left row: its pairs with the right
    rows of its value; if there are none, and the join keeps the left
    rows, the row with [NULL_ROW_ID] at its side. *)
Definition joined_row (pad : bool) (right_cluster : MaterializedSegment)
    (x : MaterializedValue) : list (RowID * RowID) :=
  match partners_of right_cluster x with
  | [] => if pad then [(row_id x, NULL_ROW_ID)] else []
  | pairs => pairs
  end.

Definition equi_rows (pad : bool) (left_cluster right_cluster : MaterializedSegment)
    : list (RowID * RowID) :=
  concat (map (joined_row pad right_cluster) left_cluster).

Lemma concat_map_ext_lookup {A B : Type} (f g : A -> list B) (l : list A) :
  (forall i x, l !! i = Some x -> f x = g x) ->
  concat (map f l) = concat (map g l).
Proof.
  induction l as [|a l IH]; intros H; simpl; [reflexivity |].
  rewrite (H 0 a eq_refl). f_equal. apply IH. intros i x. apply (H (S i)).
Qed.

Lemma list_prod_map {A B C D : Type} (f : A -> C) (g : B -> D)
    (l : list A) (k : list B) :
  list_prod (map f l) (map g k)
  = concat (map (fun x => map (fun y => (f x, g y)) k) l).
Proof.
  induction l as [|a l IH]; simpl; [reflexivity |].
  rewrite IH, map_map. reflexivity.
Qed.

Lemma equi_rows_app pad l1 l2 right_cluster :
  equi_rows pad (l1 ++ l2) right_cluster
  = equi_rows pad l1 right_cluster ++ equi_rows pad l2 right_cluster.
Proof. unfold equi_rows. now rewrite map_app, concat_app. Qed.

Variable impl : Impl.
Variable cluster_number : nat.
Variables left_cluster right_cluster : MaterializedSegment.
Hypothesis left_sorted : sorted_by_value left_cluster.
Hypothesis right_sorted : sorted_by_value right_cluster.
Hypothesis left_at :
  _sorted_left_table impl !! cluster_number = Some left_cluster.
Hypothesis right_at :
  _sorted_right_table impl !! cluster_number = Some right_cluster.
Hypothesis equi : _op impl = Equals.
Hypothesis kept : pairs_kept impl = true.
Hypothesis right_dropped :
  JoinMode_eqb (_mode impl) Right || JoinMode_eqb (_mode impl) Outer = false.

Definition pads_left : bool :=
  JoinMode_eqb (_mode impl) Left || JoinMode_eqb (_mode impl) Outer.

(** [_join_runs] of a join on equality that does not keep the right
    rows. *)
Lemma join_runs_equi out left_range right_range compare_result :
  cluster (range_start left_range) = cluster_number ->
  _join_runs impl out left_range right_range compare_result
  = Returned
      match compare_result with
      | Equal =>
          append_pairs out cluster_number
            (list_prod (left_rows impl left_range) (right_rows impl right_range))
      | Less =>
          if pads_left
          then append_pairs out cluster_number
                 (map (fun l => (l, NULL_ROW_ID)) (left_rows impl left_range))
          else out
      | Greater => out
      end.
Proof.
  intros Hc. unfold _join_runs. rewrite equi, Hc.
  destruct compare_result.
  - fold pads_left. destruct pads_left; [| reflexivity].
    now rewrite emit_right_null_combinations_pairs.
  - now rewrite right_dropped.
  - now rewrite emit_all_combinations_pairs by exact kept.
Qed.

(** The rows of a left run that is below the right window have no
    partner. *)
Lemma no_partner x :
  (forall j y, right_cluster !! j = Some y -> value y <> value x) ->
  joined_row pads_left right_cluster x
  = if pads_left then [(row_id x, NULL_ROW_ID)] else [].
Proof.
  intros H. unfold joined_row, partners_of.
  rewrite filter_none; [reflexivity |].
  intros j y Hy. apply Z.eqb_neq. now apply (H j y).
Qed.

(** The partners of a row of a left run whose value is the one of the
    right run are the rows of the right run. *)
Lemma partners_in_run x rs re :
  rs < re <= length right_cluster ->
  (forall j y, rs <= j < re -> right_cluster !! j = Some y ->
               value y = value x) ->
  (forall j y, j < rs -> right_cluster !! j = Some y ->
               (value y < value x)%Z) ->
  (forall j y, re <= j -> right_cluster !! j = Some y ->
               (value x < value y)%Z) ->
  joined_row pads_left right_cluster x
  = map (fun y => (row_id x, row_id y))
      (take (re - rs) (drop rs right_cluster)).
Proof.
  intros Hb Hin Hbefore Hafter. unfold joined_row, partners_of.
  assert (Hsplit :
    right_cluster
    = take rs right_cluster
      ++ take (re - rs) (drop rs right_cluster) ++ drop re right_cluster).
  { rewrite <- (take_drop rs right_cluster) at 1. f_equal.
    rewrite <- (take_drop (re - rs) (drop rs right_cluster)) at 1. f_equal.
    rewrite drop_drop. f_equal. lia. }
  assert (Hfilter :
    List.filter (fun y => Z.eqb (value y) (value x)) right_cluster
    = take (re - rs) (drop rs right_cluster)).
  { rewrite Hsplit at 1. rewrite !List.filter_app.
    rewrite (filter_none _ (take rs right_cluster)),
            (filter_none _ (drop re right_cluster)),
            (filter_all _ (take (re - rs) (drop rs right_cluster))).
    - now rewrite app_nil_r.
    - intros k y Hk. apply lookup_run in Hk as [Hy Hk].
      apply Z.eqb_eq. now apply (Hin _ y Hk).
    - intros k y Hk. rewrite lookup_drop in Hk. apply Z.eqb_neq.
      pose proof (Hafter (re + k) y ltac:(lia) Hk). lia.
    - intros k y Hk. apply lookup_take_Some in Hk as [Hy Hk].
      apply Z.eqb_neq. pose proof (Hbefore k y Hk Hy). lia. }
  rewrite Hfilter.
  destruct (take (re - rs) (drop rs right_cluster)) as [|y ys] eqn:E;
    [| reflexivity].
  exfalso. apply (f_equal length) in E. rewrite length_take, length_drop in E.
  simpl in E. lia.
Qed.

(** The invariant of the merge loop: the output holds what the join owes
    to the left rows before the left window. *)
Definition equi_invariant (out0 : Output) (runs : Runs) (out : Output) : Prop :=
  out = append_pairs out0 cluster_number
          (equi_rows pads_left (take (left_run_start runs) left_cluster)
             right_cluster)
  /\ (forall j y i x,
        j < right_run_start runs -> right_cluster !! j = Some y ->
        left_run_start runs <= i -> left_cluster !! i = Some x ->
        (value y < value x)%Z)
  /\ (forall i x j y,
        i < left_run_start runs -> left_cluster !! i = Some x ->
        right_run_start runs <= j -> right_cluster !! j = Some y ->
        (value x < value y)%Z).

Lemma equi_invariant_step out0 runs out l r out' :
  runs_ok left_cluster right_cluster runs ->
  equi_invariant out0 runs out ->
  left_cluster !! left_run_start runs = Some l ->
  right_cluster !! right_run_start runs = Some r ->
  _join_runs impl out (left_run cluster_number runs)
    (right_run cluster_number runs) (_compare (value l) (value r))
  = Returned out' ->
  equi_invariant out0 (next_runs left_cluster right_cluster runs l r) out'.
Proof.
  intros (Hle & Hre & Hlb & Hrb) (Hout & I1 & I2) Hl Hr Hruns.
  rewrite join_runs_equi in Hruns by reflexivity.
  pose proof (run_length_spec left_cluster _ l left_sorted Hl) as (L1 & L2 & L3).
  pose proof (run_length_spec right_cluster _ r right_sorted Hr) as (R1 & R2 & R3).
  simpl in L1, L2, L3, R1, R2, R3. rewrite <- Hle in L1, L2, L3.
  rewrite <- Hre in R1, R2, R3.
  assert (Hrun :
    take (left_run_end runs) left_cluster
    = take (left_run_start runs) left_cluster
      ++ take (left_run_end runs - left_run_start runs)
           (drop (left_run_start runs) left_cluster)).
  { rewrite take_take_drop. f_equal. lia. }
  unfold next_runs, _compare in *.
  destruct (Z.ltb_spec (value l) (value r)) as [Hlt | Hge].
  - (* Less: the left run has no partner *)
    unfold equi_invariant, advance_left. simpl. split; [| split].
    + rewrite Hrun, equi_rows_app.
      assert (Hpad :
        equi_rows pads_left
          (take (left_run_end runs - left_run_start runs)
             (drop (left_run_start runs) left_cluster)) right_cluster
        = if pads_left
          then map (fun l => (l, NULL_ROW_ID))
                 (left_rows impl (left_run cluster_number runs))
          else []).
      { unfold equi_rows, left_rows, left_run.
        rewrite for_every_row_id_cluster_range, left_at.
        change (default [] (Some left_cluster)) with left_cluster.
        rewrite (concat_map_ext_lookup _
                   (fun x => if pads_left then [(row_id x, NULL_ROW_ID)] else [])).
        - destruct pads_left.
          + rewrite map_map. apply concat_map_singleton.
          + generalize (take (left_run_end runs - left_run_start runs)
                          (drop (left_run_start runs) left_cluster)).
            intros rows. induction rows; simpl; auto.
        - intros k x Hk. apply lookup_run in Hk as [Hx Hk].
          apply no_partner. intros j y Hy.
          pose proof (L2 _ _ Hk Hx).
          destruct (Nat.lt_ge_cases j (right_run_start runs)) as [Hj | Hj].
          * pose proof (I1 j y _ l Hj Hy (Nat.le_refl _) Hl). lia.
          * pose proof (right_sorted _ _ r y Hj Hr Hy). lia. }
      rewrite Hpad. destruct pads_left; injection Hruns as <-.
      * now rewrite Hout, append_pairs_app.
      * now rewrite app_nil_r.
    + intros j y i x Hj Hy Hi Hx. apply (I1 j y i x); auto. lia.
    + intros i x j y Hi Hx Hj Hy.
      destruct (Nat.lt_ge_cases i (left_run_start runs)) as [Hb | Hb].
      * apply (I2 i x j y); auto.
      * pose proof (L2 i x ltac:(lia) Hx).
        pose proof (right_sorted _ _ r y Hj Hr Hy). lia.
  - destruct (Z.eqb_spec (value l) (value r)) as [Heq | Hne].
    + (* Equal: the pairs of the two runs *)
      injection Hruns as <-. unfold equi_invariant, advance_left, advance_right.
      simpl. split; [| split].
      * rewrite Hrun, equi_rows_app, Hout, append_pairs_app. do 2 f_equal.
        unfold left_rows, right_rows, left_run, right_run.
        rewrite !for_every_row_id_cluster_range, left_at, right_at.
        change (default [] (Some left_cluster)) with left_cluster.
        change (default [] (Some right_cluster)) with right_cluster.
        rewrite list_prod_map. unfold equi_rows. symmetry.
        apply concat_map_ext_lookup. intros k x Hk.
        apply lookup_run in Hk as [Hx Hk].
        pose proof (L2 _ _ Hk Hx) as Hvx.
        apply partners_in_run.
        -- lia.
        -- intros j y Hj Hy. rewrite (R2 j y Hj Hy). congruence.
        -- intros j y Hj Hy.
           pose proof (I1 j y _ l Hj Hy (Nat.le_refl _) Hl). lia.
        -- intros j y Hj Hy. pose proof (R3 j y Hj Hy). lia.
      * intros j y i x Hj Hy Hi Hx. pose proof (L3 i x Hi Hx).
        destruct (Nat.lt_ge_cases j (right_run_start runs)) as [Hb | Hb].
        -- pose proof (I1 j y _ l Hb Hy (Nat.le_refl _) Hl). lia.
        -- pose proof (R2 j y ltac:(lia) Hy). lia.
      * intros i x j y Hi Hx Hj Hy. pose proof (R3 j y Hj Hy).
        destruct (Nat.lt_ge_cases i (left_run_start runs)) as [Hb | Hb].
        -- pose proof (I2 i x _ r Hb Hx (Nat.le_refl _) Hr). lia.
        -- pose proof (L2 i x ltac:(lia) Hx). lia.
    + (* Greater: the right run has no partner *)
      injection Hruns as <-. unfold equi_invariant, advance_right. simpl.
      split; [exact Hout | split].
      * intros j y i x Hj Hy Hi Hx.
        destruct (Nat.lt_ge_cases j (right_run_start runs)) as [Hb | Hb].
        -- apply (I1 j y i x); auto.
        -- pose proof (R2 j y ltac:(lia) Hy).
           pose proof (left_sorted _ _ l x Hi Hl Hx). lia.
      * intros i x j y Hi Hx Hj Hy. apply (I2 i x j y); auto. lia.
Qed.

Lemma equals_supported : supported_condition (_op impl) = true.
Proof. now rewrite equi. Qed.

(** [_join_cluster] of a join on equality that does not keep the right
    rows appends what the join owes to the rows of the left cluster, in
    their order. *)
Lemma join_cluster_equi out0 :
  _join_cluster impl out0 cluster_number
  = Returned
      (append_pairs out0 cluster_number
         (equi_rows pads_left left_cluster right_cluster)).
Proof.
  unfold _join_cluster. rewrite left_at, right_at. run.
  destruct (join_cluster_loop_spec impl cluster_number left_cluster
              right_cluster left_sorted right_sorted equals_supported
              (equi_invariant out0))
    with (fuel := length left_cluster + length right_cluster)
         (runs := mkRuns 0 (0 + _run_length 0 left_cluster)
                         0 (0 + _run_length 0 right_cluster))
         (out := out0)
    as (runs & out & Hloop & Hok & (Hout & I1 & I2) & Hleft).
  - intros runs out l r out' Hok Hinv Hl Hr Hruns.
    eapply equi_invariant_step; eauto.
  - unfold runs_ok. simpl. repeat split; lia.
  - unfold equi_invariant. simpl. rewrite append_pairs_nil.
    repeat split; intros; lia.
  - unfold rows_ahead. simpl. lia.
  - rewrite Hloop. run.
    replace (JoinMode_eqb (_mode impl) Anti) with false
      by (symmetry; unfold pairs_kept in kept;
          apply andb_true_iff in kept as [_ H]; now apply negb_true_iff in H).
    unfold runs_left in Hleft.
    assert (Hwhole :
      equi_rows pads_left left_cluster right_cluster
      = equi_rows pads_left (take (left_run_start runs) left_cluster)
          right_cluster
        ++ equi_rows pads_left (drop (left_run_start runs) left_cluster)
             right_cluster)
      by now rewrite <- equi_rows_app, take_drop.
    rewrite Hwhole, <- append_pairs_app, <- Hout.
    destruct (Nat.ltb_spec (left_run_start runs) (length left_cluster))
      as [Hl | Hl].
    + destruct (Nat.ltb_spec (right_run_start runs) (length right_cluster))
        as [Hr | Hr]; [discriminate |].
      rewrite join_runs_equi by reflexivity. run. f_equal.
      unfold left_rows. rewrite for_every_row_id_cluster_range, left_at.
      change (default [] (Some left_cluster)) with left_cluster.
      rewrite firstn_all2 by (rewrite length_drop; lia).
      assert (Hrest :
        equi_rows pads_left (drop (left_run_start runs) left_cluster)
          right_cluster
        = if pads_left
          then map (fun l => (l, NULL_ROW_ID))
                 (map row_id (drop (left_run_start runs) left_cluster))
          else []).
      { unfold equi_rows.
        rewrite (concat_map_ext_lookup _
                   (fun x => if pads_left then [(row_id x, NULL_ROW_ID)] else [])).
        - destruct pads_left.
          + rewrite map_map. apply concat_map_singleton.
          + generalize (drop (left_run_start runs) left_cluster).
            intros rows. induction rows; simpl; auto.
        - intros k x Hk. rewrite lookup_drop in Hk.
          apply no_partner. intros j y Hy.
          pose proof (lookup_lt_Some _ _ _ Hy).
          pose proof (I1 j y (left_run_start runs + k) x ltac:(lia) Hy
                        ltac:(lia) Hk). lia. }
      rewrite Hrest. destruct pads_left; [reflexivity |].
      now rewrite append_pairs_nil.
    + rewrite drop_ge by lia.
      change (equi_rows pads_left [] right_cluster) with (@nil (RowID * RowID)).
      rewrite append_pairs_nil.
      destruct (Nat.ltb_spec (right_run_start runs) (length right_cluster))
        as [Hr | Hr]; [| reflexivity].
      now rewrite join_runs_equi by reflexivity.
Qed.

End EquiCluster.

(** ** Sort-merge join on equality: the result of Inner and Left *)

Section EquiJoin.
Import Storage JoinSortMerge.

(** A loop over the clusters whose body stores a pair of lists for its
    cluster. *)
Lemma for_each_cluster_pairs (body : Output -> nat -> Outcome Output)
    (F G : nat -> PosList) (n : nat) :
  (forall out c,
     c < n ->
     length (_output_pos_lists_left out) = n ->
     length (_output_pos_lists_right out) = n ->
     body out c
     = Returned (mkOutput (<[c:=F c]> (_output_pos_lists_left out))
                          (<[c:=G c]> (_output_pos_lists_right out)))) ->
  for_each body (mkOutput (replicate n []) (replicate n [])) (seq 0 n)
  = Returned (mkOutput (map F (seq 0 n)) (map G (seq 0 n))).
Proof.
  intros Hbody.
  assert (Hgen : forall m k left right,
    k + m = n -> length left = n -> length right = n ->
    for_each body (mkOutput left right) (seq k m)
    = Returned (mkOutput (take k left ++ map F (seq k m))
                         (take k right ++ map G (seq k m)))).
  { induction m as [|m IH]; intros k left right Hkm Hl Hr; simpl.
    - rewrite !app_nil_r, !take_ge by lia. reflexivity.
    - rewrite Hbody by (simpl; lia). run. simpl.
      rewrite IH by (rewrite ?length_insert; lia).
      rewrite !take_S_insert by lia. now rewrite <- !app_assoc. }
  rewrite (Hgen n 0) by (rewrite ?length_replicate; lia).
  reflexivity.
Qed.

Lemma equi_rows_no_right pad left_cluster :
  equi_rows pad left_cluster []
  = if pad then map (fun x => (row_id x, NULL_ROW_ID)) left_cluster else [].
Proof.
  unfold equi_rows, joined_row, partners_of. simpl.
  destruct pad; [apply concat_map_singleton |].
  induction left_cluster; simpl; auto.
Qed.

Variable HYRISE_DEBUG : bool.
Variable left_table : Table.
Variable column_ids : ColumnID * ColumnID.
Variable mode : JoinMode.
Variable cluster_count : nat.
Variable sort_output : RadixClusterOutput.

Hypothesis some_cluster : 0 < cluster_count.
Hypothesis left_count : length (clusters_left sort_output) = cluster_count.
Hypothesis right_count : length (clusters_right sort_output) = cluster_count.
Hypothesis left_sorted : Forall sorted_by_value (clusters_left sort_output).
Hypothesis right_sorted : Forall sorted_by_value (clusters_right sort_output).
Hypothesis inner_or_left : mode = Inner \/ mode = Left.

(** What the join owes to the rows of cluster [c]. *)
Definition cluster_rows (c : nat) : list (RowID * RowID) :=
  equi_rows (JoinMode_eqb mode Left)
    (left_cluster_at sort_output c) (right_cluster_at sort_output c).

Lemma perform_join_cluster_equi end_left end_right out c :
  c < cluster_count ->
  length (_output_pos_lists_left out) = cluster_count ->
  length (_output_pos_lists_right out) = cluster_count ->
  perform_join_cluster
    (merge_impl left_table column_ids Equals mode cluster_count sort_output
       end_left end_right) out c
  = Returned
      (mkOutput
         (<[c:=map fst (cluster_rows c)]> (_output_pos_lists_left out))
         (<[c:=map snd (cluster_rows c)]> (_output_pos_lists_right out))).
Proof.
  intros Hc Hleft Hright.
  destruct (cluster_lookups cluster_count sort_output some_cluster left_count
              right_count left_sorted right_sorted c Hc)
    as (Hl & Hr & Hls & Hrs).
  set (impl := merge_impl left_table column_ids Equals mode cluster_count
                 sort_output end_left end_right).
  assert (Hkept : pairs_kept impl = true)
    by (unfold pairs_kept; simpl; destruct inner_or_left as [-> | ->];
        reflexivity).
  assert (Hdropped :
    JoinMode_eqb (_mode impl) Right || JoinMode_eqb (_mode impl) Outer = false)
    by (simpl; destruct inner_or_left as [-> | ->]; reflexivity).
  assert (Hpad : pads_left impl = JoinMode_eqb mode Left)
    by (unfold pads_left; simpl; destruct inner_or_left as [-> | ->];
        reflexivity).
  assert (Hjoin : forall out0,
    length (_output_pos_lists_left out0) = cluster_count ->
    length (_output_pos_lists_right out0) = cluster_count ->
    _output_pos_lists_left out0 !! c = Some [] ->
    _output_pos_lists_right out0 !! c = Some [] ->
    _join_cluster impl out0 c
    = Returned
        (mkOutput
           (<[c:=map fst (cluster_rows c)]> (_output_pos_lists_left out0))
           (<[c:=map snd (cluster_rows c)]> (_output_pos_lists_right out0)))).
  { intros out0 Hl0 Hr0 Hel Her.
    rewrite (join_cluster_equi impl c (left_cluster_at sort_output c)
               (right_cluster_at sort_output c) Hls Hrs Hl Hr eq_refl Hkept
               Hdropped).
    rewrite Hpad. fold (cluster_rows c). unfold append_pairs. f_equal. f_equal.
    - apply list_eq. intros i. destruct (Nat.eq_dec i c) as [-> | Hne].
      + rewrite list_lookup_alter_eq, Hel, list_lookup_insert_eq by lia.
        reflexivity.
      + now rewrite list_lookup_alter_ne, list_lookup_insert_ne by auto.
    - apply list_eq. intros i. destruct (Nat.eq_dec i c) as [-> | Hne].
      + rewrite list_lookup_alter_eq, Her, list_lookup_insert_eq by lia.
        reflexivity.
      + now rewrite list_lookup_alter_ne, list_lookup_insert_ne by auto. }
  unfold perform_join_cluster. fold impl.
  set (reset := mkOutput (<[c:=[]]> (_output_pos_lists_left out))
                         (<[c:=[]]> (_output_pos_lists_right out))).
  assert (Hreset :
    _join_cluster impl reset c
    = Returned
        (mkOutput
           (<[c:=map fst (cluster_rows c)]> (_output_pos_lists_left out))
           (<[c:=map snd (cluster_rows c)]> (_output_pos_lists_right out)))).
  { rewrite Hjoin; unfold reset; simpl.
    - now rewrite !list_insert_insert_eq.
    - rewrite length_insert. exact Hleft.
    - rewrite length_insert. exact Hright.
    - apply list_lookup_insert_eq. lia.
    - apply list_lookup_insert_eq. lia. }
  destruct ((JoinMode_eqb (_mode impl) Inner || JoinMode_eqb (_mode impl) Semi)
            && PredicateCondition_eqb (_op impl) Equals) eqn:Hshort;
    [| exact Hreset].
  change (_sorted_left_table impl) with (clusters_left sort_output).
  change (_sorted_right_table impl) with (clusters_right sort_output).
  rewrite Hl, Hr. run.
  assert (Hinner : mode = Inner).
  { destruct inner_or_left as [-> | ->]; [reflexivity | discriminate Hshort]. }
  destruct (Nat.eqb_spec (length (left_cluster_at sort_output c)) 0) as [El | Nl];
    [| destruct (Nat.eqb_spec (length (right_cluster_at sort_output c)) 0)
         as [Er | Nr]]; simpl; [| | exact Hreset].
  - apply nil_length_inv in El. unfold cluster_rows. rewrite El. reflexivity.
  - apply nil_length_inv in Er. unfold cluster_rows.
    rewrite Er, equi_rows_no_right, Hinner. reflexivity.
Qed.

(** The cluster lists after [_perform_join]. *)
Lemma perform_join_equi end_left end_right :
  _perform_join HYRISE_DEBUG
    (merge_impl left_table column_ids Equals mode cluster_count sort_output
       end_left end_right)
    (mkOutput (replicate cluster_count []) (replicate cluster_count []))
  = Returned
      (mkOutput
         (map (fun c => map fst (cluster_rows c)) (seq 0 cluster_count))
         (map (fun c => map snd (cluster_rows c)) (seq 0 cluster_count))).
Proof.
  unfold _perform_join. simpl.
  rewrite (for_each_cluster_pairs _ (fun c => map fst (cluster_rows c))
             (fun c => map snd (cluster_rows c))).
  - run. now rewrite !andb_false_r.
  - intros out c Hc Hl Hr. now apply perform_join_cluster_equi.
Qed.

End EquiJoin.

Section EquiJoinResults.
Import Storage JoinSortMerge.

(** The pairs of an inner join of two clusters on equality: every left
    row, in the order of the cluster, with every right row of its value,
    in the order of the cluster. *)
Definition inner_pairs (left_cluster right_cluster : MaterializedSegment)
    : list (RowID * RowID) :=
  concat (map (partners_of right_cluster) left_cluster).

Lemma equi_rows_inner left_cluster right_cluster :
  equi_rows false left_cluster right_cluster
  = inner_pairs left_cluster right_cluster.
Proof.
  unfold equi_rows, inner_pairs. f_equal. apply map_ext. intros x.
  unfold joined_row. now destruct (partners_of right_cluster x).
Qed.

(** X6: the result of an inner sort-merge join on equality.  On clusters
    that are sorted by value the merge returns, and the position lists of
    cluster [c] hold, side by side, exactly the pairs of a row of the
    left cluster [c] and a row of the right cluster [c] with the same
    join value: every such pair once, ordered by the left row and then by
    the right row.  No list for rows with a NULL join value is added. *)
Theorem inner_equi_join_pairs (HYRISE_DEBUG : bool) (left_table : Table)
    (column_ids : ColumnID * ColumnID) (cluster_count : nat)
    (sort_output : RadixClusterOutput) :
  0 < cluster_count ->
  length (clusters_left sort_output) = cluster_count ->
  length (clusters_right sort_output) = cluster_count ->
  Forall sorted_by_value (clusters_left sort_output) ->
  Forall sorted_by_value (clusters_right sort_output) ->
  merge_phase HYRISE_DEBUG left_table column_ids Equals Inner cluster_count
    sort_output
  = Returned
      (mkOutput
         (map (fun c => map fst (inner_pairs (left_cluster_at sort_output c)
                                   (right_cluster_at sort_output c)))
            (seq 0 cluster_count))
         (map (fun c => map snd (inner_pairs (left_cluster_at sort_output c)
                                   (right_cluster_at sort_output c)))
            (seq 0 cluster_count))).
Proof.
  intros Hsome Hlc Hrc Hls Hrs. unfold merge_phase.
  destruct (end_of_table_returns HYRISE_DEBUG cluster_count sort_output
              Hsome Hlc Hrc (clusters_left sort_output)) as [el ->]; [lia |].
  destruct (end_of_table_returns HYRISE_DEBUG cluster_count sort_output
              Hsome Hlc Hrc (clusters_right sort_output)) as [er ->]; [lia |].
  run.
  fold (merge_impl left_table column_ids Equals Inner cluster_count
          sort_output el er).
  rewrite (perform_join_equi HYRISE_DEBUG left_table column_ids Inner
             cluster_count sort_output Hsome Hlc Hrc Hls Hrs
             (or_introl eq_refl) el er).
  run. simpl. f_equal. unfold cluster_rows.
  f_equal; apply map_ext; intros c;
    change (JoinMode_eqb Inner Left) with false;
    now rewrite equi_rows_inner.
Qed.

(** X7: the result of a left outer sort-merge join on equality.  On
    clusters that are sorted by value the merge returns, and the position
    lists of cluster [c] hold, side by side and in the order of the left
    cluster, for every row of the left cluster [c] its pairs with the
    rows of the right cluster [c] that have its join value, or, if there
    is none, the row with [NULL_ROW_ID] at its side.  One more pair of
    lists holds the left rows with a NULL join value, each with
    [NULL_ROW_ID] at its side. *)
Theorem left_equi_join_pairs (HYRISE_DEBUG : bool) (left_table : Table)
    (column_ids : ColumnID * ColumnID) (cluster_count : nat)
    (sort_output : RadixClusterOutput) :
  0 < cluster_count ->
  length (clusters_left sort_output) = cluster_count ->
  length (clusters_right sort_output) = cluster_count ->
  Forall sorted_by_value (clusters_left sort_output) ->
  Forall sorted_by_value (clusters_right sort_output) ->
  merge_phase HYRISE_DEBUG left_table column_ids Equals Left cluster_count
    sort_output
  = Returned
      (mkOutput
         (map (fun c => map fst (equi_rows true (left_cluster_at sort_output c)
                                   (right_cluster_at sort_output c)))
            (seq 0 cluster_count)
          ++ [null_rows_left sort_output])
         (map (fun c => map snd (equi_rows true (left_cluster_at sort_output c)
                                   (right_cluster_at sort_output c)))
            (seq 0 cluster_count)
          ++ [map (fun _ => NULL_ROW_ID) (null_rows_left sort_output)])).
Proof.
  intros Hsome Hlc Hrc Hls Hrs. unfold merge_phase.
  destruct (end_of_table_returns HYRISE_DEBUG cluster_count sort_output
              Hsome Hlc Hrc (clusters_left sort_output)) as [el ->]; [lia |].
  destruct (end_of_table_returns HYRISE_DEBUG cluster_count sort_output
              Hsome Hlc Hrc (clusters_right sort_output)) as [er ->]; [lia |].
  run.
  fold (merge_impl left_table column_ids Equals Left cluster_count
          sort_output el er).
  rewrite (perform_join_equi HYRISE_DEBUG left_table column_ids Left
             cluster_count sort_output Hsome Hlc Hrc Hls Hrs
             (or_intror eq_refl) el er).
  run. simpl. now rewrite !app_nil_r.
Qed.

(** Two clusters: the left join values [1, 2] and the right join values
    [2, 2] in the first one, no left row and the right join value [5] in
    the second one; one left row has a NULL join value. *)
Definition equi_left_input : Table :=
  mkTable Data 1 [[ValueSegment [IntValue 1; IntValue 2; NullValue]]].

Definition equi_clusters : RadixClusterOutput :=
  mkRadixClusterOutput
    [[mkMaterializedValue (mkRowID 0 0) 1; mkMaterializedValue (mkRowID 0 1) 2];
     []]
    [[mkMaterializedValue (mkRowID 0 0) 2; mkMaterializedValue (mkRowID 0 1) 2];
     [mkMaterializedValue (mkRowID 0 2) 5]]
    [mkRowID 0 2] [].

Lemma sorted_none : sorted_by_value [].
Proof. intros i j x y _ Hx. discriminate Hx. Qed.

Lemma equi_clusters_left_sorted :
  Forall sorted_by_value (clusters_left equi_clusters).
Proof. repeat constructor; [apply sorted_two; simpl; lia | apply sorted_none]. Qed.

Lemma equi_clusters_right_sorted :
  Forall sorted_by_value (clusters_right equi_clusters).
Proof. repeat constructor; [apply sorted_two; simpl; lia | apply sorted_one]. Qed.

Lemma inner_equi_join_pairs_witness :
  Forall sorted_by_value (clusters_left equi_clusters)
  /\ Forall sorted_by_value (clusters_right equi_clusters)
  /\ merge_phase true equi_left_input (0, 0) Equals Inner 2 equi_clusters
     = Returned
         (mkOutput
            (map (fun c => map fst (inner_pairs (left_cluster_at equi_clusters c)
                                      (right_cluster_at equi_clusters c)))
               (seq 0 2))
            (map (fun c => map snd (inner_pairs (left_cluster_at equi_clusters c)
                                      (right_cluster_at equi_clusters c)))
               (seq 0 2))).
Proof.
  split; [exact equi_clusters_left_sorted |].
  split; [exact equi_clusters_right_sorted |].
  exact (inner_equi_join_pairs true equi_left_input (0, 0) 2 equi_clusters
           ltac:(lia) eq_refl eq_refl equi_clusters_left_sorted
           equi_clusters_right_sorted).
Defined.

Lemma left_equi_join_pairs_witness :
  Forall sorted_by_value (clusters_left equi_clusters)
  /\ Forall sorted_by_value (clusters_right equi_clusters)
  /\ merge_phase true equi_left_input (0, 0) Equals Left 2 equi_clusters
     = Returned
         (mkOutput
            (map (fun c => map fst (equi_rows true (left_cluster_at equi_clusters c)
                                      (right_cluster_at equi_clusters c)))
               (seq 0 2)
             ++ [null_rows_left equi_clusters])
            (map (fun c => map snd (equi_rows true (left_cluster_at equi_clusters c)
                                      (right_cluster_at equi_clusters c)))
               (seq 0 2)
             ++ [map (fun _ => NULL_ROW_ID) (null_rows_left equi_clusters)])).
Proof.
  split; [exact equi_clusters_left_sorted |].
  split; [exact equi_clusters_right_sorted |].
  exact (left_equi_join_pairs true equi_left_input (0, 0) 2 equi_clusters
           ltac:(lia) eq_refl eq_refl equi_clusters_left_sorted
           equi_clusters_right_sorted).
Defined.

(** The left join of the example: the row with the value 1 is padded, the
    row with the value 2 is paired with both right rows, and the row with
    the NULL join value is in the last list. *)
Example left_equi_join_of_example :
  merge_phase true equi_left_input (0, 0) Equals Left 2 equi_clusters
  = Returned
      (mkOutput
         [[mkRowID 0 0; mkRowID 0 1; mkRowID 0 1]; []; [mkRowID 0 2]]
         [[NULL_ROW_ID; mkRowID 0 0; mkRowID 0 1]; []; [NULL_ROW_ID]]).
Proof. vm_compute. reflexivity. Qed.

End EquiJoinResults.

(** ** Sort-merge join: where the pairs of the output come from *)

Section PairProvenance.
Import Storage JoinSortMerge.




Variable HYRISE_DEBUG : bool.
Variable impl : Impl.








Hypothesis kept : pairs_kept impl = true.


(** What every call of [_join_runs] keeps, the merge loop keeps. *)
Lemma join_cluster_loop_keeps (Q : Output -> Prop) cluster_number
    left_cluster right_cluster :
  (forall out left_range right_range compare_result out',
     Q out ->
     _join_runs impl out left_range right_range compare_result = Returned out' ->
     Q out') ->
  forall fuel runs out result,
    Q out ->
    join_cluster_loop impl fuel cluster_number left_cluster right_cluster
      runs out = Returned result ->
    Q (snd result).
Proof.
  intros Hstep. induction fuel as [|fuel IH]; intros runs out result HQ H;
    simpl in H;
    destruct (runs_left left_cluster right_cluster runs);
    try discriminate; try (injection H as <-; exact HQ).
  apply bind_returned in H as (st & Hst & H).
  apply (IH (fst st) (snd st) result); [| exact H].
  unfold join_cluster_iteration in Hst.
  apply bind_returned in Hst as (l & _ & Hst).
  apply bind_returned in Hst as (r & _ & Hst).
  apply bind_returned in Hst as (out' & Hruns & Hst).
  injection Hst as <-. simpl. eapply Hstep; eauto.
Qed.






End PairProvenance.

Section PaddedSide.
Import Storage JoinSortMerge.




End PaddedSide.

Section PaddedSideExample.
Import Storage JoinSortMerge.

Lemma range_clusters_left_sorted :
  Forall sorted_by_value (clusters_left range_clusters).
Proof. repeat constructor; apply sorted_one. Qed.

Lemma range_clusters_right_sorted :
  Forall sorted_by_value (clusters_right range_clusters).
Proof. repeat constructor; [apply sorted_two; simpl; lia | apply sorted_one]. Qed.



(** The left join of the example on [<]: the left rows with the values 1
    and 3 find their partners; the right row with the value 0, which has
    none, is padded. *)
Example left_join_on_less_than :
  merge_phase true left_with_padding (0, 0) LessThan Left 2 range_clusters
  = Returned
      (mkOutput
         [[mkRowID 0 0; mkRowID 0 0; NULL_ROW_ID]; [mkRowID 0 1]; [mkRowID 0 2]]
         [[mkRowID 0 1; mkRowID 0 2; mkRowID 0 0]; [mkRowID 0 2]; [NULL_ROW_ID]]).
Proof. vm_compute. reflexivity. Qed.

End PaddedSideExample.

(** ** Sort-merge join: the padding of a left and of a right join *)

Section OuterPaddingOnInequality.
Import Storage JoinSortMerge.

(** What the entries at one index of the two output lists of an outer
    join are: a row of the left input and a row of the right input whose
    join values satisfy the condition; or a left row without a partner,
    or with a NULL join value, and [NULL_ROW_ID], in the modes that keep
    the left rows (Left, Outer); or [NULL_ROW_ID] and such a right row, in
    the modes that keep the right rows (Right, Outer). *)
Definition join_partners (sort_output : RadixClusterOutput) (mode : JoinMode)
    (op : PredicateCondition) (left right : RowID) : Prop :=
  (exists x y,
     In x (concat (clusters_left sort_output))
     /\ In y (concat (clusters_right sort_output))
     /\ row_id x = left /\ row_id y = right
     /\ holds op (value x) (value y))
  \/ (right = NULL_ROW_ID
      /\ (mode = Left \/ mode = Outer)
      /\ ((exists x,
             In x (concat (clusters_left sort_output)) /\ row_id x = left
             /\ forall y, In y (concat (clusters_right sort_output)) ->
                          ~ holds op (value x) (value y))
          \/ In left (null_rows_left sort_output)))
  \/ (left = NULL_ROW_ID
      /\ (mode = Right \/ mode = Outer)
      /\ ((exists y,
             In y (concat (clusters_right sort_output)) /\ row_id y = right
             /\ forall x, In x (concat (clusters_left sort_output)) ->
                          ~ holds op (value x) (value y))
          \/ In right (null_rows_right sort_output))).

(** A left input with the join values [1, 5] and a right input with
    [0, 3], each sorted into one cluster.  The only pair with
    [left < right] is [(1, 3)]: the left row with the value 5 and the
    right row with the value 0 have no partner. *)
Definition left_of_two : Table :=
  mkTable Data 1 [[ValueSegment [IntValue 1; IntValue 5]]].

Definition clusters_of_two : RadixClusterOutput :=
  mkRadixClusterOutput
    [[mkMaterializedValue (mkRowID 0 0) 1; mkMaterializedValue (mkRowID 0 1) 5]]
    [[mkMaterializedValue (mkRowID 0 0) 0; mkMaterializedValue (mkRowID 0 1) 3]]
    [] [].

(** C10, on the code: the two output lists of a cluster have the same
    length, but the entries at one index are not always join partners.
    The left join of the example on [<] returns the pair of the rows with
    the values 1 and 3, and then [NULL_ROW_ID] beside the right row with
    the value 0: [_left_outer_non_equi_join] pads the rows of the right
    input that have no partner, which a left join does not keep, and the
    left row with the value 5, which has no partner and which a left join
    keeps, is in no output list.  (A right join pads the left rows in the
    same way.) *)
Theorem left_join_pads_right_rows :
  merge_phase true left_of_two (0, 0) LessThan Left 1 clusters_of_two
  = Returned
      (mkOutput [[mkRowID 0 0; NULL_ROW_ID]; []]
                [[mkRowID 0 1; mkRowID 0 0]; []])
  /\ join_partners clusters_of_two Left LessThan (mkRowID 0 0) (mkRowID 0 1)
  /\ ~ join_partners clusters_of_two Left LessThan NULL_ROW_ID (mkRowID 0 0)
  /\ join_partners clusters_of_two Left LessThan (mkRowID 0 1) NULL_ROW_ID
  /\ merge_phase true left_of_two (0, 0) LessThan Right 1 clusters_of_two
     = Returned
         (mkOutput [[mkRowID 0 0; mkRowID 0 1]; []]
                   [[mkRowID 0 1; NULL_ROW_ID]; []])
  /\ ~ join_partners clusters_of_two Right LessThan (mkRowID 0 1) NULL_ROW_ID.
Proof.
  split; [vm_compute; reflexivity |]. split.
  { left. exists (mkMaterializedValue (mkRowID 0 0) 1),
                 (mkMaterializedValue (mkRowID 0 1) 3).
    simpl. repeat split; auto. }
  split.
  { intros [(x & y & Hx & _ & Hid & _) | [[H _] | (_ & [H | H] & _)]];
      try discriminate H.
    simpl in Hx. destruct Hx as [<- | [<- | []]]; discriminate Hid. }
  split.
  { right. left. split; [reflexivity |]. split; [now left |]. left.
    exists (mkMaterializedValue (mkRowID 0 1) 5). simpl.
    split; [auto |]. split; [reflexivity |].
    intros y [<- | [<- | []]]; simpl; lia. }
  split; [vm_compute; reflexivity |].
  intros [(x & y & _ & Hy & _ & Hid & _) | [(_ & [H | H] & _) | [H _]]];
    try discriminate H.
  simpl in Hy. destruct Hy as [<- | [<- | []]]; discriminate Hid.
Qed.

End OuterPaddingOnInequality.

(** ** Sort-merge join on [<] and [<=]: the pairs of a cluster *)

Section RangesToTheEnd.
Import Storage JoinSortMerge.

Lemma lookups_from {A : Type} (table : list (list A)) (k : nat) :
  map (fun c => default [] (table !! c)) (seq k (length table - k))
  = drop k table.
Proof.
  apply list_eq. intros i. rewrite list_lookup_fmap, lookup_drop.
  destruct (Nat.lt_ge_cases i (length table - k)) as [Hi | Hi].
  - rewrite lookup_seq_lt by exact Hi. simpl.
    destruct (lookup_lt_is_Some_2 table (k + i) ltac:(lia)) as [s Hs].
    now rewrite Hs.
  - rewrite lookup_seq_ge by exact Hi. simpl. symmetry.
    apply lookup_ge_None. lia.
Qed.

(** What [_end_of_table] returns. *)
Lemma end_of_table_value (HYRISE_DEBUG : bool) (table : MaterializedSegmentList)
    (position : TablePosition) :
  _end_of_table HYRISE_DEBUG table = Returned position ->
  exists last,
    table !! (length table - 1) = Some last
    /\ position = mkTablePosition (length table - 1) (length last).
Proof.
  unfold _end_of_table, DebugAssert, Assert. intros H.
  destruct (table !! (length table - 1)) as [last |] eqn:Hlast.
  - exists last. split; [reflexivity |].
    destruct HYRISE_DEBUG; [destruct (negb (length table =? 0)) in H |];
      cbn in H; try congruence; discriminate H.
  - destruct HYRISE_DEBUG; [destruct (negb (length table =? 0)) in H |];
      discriminate H.
Qed.

(** The rows from a position to the end of the table: the rest of the
    cluster of the position, and the clusters behind it. *)
Lemma rows_to_end (table : MaterializedSegmentList) (c s : nat)
    (segment last : MaterializedSegment) :
  table !! c = Some segment ->
  table !! (length table - 1) = Some last ->
  for_every_row_id table
    (to (mkTablePosition c s)
        (mkTablePosition (length table - 1) (length last)))
  = map row_id (drop s segment ++ concat (drop (S c) table)).
Proof.
  intros Hc Hlast. pose proof (lookup_lt_Some _ _ _ Hc) as Hbound.
  unfold for_every_row_id, to. cbn [range_start range_end cluster index].
  replace (S (length table - 1) - c) with (S (length table - S c)) by lia.
  cbn [seq map concat]. rewrite Nat.eqb_refl, Hc.
  change (default [] (Some segment)) with segment.
  assert (Hend :
    (if c =? length table - 1 then length last else length segment)
    = length segment).
  { destruct (Nat.eqb_spec c (length table - 1)) as [E | _];
      [| reflexivity].
    rewrite <- E in Hlast. congruence. }
  rewrite Hend, firstn_all2 by (rewrite length_drop; lia).
  rewrite map_app. f_equal.
  rewrite <- (lookups_from table (S c)), concat_map, map_map.
  f_equal. apply map_ext_in. intros c' Hc'. apply in_seq in Hc'.
  destruct (lookup_lt_is_Some_2 table c' ltac:(lia)) as [s' Hs'].
  rewrite Hs'. change (default [] (Some s')) with s'.
  replace (c' =? c) with false by (symmetry; apply Nat.eqb_neq; lia).
  assert (Hend' :
    (if c' =? length table - 1 then length last else length s') = length s').
  { destruct (Nat.eqb_spec c' (length table - 1)) as [E | _];
      [| reflexivity].
    rewrite <- E in Hlast. congruence. }
  rewrite Hend', Nat.sub_0_r, drop_0. now rewrite firstn_all.
Qed.

End RangesToTheEnd.

Section LessThanCluster.
Import Storage JoinSortMerge.

(** The predicate condition on two join values, as a test. *)
Definition satisfies (op : PredicateCondition) (l r : Z) : bool :=
  match op with
  | Equals => Z.eqb l r
  | NotEquals => negb (Z.eqb l r)
  | LessThan => Z.ltb l r
  | LessThanEquals => Z.leb l r
  | GreaterThan => Z.gtb l r
  | GreaterThanEquals => Z.geb l r
  | _ => false
  end.

(** The pairs of the rows of [rows] with the rows of [partners] that
    satisfy the condition: ordered by the row of [rows], then by the row
    of [partners]. *)
Definition theta_rows (op : PredicateCondition)
    (rows partners : MaterializedSegment) : list (RowID * RowID) :=
  concat
    (map
       (fun x =>
          map (fun y => (row_id x, row_id y))
            (List.filter (fun y => satisfies op (value x) (value y)) partners))
       rows).

Lemma filter_from {A : Type} (f : A -> bool) (l : list A) (s : nat) :
  (forall j y, j < s -> l !! j = Some y -> f y = false) ->
  (forall j y, s <= j -> l !! j = Some y -> f y = true) ->
  List.filter f l = drop s l.
Proof.
  intros Hbefore Hfrom. rewrite <- (take_drop s l) at 1.
  rewrite List.filter_app, filter_none, filter_all; [reflexivity | |].
  - intros k y Hk. rewrite lookup_drop in Hk. apply (Hfrom (s + k) y); [lia | exact Hk].
  - intros k y Hk. apply lookup_take_Some in Hk as [Hy Hk].
    now apply (Hbefore k y).
Qed.

Variable impl : Impl.
Variable cluster_number : nat.
Variables left_cluster right_cluster : MaterializedSegment.
Hypothesis left_sorted : sorted_by_value left_cluster.
Hypothesis right_sorted : sorted_by_value right_cluster.
Hypothesis left_at :
  _sorted_left_table impl !! cluster_number = Some left_cluster.
Hypothesis right_at :
  _sorted_right_table impl !! cluster_number = Some right_cluster.
Hypothesis less : _op impl = LessThan \/ _op impl = LessThanEquals.
Hypothesis kept : pairs_kept impl = true.
Hypothesis right_end :
  exists last,
    _sorted_right_table impl !! (length (_sorted_right_table impl) - 1)
    = Some last
    /\ _end_of_right_table impl
       = mkTablePosition (length (_sorted_right_table impl) - 1) (length last).

(** The right rows of the clusters behind this one. *)
Definition later_rows : MaterializedSegment :=
  concat (drop (S cluster_number) (_sorted_right_table impl)).

(** The pairs of the rows of [rows] with their partners in this cluster
    and with all rows of the clusters behind it. *)
Definition less_rows (rows : MaterializedSegment) : list (RowID * RowID) :=
  concat
    (map
       (fun x =>
          map (fun y => (row_id x, row_id y))
            (List.filter (fun y => satisfies (_op impl) (value x) (value y))
               right_cluster
             ++ later_rows))
       rows).

Lemma less_rows_app rows1 rows2 :
  less_rows (rows1 ++ rows2) = less_rows rows1 ++ less_rows rows2.
Proof. unfold less_rows. now rewrite map_app, concat_app. Qed.

(** Where the right range of an iteration starts, if it emits. *)
Definition right_start (compare_result : CompareResult) (rs re : nat)
    : option nat :=
  match _op impl, compare_result with
  | LessThan, Less => Some rs
  | LessThan, Equal => Some re
  | LessThanEquals, (Less | Equal) => Some rs
  | _, _ => None
  end.

Lemma join_runs_less out ls le rs re compare_result :
  _join_runs impl out (cluster_range cluster_number ls le)
    (cluster_range cluster_number rs re) compare_result
  = Returned
      match right_start compare_result rs re with
      | Some s =>
          append_pairs out cluster_number
            (list_prod
               (map row_id (take (le - ls) (drop ls left_cluster)))
               (map row_id (drop s right_cluster ++ later_rows)))
      | None => out
      end.
Proof.
  destruct right_end as (last & Hlast & Hend).
  assert (Hrange : forall s,
    right_rows impl
      (to (mkTablePosition cluster_number s) (_end_of_right_table impl))
    = map row_id (drop s right_cluster ++ later_rows)).
  { intros s. unfold right_rows. rewrite Hend.
    exact (rows_to_end _ _ s _ _ right_at Hlast). }
  assert (Hleft :
    left_rows impl (cluster_range cluster_number ls le)
    = map row_id (take (le - ls) (drop ls left_cluster))).
  { unfold left_rows. now rewrite for_every_row_id_cluster_range, left_at. }
  unfold _join_runs, right_start.
  cbn [cluster_range range_start range_end cluster].
  fold (cluster_range cluster_number ls le).
  destruct less as [-> | ->]; destruct compare_result;
    rewrite ?emit_all_combinations_pairs by exact kept;
    rewrite ?Hrange, ?Hleft; reflexivity.
Qed.

(** The pairs of a range of left rows whose partners in this cluster are
    the right rows from [s] on. *)
Lemma emitted_less a b s :
  (forall i x j y,
     a <= i < b -> left_cluster !! i = Some x ->
     j < s -> right_cluster !! j = Some y ->
     satisfies (_op impl) (value x) (value y) = false) ->
  (forall i x j y,
     a <= i < b -> left_cluster !! i = Some x ->
     s <= j -> right_cluster !! j = Some y ->
     satisfies (_op impl) (value x) (value y) = true) ->
  list_prod (map row_id (take (b - a) (drop a left_cluster)))
    (map row_id (drop s right_cluster ++ later_rows))
  = less_rows (take (b - a) (drop a left_cluster)).
Proof.
  intros Hbefore Hfrom. rewrite list_prod_map. unfold less_rows.
  apply concat_map_ext_lookup. intros k x Hk.
  apply lookup_run in Hk as [Hx Hk]. f_equal. f_equal. symmetry.
  apply filter_from.
  - intros j y Hj Hy. exact (Hbefore _ x j y Hk Hx Hj Hy).
  - intros j y Hj Hy. exact (Hfrom _ x j y Hk Hx Hj Hy).
Qed.

(** The invariant of the merge loop. *)
Definition less_invariant (out0 : Output) (runs : Runs) (out : Output) : Prop :=
  out = append_pairs out0 cluster_number
          (less_rows (take (left_run_start runs) left_cluster))
  /\ forall j y i x,
       j < right_run_start runs -> right_cluster !! j = Some y ->
       left_run_start runs <= i -> left_cluster !! i = Some x ->
       (value y < value x)%Z.

Lemma less_invariant_step out0 runs out l r out' :
  runs_ok left_cluster right_cluster runs ->
  less_invariant out0 runs out ->
  left_cluster !! left_run_start runs = Some l ->
  right_cluster !! right_run_start runs = Some r ->
  _join_runs impl out (left_run cluster_number runs)
    (right_run cluster_number runs) (_compare (value l) (value r))
  = Returned out' ->
  less_invariant out0 (next_runs left_cluster right_cluster runs l r) out'.
Proof.
  intros (Hle & Hre & Hlb & Hrb) (Hout & I1) Hl Hr Hruns.
  unfold left_run, right_run in Hruns. rewrite join_runs_less in Hruns.
  pose proof (run_length_spec left_cluster _ l left_sorted Hl) as (L1 & L2 & L3).
  pose proof (run_length_spec right_cluster _ r right_sorted Hr) as (R1 & R2 & R3).
  simpl in L1, L2, L3, R1, R2, R3. rewrite <- Hle in L1, L2, L3.
  rewrite <- Hre in R1, R2, R3.
  assert (Hrun :
    take (left_run_end runs) left_cluster
    = take (left_run_start runs) left_cluster
      ++ take (left_run_end runs - left_run_start runs)
           (drop (left_run_start runs) left_cluster)).
  { rewrite take_take_drop. f_equal. lia. }
  assert (Hemit : forall s,
    (forall j y, j < s -> right_cluster !! j = Some y ->
                 satisfies (_op impl) (value l) (value y) = false) ->
    (forall j y, s <= j -> right_cluster !! j = Some y ->
                 satisfies (_op impl) (value l) (value y) = true) ->
    append_pairs out cluster_number
      (list_prod
         (map row_id
            (take (left_run_end runs - left_run_start runs)
               (drop (left_run_start runs) left_cluster)))
         (map row_id (drop s right_cluster ++ later_rows)))
    = append_pairs out0 cluster_number
        (less_rows (take (left_run_end runs) left_cluster))).
  { intros s Hbefore Hfrom.
    rewrite (emitted_less (left_run_start runs) (left_run_end runs) s).
    - now rewrite Hrun, less_rows_app, Hout, append_pairs_app.
    - intros i x j y Hi Hx Hj Hy. rewrite (L2 i x Hi Hx). now apply (Hbefore j y).
    - intros i x j y Hi Hx Hj Hy. rewrite (L2 i x Hi Hx). now apply (Hfrom j y). }
  assert (Hsmaller : forall j y,
    j < right_run_start runs -> right_cluster !! j = Some y ->
    (value y < value l)%Z).
  { intros j y Hj Hy. exact (I1 j y _ l Hj Hy (Nat.le_refl _) Hl). }
  assert (Hlarger : forall j y,
    right_run_start runs <= j -> right_cluster !! j = Some y ->
    (value r <= value y)%Z).
  { intros j y Hj Hy. exact (right_sorted _ _ r y Hj Hr Hy). }
  unfold next_runs, _compare, right_start in *.
  destruct (Z.ltb_spec (value l) (value r)) as [Hlt | Hge].
  - (* Less *)
    assert (Hout' :
      out' = append_pairs out0 cluster_number
               (less_rows (take (left_run_end runs) left_cluster))).
    { destruct less as [Hop | Hop]; rewrite Hop in *;
        injection Hruns as <-; apply Hemit; intros j y Hj Hy; simpl;
        first [ pose proof (Hsmaller j y Hj Hy)
              | pose proof (Hlarger j y Hj Hy) ];
        first [ apply Z.ltb_ge | apply Z.ltb_lt | apply Z.leb_gt
              | apply Z.leb_le ]; lia. }
    split; [exact Hout' |]. unfold advance_left. simpl.
    intros j y i x Hj Hy Hi Hx. apply (I1 j y i x); auto. lia.
  - destruct (Z.eqb_spec (value l) (value r)) as [Heq | Hne].
    + (* Equal *)
      assert (Hout' :
        out' = append_pairs out0 cluster_number
                 (less_rows (take (left_run_end runs) left_cluster))).
      { destruct less as [Hop | Hop]; rewrite Hop in *;
          injection Hruns as <-; apply Hemit; intros j y Hj Hy; simpl.
        - apply Z.ltb_ge.
          destruct (Nat.lt_ge_cases j (right_run_start runs)) as [Hb | Hb].
          + pose proof (Hsmaller j y Hb Hy). lia.
          + pose proof (R2 j y ltac:(lia) Hy). lia.
        - apply Z.ltb_lt. pose proof (R3 j y Hj Hy). lia.
        - apply Z.leb_gt. pose proof (Hsmaller j y Hj Hy). lia.
        - apply Z.leb_le. pose proof (Hlarger j y Hj Hy). lia. }
      split; [exact Hout' |]. unfold advance_left, advance_right. simpl.
      intros j y i x Hj Hy Hi Hx. pose proof (L3 i x Hi Hx).
      destruct (Nat.lt_ge_cases j (right_run_start runs)) as [Hb | Hb].
      * pose proof (Hsmaller j y Hb Hy). lia.
      * pose proof (R2 j y ltac:(lia) Hy). lia.
    + (* Greater *)
      assert (Hout' : out' = out)
        by (destruct less as [Hop | Hop]; rewrite Hop in *;
            now injection Hruns as <-).
      subst out'. split; [exact Hout |]. unfold advance_right. simpl.
      intros j y i x Hj Hy Hi Hx.
      destruct (Nat.lt_ge_cases j (right_run_start runs)) as [Hb | Hb].
      * apply (I1 j y i x); auto.
      * pose proof (R2 j y ltac:(lia) Hy).
        pose proof (left_sorted _ _ l x Hi Hl Hx). lia.
Qed.

Lemma less_supported : supported_condition (_op impl) = true.
Proof. destruct less as [-> | ->]; reflexivity. Qed.

(** [_join_cluster] of a join on [<] or [<=] appends, for every row of
    the left cluster in order, its pairs with its partners in the right
    cluster and with all rows of the clusters behind it. *)
Lemma join_cluster_less out0 :
  _join_cluster impl out0 cluster_number
  = Returned (append_pairs out0 cluster_number (less_rows left_cluster)).
Proof.
  unfold _join_cluster. rewrite left_at, right_at. run.
  destruct (join_cluster_loop_spec impl cluster_number left_cluster
              right_cluster left_sorted right_sorted less_supported
              (less_invariant out0))
    with (fuel := length left_cluster + length right_cluster)
         (runs := mkRuns 0 (0 + _run_length 0 left_cluster)
                         0 (0 + _run_length 0 right_cluster))
         (out := out0)
    as (runs & out & Hloop & Hok & (Hout & I1) & Hleft).
  - intros runs out l r out' Hok Hinv Hl Hr Hruns.
    eapply less_invariant_step; eauto.
  - unfold runs_ok. simpl. repeat split; lia.
  - unfold less_invariant. simpl. rewrite append_pairs_nil.
    split; [reflexivity | intros; lia].
  - unfold rows_ahead. simpl. lia.
  - rewrite Hloop. run.
    replace (JoinMode_eqb (_mode impl) Anti) with false
      by (symmetry; unfold pairs_kept in kept;
          apply andb_true_iff in kept as [_ H]; now apply negb_true_iff in H).
    unfold runs_left in Hleft. destruct Hok as (_ & _ & Hlb & Hrb).
    assert (Hwhole :
      less_rows left_cluster
      = less_rows (take (left_run_start runs) left_cluster)
        ++ less_rows (drop (left_run_start runs) left_cluster))
      by now rewrite <- less_rows_app, take_drop.
    rewrite Hwhole, <- append_pairs_app, <- Hout.
    destruct (Nat.ltb_spec (left_run_start runs) (length left_cluster))
      as [Hl | Hl].
    + destruct (Nat.ltb_spec (right_run_start runs) (length right_cluster))
        as [Hr | Hr]; [discriminate |].
      rewrite join_runs_less. run. f_equal.
      assert (Hstart :
        right_start Less (right_run_start runs) (length right_cluster)
        = Some (right_run_start runs))
        by (unfold right_start; destruct less as [-> | ->]; reflexivity).
      rewrite Hstart.
      rewrite (emitted_less (left_run_start runs) (length left_cluster)
                 (right_run_start runs)).
      * now rewrite firstn_all2 by (rewrite length_drop; lia).
      * intros i x j y Hi Hx Hj Hy.
        pose proof (I1 j y i x Hj Hy ltac:(lia) Hx).
        destruct less as [-> | ->]; simpl;
          [apply Z.ltb_ge | apply Z.leb_gt]; lia.
      * intros i x j y Hi Hx Hj Hy. apply lookup_lt_Some in Hy. lia.
    + rewrite drop_ge by lia.
      change (less_rows []) with (@nil (RowID * RowID)).
      rewrite append_pairs_nil.
      destruct (Nat.ltb_spec (right_run_start runs) (length right_cluster))
        as [Hr | Hr]; [| reflexivity].
      rewrite join_runs_less.
      replace (right_start Greater (right_run_start runs)
                 (length right_cluster)) with (@None nat)
        by (unfold right_start; destruct less as [-> | ->]; reflexivity).
      reflexivity.
Qed.

End LessThanCluster.

(** ** Sort-merge join on [<] and [<=]: the pairs of the clusters *)

Section LessThanJoin.
Import Storage JoinSortMerge.

Lemma in_concat_take {A : Type} (table : list (list A)) (c : nat) (y : A) :
  In y (concat (take c table)) ->
  exists c1 s1, c1 < c /\ table !! c1 = Some s1 /\ In y s1.
Proof.
  intros H. apply in_concat in H as (s1 & Hs1 & Hy).
  apply list_elem_of_In, list_elem_of_lookup in Hs1 as [c1 Hc1].
  apply lookup_take_Some in Hc1 as [Hc1 Hlt]. eauto.
Qed.

Lemma in_concat_drop {A : Type} (table : list (list A)) (c : nat) (y : A) :
  In y (concat (drop c table)) ->
  exists c2 s2, c <= c2 /\ table !! c2 = Some s2 /\ In y s2.
Proof.
  intros H. apply in_concat in H as (s2 & Hs2 & Hy).
  apply list_elem_of_In, list_elem_of_lookup in Hs2 as [k Hk].
  rewrite lookup_drop in Hk. exists (c + k), s2. split; [lia | auto].
Qed.

Variable HYRISE_DEBUG : bool.
Variable left_table : Table.
Variable column_ids : ColumnID * ColumnID.
Variable op : PredicateCondition.
Variable mode : JoinMode.
Variable cluster_count : nat.
Variable sort_output : RadixClusterOutput.

Hypothesis some_cluster : 0 < cluster_count.
Hypothesis left_count : length (clusters_left sort_output) = cluster_count.
Hypothesis right_count : length (clusters_right sort_output) = cluster_count.
Hypothesis left_sorted : Forall sorted_by_value (clusters_left sort_output).
Hypothesis right_sorted : Forall sorted_by_value (clusters_right sort_output).
Hypothesis less : op = LessThan \/ op = LessThanEquals.
Hypothesis pairs : mode <> Semi /\ mode <> Anti.
Hypothesis clustered :
  range_clustered (clusters_left sort_output) (clusters_right sort_output).

(** With clusters that are cut at common split values, the partners of a
    left row in its cluster and the rows of the clusters behind it are
    its partners in the whole right table. *)
Lemma less_rows_theta end_left end_right c left_cluster right_cluster :
  clusters_left sort_output !! c = Some left_cluster ->
  clusters_right sort_output !! c = Some right_cluster ->
  less_rows
    (merge_impl left_table column_ids op mode cluster_count sort_output
       end_left end_right) c right_cluster left_cluster
  = theta_rows op left_cluster (concat (clusters_right sort_output)).
Proof.
  intros Hl Hr. unfold less_rows, theta_rows, later_rows. simpl.
  apply concat_map_ext_lookup. intros i x Hx. f_equal.
  assert (Hin : In x left_cluster).
  { apply list_elem_of_In. eapply list_elem_of_lookup_2. exact Hx. }
  assert (Hsplit :
    concat (clusters_right sort_output)
    = concat (take c (clusters_right sort_output))
      ++ right_cluster ++ concat (drop (S c) (clusters_right sort_output))).
  { rewrite <- (take_drop_middle _ _ _ Hr) at 1. now rewrite concat_app. }
  rewrite Hsplit, !List.filter_app.
  rewrite (filter_none _ (concat (take c (clusters_right sort_output)))),
          (filter_all _ (concat (drop (S c) (clusters_right sort_output))));
    [reflexivity | |].
  - intros k y Hy.
    assert (Hiny : In y (concat (drop (S c) (clusters_right sort_output)))).
    { apply list_elem_of_In. eapply list_elem_of_lookup_2. exact Hy. }
    apply in_concat_drop in Hiny as (c2 & s2 & Hc2 & Hs2 & Hy2).
    pose proof (clustered c c2 left_cluster s2 x y ltac:(lia)
                  (or_introl Hl) (or_intror Hs2) Hin Hy2).
    destruct less as [-> | ->]; simpl; [apply Z.ltb_lt | apply Z.leb_le]; lia.
  - intros k y Hy.
    assert (Hiny : In y (concat (take c (clusters_right sort_output)))).
    { apply list_elem_of_In. eapply list_elem_of_lookup_2. exact Hy. }
    apply in_concat_take in Hiny as (c1 & s1 & Hc1 & Hs1 & Hy1).
    pose proof (clustered c1 c s1 left_cluster y x Hc1
                  (or_intror Hs1) (or_introl Hl) Hy1 Hin).
    destruct less as [-> | ->]; simpl; [apply Z.ltb_ge | apply Z.leb_gt]; lia.
Qed.

(** What the join owes to the rows of cluster [c]. *)
Definition less_cluster_rows (c : nat) : list (RowID * RowID) :=
  theta_rows op (left_cluster_at sort_output c)
    (concat (clusters_right sort_output)).

Lemma perform_join_cluster_less end_right out c :
  (exists last,
     clusters_right sort_output !! (length (clusters_right sort_output) - 1)
     = Some last
     /\ end_right
        = mkTablePosition (length (clusters_right sort_output) - 1)
            (length last)) ->
  forall end_left,
  c < cluster_count ->
  length (_output_pos_lists_left out) = cluster_count ->
  length (_output_pos_lists_right out) = cluster_count ->
  perform_join_cluster
    (merge_impl left_table column_ids op mode cluster_count sort_output
       end_left end_right) out c
  = Returned
      (mkOutput
         (<[c:=map fst (less_cluster_rows c)]> (_output_pos_lists_left out))
         (<[c:=map snd (less_cluster_rows c)]> (_output_pos_lists_right out))).
Proof.
  intros Hend end_left Hc Hleft Hright.
  destruct (cluster_lookups cluster_count sort_output some_cluster left_count
              right_count left_sorted right_sorted c Hc)
    as (Hl & Hr & Hls & Hrs).
  set (impl := merge_impl left_table column_ids op mode cluster_count
                 sort_output end_left end_right).
  unfold perform_join_cluster. fold impl.
  replace ((JoinMode_eqb (_mode impl) Inner || JoinMode_eqb (_mode impl) Semi)
           && PredicateCondition_eqb (_op impl) Equals) with false
    by (simpl; destruct less as [-> | ->]; now rewrite andb_false_r).
  assert (Hkept : pairs_kept impl = true).
  { destruct pairs as [Hs Ha]. unfold pairs_kept. simpl.
    destruct mode; try reflexivity;
      [now contradiction Hs | now contradiction Ha]. }
  rewrite (join_cluster_less impl c (left_cluster_at sort_output c)
             (right_cluster_at sort_output c) Hls Hrs Hl Hr less Hkept Hend).
  unfold impl. rewrite (less_rows_theta end_left end_right c _ _ Hl Hr).
  fold (less_cluster_rows c). unfold append_pairs. simpl. f_equal. f_equal.
  - rewrite list_insert_alter, list_alter_alter_eq, list_insert_alter.
    apply list_alter_ext; auto.
  - rewrite list_insert_alter, list_alter_alter_eq, list_insert_alter.
    apply list_alter_ext; auto.
Qed.

End LessThanJoin.

Section LessThanJoinResult.
Import Storage JoinSortMerge.



(** The inner join of the example on [<]: the left row with the value 1
    with the right rows with the values 2 and 4, the left row with the
    value 3 with the right row with the value 4. *)
Example inner_join_on_less_than_of_example :
  merge_phase true left_with_padding (0, 0) LessThan Inner 2 range_clusters
  = Returned
      (mkOutput [[mkRowID 0 0; mkRowID 0 0]; [mkRowID 0 1]]
                [[mkRowID 0 1; mkRowID 0 2]; [mkRowID 0 2]]).
Proof. vm_compute. reflexivity. Qed.

End LessThanJoinResult.

(** ** Sort-merge join: an outer join on an inequality needs rows *)

Section OuterJoinNeedsRows.
Import Storage JoinSortMerge.

Lemma first_value_of_nothing (table : MaterializedSegmentList) :
  concat table = [] -> first_value table = Thrown logic_error.
Proof.
  induction table as [|[|x partition] rest IH]; simpl; intros H;
    [reflexivity | auto | discriminate].
Qed.

Lemma last_value_of_nothing (table : MaterializedSegmentList) (n : nat) :
  n <= length table ->
  concat table = [] ->
  last_value table n = Thrown logic_error.
Proof.
  intros Hn Hnone. induction n as [|n IH]; cbn [last_value]; [reflexivity |].
  destruct (lookup_lt_is_Some_2 table n ltac:(lia)) as [partition Hp].
  rewrite Hp. run.
  assert (partition = []) as ->.
  { destruct partition as [|x partition]; [reflexivity |].
    assert (Hin : In x (concat table)).
    { apply in_concat_lookup. exists n, (x :: partition), 0. auto. }
    rewrite Hnone in Hin. destruct Hin. }
  simpl. apply IH. lia.
Qed.

Variable HYRISE_DEBUG : bool.
Variable impl : Impl.

Lemma table_min_value_of_nothing (table : MaterializedSegmentList) :
  concat table = [] ->
  _table_min_value HYRISE_DEBUG impl table = Thrown logic_error.
Proof.
  intros Hnone. unfold _table_min_value, DebugAssert, Assert.
  rewrite (first_value_of_nothing table Hnone).
  destruct HYRISE_DEBUG; [| reflexivity].
  destruct (negb _); [| reflexivity]. now destruct (negb _).
Qed.

Lemma table_max_value_of_nothing (table : MaterializedSegmentList) :
  concat table = [] ->
  _table_max_value HYRISE_DEBUG impl table = Thrown logic_error.
Proof.
  intros Hnone. unfold _table_max_value, DebugAssert, Assert.
  rewrite (last_value_of_nothing table _ (Nat.le_refl _) Hnone).
  destruct HYRISE_DEBUG; [| reflexivity].
  destruct (negb _); [| reflexivity]. now destruct (negb _).
Qed.

End OuterJoinNeedsRows.

Section OuterJoinOnNothing.
Import Storage JoinSortMerge.

Variable HYRISE_DEBUG : bool.
Variable left_table : Table.
Variable column_ids : ColumnID * ColumnID.
Variable op : PredicateCondition.
Variable mode : JoinMode.
Variable cluster_count : nat.
Variable sort_output : RadixClusterOutput.

Hypothesis some_cluster : 0 < cluster_count.
Hypothesis left_count : length (clusters_left sort_output) = cluster_count.
Hypothesis right_count : length (clusters_right sort_output) = cluster_count.
Hypothesis left_sorted : Forall sorted_by_value (clusters_left sort_output).
Hypothesis right_sorted : Forall sorted_by_value (clusters_right sort_output).
Hypothesis condition_supported : supported_condition op = true.
Hypothesis pairs : mode <> Semi /\ mode <> Anti.
Hypothesis clustered :
  op <> Equals ->
  range_clustered (clusters_left sort_output) (clusters_right sort_output).

(** The jobs of the clusters return. *)
Lemma cluster_jobs_return end_left end_right :
  exists out,
    for_each
      (perform_join_cluster
         (merge_impl left_table column_ids op mode cluster_count sort_output
            end_left end_right))
      (mkOutput (replicate cluster_count []) (replicate cluster_count []))
      (seq 0 cluster_count)
    = Returned out.
Proof.
  set (impl := merge_impl left_table column_ids op mode cluster_count
                 sort_output end_left end_right).
  assert (Hkept : pairs_kept impl = true).
  { destruct pairs as [Hs Ha]. unfold pairs_kept. simpl.
    destruct mode; try reflexivity;
      [now contradiction Hs | now contradiction Ha]. }
  destruct (for_each_total (aligned impl) (perform_join_cluster impl)
              (seq 0 cluster_count))
    with (s := mkOutput (replicate cluster_count []) (replicate cluster_count []))
    as (out & Hout & _); [| | eauto].
  - intros out c Hc Hal. apply in_seq in Hc.
    destruct (lookup_lt_is_Some_2 (clusters_left sort_output) c) as [l Hl];
      [lia |].
    destruct (lookup_lt_is_Some_2 (clusters_right sort_output) c) as [r Hr];
      [lia |].
    apply (perform_join_cluster_aligned impl c l r Hl Hr clustered Hkept
             (Forall_lookup_1 _ _ _ _ left_sorted Hl)
             (Forall_lookup_1 _ _ _ _ right_sorted Hr)
             condition_supported out Hal).
  - unfold aligned. simpl. apply Forall2_replicate.
    split; [reflexivity | constructor].
Qed.

Hypothesis inequality : op <> Equals.

Lemma left_patch_returns end_left end_right out :
  concat (clusters_left sort_output) <> [] ->
  exists out',
    _left_outer_non_equi_join HYRISE_DEBUG
      (merge_impl left_table column_ids op mode cluster_count sort_output
         end_left end_right) out
    = Returned out'.
Proof.
  intros Hrows. unfold _left_outer_non_equi_join.
  set (impl := merge_impl left_table column_ids op mode cluster_count
                 sort_output end_left end_right).
  destruct (table_min_value_returns HYRISE_DEBUG impl inequality
              (_sorted_left_table impl) Hrows) as [lo ->].
  destruct (table_max_value_returns HYRISE_DEBUG impl inequality
              (_sorted_left_table impl) Hrows) as [hi ->].
  destruct (end_of_table_returns HYRISE_DEBUG cluster_count sort_output
              some_cluster left_count right_count (_sorted_right_table impl))
    as [e ->]; [simpl; lia |].
  run. eauto.
Qed.

Lemma merge_phase_on_nothing :
  ((mode = Left \/ mode = Outer) /\ concat (clusters_left sort_output) = [])
  \/ ((mode = Right \/ mode = Outer)
      /\ concat (clusters_right sort_output) = []) ->
  merge_phase HYRISE_DEBUG left_table column_ids op mode cluster_count
    sort_output
  = Thrown logic_error.
Proof.
  intros Hnothing. unfold merge_phase.
  destruct (end_of_table_returns HYRISE_DEBUG cluster_count sort_output
              some_cluster left_count right_count (clusters_left sort_output))
    as [el ->]; [lia |].
  destruct (end_of_table_returns HYRISE_DEBUG cluster_count sort_output
              some_cluster left_count right_count (clusters_right sort_output))
    as [er ->]; [lia |].
  run.
  fold (merge_impl left_table column_ids op mode cluster_count sort_output
          el er).
  unfold _perform_join. cbn [_cluster_count _mode _op merge_impl].
  destruct (cluster_jobs_return el er) as [out1 ->]. run.
  unfold PredicateCondition_eqb.
  rewrite (bool_decide_eq_false_2 _ inequality). cbn [negb].
  rewrite !andb_true_r.
  assert (Hleft_throws :
    concat (clusters_left sort_output) = [] ->
    _left_outer_non_equi_join HYRISE_DEBUG
      (merge_impl left_table column_ids op mode cluster_count sort_output
         el er) out1
    = Thrown logic_error).
  { intros Hnone. unfold _left_outer_non_equi_join.
    now rewrite table_min_value_of_nothing. }
  assert (Hright_throws : forall out,
    concat (clusters_right sort_output) = [] ->
    _right_outer_non_equi_join HYRISE_DEBUG
      (merge_impl left_table column_ids op mode cluster_count sort_output
         el er) out
    = Thrown logic_error).
  { intros out Hnone. unfold _right_outer_non_equi_join.
    now rewrite table_min_value_of_nothing. }
  destruct Hnothing as [[Hmode Hnone] | [Hmode Hnone]].
  - replace (JoinMode_eqb mode Left || JoinMode_eqb mode Outer) with true
      by (destruct Hmode as [-> | ->]; reflexivity).
    now rewrite Hleft_throws.
  - replace (JoinMode_eqb mode Right || JoinMode_eqb mode Outer) with true
      by (destruct Hmode as [-> | ->]; reflexivity).
    destruct (JoinMode_eqb mode Left || JoinMode_eqb mode Outer).
    + destruct (list_eq_nil_dec (concat (clusters_left sort_output)))
        as [Hl | Hl].
      * now rewrite Hleft_throws.
      * destruct (left_patch_returns el er out1 Hl) as [out2 ->]. run.
        now rewrite Hright_throws.
    + run. now rewrite Hright_throws.
Qed.

End OuterJoinOnNothing.

Section OuterJoinOnNothingResult.
Import Storage JoinSortMerge.

(** X10: an outer sort-merge join on a condition other than equality
    needs a row on the side whose smallest and largest value its patch
    reads.  If no row of the left input has a join value (all clusters
    of the left side are empty) in mode Left or Outer, or no row of the
    right input has one in mode Right or Outer, the jobs of the clusters
    return and the merge then throws [std::logic_error] ("Every
    partition is empty"): the rows of the other side are not returned
    with their padding. *)
Theorem outer_join_on_inequality_needs_rows (HYRISE_DEBUG : bool)
    (left_table : Table) (column_ids : ColumnID * ColumnID)
    (op : PredicateCondition) (mode : JoinMode) (cluster_count : nat)
    (sort_output : RadixClusterOutput) :
  supported_condition op = true ->
  op <> Equals ->
  0 < cluster_count ->
  length (clusters_left sort_output) = cluster_count ->
  length (clusters_right sort_output) = cluster_count ->
  Forall sorted_by_value (clusters_left sort_output) ->
  Forall sorted_by_value (clusters_right sort_output) ->
  range_clustered (clusters_left sort_output) (clusters_right sort_output) ->
  ((mode = Left \/ mode = Outer) /\ concat (clusters_left sort_output) = [])
  \/ ((mode = Right \/ mode = Outer)
      /\ concat (clusters_right sort_output) = []) ->
  merge_phase HYRISE_DEBUG left_table column_ids op mode cluster_count
    sort_output
  = Thrown logic_error.
Proof.
  intros Hop Hne Hsome Hlc Hrc Hls Hrs Hclustered Hnothing.
  apply merge_phase_on_nothing; auto.
  destruct Hnothing as [[[-> | ->] _] | [[-> | ->] _]]; split; discriminate.
Qed.

(** A left input whose only row has a NULL join value, and a right input
    with the join values [0, 2, 4]. *)
Definition left_of_nulls : Table :=
  mkTable Data 1 [[ValueSegment [NullValue]]].

Definition clusters_of_nothing : RadixClusterOutput :=
  mkRadixClusterOutput
    [[]; []]
    [[mkMaterializedValue (mkRowID 0 0) 0; mkMaterializedValue (mkRowID 0 1) 2];
     [mkMaterializedValue (mkRowID 0 2) 4]]
    [mkRowID 0 0] [].

Lemma clusters_of_nothing_clustered :
  range_clustered (clusters_left clusters_of_nothing)
    (clusters_right clusters_of_nothing).
Proof.
  intros c1 c2 s1 s2 x y Hlt H1 H2 Hx Hy.
  destruct c1 as [|[|c1]], c2 as [|[|c2]]; try lia; simpl in H1, H2;
    destruct H1 as [H1 | H1], H2 as [H2 | H2]; try discriminate;
    injection H1 as <-; injection H2 as <-; simpl in Hx, Hy;
    repeat match goal with
           | H : _ \/ _ |- _ => destruct H as [H | H]
           | H : False |- _ => destruct H
           end; subst; simpl; lia.
Qed.

Lemma outer_join_on_inequality_needs_rows_witness :
  Forall sorted_by_value (clusters_left clusters_of_nothing)
  /\ Forall sorted_by_value (clusters_right clusters_of_nothing)
  /\ range_clustered (clusters_left clusters_of_nothing)
       (clusters_right clusters_of_nothing)
  /\ merge_phase true left_of_nulls (0, 0) LessThan Left 2 clusters_of_nothing
     = Thrown logic_error.
Proof.
  assert (Hl : Forall sorted_by_value (clusters_left clusters_of_nothing))
    by (repeat constructor; apply sorted_none).
  assert (Hr : Forall sorted_by_value (clusters_right clusters_of_nothing))
    by (repeat constructor; [apply sorted_two; simpl; lia | apply sorted_one]).
  assert (Hne : LessThan <> Equals) by discriminate.
  split; [exact Hl | split; [exact Hr |]].
  split; [exact clusters_of_nothing_clustered |].
  exact (outer_join_on_inequality_needs_rows true left_of_nulls (0, 0)
           LessThan Left 2 clusters_of_nothing eq_refl Hne ltac:(lia)
           eq_refl eq_refl Hl Hr clusters_of_nothing_clustered
           (or_introl (conj (or_introl eq_refl) eq_refl))).
Defined.

End OuterJoinOnNothingResult.

(** ** Sort-merge join: the modes and conditions that are carried out *)

Section SortMergeModes.
Import Storage JoinSortMerge.

Definition ordering (op : PredicateCondition) : Prop :=
  op = LessThan \/ op = LessThanEquals \/ op = GreaterThan
  \/ op = GreaterThanEquals.

(** C5, as the code has it.  In a debug build the constructor of the
    sort-merge join fails an assertion exactly for: mode [Cross]; mode
    [Semi] or [Anti] with a condition other than [Equals]; a null input; a
    condition that is not one of the six comparisons; [NotEquals] with a
    mode other than [Inner].  In a release build the assertions are
    compiled out and the constructor always returns.  Full [Outer] with
    [<], [<=], [>] or [>=] is among the accepted combinations, and its
    merge is carried out: on clusters as the radix cluster sort delivers
    them it returns the output position lists when both sides hold a
    row, and throws [std::logic_error] (Every partition is empty) when a
    side holds none. *)
Theorem sort_merge_join_modes :
  (forall left right mode column_ids op,
     (JoinSortMerge true left right mode column_ids op = AssertionFailed
      <-> rejected left right mode op)
     /\ (JoinSortMerge true left right mode column_ids op
         = Returned (mkOperator left right mode column_ids op)
         <-> ~ rejected left right mode op)
     /\ JoinSortMerge false left right mode column_ids op
        = Returned (mkOperator left right mode column_ids op))
  /\ (forall left right op,
        ordering op -> left <> None -> right <> None ->
        ~ rejected left right Outer op)
  /\ (forall HYRISE_DEBUG left_table column_ids op cluster_count sort_output,
        ordering op ->
        0 < cluster_count ->
        length (clusters_left sort_output) = cluster_count ->
        length (clusters_right sort_output) = cluster_count ->
        Forall sorted_by_value (clusters_left sort_output) ->
        Forall sorted_by_value (clusters_right sort_output) ->
        range_clustered (clusters_left sort_output)
          (clusters_right sort_output) ->
        (concat (clusters_left sort_output) <> []
         /\ concat (clusters_right sort_output) <> [] ->
         exists out,
           merge_phase HYRISE_DEBUG left_table column_ids op Outer
             cluster_count sort_output = Returned out
           /\ Forall2 (fun left_pos_list right_pos_list =>
                         length left_pos_list = length right_pos_list)
                (_output_pos_lists_left out) (_output_pos_lists_right out))
        /\ (concat (clusters_left sort_output) = []
            \/ concat (clusters_right sort_output) = [] ->
            merge_phase HYRISE_DEBUG left_table column_ids op Outer
              cluster_count sort_output = Thrown logic_error)).
Proof.
  split; [exact sort_merge_join_contract |]. split.
  - intros left right op Hop Hl Hr Hrej.
    destruct Hrej as [H | [[[H | H] _] | [H | [H | [H | [H _]]]]]].
    + discriminate H.
    + discriminate H.
    + discriminate H.
    + exact (Hl H).
    + exact (Hr H).
    + destruct Hop as [-> | [-> | [-> | ->]]]; discriminate H.
    + destruct Hop as [-> | [-> | [-> | ->]]]; discriminate H.
  - intros HYRISE_DEBUG left_table column_ids op cluster_count sort_output
      Hop Hsome Hlc Hrc Hls Hrs Hclustered.
    assert (Hsupported : supported_condition op = true)
      by (destruct Hop as [-> | [-> | [-> | ->]]]; reflexivity).
    assert (Hne : op <> Equals)
      by (destruct Hop as [-> | [-> | [-> | ->]]]; discriminate).
    assert (Hmode : Outer <> Semi /\ Outer <> Anti) by (split; discriminate).
    split.
    + intros Hrows.
      pose proof (merge_phase_aligned HYRISE_DEBUG left_table column_ids op
                  Outer cluster_count sort_output Hsome Hlc Hrc Hls Hrs
                  Hsupported Hmode
                  (fun _ => Hclustered) (fun _ _ => Hrows)) as H.
      destruct H as (el & er & out & Hrun & Hal).
      exists out. split; [exact Hrun |].
      eapply Forall2_impl; [exact Hal |]. now intros L R [Hlen _].
    + intros Hnothing.
      apply (merge_phase_on_nothing HYRISE_DEBUG left_table column_ids op
               Outer cluster_count sort_output Hsome Hlc Hrc Hls Hrs
               Hsupported Hmode (fun _ => Hclustered) Hne).
      destruct Hnothing as [H | H]; [left | right]; split; auto.
Qed.

Lemma sort_merge_join_modes_witness :
  ordering LessThan
  /\ Forall sorted_by_value (clusters_left sorted_inputs)
  /\ Forall sorted_by_value (clusters_right sorted_inputs)
  /\ range_clustered (clusters_left sorted_inputs)
       (clusters_right sorted_inputs)
  /\ concat (clusters_left sorted_inputs) <> []
  /\ concat (clusters_right sorted_inputs) <> []
  /\ exists out,
       merge_phase true left_input (0, 0) LessThan Outer 1 sorted_inputs
       = Returned out
       /\ Forall2 (fun left_pos_list right_pos_list =>
                     length left_pos_list = length right_pos_list)
            (_output_pos_lists_left out) (_output_pos_lists_right out).
Proof.
  assert (Hop : ordering LessThan) by (left; reflexivity).
  assert (Hl : Forall sorted_by_value (clusters_left sorted_inputs)).
  { repeat constructor. apply sorted_two. simpl. lia. }
  assert (Hr : Forall sorted_by_value (clusters_right sorted_inputs)).
  { repeat constructor. intros i j x y Hij Hi Hj.
    destruct i as [|[|[|i]]], j as [|[|[|j]]]; try lia;
      try discriminate Hi; try discriminate Hj;
      injection Hi as <-; injection Hj as <-; simpl; lia. }
  assert (Hc : range_clustered (clusters_left sorted_inputs)
                 (clusters_right sorted_inputs)).
  { intros c1 c2 s1 s2 x y Hlt H1 H2 Hx Hy.
    destruct c2 as [|c2]; [lia |].
    destruct H2 as [H2 | H2]; destruct c2; discriminate H2. }
  assert (Hrows : concat (clusters_left sorted_inputs) <> []
                  /\ concat (clusters_right sorted_inputs) <> [])
    by (split; discriminate).
  split; [exact Hop |]. split; [exact Hl |]. split; [exact Hr |].
  split; [exact Hc |]. split; [exact (proj1 Hrows) |].
  split; [exact (proj2 Hrows) |].
  exact (proj1 (proj2 (proj2 sort_merge_join_modes) true left_input (0, 0)
                  LessThan 1 sorted_inputs Hop ltac:(lia) eq_refl eq_refl
                  Hl Hr Hc) Hrows).
Defined.

End SortMergeModes.

(** ** Outer sort-merge join on [<] and [<=]: the rows without a partner *)

Section RangesFromTheStart.
Import Storage JoinSortMerge.

Lemma lookups_upto {A : Type} (table : list (list A)) (k : nat) :
  k <= length table ->
  map (fun c => default [] (table !! c)) (seq 0 k) = take k table.
Proof.
  intros Hk. apply list_eq. intros i. rewrite list_lookup_fmap.
  destruct (Nat.lt_ge_cases i k) as [Hi | Hi].
  - rewrite lookup_seq_lt by exact Hi. simpl.
    rewrite lookup_take_lt by exact Hi.
    destruct (lookup_lt_is_Some_2 table i ltac:(lia)) as [s Hs].
    now rewrite Hs.
  - rewrite lookup_seq_ge by exact Hi. simpl. symmetry.
    apply lookup_ge_None. rewrite length_take. lia.
Qed.

(** The rows from the start of the table to a position: the clusters
    before the cluster of the position, and the rows of its cluster in
    front of it. *)
Lemma rows_from_start (table : MaterializedSegmentList) (c i : nat)
    (segment : MaterializedSegment) :
  table !! c = Some segment ->
  for_every_row_id table (to (mkTablePosition 0 0) (mkTablePosition c i))
  = map row_id (concat (take c table) ++ take i segment).
Proof.
  intros Hc. pose proof (lookup_lt_Some _ _ _ Hc) as Hbound.
  unfold for_every_row_id, to. cbn [range_start range_end cluster index].
  rewrite Nat.sub_0_r, seq_S, map_app, concat_app. cbn [map concat Nat.add].
  rewrite Nat.eqb_refl, Hc. change (default [] (Some segment)) with segment.
  rewrite app_nil_r, map_app.
  assert (Hstart : (if c =? 0 then 0 else 0) = 0) by now destruct (c =? 0).
  rewrite Hstart, Nat.sub_0_r, drop_0. f_equal.
  rewrite <- (lookups_upto table c) by lia.
  rewrite concat_map, map_map. f_equal. apply map_ext_in.
  intros c' Hc'. apply in_seq in Hc'.
  destruct (lookup_lt_is_Some_2 table c' ltac:(lia)) as [s' Hs'].
  rewrite Hs'. change (default [] (Some s')) with s'.
  replace (c' =? c) with false by (symmetry; apply Nat.eqb_neq; lia).
  assert (Hstart' : (if c' =? 0 then 0 else 0) = 0) by now destruct (c' =? 0).
  rewrite Hstart', Nat.sub_0_r, drop_0. now rewrite firstn_all.
Qed.

(** A table, cut at a position. *)
Lemma table_cut {A : Type} (table : list (list A)) (c i : nat)
    (segment : list A) :
  table !! c = Some segment ->
  concat table
  = (concat (take c table) ++ take i segment)
    ++ (drop i segment ++ concat (drop (S c) table)).
Proof.
  intros Hc. rewrite <- (take_drop_middle table c segment Hc) at 1.
  rewrite concat_app. cbn [concat].
  rewrite <- (take_drop i segment) at 1.
  now rewrite <- !app_assoc.
Qed.

Lemma table_sorted_clusters (table : MaterializedSegmentList) :
  table_sorted table -> Forall sorted_by_value table.
Proof.
  intros Hsorted. apply Forall_lookup_2. intros c s Hc i j x y Hij Hx Hy.
  apply (Hsorted c i c j s s x y Hc Hx Hc Hy). right. auto.
Qed.

(** The rows in front of the first row that satisfies an upward-closed
    condition are the rows that do not satisfy it. *)
Lemma rows_before_first (condition : Z -> bool)
    (table : MaterializedSegmentList) (position : TablePosition) :
  upward_closed condition ->
  table_sorted table ->
  _first_value_that_satisfies table condition = Some position ->
  for_every_row_id table (to (mkTablePosition 0 0) position)
  = map row_id
      (List.filter (fun x => negb (condition (value x))) (concat table)).
Proof.
  intros Hup Hsorted Hfirst.
  pose proof (first_value_from_spec condition table 0 Hup
                (table_sorted_clusters table Hsorted)) as Hspec.
  unfold _first_value_that_satisfies in Hfirst. rewrite Hfirst in Hspec.
  destruct position as [c i]. cbn [cluster index] in Hspec.
  rewrite Nat.sub_0_r in Hspec.
  destruct Hspec as (_ & (s & x & Hc & Hx & Hcond) & Hbefore).
  rewrite (rows_from_start table c i s Hc). f_equal.
  rewrite (table_cut table c i s Hc), List.filter_app.
  rewrite filter_all, filter_none; [now rewrite app_nil_r | |].
  - intros k y Hk. apply negb_false_iff.
    apply (Hup (value x)); [| exact Hcond].
    assert (Hin : In y (drop i s ++ concat (drop (S c) table))).
    { apply list_elem_of_In, list_elem_of_lookup. eauto. }
    apply in_app_or in Hin as [Hin | Hin].
    + apply list_elem_of_In, list_elem_of_lookup in Hin as [j Hj].
      rewrite lookup_drop in Hj.
      apply (Hsorted c i c (i + j) s s x y Hc Hx Hc Hj). right. lia.
    + apply in_concat_drop in Hin as (c2 & s2 & Hc2 & Hs2 & Hy).
      apply list_elem_of_In, list_elem_of_lookup in Hy as [j Hj].
      apply (Hsorted c i c2 j s s2 x y Hc Hx Hs2 Hj). left. lia.
  - intros k y Hk. apply negb_true_iff.
    assert (Hin : In y (concat (take c table) ++ take i s)).
    { apply list_elem_of_In, list_elem_of_lookup. eauto. }
    apply in_app_or in Hin as [Hin | Hin].
    + apply in_concat_take in Hin as (c1 & s1 & Hc1 & Hs1 & Hy).
      apply list_elem_of_In, list_elem_of_lookup in Hy as [j Hj].
      apply (Hbefore c1 j s1 y Hs1 Hj). left. exact Hc1.
    + apply list_elem_of_In, list_elem_of_lookup in Hin as [j Hj].
      apply lookup_take_Some in Hj as [Hj Hlt].
      apply (Hbefore c j s y Hc Hj). right. auto.
Qed.

(** The search finds a row exactly if there is one. *)
Lemma first_value_found (condition : Z -> bool)
    (table : MaterializedSegmentList) :
  upward_closed condition ->
  table_sorted table ->
  existsb (fun x => condition (value x)) (concat table)
  = bool_decide (is_Some (_first_value_that_satisfies table condition)).
Proof.
  intros Hup Hsorted.
  pose proof (first_value_from_spec condition table 0 Hup
                (table_sorted_clusters table Hsorted)) as Hspec.
  unfold _first_value_that_satisfies.
  destruct (first_value_from condition table 0) as [position |].
  - rewrite bool_decide_eq_true_2 by eauto.
    destruct Hspec as (_ & (s & x & Hc & Hx & Hcond) & _).
    apply existsb_exists. exists x. split; [| exact Hcond].
    apply in_concat_lookup. rewrite Nat.sub_0_r in Hc. eauto.
  - rewrite bool_decide_eq_false_2 by (intros [? ?]; discriminate).
    apply not_true_is_false. intros H.
    apply existsb_exists in H as (y & Hy & Hcond).
    apply in_concat_lookup in Hy as (c & s & i & Hc & Hi).
    rewrite (Hspec c i s y Hc Hi) in Hcond. discriminate.
Qed.

(** The rows behind the last row that satisfies a downward-closed
    condition are the rows that do not satisfy it. *)
Lemma rows_behind_last (condition : Z -> bool)
    (table : MaterializedSegmentList) (position : TablePosition)
    (last : MaterializedSegment) :
  downward_closed condition ->
  table_sorted table ->
  table !! (length table - 1) = Some last ->
  _first_value_that_satisfies_reverse table condition = Some position ->
  for_every_row_id table
    (to position (mkTablePosition (length table - 1) (length last)))
  = map row_id
      (List.filter (fun x => negb (condition (value x))) (concat table)).
Proof.
  intros Hdown Hsorted Hlast Hfound.
  pose proof (first_value_reverse_from_spec condition table Hdown
                (table_sorted_clusters table Hsorted) (length table)
                (Nat.le_refl _)) as Hspec.
  unfold _first_value_that_satisfies_reverse in Hfound.
  rewrite Hfound in Hspec.
  destruct position as [c i]. cbn [cluster index] in Hspec.
  destruct Hspec as (Hi & (s & x & Hc & Hx & Hcond) & Hbehind).
  rewrite (rows_to_end table c i s last Hc Hlast). f_equal.
  rewrite (table_cut table c i s Hc), List.filter_app.
  rewrite filter_none, filter_all; [reflexivity | |].
  - intros k y Hk. apply negb_true_iff.
    assert (Hin : In y (drop i s ++ concat (drop (S c) table))).
    { apply list_elem_of_In, list_elem_of_lookup. eauto. }
    apply in_app_or in Hin as [Hin | Hin].
    + apply list_elem_of_In, list_elem_of_lookup in Hin as [j Hj].
      rewrite lookup_drop in Hj.
      apply (Hbehind c (i + j) s y Hc Hj). right. split; [reflexivity | lia].
    + apply in_concat_drop in Hin as (c2 & s2 & Hc2 & Hs2 & Hy).
      apply list_elem_of_In, list_elem_of_lookup in Hy as [j Hj].
      apply (Hbehind c2 j s2 y Hs2 Hj). left.
      split; [lia | now apply lookup_lt_Some in Hs2].
  - intros k y Hk. apply negb_false_iff.
    apply (Hdown (value y) (value x)); [| exact Hcond].
    assert (Hin : In y (concat (take c table) ++ take i s)).
    { apply list_elem_of_In, list_elem_of_lookup. eauto. }
    apply in_app_or in Hin as [Hin | Hin].
    + apply in_concat_take in Hin as (c1 & s1 & Hc1 & Hs1 & Hy).
      apply list_elem_of_In, list_elem_of_lookup in Hy as [j Hj].
      apply (Hsorted c1 j c (i - 1) s1 s y x Hs1 Hj Hc Hx). left. exact Hc1.
    + apply list_elem_of_In, list_elem_of_lookup in Hin as [j Hj].
      apply lookup_take_Some in Hj as [Hj Hlt].
      apply (Hsorted c j c (i - 1) s s y x Hc Hj Hc Hx). right. lia.
Qed.

Lemma first_value_reverse_found (condition : Z -> bool)
    (table : MaterializedSegmentList) :
  downward_closed condition ->
  table_sorted table ->
  existsb (fun x => condition (value x)) (concat table)
  = bool_decide
      (is_Some (_first_value_that_satisfies_reverse table condition)).
Proof.
  intros Hdown Hsorted.
  pose proof (first_value_reverse_from_spec condition table Hdown
                (table_sorted_clusters table Hsorted) (length table)
                (Nat.le_refl _)) as Hspec.
  unfold _first_value_that_satisfies_reverse.
  destruct (first_value_reverse_from condition table (length table))
    as [position |].
  - rewrite bool_decide_eq_true_2 by eauto.
    destruct Hspec as (_ & (s & x & Hc & Hx & Hcond) & _).
    apply existsb_exists. exists x. split; [| exact Hcond].
    apply in_concat_lookup. eauto.
  - rewrite bool_decide_eq_false_2 by (intros [? ?]; discriminate).
    apply not_true_is_false. intros H.
    apply existsb_exists in H as (y & Hy & Hcond).
    apply in_concat_lookup in Hy as (c & s & i & Hc & Hi).
    rewrite (Hspec c i s y (lookup_lt_Some _ _ _ Hc) Hc Hi) in Hcond.
    discriminate.
Qed.

End RangesFromTheStart.

Section UnmatchedRows.
Import Storage JoinSortMerge.

(** A left row that has a partner among the rows [partners] of the right
    table, and a right row that has one among the rows [rows] of the left
    table. *)
Definition left_matched (op : PredicateCondition)
    (partners : MaterializedSegment) (x : MaterializedValue) : bool :=
  existsb (fun y => satisfies op (value x) (value y)) partners.

Definition right_matched (op : PredicateCondition)
    (rows : MaterializedSegment) (y : MaterializedValue) : bool :=
  existsb (fun x => satisfies op (value x) (value y)) rows.

(** The join has a pair. *)
Definition some_pair (op : PredicateCondition)
    (rows partners : MaterializedSegment) : bool :=
  existsb (left_matched op partners) rows.

(** The right rows without a partner, with [NULL_ROW_ID] at their left,
    and the left rows without a partner, with [NULL_ROW_ID] at their
    right. *)
Definition unmatched_right (op : PredicateCondition)
    (rows partners : MaterializedSegment) : list (RowID * RowID) :=
  map (fun y => (NULL_ROW_ID, row_id y))
    (List.filter (fun y => negb (right_matched op rows y)) partners).

Definition unmatched_left (op : PredicateCondition)
    (rows partners : MaterializedSegment) : list (RowID * RowID) :=
  map (fun x => (row_id x, NULL_ROW_ID))
    (List.filter (fun x => negb (left_matched op partners x)) rows).

Lemma some_pair_right (op : PredicateCondition)
    (rows partners : MaterializedSegment) :
  some_pair op rows partners = existsb (right_matched op rows) partners.
Proof.
  unfold some_pair, left_matched, right_matched.
  apply Bool.eq_iff_eq_true. rewrite !existsb_exists. split.
  - intros (x & Hx & H). apply existsb_exists in H as (y & Hy & H).
    exists y. split; [exact Hy |]. apply existsb_exists. eauto.
  - intros (y & Hy & H). apply existsb_exists in H as (x & Hx & H).
    exists x. split; [exact Hx |]. apply existsb_exists. eauto.
Qed.

Lemma existsb_ext_in {A : Type} (f g : A -> bool) (l : list A) :
  (forall x, In x l -> f x = g x) -> existsb f l = existsb g l.
Proof.
  induction l as [|a l IH]; intros H; simpl; [reflexivity |].
  rewrite (H a (or_introl eq_refl)). f_equal.
  apply IH. intros x Hx. apply H. now right.
Qed.

Lemma filter_ext_all {A : Type} (f g : A -> bool) (l : list A) :
  (forall x, f x = g x) -> List.filter f l = List.filter g l.
Proof. intros H. apply List.filter_ext. exact H. Qed.

(** A right row has a partner exactly if its value is above the smallest
    value of the left table. *)
Lemma right_matched_above (op : PredicateCondition)
    (table : MaterializedSegmentList) (lo : Z) (y : MaterializedValue) :
  table_sorted table ->
  first_value table = Returned lo ->
  right_matched op (concat table) y
  = match op with
    | LessThan => Z.gtb (value y) lo
    | LessThanEquals => Z.geb (value y) lo
    | _ => right_matched op (concat table) y
    end.
Proof.
  intros Hsorted Hlo.
  destruct (first_value_is_least table lo Hsorted Hlo)
    as ((x & Hx & Hv) & Hleast).
  destruct op; try reflexivity; unfold right_matched;
    apply Bool.eq_iff_eq_true; rewrite existsb_exists;
    cbn [satisfies]; rewrite ?Z.gtb_ltb, ?Z.geb_leb.
  - split.
    + intros (x' & Hx' & H). apply Z.ltb_lt in H. apply Z.ltb_lt.
      specialize (Hleast x' Hx'). lia.
    + intros H. exists x. split; [exact Hx |]. now rewrite Hv.
  - split.
    + intros (x' & Hx' & H). apply Z.leb_le in H. apply Z.leb_le.
      specialize (Hleast x' Hx'). lia.
    + intros H. exists x. split; [exact Hx |]. now rewrite Hv.
Qed.

(** A left row has a partner exactly if its value is below the largest
    value of the right table. *)
Lemma left_matched_below (op : PredicateCondition)
    (table : MaterializedSegmentList) (hi : Z) (x : MaterializedValue) :
  table_sorted table ->
  last_value table (length table) = Returned hi ->
  left_matched op (concat table) x
  = match op with
    | LessThan => Z.ltb (value x) hi
    | LessThanEquals => Z.leb (value x) hi
    | _ => left_matched op (concat table) x
    end.
Proof.
  intros Hsorted Hhi.
  destruct (last_value_is_greatest table hi Hsorted Hhi)
    as ((y & Hy & Hv) & Hgreatest).
  destruct op; try reflexivity; unfold left_matched;
    apply Bool.eq_iff_eq_true; rewrite existsb_exists; cbn [satisfies].
  - split.
    + intros (y' & Hy' & H). apply Z.ltb_lt in H. apply Z.ltb_lt.
      specialize (Hgreatest y' Hy'). lia.
    + intros H. exists y. split; [exact Hy |]. now rewrite Hv.
  - split.
    + intros (y' & Hy' & H). apply Z.leb_le in H. apply Z.leb_le.
      specialize (Hgreatest y' Hy'). lia.
    + intros H. exists y. split; [exact Hy |]. now rewrite Hv.
Qed.

Lemma above_upward_closed (lo : Z) :
  upward_closed (fun v => Z.gtb v lo) /\ upward_closed (fun v => Z.geb v lo).
Proof.
  split; intros a b Hab H; rewrite ?Z.gtb_ltb, ?Z.geb_leb in *.
  - apply Z.ltb_lt in H. apply Z.ltb_lt. lia.
  - apply Z.leb_le in H. apply Z.leb_le. lia.
Qed.

Lemma below_downward_closed (hi : Z) :
  downward_closed (fun v => Z.ltb v hi)
  /\ downward_closed (fun v => Z.leb v hi).
Proof.
  split; intros a b Hab H.
  - apply Z.ltb_lt in H. apply Z.ltb_lt. lia.
  - apply Z.leb_le in H. apply Z.leb_le. lia.
Qed.

(** Sorted clusters that are cut at common split values are sorted
    tables. *)
Lemma range_clustered_sorted (left right : MaterializedSegmentList) :
  Forall sorted_by_value left ->
  Forall sorted_by_value right ->
  range_clustered left right ->
  table_sorted left /\ table_sorted right.
Proof.
  intros Hl Hr Hclustered.
  split; intros c1 i1 c2 i2 s1 s2 x y H1 Hx H2 Hy [Hlt | [-> Hle]].
  - apply Z.lt_le_incl.
    apply (Hclustered c1 c2 s1 s2 x y Hlt (or_introl H1) (or_introl H2));
      apply list_elem_of_In, list_elem_of_lookup; eauto.
  - assert (s1 = s2) by congruence. subst s2.
    apply (Forall_lookup_1 _ _ _ _ Hl H1 i1 i2 x y Hle Hx Hy).
  - apply Z.lt_le_incl.
    apply (Hclustered c1 c2 s1 s2 x y Hlt (or_intror H1) (or_intror H2));
      apply list_elem_of_In, list_elem_of_lookup; eauto.
  - assert (s1 = s2) by congruence. subst s2.
    apply (Forall_lookup_1 _ _ _ _ Hr H1 i1 i2 x y Hle Hx Hy).
Qed.

Variable HYRISE_DEBUG : bool.
Variable impl : Impl.
Hypothesis inequality : _op impl <> Equals.

Lemma table_min_value_first (table : MaterializedSegmentList) :
  length table <> 0 ->
  _table_min_value HYRISE_DEBUG impl table = first_value table.
Proof.
  intros Hlen. unfold _table_min_value, DebugAssert, Assert.
  destruct HYRISE_DEBUG; [| reflexivity].
  unfold PredicateCondition_eqb.
  rewrite (bool_decide_eq_false_2 _ inequality).
  now rewrite (proj2 (Nat.eqb_neq _ _) Hlen).
Qed.

Lemma table_max_value_last (table : MaterializedSegmentList) :
  length table <> 0 ->
  _table_max_value HYRISE_DEBUG impl table
  = last_value table (length table).
Proof.
  intros Hlen. unfold _table_max_value, DebugAssert, Assert.
  destruct HYRISE_DEBUG; [| reflexivity].
  unfold PredicateCondition_eqb.
  rewrite (bool_decide_eq_false_2 _ inequality).
  now rewrite (proj2 (Nat.eqb_neq _ _) Hlen).
Qed.

End UnmatchedRows.

Section OuterLessThanJoin.
Import Storage JoinSortMerge.

Variable HYRISE_DEBUG : bool.
Variable left_table : Table.
Variable column_ids : ColumnID * ColumnID.
Variable op : PredicateCondition.
Variable mode : JoinMode.
Variable cluster_count : nat.
Variable sort_output : RadixClusterOutput.

Hypothesis some_cluster : 0 < cluster_count.
Hypothesis left_count : length (clusters_left sort_output) = cluster_count.
Hypothesis right_count : length (clusters_right sort_output) = cluster_count.
Hypothesis left_sorted : Forall sorted_by_value (clusters_left sort_output).
Hypothesis right_sorted : Forall sorted_by_value (clusters_right sort_output).
Hypothesis less : op = LessThan \/ op = LessThanEquals.
Hypothesis clustered :
  range_clustered (clusters_left sort_output) (clusters_right sort_output).

Lemma less_is_inequality : op <> Equals.
Proof. destruct less as [E | E]; rewrite E; discriminate. Qed.

(** [_left_outer_non_equi_join] on [<] and [<=]: if a right row has a
    partner, the right rows in front of the first of them, which have
    none, are appended to the lists of cluster 0 with [NULL_ROW_ID] at
    their left. *)
Lemma left_patch_less end_left end_right out :
  concat (clusters_left sort_output) <> [] ->
  _left_outer_non_equi_join HYRISE_DEBUG
    (merge_impl left_table column_ids op mode cluster_count sort_output
       end_left end_right) out
  = Returned
      (append_pairs out 0
         (if some_pair op (concat (clusters_left sort_output))
               (concat (clusters_right sort_output))
          then unmatched_right op (concat (clusters_left sort_output))
                 (concat (clusters_right sort_output))
          else [])).
Proof.
  intros Hrows. unfold _left_outer_non_equi_join.
  set (impl := merge_impl left_table column_ids op mode cluster_count
                 sort_output end_left end_right).
  destruct (range_clustered_sorted _ _ left_sorted right_sorted clustered)
    as [Hlsorted Hrsorted].
  rewrite (table_min_value_first HYRISE_DEBUG impl less_is_inequality)
    by (simpl; lia).
  rewrite (table_max_value_last HYRISE_DEBUG impl less_is_inequality)
    by (simpl; lia).
  destruct (first_value_returns (_sorted_left_table impl) Hrows) as [lo Hlo].
  destruct (last_value_returns (_sorted_left_table impl)
              (length (_sorted_left_table impl)))
    as [hi Hhi]; [lia | now rewrite take_ge by lia |].
  rewrite Hlo, Hhi.
  destruct (end_of_table_returns HYRISE_DEBUG cluster_count sort_output
              some_cluster left_count right_count (_sorted_right_table impl))
    as [e ->]; [simpl; lia |].
  run. f_equal. rewrite some_pair_right.
  cbn [_op _sorted_right_table _sorted_left_table impl merge_impl] in *.
  assert (Hfound : forall condition : Z -> bool,
    upward_closed condition ->
    (forall y, right_matched op (concat (clusters_left sort_output)) y
               = condition (value y)) ->
    match _first_value_that_satisfies (clusters_right sort_output) condition with
    | Some position =>
        _emit_left_null_combinations impl out 0
          (to (mkTablePosition 0 0) position)
    | None => out
    end
    = append_pairs out 0
        (if existsb (right_matched op (concat (clusters_left sort_output)))
              (concat (clusters_right sort_output))
         then unmatched_right op (concat (clusters_left sort_output))
                (concat (clusters_right sort_output))
         else [])).
  { intros condition Hup Hext.
    rewrite (existsb_ext_in _ (fun y => condition (value y)))
      by (intros y _; apply Hext).
    rewrite (first_value_found condition _ Hup Hrsorted).
    destruct (_first_value_that_satisfies (clusters_right sort_output)
                condition) as [position |] eqn:Hposition.
    - rewrite bool_decide_eq_true_2 by eauto.
      rewrite emit_left_null_combinations_pairs. f_equal.
      unfold right_rows, unmatched_right.
      cbn [_sorted_right_table impl merge_impl].
      rewrite (rows_before_first condition _ position Hup Hrsorted Hposition).
      rewrite map_map. f_equal. apply List.filter_ext.
      intros y. now rewrite Hext.
    - rewrite bool_decide_eq_false_2 by (intros [? ?]; discriminate).
      now rewrite append_pairs_nil. }
  destruct less as [E | E]; rewrite E in *.
  - apply (Hfound (fun v => Z.gtb v lo)
             (proj1 (above_upward_closed lo))).
    intros y. apply (right_matched_above LessThan _ lo y Hlsorted Hlo).
  - apply (Hfound (fun v => Z.geb v lo)
             (proj2 (above_upward_closed lo))).
    intros y. apply (right_matched_above LessThanEquals _ lo y Hlsorted Hlo).
Qed.

(** [_right_outer_non_equi_join] on [<] and [<=]: if a left row has a
    partner, the left rows behind the last of them, which have none, are
    appended to the lists of cluster 0 with [NULL_ROW_ID] at their
    right. *)
Lemma right_patch_less end_left end_right out :
  concat (clusters_right sort_output) <> [] ->
  _right_outer_non_equi_join HYRISE_DEBUG
    (merge_impl left_table column_ids op mode cluster_count sort_output
       end_left end_right) out
  = Returned
      (append_pairs out 0
         (if some_pair op (concat (clusters_left sort_output))
               (concat (clusters_right sort_output))
          then unmatched_left op (concat (clusters_left sort_output))
                 (concat (clusters_right sort_output))
          else [])).
Proof.
  intros Hrows. unfold _right_outer_non_equi_join.
  set (impl := merge_impl left_table column_ids op mode cluster_count
                 sort_output end_left end_right).
  destruct (range_clustered_sorted _ _ left_sorted right_sorted clustered)
    as [Hlsorted Hrsorted].
  rewrite (table_min_value_first HYRISE_DEBUG impl less_is_inequality)
    by (simpl; lia).
  rewrite (table_max_value_last HYRISE_DEBUG impl less_is_inequality)
    by (simpl; lia).
  destruct (first_value_returns (_sorted_right_table impl) Hrows) as [lo Hlo].
  destruct (last_value_returns (_sorted_right_table impl)
              (length (_sorted_right_table impl)))
    as [hi Hhi]; [lia | now rewrite take_ge by lia |].
  rewrite Hlo, Hhi.
  destruct (end_of_table_returns HYRISE_DEBUG cluster_count sort_output
              some_cluster left_count right_count (_sorted_left_table impl))
    as [e He]; [simpl; lia |].
  rewrite He. run. f_equal.
  apply end_of_table_value in He as (last & Hlast & ->).
  cbn [_op _sorted_right_table _sorted_left_table impl merge_impl] in *.
  assert (Hfound : forall condition : Z -> bool,
    downward_closed condition ->
    (forall x, left_matched op (concat (clusters_right sort_output)) x
               = condition (value x)) ->
    match _first_value_that_satisfies_reverse (clusters_left sort_output)
            condition with
    | Some position =>
        _emit_right_null_combinations impl out 0
          (to position
             (mkTablePosition (length (clusters_left sort_output) - 1)
                (length last)))
    | None => out
    end
    = append_pairs out 0
        (if some_pair op (concat (clusters_left sort_output))
              (concat (clusters_right sort_output))
         then unmatched_left op (concat (clusters_left sort_output))
                (concat (clusters_right sort_output))
         else [])).
  { intros condition Hdown Hext. unfold some_pair.
    rewrite (existsb_ext_in _ (fun x => condition (value x)))
      by (intros x _; apply Hext).
    rewrite (first_value_reverse_found condition _ Hdown Hlsorted).
    destruct (_first_value_that_satisfies_reverse (clusters_left sort_output)
                condition) as [position |] eqn:Hposition.
    - rewrite bool_decide_eq_true_2 by eauto.
      rewrite emit_right_null_combinations_pairs. f_equal.
      unfold left_rows, unmatched_left.
      cbn [_sorted_left_table impl merge_impl].
      rewrite (rows_behind_last condition _ position last Hdown Hlsorted
                 Hlast Hposition).
      rewrite map_map. f_equal. apply List.filter_ext.
      intros x. now rewrite Hext.
    - rewrite bool_decide_eq_false_2 by (intros [? ?]; discriminate).
      now rewrite append_pairs_nil. }
  destruct less as [E | E]; rewrite E in *.
  - apply (Hfound (fun v => Z.ltb v hi)
             (proj1 (below_downward_closed hi))).
    intros x. apply (left_matched_below LessThan _ hi x Hrsorted Hhi).
  - apply (Hfound (fun v => Z.leb v hi)
             (proj2 (below_downward_closed hi))).
    intros x. apply (left_matched_below LessThanEquals _ hi x Hrsorted Hhi).
Qed.

End OuterLessThanJoin.

Section OuterLessThanResult.
Import Storage JoinSortMerge.

(** The rows an outer join on an inequality appends to the lists of
    cluster 0: if the join has a pair, the right rows without a partner
    in mode [Left] and [Outer], and then the left rows without a partner
    in mode [Right] and [Outer]. *)
Definition outer_padding (op : PredicateCondition) (mode : JoinMode)
    (rows partners : MaterializedSegment) : list (RowID * RowID) :=
  if some_pair op rows partners then
    (if JoinMode_eqb mode Left || JoinMode_eqb mode Outer
     then unmatched_right op rows partners else [])
    ++ (if JoinMode_eqb mode Right || JoinMode_eqb mode Outer
        then unmatched_left op rows partners else [])
  else [].

Definition outer_less_rows (op : PredicateCondition) (mode : JoinMode)
    (sort_output : RadixClusterOutput) (c : nat) : list (RowID * RowID) :=
  theta_rows op (left_cluster_at sort_output c)
    (concat (clusters_right sort_output))
  ++ (if Nat.eqb c 0
      then outer_padding op mode (concat (clusters_left sort_output))
             (concat (clusters_right sort_output))
      else []).

(** The pair of lists for the rows with a NULL join value. *)
Definition null_rows_pairs (mode : JoinMode) (sort_output : RadixClusterOutput)
    : list (RowID * RowID) :=
  (if JoinMode_eqb mode Left || JoinMode_eqb mode Outer
   then map (fun l => (l, NULL_ROW_ID)) (null_rows_left sort_output) else [])
  ++ (if JoinMode_eqb mode Right || JoinMode_eqb mode Outer
      then map (fun r => (NULL_ROW_ID, r)) (null_rows_right sort_output)
      else []).

Lemma append_pairs_first (rows : nat -> list (RowID * RowID)) (n : nat)
    (pairs : list (RowID * RowID)) :
  0 < n ->
  append_pairs
    (mkOutput (map (fun c => map fst (rows c)) (seq 0 n))
              (map (fun c => map snd (rows c)) (seq 0 n))) 0 pairs
  = mkOutput
      (map (fun c => map fst (rows c ++ if Nat.eqb c 0 then pairs else []))
         (seq 0 n))
      (map (fun c => map snd (rows c ++ if Nat.eqb c 0 then pairs else []))
         (seq 0 n)).
Proof.
  intros Hn. destruct n as [|n]; [lia |].
  unfold append_pairs. cbn [seq map _output_pos_lists_left
    _output_pos_lists_right alter list_alter Nat.eqb].
  rewrite !map_app.
  f_equal; f_equal; apply map_ext_in; intros c Hc; apply in_seq in Hc;
    (replace (c =? 0) with false by (symmetry; apply Nat.eqb_neq; lia));
    now rewrite app_nil_r.
Qed.

Variable HYRISE_DEBUG : bool.
Variable left_table : Table.
Variable column_ids : ColumnID * ColumnID.
Variable op : PredicateCondition.
Variable mode : JoinMode.
Variable cluster_count : nat.
Variable sort_output : RadixClusterOutput.

Hypothesis some_cluster : 0 < cluster_count.
Hypothesis left_count : length (clusters_left sort_output) = cluster_count.
Hypothesis right_count : length (clusters_right sort_output) = cluster_count.
Hypothesis left_sorted : Forall sorted_by_value (clusters_left sort_output).
Hypothesis right_sorted : Forall sorted_by_value (clusters_right sort_output).
Hypothesis less : op = LessThan \/ op = LessThanEquals.
Hypothesis outer : mode = Left \/ mode = Right \/ mode = Outer.
Hypothesis clustered :
  range_clustered (clusters_left sort_output) (clusters_right sort_output).
Hypothesis left_rows_needed :
  mode <> Right -> concat (clusters_left sort_output) <> [].
Hypothesis right_rows_needed :
  mode <> Left -> concat (clusters_right sort_output) <> [].

Lemma merge_phase_outer_less :
  merge_phase HYRISE_DEBUG left_table column_ids op mode cluster_count
    sort_output
  = Returned
      (mkOutput
         (map (fun c => map fst (outer_less_rows op mode sort_output c))
            (seq 0 cluster_count)
          ++ [map fst (null_rows_pairs mode sort_output)])
         (map (fun c => map snd (outer_less_rows op mode sort_output c))
            (seq 0 cluster_count)
          ++ [map snd (null_rows_pairs mode sort_output)])).
Proof.
  unfold merge_phase.
  destruct (end_of_table_returns HYRISE_DEBUG cluster_count sort_output
              some_cluster left_count right_count (clusters_left sort_output))
    as [el ->]; [lia |].
  destruct (end_of_table_returns HYRISE_DEBUG cluster_count sort_output
              some_cluster left_count right_count (clusters_right sort_output))
    as [er Her]; [lia |].
  rewrite Her. run.
  fold (merge_impl left_table column_ids op mode cluster_count sort_output
          el er).
  unfold _perform_join. cbn [_cluster_count _mode _op merge_impl].
  assert (Hpairs : mode <> Semi /\ mode <> Anti).
  { destruct outer as [E | [E | E]]; rewrite E; split; discriminate. }
  rewrite (for_each_cluster_pairs _
             (fun c => map fst (less_cluster_rows op sort_output c))
             (fun c => map snd (less_cluster_rows op sort_output c)));
    [| intros out c Hc Hl Hr;
       apply (perform_join_cluster_less left_table column_ids op mode
                cluster_count sort_output some_cluster left_count right_count
                left_sorted right_sorted less Hpairs clustered er out c
                (end_of_table_value _ _ _ Her) el Hc Hl Hr)].
  run.
  fold (merge_impl left_table column_ids op mode cluster_count sort_output
          el er).
  unfold PredicateCondition_eqb.
  rewrite (bool_decide_eq_false_2 _
             (less_is_inequality op less)).
  cbn [negb]. rewrite !andb_true_r.
  unfold outer_less_rows, outer_padding, null_rows_pairs, less_cluster_rows.
  set (rows := fun c =>
    theta_rows op (left_cluster_at sort_output c)
      (concat (clusters_right sort_output))).
  change
    (mkOutput
       (map (fun c => map fst (theta_rows op (left_cluster_at sort_output c)
                                 (concat (clusters_right sort_output))))
          (seq 0 cluster_count))
       (map (fun c => map snd (theta_rows op (left_cluster_at sort_output c)
                                 (concat (clusters_right sort_output))))
          (seq 0 cluster_count)))
    with (mkOutput (map (fun c => map fst (rows c)) (seq 0 cluster_count))
            (map (fun c => map snd (rows c)) (seq 0 cluster_count))).
  destruct outer as [E | [E | E]]; rewrite E in *;
    repeat match goal with
    | |- context [JoinMode_eqb ?a ?b] =>
        let v := eval vm_compute in (JoinMode_eqb a b) in
        change (JoinMode_eqb a b) with v
    end;
    cbn [orb].
  - rewrite left_patch_less by (auto || (apply left_rows_needed; discriminate)).
    run. rewrite append_pairs_first by exact some_cluster.
    cbn [_output_pos_lists_left _output_pos_lists_right].
    rewrite !map_app, !map_map. cbn [fst snd map].
    rewrite map_id, !app_nil_r.
    destruct (some_pair op _ _); rewrite ?app_nil_r; reflexivity.
  - run. rewrite right_patch_less
      by (auto || (apply right_rows_needed; discriminate)).
    run. rewrite append_pairs_first by exact some_cluster.
    cbn [_output_pos_lists_left _output_pos_lists_right app map].
    rewrite !map_map. cbn [fst snd].
    rewrite map_id. reflexivity.
  - rewrite left_patch_less by (auto || (apply left_rows_needed; discriminate)).
    run. rewrite append_pairs_first by exact some_cluster.
    rewrite right_patch_less
      by (auto || (apply right_rows_needed; discriminate)).
    run.
    rewrite (append_pairs_first
               (fun c => rows c ++ if Nat.eqb c 0 then _ else []))
      by exact some_cluster.
    cbn [_output_pos_lists_left _output_pos_lists_right].
    rewrite !map_app, !map_map. cbn [fst snd map].
    rewrite !map_id.
    assert (Hrows : forall c,
      (rows c ++
         (if Nat.eqb c 0
          then if some_pair op (concat (clusters_left sort_output))
                    (concat (clusters_right sort_output))
               then unmatched_right op (concat (clusters_left sort_output))
                      (concat (clusters_right sort_output))
               else []
          else [])) ++
        (if Nat.eqb c 0
         then if some_pair op (concat (clusters_left sort_output))
                   (concat (clusters_right sort_output))
              then unmatched_left op (concat (clusters_left sort_output))
                     (concat (clusters_right sort_output))
              else []
         else [])
      = rows c ++
          (if Nat.eqb c 0
           then if some_pair op (concat (clusters_left sort_output))
                     (concat (clusters_right sort_output))
                then unmatched_right op (concat (clusters_left sort_output))
                       (concat (clusters_right sort_output))
                     ++ unmatched_left op (concat (clusters_left sort_output))
                          (concat (clusters_right sort_output))
                else []
           else [])).
    { intros c. rewrite <- app_assoc. f_equal.
      destruct (Nat.eqb c 0); [| reflexivity].
      destruct (some_pair op _ _); reflexivity. }
    f_equal; f_equal; f_equal; apply map_ext; intros c; now rewrite Hrows.
Qed.

End OuterLessThanResult.

Section OuterLessThanJoinResult.
Import Storage JoinSortMerge.

(** X11: the result of an outer sort-merge join on [<] or [<=], in mode
    [Left], [Right] or [Outer].  On clusters that are sorted by value and
    cut at common split values, with a row on the side whose extreme
    values the mode reads, the merge returns.  The lists of cluster [c]
    hold the pairs of the rows of the left cluster [c] with their
    partners in the whole right table, as for an inner join.  If the
    join has at least one pair, the lists of cluster 0 go on with the
    right rows that have no partner, [NULL_ROW_ID] at their left, in
    mode [Left] and [Outer], and then with the left rows that have no
    partner, [NULL_ROW_ID] at their right, in mode [Right] and [Outer];
    if no pair satisfies the condition, no row is padded.  One more pair
    of lists holds the rows with a NULL join value. *)
Theorem outer_join_on_less_than (HYRISE_DEBUG : bool) (left_table : Table)
    (column_ids : ColumnID * ColumnID) (op : PredicateCondition)
    (mode : JoinMode) (cluster_count : nat)
    (sort_output : RadixClusterOutput) :
  op = LessThan \/ op = LessThanEquals ->
  mode = Left \/ mode = Right \/ mode = Outer ->
  0 < cluster_count ->
  length (clusters_left sort_output) = cluster_count ->
  length (clusters_right sort_output) = cluster_count ->
  Forall sorted_by_value (clusters_left sort_output) ->
  Forall sorted_by_value (clusters_right sort_output) ->
  range_clustered (clusters_left sort_output) (clusters_right sort_output) ->
  (mode <> Right -> concat (clusters_left sort_output) <> []) ->
  (mode <> Left -> concat (clusters_right sort_output) <> []) ->
  merge_phase HYRISE_DEBUG left_table column_ids op mode cluster_count
    sort_output
  = Returned
      (mkOutput
         (map (fun c => map fst (outer_less_rows op mode sort_output c))
            (seq 0 cluster_count)
          ++ [map fst (null_rows_pairs mode sort_output)])
         (map (fun c => map snd (outer_less_rows op mode sort_output c))
            (seq 0 cluster_count)
          ++ [map snd (null_rows_pairs mode sort_output)])).
Proof.
  intros Hless Houter Hsome Hlc Hrc Hls Hrs Hclustered Hleft Hright.
  now apply merge_phase_outer_less.
Qed.

(** Clusters without a pair on [<]: every left value is above every
    right value. *)
Definition clusters_without_pair : RadixClusterOutput :=
  mkRadixClusterOutput
    [[]; [mkMaterializedValue (mkRowID 0 0) 5]]
    [[mkMaterializedValue (mkRowID 0 0) 1; mkMaterializedValue (mkRowID 0 1) 2];
     []]
    [] [].

Lemma outer_join_on_less_than_witness :
  Forall sorted_by_value (clusters_left range_clusters)
  /\ Forall sorted_by_value (clusters_right range_clusters)
  /\ range_clustered (clusters_left range_clusters)
       (clusters_right range_clusters)
  /\ merge_phase true left_with_padding (0, 0) LessThan Outer 2 range_clusters
     = Returned
         (mkOutput
            (map (fun c =>
                    map fst (outer_less_rows LessThan Outer range_clusters c))
               (seq 0 2)
             ++ [map fst (null_rows_pairs Outer range_clusters)])
            (map (fun c =>
                    map snd (outer_less_rows LessThan Outer range_clusters c))
               (seq 0 2)
             ++ [map snd (null_rows_pairs Outer range_clusters)])).
Proof.
  assert (Hleft : Outer <> Right -> concat (clusters_left range_clusters) <> [])
    by (intros _; discriminate).
  assert (Hright : Outer <> Left -> concat (clusters_right range_clusters) <> [])
    by (intros _; discriminate).
  split; [exact range_clusters_left_sorted |].
  split; [exact range_clusters_right_sorted |].
  split; [exact range_clusters_clustered |].
  exact (outer_join_on_less_than true left_with_padding (0, 0) LessThan Outer 2
           range_clusters (or_introl eq_refl) (or_intror (or_intror eq_refl))
           ltac:(lia) eq_refl eq_refl
           range_clusters_left_sorted range_clusters_right_sorted
           range_clusters_clustered Hleft Hright).
Defined.

(** The outer join of the example on [<].  The left rows have the values
    1 and 3, the right rows the values 0, 2 and 4: the right row with the
    value 0 has no partner and is padded, every left row has one. *)
Example outer_join_on_less_than_of_example :
  merge_phase true left_with_padding (0, 0) LessThan Outer 2 range_clusters
  = Returned
      (mkOutput
         [[mkRowID 0 0; mkRowID 0 0; NULL_ROW_ID]; [mkRowID 0 1]; [mkRowID 0 2]]
         [[mkRowID 0 1; mkRowID 0 2; mkRowID 0 0]; [mkRowID 0 2]; [NULL_ROW_ID]]).
Proof. vm_compute. reflexivity. Qed.

(** An outer join without a pair: the left row with the value 5 and the
    right rows with the values 1 and 2 are all without a partner, and
    none of them is in the output. *)
Example outer_join_without_pair :
  merge_phase true left_with_padding (0, 0) LessThan Outer 2
    clusters_without_pair
  = Returned (mkOutput [[]; []; []] [[]; []; []]).
Proof. vm_compute. reflexivity. Qed.

End OuterLessThanJoinResult.

(** ** Sort-merge join: the chunks of the output table *)

Section OutputLists.
Import Storage JoinSortMerge.

(** The merge keeps the number of position lists: every function that
    emits rows alters a list in its place. *)
Definition lists_count (n : nat) (out : Output) : Prop :=
  length (_output_pos_lists_left out) = n
  /\ length (_output_pos_lists_right out) = n.

Variable HYRISE_DEBUG : bool.
Variable impl : Impl.
Variable n : nat.

Lemma append_pairs_count out c pairs :
  lists_count n out -> lists_count n (append_pairs out c pairs).
Proof.
  intros [Hl Hr]. unfold lists_count, append_pairs. simpl.
  now rewrite !length_alter.
Qed.

Lemma append_left_count out c rows :
  lists_count n out -> lists_count n (append_left out c rows).
Proof.
  intros [Hl Hr]. unfold lists_count, append_left. simpl.
  now rewrite !length_alter.
Qed.

Lemma emit_all_combinations_count out c left_range right_range :
  lists_count n out ->
  lists_count n (_emit_all_combinations impl out c left_range right_range).
Proof.
  intros Hout. destruct (pairs_kept impl) eqn:Hkept.
  - rewrite emit_all_combinations_pairs by exact Hkept.
    now apply append_pairs_count.
  - rewrite emit_all_combinations_left by exact Hkept.
    now apply append_left_count.
Qed.

Lemma join_runs_count out left_range right_range compare_result out' :
  lists_count n out ->
  _join_runs impl out left_range right_range compare_result = Returned out' ->
  lists_count n out'.
Proof.
  intros Hout H. unfold _join_runs in H.
  destruct (_op impl); try discriminate; destruct compare_result;
    repeat match type of H with
           | context [if ?b then _ else _] => destruct b
           end;
    injection H as <-; try exact Hout;
    rewrite ?emit_right_null_combinations_pairs,
            ?emit_left_null_combinations_pairs;
    repeat first [ apply emit_all_combinations_count
                 | apply append_pairs_count ];
    exact Hout.
Qed.

Lemma join_cluster_count out cluster_number out' :
  lists_count n out ->
  _join_cluster impl out cluster_number = Returned out' ->
  lists_count n out'.
Proof.
  intros Hout H. unfold _join_cluster in H.
  apply bind_returned in H as (left_cluster & _ & H).
  apply bind_returned in H as (right_cluster & _ & H).
  apply bind_returned in H as (st & Hloop & H).
  apply bind_returned in H as (out2 & Hrest & H).
  pose proof (join_cluster_loop_keeps impl (lists_count n) _ _ _
                join_runs_count _ _ _ _ Hout Hloop) as Hst.
  assert (Hout2 : lists_count n out2).
  { destruct (_ <? _) in Hrest; [eapply join_runs_count; eauto |].
    destruct (_ <? _) in Hrest; [eapply join_runs_count; eauto |].
    now injection Hrest as <-. }
  destruct (JoinMode_eqb (_mode impl) Anti); [| now injection H as <-].
  apply bind_returned in H as (matches & _ & H).
  apply bind_returned in H as (pos_list & _ & H).
  injection H as <-. destruct Hout2 as [Hl Hr].
  split; simpl; [now rewrite length_insert | exact Hr].
Qed.

Lemma perform_join_cluster_count out cluster_number out' :
  lists_count n out ->
  perform_join_cluster impl out cluster_number = Returned out' ->
  lists_count n out'.
Proof.
  intros [Hl Hr] H. unfold perform_join_cluster in H.
  assert (Hreset :
    lists_count n
      (mkOutput (<[cluster_number := []]> (_output_pos_lists_left out))
                (<[cluster_number := []]> (_output_pos_lists_right out)))).
  { split; simpl; now rewrite length_insert. }
  destruct (_ && _) in H; [| eapply join_cluster_count; eauto].
  apply bind_returned in H as (left_cluster & _ & H).
  apply bind_returned in H as (right_cluster & _ & H).
  destruct (_ || _) in H; [now injection H as <- |].
  eapply join_cluster_count; eauto.
Qed.

Lemma left_outer_non_equi_join_count out out' :
  lists_count n out ->
  _left_outer_non_equi_join HYRISE_DEBUG impl out = Returned out' ->
  lists_count n out'.
Proof.
  intros Hout H. unfold _left_outer_non_equi_join in H.
  apply bind_returned in H as (lo & _ & H).
  apply bind_returned in H as (hi & _ & H).
  apply bind_returned in H as (e & _ & H).
  injection H as <-.
  assert (Hemit : forall range,
    lists_count n (_emit_left_null_combinations impl out 0 range)).
  { intros range. rewrite emit_left_null_combinations_pairs.
    now apply append_pairs_count. }
  destruct (_op impl); try exact Hout;
    match goal with
    | |- lists_count n match ?result with _ => _ end =>
        destruct result; [apply Hemit | exact Hout]
    end.
Qed.

Lemma right_outer_non_equi_join_count out out' :
  lists_count n out ->
  _right_outer_non_equi_join HYRISE_DEBUG impl out = Returned out' ->
  lists_count n out'.
Proof.
  intros Hout H. unfold _right_outer_non_equi_join in H.
  apply bind_returned in H as (lo & _ & H).
  apply bind_returned in H as (hi & _ & H).
  apply bind_returned in H as (e & _ & H).
  injection H as <-.
  assert (Hemit : forall range,
    lists_count n (_emit_right_null_combinations impl out 0 range)).
  { intros range. rewrite emit_right_null_combinations_pairs.
    now apply append_pairs_count. }
  destruct (_op impl); try exact Hout;
    match goal with
    | |- lists_count n match ?result with _ => _ end =>
        destruct result; [apply Hemit | exact Hout]
    end.
Qed.

Lemma perform_join_count out out' :
  lists_count n out ->
  _perform_join HYRISE_DEBUG impl out = Returned out' ->
  lists_count n out'.
Proof.
  intros Hout H. unfold _perform_join in H.
  apply bind_returned in H as (out1 & Hloop & H).
  apply bind_returned in H as (out2 & Hleft & H).
  assert (H1 : lists_count n out1).
  { eapply (for_each_invariant (lists_count n)); [| exact Hout | exact Hloop].
    intros s c s' _ Hs Hbody. eapply perform_join_cluster_count; eauto. }
  assert (H2 : lists_count n out2).
  { destruct (_ && _) in Hleft; [| now injection Hleft as <-].
    eapply left_outer_non_equi_join_count; eauto. }
  destruct (_ && _) in H; [| now injection H as <-].
  eapply right_outer_non_equi_join_count; eauto.
Qed.

End OutputLists.

Section OutputChunks.
Import Storage JoinSortMerge.

(** The number of position lists a join mode ends with: one for every
    cluster, and one more for the rows with a NULL join value in the
    modes [Left], [Right] and [Outer]. *)
Definition pos_lists_count (mode : JoinMode) (cluster_count : nat) : nat :=
  cluster_count
  + (if JoinMode_eqb mode Left || JoinMode_eqb mode Outer
        || (JoinMode_eqb mode Right || JoinMode_eqb mode Outer)
     then 1 else 0).

Lemma merge_phase_count HYRISE_DEBUG left_table column_ids op mode
    cluster_count sort_output out :
  merge_phase HYRISE_DEBUG left_table column_ids op mode cluster_count
    sort_output = Returned out ->
  lists_count (pos_lists_count mode cluster_count) out.
Proof.
  intros H. unfold merge_phase in H.
  apply bind_returned in H as (el & _ & H).
  apply bind_returned in H as (er & _ & H).
  apply bind_returned in H as (out1 & Hjoin & H).
  apply perform_join_count with (n := cluster_count) in Hjoin;
    [| split; simpl; apply length_replicate].
  destruct Hjoin as [Hl Hr]. unfold pos_lists_count.
  destruct (_ || _) in H |- *; injection H as <-; split; simpl;
    rewrite ?length_app; simpl; lia.
Qed.

(** The reference segments on a table, one for every column, that share
    a position list. *)
Definition reference_segments (table : Table) (pos_list : PosList) : Segments :=
  map (fun column_id => ReferenceSegment table column_id pos_list)
    (seq 0 (column_count table)).

Lemma add_output_segments_data output_segments input_table pos_list :
  type input_table = Data ->
  _add_output_segments output_segments input_table pos_list
  = Returned (output_segments ++ reference_segments input_table pos_list).
Proof.
  intros Hdata. unfold _add_output_segments, reference_segments.
  rewrite Hdata. rewrite bool_decide_eq_false_2 by discriminate.
  generalize (seq 0 (column_count input_table)) as columns.
  intros columns. revert output_segments.
  induction columns as [|c columns IH]; intros output_segments; simpl.
  - now rewrite app_nil_r.
  - run. rewrite IH. now rewrite <- app_assoc.
Qed.

Lemma lookup_combine {A B : Type} (l : list A) (k : list B) (i : nat)
    (x : A) (y : B) :
  l !! i = Some x -> k !! i = Some y -> combine l k !! i = Some (x, y).
Proof.
  revert k i. induction l as [|a l IH]; intros [|b k] [|i] Hx Hy;
    try discriminate; simpl in *.
  - congruence.
  - now apply IH.
Qed.

(** The chunk that is written for a pair of position lists. *)
Definition output_chunk (left_table right_table : Table) (mode : JoinMode)
    (lists : PosList * PosList) : Segments :=
  reference_segments left_table (fst lists)
  ++ (if negb (JoinMode_eqb mode Semi) && negb (JoinMode_eqb mode Anti)
      then reference_segments right_table (snd lists) else []).

Lemma output_chunks_written left_table right_table mode
    (L R : list PosList) :
  type left_table = Data ->
  type right_table = Data ->
  length L = length R ->
  forall k result_chunks,
    k <= length L ->
    for_each
      (fun result_chunks pos_list_id =>
         left_pos_list ← defined (L !! pos_list_id);
         output_segments ← _add_output_segments [] left_table left_pos_list;
         output_segments ←
           (if negb (JoinMode_eqb mode Semi) && negb (JoinMode_eqb mode Anti)
            then
              right_pos_list ← defined (R !! pos_list_id);
              _add_output_segments output_segments right_table right_pos_list
            else Returned output_segments);
         Returned (result_chunks ++ [output_segments]))
      result_chunks (seq (length L - k) k)
    = Returned
        (result_chunks
         ++ map (output_chunk left_table right_table mode)
              (drop (length L - k) (combine L R))).
Proof.
  intros Hleft Hright Hlen.
  induction k as [|k IH]; intros result_chunks Hk.
  - simpl. rewrite drop_ge by (rewrite length_combine; lia).
    now rewrite app_nil_r.
  - cbn [seq for_each].
    destruct (lookup_lt_is_Some_2 L (length L - S k) ltac:(lia)) as [l Hl].
    destruct (lookup_lt_is_Some_2 R (length L - S k) ltac:(lia)) as [r Hr].
    rewrite Hl. run. rewrite add_output_segments_data by exact Hleft. run.
    assert (Hchunk :
      (if negb (JoinMode_eqb mode Semi) && negb (JoinMode_eqb mode Anti)
       then
         right_pos_list ← defined (R !! (length L - S k));
         _add_output_segments ([] ++ reference_segments left_table l)
           right_table right_pos_list
       else Returned ([] ++ reference_segments left_table l))
      = Returned (output_chunk left_table right_table mode (l, r))).
    { unfold output_chunk. cbn [fst snd app].
      destruct (negb _ && negb _).
      - rewrite Hr. run. now rewrite add_output_segments_data by exact Hright.
      - now rewrite app_nil_r. }
    rewrite Hchunk. run.
    replace (S (length L - S k)) with (length L - k) by lia.
    rewrite IH by lia.
    assert (Hpair : combine L R !! (length L - S k) = Some (l, r)).
    { now apply lookup_combine. }
    rewrite (drop_S _ _ _ Hpair).
    replace (S (length L - S k)) with (length L - k) by lia.
    cbn [map]. now rewrite <- app_assoc.
Qed.

End OutputChunks.

Section OutputTable.
Import Storage JoinSortMerge.

(** X12: the output table of a sort-merge join of two data tables.  When
    the merge has returned its position lists, [_on_execute] returns a
    reference table with one chunk for every pair of position lists, in
    their order: one for every cluster, whether or not the cluster has
    contributed a row, and in the modes [Left], [Right] and [Outer] one
    more for the rows with a NULL join value.  A chunk holds one
    reference segment for every column of the left input, on the left
    position list, followed, except in the modes [Semi] and [Anti], by
    one for every column of the right input, on the right position
    list. *)
Theorem sort_merge_output_chunks (HYRISE_DEBUG : bool)
    (left_table right_table : Table) (column_ids : ColumnID * ColumnID)
    (op : PredicateCondition) (mode : JoinMode) (cluster_count : nat)
    (sort_output : RadixClusterOutput) (out : Output) :
  type left_table = Data ->
  type right_table = Data ->
  merge_phase HYRISE_DEBUG left_table column_ids op mode cluster_count
    sort_output = Returned out ->
  _on_execute HYRISE_DEBUG left_table right_table column_ids op mode
    cluster_count sort_output
  = Returned
      (mkTable References
         (column_count left_table
          + (if negb (JoinMode_eqb mode Semi) && negb (JoinMode_eqb mode Anti)
             then column_count right_table else 0))
         (map (output_chunk left_table right_table mode)
            (combine (_output_pos_lists_left out)
               (_output_pos_lists_right out))))
  /\ length (combine (_output_pos_lists_left out)
               (_output_pos_lists_right out))
     = pos_lists_count mode cluster_count.
Proof.
  intros Hleft Hright Hmerge.
  destruct (merge_phase_count _ _ _ _ _ _ _ _ Hmerge) as [Hl Hr].
  split; [| rewrite length_combine; lia].
  unfold _on_execute. rewrite Hmerge. run.
  pose proof (output_chunks_written left_table right_table mode
                (_output_pos_lists_left out) (_output_pos_lists_right out)
                Hleft Hright ltac:(lia)
                (length (_output_pos_lists_left out)) [] (Nat.le_refl _))
    as Hchunks.
  rewrite Nat.sub_diag, drop_0 in Hchunks. cbn [app] in Hchunks.
  rewrite Hchunks. run. reflexivity.
Qed.

Lemma sort_merge_output_chunks_witness :
  merge_phase true left_with_padding (0, 0) LessThan Left 2 range_clusters
  = Returned
      (mkOutput
         [[mkRowID 0 0; mkRowID 0 0; NULL_ROW_ID]; [mkRowID 0 1]; [mkRowID 0 2]]
         [[mkRowID 0 1; mkRowID 0 2; mkRowID 0 0]; [mkRowID 0 2]; [NULL_ROW_ID]])
  /\ _on_execute true left_with_padding right_input (0, 0) LessThan Left 2
       range_clusters
     = Returned
         (mkTable References 2
            (map (output_chunk left_with_padding right_input Left)
               (combine
                  [[mkRowID 0 0; mkRowID 0 0; NULL_ROW_ID]; [mkRowID 0 1];
                   [mkRowID 0 2]]
                  [[mkRowID 0 1; mkRowID 0 2; mkRowID 0 0]; [mkRowID 0 2];
                   [NULL_ROW_ID]])))
  /\ length
       (combine
          [[mkRowID 0 0; mkRowID 0 0; NULL_ROW_ID]; [mkRowID 0 1];
           [mkRowID 0 2]]
          [[mkRowID 0 1; mkRowID 0 2; mkRowID 0 0]; [mkRowID 0 2];
           [NULL_ROW_ID]])
     = pos_lists_count Left 2.
Proof.
  assert (Hmerge :
    merge_phase true left_with_padding (0, 0) LessThan Left 2 range_clusters
    = Returned
        (mkOutput
           [[mkRowID 0 0; mkRowID 0 0; NULL_ROW_ID]; [mkRowID 0 1];
            [mkRowID 0 2]]
           [[mkRowID 0 1; mkRowID 0 2; mkRowID 0 0]; [mkRowID 0 2];
            [NULL_ROW_ID]]))
    by (vm_compute; reflexivity).
  split; [exact Hmerge |].
  exact (sort_merge_output_chunks true left_with_padding right_input (0, 0)
           LessThan Left 2 range_clusters _ eq_refl eq_refl Hmerge).
Defined.

(** An inner join on equality that finds nothing has an output of as
    many chunks as there are clusters, all without rows. *)
Example chunks_without_rows :
  _on_execute true left_with_padding right_input (0, 0) Equals Inner 2
    range_clusters
  = Returned
      (mkTable References 2
         [[ReferenceSegment left_with_padding 0 [];
           ReferenceSegment right_input 0 []];
          [ReferenceSegment left_with_padding 0 [];
           ReferenceSegment right_input 0 []]]).
Proof. vm_compute. reflexivity. Qed.

End OutputTable.

(** ** Hash join: [_apply_additional_join_predicates] on its own *)

Section AdditionalPredicatesAgain.
Import Storage JoinHash.

Variable HYRISE_DEBUG : bool.
Variables left right : Table.

(** The selection is cut out of the pairs in their order, and selecting
    from it again selects all of it. *)
Lemma select_rows_selected predicates :
  forall ls rs selection,
    select_rows HYRISE_DEBUG left right predicates ls rs = Returned selection ->
    combine (fst selection) (snd selection) `sublist_of` combine ls rs
    /\ length (fst selection) = length (snd selection)
    /\ select_rows HYRISE_DEBUG left right predicates (fst selection)
         (snd selection)
       = Returned selection.
Proof.
  induction ls as [|l0 ls IH]; intros rs selection H; simpl in H.
  - injection H as <-. simpl. repeat split. constructor.
  - destruct rs as [|r0 rs]; [discriminate |].
    apply bind_returned in H as [keep [Hkeep H]].
    apply bind_returned in H as [rest [Hrest H]].
    destruct (IH _ _ Hrest) as (Hsub & Hlen & Hagain).
    injection H as <-. destruct keep; simpl.
    + split; [now apply sublist_skip |].
      split; [now f_equal |].
      rewrite Hkeep. run. rewrite Hagain. run. reflexivity.
    + split; [now apply sublist_cons |]. split; [exact Hlen | exact Hagain].
Qed.

(** X13: what [_apply_additional_join_predicates] leaves in its two
    lists when it returns.  The pairs of rows it keeps are cut out of the
    pairs it was handed, in their order and without a pair being
    repeated; a pair is kept exactly if it was handed over and every
    predicate compares its two cells equal; and the function applied to
    its own result returns it unchanged. *)
Theorem apply_additional_join_predicates_selects
    (left_rows_to_verify right_rows_to_verify : PosList)
    (join_predicates : list JoinPredicate) (selection : PosList * PosList) :
  _apply_additional_join_predicates HYRISE_DEBUG left left_rows_to_verify
    right right_rows_to_verify join_predicates
  = Returned selection ->
  combine (fst selection) (snd selection)
    `sublist_of` combine left_rows_to_verify right_rows_to_verify
  /\ (forall l r,
        In (l, r) (combine (fst selection) (snd selection))
        <-> In (l, r) (combine left_rows_to_verify right_rows_to_verify)
            /\ all_compare_equal left right join_predicates l r)
  /\ _apply_additional_join_predicates HYRISE_DEBUG left (fst selection)
       right (snd selection) join_predicates
     = Returned selection.
Proof.
  intros H. unfold _apply_additional_join_predicates in *.
  destruct join_predicates as [|pred rest].
  - assert (E : selection = (left_rows_to_verify, right_rows_to_verify)).
    { unfold DebugAssert, Assert in H.
      destruct HYRISE_DEBUG; [| congruence].
      destruct (Nat.eqb _ _); [congruence | discriminate]. }
    rewrite E in *. cbn [fst snd].
    split; [reflexivity | split; [| exact H]].
    intros l r. split; [intros Hin; split; [exact Hin | constructor] | tauto].
  - assert (Hbody :
      select_rows HYRISE_DEBUG left right (pred :: rest) left_rows_to_verify
        right_rows_to_verify = Returned selection).
    { unfold DebugAssert, Assert in H.
      destruct HYRISE_DEBUG; [| exact H].
      destruct (Nat.eqb _ _); [exact H | discriminate]. }
    destruct (select_rows_selected _ _ _ _ Hbody) as (Hsub & Hlen & Hagain).
    split; [exact Hsub |].
    split; [apply (select_rows_spec HYRISE_DEBUG left right _ _ _ _ Hbody) |].
    unfold DebugAssert, Assert. rewrite Hlen, Nat.eqb_refl.
    now destruct HYRISE_DEBUG.
Qed.

End AdditionalPredicatesAgain.

Section AdditionalPredicatesLengths.
Import Storage JoinHash.

Variables left right : Table.

(** In a release build, a cell is read or the read is out of bounds. *)
Lemma cell_release (table : Table) (row : RowID) (column_id : ColumnID) :
  (exists v, cell table row column_id = Returned v)
  \/ cell table row column_id = UndefinedBehaviour.
Proof.
  unfold cell.
  destruct (get_chunk table (chunk_id row)) as [chunk |]; run; [| now right].
  destruct (get_segment chunk column_id) as [segment |]; run; [| now right].
  destruct (segment_at segment (chunk_offset row)) as [v |]; run;
    [left; eauto | now right].
Qed.

Lemma row_pair_release l r predicates :
  (exists keep,
     row_pair_satisfies_predicates false left right l r predicates
     = Returned keep)
  \/ row_pair_satisfies_predicates false left right l r predicates
     = UndefinedBehaviour.
Proof.
  induction predicates as [|pred rest IH]; simpl; [left; eauto |].
  unfold DebugAssert.
  destruct (cell_release left l (fst (column_id_pair pred))) as [[lv ->] | ->];
    run; [| now right].
  destruct (cell_release right r (snd (column_id_pair pred))) as [[rv ->] | ->];
    run; [| now right].
  destruct (negb (variant_eqb lv rv)); [left; eauto | exact IH].
Qed.

Lemma select_rows_short predicates :
  forall ls rs,
    length rs < length ls ->
    select_rows false left right predicates ls rs = UndefinedBehaviour.
Proof.
  induction ls as [|l0 ls IH]; intros rs Hlen; simpl in *; [lia |].
  destruct rs as [|r0 rs]; [reflexivity |]. simpl in Hlen.
  destruct (row_pair_release l0 r0 predicates) as [[keep ->] | ->]; run;
    [| reflexivity].
  rewrite IH by lia. reflexivity.
Qed.

Lemma select_rows_long predicates :
  forall ls rs,
    select_rows false left right predicates ls rs
    = select_rows false left right predicates ls (take (length ls) rs).
Proof.
  induction ls as [|l0 ls IH]; intros rs; simpl; [reflexivity |].
  destruct rs as [|r0 rs]; [reflexivity |]. simpl.
  now rewrite <- IH.
Qed.

(** X14: [_apply_additional_join_predicates] on two lists of different
    length.  A debug build fails the assertion on the lengths.  A release
    build has no check: without predicates it returns the two lists as
    they are; with predicates and fewer right rows than left rows it
    reads the right list beyond its end; with more right rows than left
    rows it ignores the right rows that have no left row. *)
Theorem apply_additional_join_predicates_lengths
    (left_rows_to_verify right_rows_to_verify : PosList)
    (join_predicates : list JoinPredicate) :
  length left_rows_to_verify <> length right_rows_to_verify ->
  _apply_additional_join_predicates true left left_rows_to_verify right
    right_rows_to_verify join_predicates
  = Thrown logic_error
  /\ _apply_additional_join_predicates false left left_rows_to_verify right
       right_rows_to_verify []
     = Returned (left_rows_to_verify, right_rows_to_verify)
  /\ (join_predicates <> [] ->
      length right_rows_to_verify < length left_rows_to_verify ->
      _apply_additional_join_predicates false left left_rows_to_verify right
        right_rows_to_verify join_predicates
      = UndefinedBehaviour)
  /\ (join_predicates <> [] ->
      length left_rows_to_verify < length right_rows_to_verify ->
      _apply_additional_join_predicates false left left_rows_to_verify right
        right_rows_to_verify join_predicates
      = _apply_additional_join_predicates false left left_rows_to_verify
          right (take (length left_rows_to_verify) right_rows_to_verify)
          join_predicates).
Proof.
  intros Hlen. unfold _apply_additional_join_predicates, DebugAssert, Assert.
  split; [now rewrite (proj2 (Nat.eqb_neq _ _) Hlen) |].
  split; [reflexivity |].
  split; intros Hsome Hlt;
    (destruct join_predicates as [|pred rest]; [now contradiction Hsome |]).
  - now apply select_rows_short.
  - apply select_rows_long.
Qed.

End AdditionalPredicatesLengths.

Section AdditionalPredicatesExamples.
Import Storage JoinHash.

(** The three build rows next to the probe rows 0, 0 and 1: the second
    column agrees for the second and the third pair. *)
Lemma apply_additional_join_predicates_selects_witness :
  _apply_additional_join_predicates true build_table
    [mkRowID 0 0; mkRowID 0 1; mkRowID 0 2] probe_table
    [mkRowID 0 0; mkRowID 0 0; mkRowID 0 1] [mkJoinPredicate (1, 1) Equals]
  = Returned ([mkRowID 0 1; mkRowID 0 2], [mkRowID 0 0; mkRowID 0 1])
  /\ combine [mkRowID 0 1; mkRowID 0 2] [mkRowID 0 0; mkRowID 0 1]
       `sublist_of` combine [mkRowID 0 0; mkRowID 0 1; mkRowID 0 2]
                      [mkRowID 0 0; mkRowID 0 0; mkRowID 0 1]
  /\ (forall l r,
        In (l, r) (combine [mkRowID 0 1; mkRowID 0 2] [mkRowID 0 0; mkRowID 0 1])
        <-> In (l, r) (combine [mkRowID 0 0; mkRowID 0 1; mkRowID 0 2]
                         [mkRowID 0 0; mkRowID 0 0; mkRowID 0 1])
            /\ all_compare_equal build_table probe_table
                 [mkJoinPredicate (1, 1) Equals] l r)
  /\ _apply_additional_join_predicates true build_table
       [mkRowID 0 1; mkRowID 0 2] probe_table [mkRowID 0 0; mkRowID 0 1]
       [mkJoinPredicate (1, 1) Equals]
     = Returned ([mkRowID 0 1; mkRowID 0 2], [mkRowID 0 0; mkRowID 0 1]).
Proof.
  split; [reflexivity |].
  exact (apply_additional_join_predicates_selects true build_table probe_table
           [mkRowID 0 0; mkRowID 0 1; mkRowID 0 2]
           [mkRowID 0 0; mkRowID 0 0; mkRowID 0 1]
           [mkJoinPredicate (1, 1) Equals]
           ([mkRowID 0 1; mkRowID 0 2], [mkRowID 0 0; mkRowID 0 1]) eq_refl).
Defined.

Lemma apply_additional_join_predicates_lengths_witness :
  _apply_additional_join_predicates true build_table
    [mkRowID 0 0; mkRowID 0 1] probe_table [mkRowID 0 0]
    [mkJoinPredicate (1, 1) Equals]
  = Thrown logic_error
  /\ _apply_additional_join_predicates false build_table
       [mkRowID 0 0; mkRowID 0 1] probe_table [mkRowID 0 0]
       [mkJoinPredicate (1, 1) Equals]
     = UndefinedBehaviour.
Proof.
  assert (Hlen : length [mkRowID 0 0; mkRowID 0 1] <> length [mkRowID 0 0])
    by (simpl; lia).
  pose proof (apply_additional_join_predicates_lengths build_table probe_table
                [mkRowID 0 0; mkRowID 0 1] [mkRowID 0 0]
                [mkJoinPredicate (1, 1) Equals] Hlen) as (Hdebug & _ & Hshort & _).
  split; [exact Hdebug |].
  apply Hshort; [discriminate | simpl; lia].
Defined.

End AdditionalPredicatesExamples.

(** ** Sort-merge join on [>] and [>=]: the pairs of a cluster *)

Section GreaterThanCluster.
Import Storage JoinSortMerge.

(** The pairs of the rows of [partners] with the rows of [rows] that
    satisfy the condition: ordered by the row of [partners], then by the
    row of [rows]. *)
Definition theta_rows_by_right (op : PredicateCondition)
    (rows partners : MaterializedSegment) : list (RowID * RowID) :=
  concat
    (map
       (fun y =>
          map (fun x => (row_id x, row_id y))
            (List.filter (fun x => satisfies op (value x) (value y)) rows))
       partners).

Lemma concat_map_cons {A B : Type} (f : A -> B) (g : A -> list B)
    (k : list A) :
  concat (map (fun y => f y :: g y) k) ≡ₚ map f k ++ concat (map g k).
Proof.
  induction k as [|y k IH]; simpl; [reflexivity |].
  constructor. rewrite IH.
  rewrite (app_assoc (g y)), (Permutation_app_comm (g y) (map f k)).
  now rewrite <- app_assoc.
Qed.

(** A product, ordered by its second components. *)
Lemma list_prod_by_right {A B : Type} (l : list A) (k : list B) :
  list_prod l k ≡ₚ concat (map (fun y => map (fun x => (x, y)) l) k).
Proof.
  induction l as [|a l IH]; simpl.
  - induction k as [|y k IHk]; simpl; [reflexivity | exact IHk].
  - rewrite IH. symmetry.
    apply (concat_map_cons (fun y => (a, y)) (fun y => map (fun x => (x, y)) l)).
Qed.

Lemma list_prod_map_by_right {A B C D : Type} (f : A -> C) (g : B -> D)
    (l : list A) (k : list B) :
  list_prod (map f l) (map g k)
  ≡ₚ concat (map (fun y => map (fun x => (f x, g y)) l) k).
Proof.
  rewrite list_prod_by_right, map_map.
  apply eq_subrelation; [apply _ |]. f_equal.
  apply map_ext. intros y. now rewrite map_map.
Qed.

Variable impl : Impl.
Variable cluster_number : nat.
Variables left_cluster right_cluster : MaterializedSegment.
Hypothesis left_sorted : sorted_by_value left_cluster.
Hypothesis right_sorted : sorted_by_value right_cluster.
Hypothesis left_at :
  _sorted_left_table impl !! cluster_number = Some left_cluster.
Hypothesis right_at :
  _sorted_right_table impl !! cluster_number = Some right_cluster.
Hypothesis greater : _op impl = GreaterThan \/ _op impl = GreaterThanEquals.
Hypothesis kept : pairs_kept impl = true.
Hypothesis left_end :
  exists last,
    _sorted_left_table impl !! (length (_sorted_left_table impl) - 1)
    = Some last
    /\ _end_of_left_table impl
       = mkTablePosition (length (_sorted_left_table impl) - 1) (length last).

(** The left rows of the clusters behind this one. *)
Definition later_left_rows : MaterializedSegment :=
  concat (drop (S cluster_number) (_sorted_left_table impl)).

(** The pairs of the rows of [rows], which are right rows, with their
    partners in this cluster and with all left rows of the clusters
    behind it. *)
Definition greater_rows (rows : MaterializedSegment) : list (RowID * RowID) :=
  concat
    (map
       (fun y =>
          map (fun x => (row_id x, row_id y))
            (List.filter (fun x => satisfies (_op impl) (value x) (value y))
               left_cluster
             ++ later_left_rows))
       rows).

Lemma greater_rows_app rows1 rows2 :
  greater_rows (rows1 ++ rows2) = greater_rows rows1 ++ greater_rows rows2.
Proof. unfold greater_rows. now rewrite map_app, concat_app. Qed.

(** Where the left range of an iteration starts, if it emits. *)
Definition left_start (compare_result : CompareResult) (ls le : nat)
    : option nat :=
  match _op impl, compare_result with
  | GreaterThan, Greater => Some ls
  | GreaterThan, Equal => Some le
  | GreaterThanEquals, (Greater | Equal) => Some ls
  | _, _ => None
  end.

Lemma join_runs_greater out ls le rs re compare_result :
  _join_runs impl out (cluster_range cluster_number ls le)
    (cluster_range cluster_number rs re) compare_result
  = Returned
      match left_start compare_result ls le with
      | Some s =>
          append_pairs out cluster_number
            (list_prod
               (map row_id (drop s left_cluster ++ later_left_rows))
               (map row_id (take (re - rs) (drop rs right_cluster))))
      | None => out
      end.
Proof.
  destruct left_end as (last & Hlast & Hend).
  assert (Hrange : forall s,
    left_rows impl
      (to (mkTablePosition cluster_number s) (_end_of_left_table impl))
    = map row_id (drop s left_cluster ++ later_left_rows)).
  { intros s. unfold left_rows. rewrite Hend.
    exact (rows_to_end _ _ s _ _ left_at Hlast). }
  assert (Hright :
    right_rows impl (cluster_range cluster_number rs re)
    = map row_id (take (re - rs) (drop rs right_cluster))).
  { unfold right_rows. now rewrite for_every_row_id_cluster_range, right_at. }
  unfold _join_runs, left_start.
  cbn [cluster_range range_start range_end cluster].
  fold (cluster_range cluster_number rs re).
  destruct greater as [-> | ->]; destruct compare_result;
    rewrite ?emit_all_combinations_pairs by exact kept;
    rewrite ?Hrange, ?Hright; reflexivity.
Qed.

(** The pairs of a range of right rows whose partners in this cluster
    are the left rows from [s] on. *)
Lemma emitted_greater a b s :
  (forall j y i x,
     a <= j < b -> right_cluster !! j = Some y ->
     i < s -> left_cluster !! i = Some x ->
     satisfies (_op impl) (value x) (value y) = false) ->
  (forall j y i x,
     a <= j < b -> right_cluster !! j = Some y ->
     s <= i -> left_cluster !! i = Some x ->
     satisfies (_op impl) (value x) (value y) = true) ->
  list_prod (map row_id (drop s left_cluster ++ later_left_rows))
    (map row_id (take (b - a) (drop a right_cluster)))
  ≡ₚ greater_rows (take (b - a) (drop a right_cluster)).
Proof.
  intros Hbefore Hfrom. rewrite list_prod_map_by_right. unfold greater_rows.
  apply eq_subrelation; [apply _ |].
  apply concat_map_ext_lookup. intros k y Hk.
  apply lookup_run in Hk as [Hy Hk]. f_equal. f_equal. symmetry.
  apply filter_from.
  - intros i x Hi Hx. exact (Hbefore _ y i x Hk Hy Hi Hx).
  - intros i x Hi Hx. exact (Hfrom _ y i x Hk Hy Hi Hx).
Qed.

(** The invariant of the merge loop. *)
Definition greater_invariant (out0 : Output) (runs : Runs) (out : Output)
    : Prop :=
  (exists pairs,
     out = append_pairs out0 cluster_number pairs
     /\ pairs ≡ₚ greater_rows (take (right_run_start runs) right_cluster))
  /\ forall i x j y,
       i < left_run_start runs -> left_cluster !! i = Some x ->
       right_run_start runs <= j -> right_cluster !! j = Some y ->
       (value x < value y)%Z.

Lemma greater_invariant_step out0 runs out l r out' :
  runs_ok left_cluster right_cluster runs ->
  greater_invariant out0 runs out ->
  left_cluster !! left_run_start runs = Some l ->
  right_cluster !! right_run_start runs = Some r ->
  _join_runs impl out (left_run cluster_number runs)
    (right_run cluster_number runs) (_compare (value l) (value r))
  = Returned out' ->
  greater_invariant out0 (next_runs left_cluster right_cluster runs l r) out'.
Proof.
  intros (Hle & Hre & Hlb & Hrb) ((pairs & Hout & Hpairs) & I1) Hl Hr Hruns.
  unfold left_run, right_run in Hruns. rewrite join_runs_greater in Hruns.
  pose proof (run_length_spec left_cluster _ l left_sorted Hl) as (L1 & L2 & L3).
  pose proof (run_length_spec right_cluster _ r right_sorted Hr) as (R1 & R2 & R3).
  simpl in L1, L2, L3, R1, R2, R3. rewrite <- Hle in L1, L2, L3.
  rewrite <- Hre in R1, R2, R3.
  assert (Hrun :
    take (right_run_end runs) right_cluster
    = take (right_run_start runs) right_cluster
      ++ take (right_run_end runs - right_run_start runs)
           (drop (right_run_start runs) right_cluster)).
  { rewrite take_take_drop. f_equal. lia. }
  assert (Hemit : forall s,
    (forall i x, i < s -> left_cluster !! i = Some x ->
                 satisfies (_op impl) (value x) (value r) = false) ->
    (forall i x, s <= i -> left_cluster !! i = Some x ->
                 satisfies (_op impl) (value x) (value r) = true) ->
    exists pairs',
      append_pairs out cluster_number
        (list_prod
           (map row_id (drop s left_cluster ++ later_left_rows))
           (map row_id
              (take (right_run_end runs - right_run_start runs)
                 (drop (right_run_start runs) right_cluster))))
      = append_pairs out0 cluster_number pairs'
      /\ pairs' ≡ₚ greater_rows (take (right_run_end runs) right_cluster)).
  { intros s Hbefore Hfrom. eexists. split.
    - rewrite Hout, append_pairs_app. reflexivity.
    - rewrite Hrun, greater_rows_app.
      apply Permutation_app; [exact Hpairs |].
      apply (emitted_greater (right_run_start runs) (right_run_end runs) s).
      + intros j y i x Hj Hy Hi Hx. rewrite (R2 j y Hj Hy).
        now apply (Hbefore i x).
      + intros j y i x Hj Hy Hi Hx. rewrite (R2 j y Hj Hy).
        now apply (Hfrom i x). }
  assert (Hsmaller : forall i x,
    i < left_run_start runs -> left_cluster !! i = Some x ->
    (value x < value r)%Z).
  { intros i x Hi Hx. exact (I1 i x _ r Hi Hx (Nat.le_refl _) Hr). }
  assert (Hlarger : forall i x,
    left_run_start runs <= i -> left_cluster !! i = Some x ->
    (value l <= value x)%Z).
  { intros i x Hi Hx. exact (left_sorted _ _ l x Hi Hl Hx). }
  unfold next_runs, _compare, left_start in *.
  destruct (Z.ltb_spec (value l) (value r)) as [Hlt | Hge].
  - (* Less *)
    assert (Hout' : out' = out)
      by (destruct greater as [Hop | Hop]; rewrite Hop in *;
          now injection Hruns as <-).
    subst out'. split; [exists pairs; auto |]. unfold advance_left. simpl.
    intros i x j y Hi Hx Hj Hy.
    destruct (Nat.lt_ge_cases i (left_run_start runs)) as [Hb | Hb].
    + apply (I1 i x j y); auto.
    + pose proof (L2 i x ltac:(lia) Hx).
      pose proof (right_sorted _ _ r y Hj Hr Hy). lia.
  - destruct (Z.eqb_spec (value l) (value r)) as [Heq | Hne].
    + (* Equal *)
      assert (Hout' : exists pairs',
        out' = append_pairs out0 cluster_number pairs'
        /\ pairs' ≡ₚ greater_rows (take (right_run_end runs) right_cluster)).
      { destruct greater as [Hop | Hop]; rewrite Hop in *;
          injection Hruns as <-; apply Hemit; intros i x Hi Hx; simpl.
        - rewrite Z.gtb_ltb. apply Z.ltb_ge.
          destruct (Nat.lt_ge_cases i (left_run_start runs)) as [Hb | Hb].
          + pose proof (Hsmaller i x Hb Hx). lia.
          + pose proof (L2 i x ltac:(lia) Hx). lia.
        - rewrite Z.gtb_ltb. apply Z.ltb_lt. pose proof (L3 i x Hi Hx). lia.
        - rewrite Z.geb_leb. apply Z.leb_gt.
          pose proof (Hsmaller i x Hi Hx). lia.
        - rewrite Z.geb_leb. apply Z.leb_le.
          pose proof (Hlarger i x Hi Hx). lia. }
      split; [exact Hout' |]. unfold advance_left, advance_right. simpl.
      intros i x j y Hi Hx Hj Hy. pose proof (R3 j y Hj Hy).
      destruct (Nat.lt_ge_cases i (left_run_start runs)) as [Hb | Hb].
      * pose proof (Hsmaller i x Hb Hx). lia.
      * pose proof (L2 i x ltac:(lia) Hx). lia.
    + (* Greater *)
      assert (Hout' : exists pairs',
        out' = append_pairs out0 cluster_number pairs'
        /\ pairs' ≡ₚ greater_rows (take (right_run_end runs) right_cluster)).
      { destruct greater as [Hop | Hop]; rewrite Hop in *;
          injection Hruns as <-; apply Hemit; intros i x Hi Hx; simpl;
          rewrite ?Z.gtb_ltb, ?Z.geb_leb;
          first [ pose proof (Hsmaller i x Hi Hx)
                | pose proof (Hlarger i x Hi Hx) ];
          first [ apply Z.ltb_ge | apply Z.ltb_lt | apply Z.leb_gt
                | apply Z.leb_le ]; lia. }
      split; [exact Hout' |]. unfold advance_right. simpl.
      intros i x j y Hi Hx Hj Hy. apply (I1 i x j y); auto. lia.
Qed.

Lemma greater_supported : supported_condition (_op impl) = true.
Proof. destruct greater as [-> | ->]; reflexivity. Qed.

(** [_join_cluster] of a join on [>] or [>=] appends, for every row of
    the right cluster, its pairs with its partners in the left cluster
    and with all rows of the left clusters behind it: every pair once,
    the pairs of a run of right rows in the order of the run's
    iteration. *)
Lemma join_cluster_greater out0 :
  exists pairs,
    _join_cluster impl out0 cluster_number
    = Returned (append_pairs out0 cluster_number pairs)
    /\ pairs ≡ₚ greater_rows right_cluster.
Proof.
  unfold _join_cluster. rewrite left_at, right_at. run.
  destruct (join_cluster_loop_spec impl cluster_number left_cluster
              right_cluster left_sorted right_sorted greater_supported
              (greater_invariant out0))
    with (fuel := length left_cluster + length right_cluster)
         (runs := mkRuns 0 (0 + _run_length 0 left_cluster)
                         0 (0 + _run_length 0 right_cluster))
         (out := out0)
    as (runs & out & Hloop & Hok & ((pairs & Hout & Hpairs) & I1) & Hleft).
  - intros runs out l r out' Hok Hinv Hl Hr Hruns.
    eapply greater_invariant_step; eauto.
  - unfold runs_ok. simpl. repeat split; lia.
  - unfold greater_invariant. simpl. split; [| intros; lia].
    exists []. rewrite append_pairs_nil. split; reflexivity.
  - unfold rows_ahead. simpl. lia.
  - rewrite Hloop. run.
    replace (JoinMode_eqb (_mode impl) Anti) with false
      by (symmetry; unfold pairs_kept in kept;
          apply andb_true_iff in kept as [_ H]; now apply negb_true_iff in H).
    unfold runs_left in Hleft. destruct Hok as (_ & _ & Hlb & Hrb).
    destruct (Nat.ltb_spec (left_run_start runs) (length left_cluster))
      as [Hl | Hl].
    + destruct (Nat.ltb_spec (right_run_start runs) (length right_cluster))
        as [Hr | Hr]; [discriminate |].
      rewrite join_runs_greater.
      replace (left_start Less (left_run_start runs) (length left_cluster))
        with (@None nat)
        by (unfold left_start; destruct greater as [-> | ->]; reflexivity).
      run. exists pairs. split; [now rewrite Hout |].
      now rewrite take_ge in Hpairs by lia.
    + destruct (Nat.ltb_spec (right_run_start runs) (length right_cluster))
        as [Hr | Hr].
      * rewrite join_runs_greater.
        replace (left_start Greater (left_run_start runs)
                   (length left_cluster))
          with (Some (left_run_start runs))
          by (unfold left_start; destruct greater as [-> | ->]; reflexivity).
        run. eexists. split.
        -- rewrite Hout, append_pairs_app. reflexivity.
        -- rewrite <- (take_drop (right_run_start runs) right_cluster) at 3.
           rewrite greater_rows_app.
           apply Permutation_app; [exact Hpairs |].
           rewrite <- (firstn_all2 (n := length right_cluster
                                          - right_run_start runs)
                         (drop (right_run_start runs) right_cluster))
             at 2 by (rewrite length_drop; lia).
           apply (emitted_greater (right_run_start runs)
                    (length right_cluster) (left_run_start runs)).
           ++ intros j y i x Hj Hy Hi Hx.
              pose proof (I1 i x j y Hi Hx ltac:(lia) Hy).
              destruct greater as [-> | ->]; simpl;
                rewrite ?Z.gtb_ltb, ?Z.geb_leb;
                [apply Z.ltb_ge | apply Z.leb_gt]; lia.
           ++ intros j y i x Hj Hy Hi Hx. apply lookup_lt_Some in Hx. lia.
      * run. exists pairs. split; [now rewrite Hout |].
        now rewrite take_ge in Hpairs by lia.
Qed.

End GreaterThanCluster.

Section GreaterThanJoin.
Import Storage JoinSortMerge.

Variable HYRISE_DEBUG : bool.
Variable left_table : Table.
Variable column_ids : ColumnID * ColumnID.
Variable op : PredicateCondition.
Variable mode : JoinMode.
Variable cluster_count : nat.
Variable sort_output : RadixClusterOutput.

Hypothesis some_cluster : 0 < cluster_count.
Hypothesis left_count : length (clusters_left sort_output) = cluster_count.
Hypothesis right_count : length (clusters_right sort_output) = cluster_count.
Hypothesis left_sorted : Forall sorted_by_value (clusters_left sort_output).
Hypothesis right_sorted : Forall sorted_by_value (clusters_right sort_output).
Hypothesis greater : op = GreaterThan \/ op = GreaterThanEquals.
Hypothesis pairs : mode <> Semi /\ mode <> Anti.
Hypothesis clustered :
  range_clustered (clusters_left sort_output) (clusters_right sort_output).

(** With clusters that are cut at common split values, the partners of a
    right row in its cluster and the left rows of the clusters behind it
    are its partners in the whole left table. *)
Lemma greater_rows_theta end_left end_right c left_cluster right_cluster :
  clusters_left sort_output !! c = Some left_cluster ->
  clusters_right sort_output !! c = Some right_cluster ->
  greater_rows
    (merge_impl left_table column_ids op mode cluster_count sort_output
       end_left end_right) c left_cluster right_cluster
  = theta_rows_by_right op (concat (clusters_left sort_output)) right_cluster.
Proof.
  intros Hl Hr. unfold greater_rows, theta_rows_by_right, later_left_rows.
  simpl. apply concat_map_ext_lookup. intros j y Hy. f_equal.
  assert (Hin : In y right_cluster).
  { apply list_elem_of_In. eapply list_elem_of_lookup_2. exact Hy. }
  assert (Hsplit :
    concat (clusters_left sort_output)
    = concat (take c (clusters_left sort_output))
      ++ left_cluster ++ concat (drop (S c) (clusters_left sort_output))).
  { rewrite <- (take_drop_middle _ _ _ Hl) at 1. now rewrite concat_app. }
  rewrite Hsplit, !List.filter_app.
  rewrite (filter_none _ (concat (take c (clusters_left sort_output)))),
          (filter_all _ (concat (drop (S c) (clusters_left sort_output))));
    [reflexivity | |].
  - intros k x Hx.
    assert (Hinx : In x (concat (drop (S c) (clusters_left sort_output)))).
    { apply list_elem_of_In. eapply list_elem_of_lookup_2. exact Hx. }
    apply in_concat_drop in Hinx as (c2 & s2 & Hc2 & Hs2 & Hx2).
    pose proof (clustered c c2 right_cluster s2 y x ltac:(lia)
                  (or_intror Hr) (or_introl Hs2) Hin Hx2).
    destruct greater as [-> | ->]; simpl; rewrite ?Z.gtb_ltb, ?Z.geb_leb;
      [apply Z.ltb_lt | apply Z.leb_le]; lia.
  - intros k x Hx.
    assert (Hinx : In x (concat (take c (clusters_left sort_output)))).
    { apply list_elem_of_In. eapply list_elem_of_lookup_2. exact Hx. }
    apply in_concat_take in Hinx as (c1 & s1 & Hc1 & Hs1 & Hx1).
    pose proof (clustered c1 c s1 right_cluster x y Hc1
                  (or_introl Hs1) (or_intror Hr) Hx1 Hin).
    destruct greater as [-> | ->]; simpl; rewrite ?Z.gtb_ltb, ?Z.geb_leb;
      [apply Z.ltb_ge | apply Z.leb_gt]; lia.
Qed.

(** The pairs of the right rows of cluster [c]. *)
Definition greater_cluster_rows (c : nat) : list (RowID * RowID) :=
  theta_rows_by_right op (concat (clusters_left sort_output))
    (right_cluster_at sort_output c).

Lemma perform_join_cluster_greater end_left out c :
  (exists last,
     clusters_left sort_output !! (length (clusters_left sort_output) - 1)
     = Some last
     /\ end_left
        = mkTablePosition (length (clusters_left sort_output) - 1)
            (length last)) ->
  forall end_right,
  c < cluster_count ->
  length (_output_pos_lists_left out) = cluster_count ->
  length (_output_pos_lists_right out) = cluster_count ->
  exists rows,
    perform_join_cluster
      (merge_impl left_table column_ids op mode cluster_count sort_output
         end_left end_right) out c
    = Returned
        (mkOutput
           (<[c:=map fst rows]> (_output_pos_lists_left out))
           (<[c:=map snd rows]> (_output_pos_lists_right out)))
    /\ rows ≡ₚ greater_cluster_rows c.
Proof.
  intros Hend end_right Hc Hleft Hright.
  destruct (cluster_lookups cluster_count sort_output some_cluster left_count
              right_count left_sorted right_sorted c Hc)
    as (Hl & Hr & Hls & Hrs).
  set (impl := merge_impl left_table column_ids op mode cluster_count
                 sort_output end_left end_right).
  unfold perform_join_cluster. fold impl.
  replace ((JoinMode_eqb (_mode impl) Inner || JoinMode_eqb (_mode impl) Semi)
           && PredicateCondition_eqb (_op impl) Equals) with false
    by (simpl; destruct greater as [-> | ->]; now rewrite andb_false_r).
  assert (Hkept : pairs_kept impl = true).
  { destruct pairs as [Hs Ha]. unfold pairs_kept. simpl.
    destruct mode; try reflexivity;
      [now contradiction Hs | now contradiction Ha]. }
  destruct (join_cluster_greater impl c (left_cluster_at sort_output c)
              (right_cluster_at sort_output c) Hls Hrs Hl Hr greater Hkept
              Hend
              (mkOutput (<[c:=[]]> (_output_pos_lists_left out))
                        (<[c:=[]]> (_output_pos_lists_right out))))
    as (rows & Hjoin & Hrows).
  exists rows. split.
  - rewrite Hjoin. unfold append_pairs. simpl. f_equal. f_equal.
    + rewrite list_insert_alter, list_alter_alter_eq, list_insert_alter.
      apply list_alter_ext; auto.
    + rewrite list_insert_alter, list_alter_alter_eq, list_insert_alter.
      apply list_alter_ext; auto.
  - unfold impl in Hrows.
    now rewrite (greater_rows_theta end_left end_right c _ _ Hl Hr) in Hrows.
Qed.

End GreaterThanJoin.

Section GreaterThanJoinLoop.
Import Storage JoinSortMerge.

(** A loop over the clusters whose body stores, for its cluster, a pair
    of lists that is known up to the order of its pairs. *)
Lemma for_each_cluster_permuted (body : Output -> nat -> Outcome Output)
    (spec : nat -> list (RowID * RowID)) (n : nat) :
  (forall out c,
     c < n ->
     length (_output_pos_lists_left out) = n ->
     length (_output_pos_lists_right out) = n ->
     exists rows,
       body out c
       = Returned (mkOutput (<[c:=map fst rows]> (_output_pos_lists_left out))
                            (<[c:=map snd rows]> (_output_pos_lists_right out)))
       /\ rows ≡ₚ spec c) ->
  exists rows : list (list (RowID * RowID)),
    for_each body (mkOutput (replicate n []) (replicate n [])) (seq 0 n)
    = Returned (mkOutput (map (map fst) rows) (map (map snd) rows))
    /\ Forall2 (fun c r => r ≡ₚ spec c) (seq 0 n) rows.
Proof.
  intros Hbody.
  assert (Hgen : forall m k left right,
    k + m = n -> length left = n -> length right = n ->
    exists rows : list (list (RowID * RowID)),
      for_each body (mkOutput left right) (seq k m)
      = Returned (mkOutput (take k left ++ map (map fst) rows)
                           (take k right ++ map (map snd) rows))
      /\ Forall2 (fun c r => r ≡ₚ spec c) (seq k m) rows).
  { induction m as [|m IH]; intros k left right Hkm Hl Hr; simpl.
    - exists []. simpl. rewrite !app_nil_r, !take_ge by lia.
      split; [reflexivity | constructor].
    - destruct (Hbody (mkOutput left right) k ltac:(lia) Hl Hr)
        as (r & -> & Hperm).
      run. simpl.
      destruct (IH (S k) (<[k:=map fst r]> left) (<[k:=map snd r]> right))
        as (rows & -> & Hrows); rewrite ?length_insert; try lia.
      exists (r :: rows). split; [| now constructor].
      rewrite !take_S_insert by lia. simpl. now rewrite <- !app_assoc. }
  destruct (Hgen n 0 (replicate n []) (replicate n []))
    as (rows & Hrun & Hrows); rewrite ?length_replicate; try lia.
  exists rows. split; [| exact Hrows].
  rewrite Hrun. now rewrite !take_0.
Qed.

(** Pairs appended to the lists of the first cluster. *)
Lemma append_pairs_first_rows (rows : list (list (RowID * RowID)))
    (pairs : list (RowID * RowID)) :
  append_pairs (mkOutput (map (map fst) rows) (map (map snd) rows)) 0 pairs
  = mkOutput (map (map fst) (alter (fun r => r ++ pairs) 0 rows))
             (map (map snd) (alter (fun r => r ++ pairs) 0 rows)).
Proof.
  unfold append_pairs. simpl. destruct rows as [|r rows]; [reflexivity |].
  simpl. now rewrite !map_app.
Qed.

End GreaterThanJoinLoop.

Section GreaterThanPartners.
Import Storage JoinSortMerge.

(** On [>] and [>=], a right row has a partner exactly if its value is
    below the largest value of the left table. *)
Lemma right_matched_below (op : PredicateCondition)
    (table : MaterializedSegmentList) (hi : Z) (y : MaterializedValue) :
  table_sorted table ->
  last_value table (length table) = Returned hi ->
  right_matched op (concat table) y
  = match op with
    | GreaterThan => Z.ltb (value y) hi
    | GreaterThanEquals => Z.leb (value y) hi
    | _ => right_matched op (concat table) y
    end.
Proof.
  intros Hsorted Hhi.
  destruct (last_value_is_greatest table hi Hsorted Hhi)
    as ((x & Hx & Hv) & Hgreatest).
  destruct op; try reflexivity; unfold right_matched;
    apply Bool.eq_iff_eq_true; rewrite existsb_exists;
    cbn [satisfies]; rewrite ?Z.gtb_ltb, ?Z.geb_leb.
  - split.
    + intros (x' & Hx' & H). rewrite Z.gtb_ltb in H.
      apply Z.ltb_lt in H. apply Z.ltb_lt.
      specialize (Hgreatest x' Hx'). lia.
    + intros H. exists x. split; [exact Hx |].
      now rewrite Z.gtb_ltb, Hv.
  - split.
    + intros (x' & Hx' & H). rewrite Z.geb_leb in H.
      apply Z.leb_le in H. apply Z.leb_le.
      specialize (Hgreatest x' Hx'). lia.
    + intros H. exists x. split; [exact Hx |].
      now rewrite Z.geb_leb, Hv.
Qed.

(** On [>] and [>=], a left row has a partner exactly if its value is
    above the smallest value of the right table. *)
Lemma left_matched_above (op : PredicateCondition)
    (table : MaterializedSegmentList) (lo : Z) (x : MaterializedValue) :
  table_sorted table ->
  first_value table = Returned lo ->
  left_matched op (concat table) x
  = match op with
    | GreaterThan => Z.gtb (value x) lo
    | GreaterThanEquals => Z.geb (value x) lo
    | _ => left_matched op (concat table) x
    end.
Proof.
  intros Hsorted Hlo.
  destruct (first_value_is_least table lo Hsorted Hlo)
    as ((y & Hy & Hv) & Hleast).
  destruct op; try reflexivity; unfold left_matched;
    apply Bool.eq_iff_eq_true; rewrite existsb_exists; cbn [satisfies];
    rewrite ?Z.gtb_ltb, ?Z.geb_leb.
  - split.
    + intros (y' & Hy' & H). rewrite Z.gtb_ltb in H.
      apply Z.ltb_lt in H. apply Z.ltb_lt.
      specialize (Hleast y' Hy'). lia.
    + intros H. exists y. split; [exact Hy |].
      now rewrite Z.gtb_ltb, Hv.
  - split.
    + intros (y' & Hy' & H). rewrite Z.geb_leb in H.
      apply Z.leb_le in H. apply Z.leb_le.
      specialize (Hleast y' Hy'). lia.
    + intros H. exists y. split; [exact Hy |].
      now rewrite Z.geb_leb, Hv.
Qed.

End GreaterThanPartners.

Section OuterGreaterThanJoin.
Import Storage JoinSortMerge.

Variable HYRISE_DEBUG : bool.
Variable left_table : Table.
Variable column_ids : ColumnID * ColumnID.
Variable op : PredicateCondition.
Variable mode : JoinMode.
Variable cluster_count : nat.
Variable sort_output : RadixClusterOutput.

Hypothesis some_cluster : 0 < cluster_count.
Hypothesis left_count : length (clusters_left sort_output) = cluster_count.
Hypothesis right_count : length (clusters_right sort_output) = cluster_count.
Hypothesis left_sorted : Forall sorted_by_value (clusters_left sort_output).
Hypothesis right_sorted : Forall sorted_by_value (clusters_right sort_output).
Hypothesis greater : op = GreaterThan \/ op = GreaterThanEquals.
Hypothesis clustered :
  range_clustered (clusters_left sort_output) (clusters_right sort_output).

Lemma greater_is_inequality : op <> Equals.
Proof. destruct greater as [E | E]; rewrite E; discriminate. Qed.

(** [_left_outer_non_equi_join] on [>] and [>=]: if a right row has a
    partner, the right rows behind the last of them, which have none,
    are appended to the lists of cluster 0 with [NULL_ROW_ID] at their
    left. *)
Lemma left_patch_greater end_left end_right out :
  concat (clusters_left sort_output) <> [] ->
  _left_outer_non_equi_join HYRISE_DEBUG
    (merge_impl left_table column_ids op mode cluster_count sort_output
       end_left end_right) out
  = Returned
      (append_pairs out 0
         (if some_pair op (concat (clusters_left sort_output))
               (concat (clusters_right sort_output))
          then unmatched_right op (concat (clusters_left sort_output))
                 (concat (clusters_right sort_output))
          else [])).
Proof.
  intros Hrows. unfold _left_outer_non_equi_join.
  set (impl := merge_impl left_table column_ids op mode cluster_count
                 sort_output end_left end_right).
  destruct (range_clustered_sorted _ _ left_sorted right_sorted clustered)
    as [Hlsorted Hrsorted].
  rewrite (table_min_value_first HYRISE_DEBUG impl greater_is_inequality)
    by (simpl; lia).
  rewrite (table_max_value_last HYRISE_DEBUG impl greater_is_inequality)
    by (simpl; lia).
  destruct (first_value_returns (_sorted_left_table impl) Hrows) as [lo Hlo].
  destruct (last_value_returns (_sorted_left_table impl)
              (length (_sorted_left_table impl)))
    as [hi Hhi]; [lia | now rewrite take_ge by lia |].
  rewrite Hlo, Hhi.
  destruct (end_of_table_returns HYRISE_DEBUG cluster_count sort_output
              some_cluster left_count right_count (_sorted_right_table impl))
    as [e He]; [simpl; lia |].
  rewrite He. run. f_equal. rewrite some_pair_right.
  apply end_of_table_value in He as (last & Hlast & ->).
  cbn [_op _sorted_right_table _sorted_left_table impl merge_impl] in *.
  assert (Hfound : forall condition : Z -> bool,
    downward_closed condition ->
    (forall y, right_matched op (concat (clusters_left sort_output)) y
               = condition (value y)) ->
    match _first_value_that_satisfies_reverse (clusters_right sort_output)
            condition with
    | Some position =>
        _emit_left_null_combinations impl out 0
          (to position
             (mkTablePosition (length (clusters_right sort_output) - 1)
                (length last)))
    | None => out
    end
    = append_pairs out 0
        (if existsb (right_matched op (concat (clusters_left sort_output)))
              (concat (clusters_right sort_output))
         then unmatched_right op (concat (clusters_left sort_output))
                (concat (clusters_right sort_output))
         else [])).
  { intros condition Hdown Hext.
    rewrite (existsb_ext_in _ (fun y => condition (value y)))
      by (intros y _; apply Hext).
    rewrite (first_value_reverse_found condition _ Hdown Hrsorted).
    destruct (_first_value_that_satisfies_reverse (clusters_right sort_output)
                condition) as [position |] eqn:Hposition.
    - rewrite bool_decide_eq_true_2 by eauto.
      rewrite emit_left_null_combinations_pairs. f_equal.
      unfold right_rows, unmatched_right.
      cbn [_sorted_right_table impl merge_impl].
      rewrite (rows_behind_last condition _ position last Hdown Hrsorted
                 Hlast Hposition).
      rewrite map_map. f_equal. apply List.filter_ext.
      intros y. now rewrite Hext.
    - rewrite bool_decide_eq_false_2 by (intros [? ?]; discriminate).
      now rewrite append_pairs_nil. }
  destruct greater as [E | E]; rewrite E in *.
  - apply (Hfound (fun v => Z.ltb v hi)
             (proj1 (below_downward_closed hi))).
    intros y. apply (right_matched_below GreaterThan _ hi y Hlsorted Hhi).
  - apply (Hfound (fun v => Z.leb v hi)
             (proj2 (below_downward_closed hi))).
    intros y.
    apply (right_matched_below GreaterThanEquals _ hi y Hlsorted Hhi).
Qed.

(** [_right_outer_non_equi_join] on [>] and [>=]: if a left row has a
    partner, the left rows in front of the first of them, which have
    none, are appended to the lists of cluster 0 with [NULL_ROW_ID] at
    their right. *)
Lemma right_patch_greater end_left end_right out :
  concat (clusters_right sort_output) <> [] ->
  _right_outer_non_equi_join HYRISE_DEBUG
    (merge_impl left_table column_ids op mode cluster_count sort_output
       end_left end_right) out
  = Returned
      (append_pairs out 0
         (if some_pair op (concat (clusters_left sort_output))
               (concat (clusters_right sort_output))
          then unmatched_left op (concat (clusters_left sort_output))
                 (concat (clusters_right sort_output))
          else [])).
Proof.
  intros Hrows. unfold _right_outer_non_equi_join.
  set (impl := merge_impl left_table column_ids op mode cluster_count
                 sort_output end_left end_right).
  destruct (range_clustered_sorted _ _ left_sorted right_sorted clustered)
    as [Hlsorted Hrsorted].
  rewrite (table_min_value_first HYRISE_DEBUG impl greater_is_inequality)
    by (simpl; lia).
  rewrite (table_max_value_last HYRISE_DEBUG impl greater_is_inequality)
    by (simpl; lia).
  destruct (first_value_returns (_sorted_right_table impl) Hrows) as [lo Hlo].
  destruct (last_value_returns (_sorted_right_table impl)
              (length (_sorted_right_table impl)))
    as [hi Hhi]; [lia | now rewrite take_ge by lia |].
  rewrite Hlo, Hhi.
  destruct (end_of_table_returns HYRISE_DEBUG cluster_count sort_output
              some_cluster left_count right_count (_sorted_left_table impl))
    as [e ->]; [simpl; lia |].
  run. f_equal.
  cbn [_op _sorted_right_table _sorted_left_table impl merge_impl] in *.
  assert (Hfound : forall condition : Z -> bool,
    upward_closed condition ->
    (forall x, left_matched op (concat (clusters_right sort_output)) x
               = condition (value x)) ->
    match _first_value_that_satisfies (clusters_left sort_output) condition with
    | Some position =>
        _emit_right_null_combinations impl out 0
          (to (mkTablePosition 0 0) position)
    | None => out
    end
    = append_pairs out 0
        (if some_pair op (concat (clusters_left sort_output))
              (concat (clusters_right sort_output))
         then unmatched_left op (concat (clusters_left sort_output))
                (concat (clusters_right sort_output))
         else [])).
  { intros condition Hup Hext. unfold some_pair.
    rewrite (existsb_ext_in _ (fun x => condition (value x)))
      by (intros x _; apply Hext).
    rewrite (first_value_found condition _ Hup Hlsorted).
    destruct (_first_value_that_satisfies (clusters_left sort_output)
                condition) as [position |] eqn:Hposition.
    - rewrite bool_decide_eq_true_2 by eauto.
      rewrite emit_right_null_combinations_pairs. f_equal.
      unfold left_rows, unmatched_left.
      cbn [_sorted_left_table impl merge_impl].
      rewrite (rows_before_first condition _ position Hup Hlsorted Hposition).
      rewrite map_map. f_equal. apply List.filter_ext.
      intros x. now rewrite Hext.
    - rewrite bool_decide_eq_false_2 by (intros [? ?]; discriminate).
      now rewrite append_pairs_nil. }
  destruct greater as [E | E]; rewrite E in *.
  - apply (Hfound (fun v => Z.gtb v lo)
             (proj1 (above_upward_closed lo))).
    intros x. apply (left_matched_above GreaterThan _ lo x Hrsorted Hlo).
  - apply (Hfound (fun v => Z.geb v lo)
             (proj2 (above_upward_closed lo))).
    intros x. apply (left_matched_above GreaterThanEquals _ lo x Hrsorted Hlo).
Qed.

End OuterGreaterThanJoin.

Section GreaterThanJoinResult.
Import Storage JoinSortMerge.

Variable HYRISE_DEBUG : bool.
Variable left_table : Table.
Variable column_ids : ColumnID * ColumnID.
Variable op : PredicateCondition.
Variable mode : JoinMode.
Variable cluster_count : nat.
Variable sort_output : RadixClusterOutput.

Hypothesis some_cluster : 0 < cluster_count.
Hypothesis left_count : length (clusters_left sort_output) = cluster_count.
Hypothesis right_count : length (clusters_right sort_output) = cluster_count.
Hypothesis left_sorted : Forall sorted_by_value (clusters_left sort_output).
Hypothesis right_sorted : Forall sorted_by_value (clusters_right sort_output).
Hypothesis greater : op = GreaterThan \/ op = GreaterThanEquals.
Hypothesis clustered :
  range_clustered (clusters_left sort_output) (clusters_right sort_output).

(** The jobs of the clusters, in a mode that keeps pairs. *)
Lemma cluster_jobs_greater end_left end_right :
  mode <> Semi /\ mode <> Anti ->
  _end_of_table HYRISE_DEBUG (clusters_left sort_output) = Returned end_left ->
  exists rows : list (list (RowID * RowID)),
    for_each
      (perform_join_cluster
         (merge_impl left_table column_ids op mode cluster_count sort_output
            end_left end_right))
      (mkOutput (replicate cluster_count []) (replicate cluster_count []))
      (seq 0 cluster_count)
    = Returned (mkOutput (map (map fst) rows) (map (map snd) rows))
    /\ Forall2
         (fun c r =>
            r ≡ₚ theta_rows_by_right op (concat (clusters_left sort_output))
                   (right_cluster_at sort_output c))
         (seq 0 cluster_count) rows.
Proof.
  intros Hpairs Hel.
  apply for_each_cluster_permuted. intros out c Hc Hl Hr.
  apply (perform_join_cluster_greater left_table column_ids op mode
           cluster_count sort_output some_cluster left_count right_count
           left_sorted right_sorted greater Hpairs clustered end_left out c
           (end_of_table_value _ _ _ Hel) end_right Hc Hl Hr).
Qed.

Lemma merge_phase_inner_greater :
  mode = Inner ->
  exists rows : list (list (RowID * RowID)),
    merge_phase HYRISE_DEBUG left_table column_ids op mode cluster_count
      sort_output
    = Returned (mkOutput (map (map fst) rows) (map (map snd) rows))
    /\ Forall2
         (fun c r =>
            r ≡ₚ theta_rows_by_right op (concat (clusters_left sort_output))
                   (right_cluster_at sort_output c))
         (seq 0 cluster_count) rows.
Proof.
  intros Hmode. unfold merge_phase.
  destruct (end_of_table_returns HYRISE_DEBUG cluster_count sort_output
              some_cluster left_count right_count (clusters_left sort_output))
    as [el Hel]; [lia |].
  destruct (end_of_table_returns HYRISE_DEBUG cluster_count sort_output
              some_cluster left_count right_count (clusters_right sort_output))
    as [er ->]; [lia |].
  rewrite Hel. run.
  fold (merge_impl left_table column_ids op mode cluster_count sort_output
          el er).
  unfold _perform_join. cbn [_cluster_count _mode _op merge_impl].
  destruct (cluster_jobs_greater el er
              ltac:(rewrite Hmode; split; discriminate) Hel)
    as (rows & -> & Hrows).
  exists rows. split; [| exact Hrows].
  rewrite Hmode. run. reflexivity.
Qed.

Lemma merge_phase_outer_greater :
  mode = Left \/ mode = Right \/ mode = Outer ->
  (mode <> Right -> concat (clusters_left sort_output) <> []) ->
  (mode <> Left -> concat (clusters_right sort_output) <> []) ->
  exists rows : list (list (RowID * RowID)),
    merge_phase HYRISE_DEBUG left_table column_ids op mode cluster_count
      sort_output
    = Returned
        (mkOutput
           (map (map fst)
              (alter
                 (fun r =>
                    r ++ outer_padding op mode
                           (concat (clusters_left sort_output))
                           (concat (clusters_right sort_output))) 0 rows)
            ++ [map fst (null_rows_pairs mode sort_output)])
           (map (map snd)
              (alter
                 (fun r =>
                    r ++ outer_padding op mode
                           (concat (clusters_left sort_output))
                           (concat (clusters_right sort_output))) 0 rows)
            ++ [map snd (null_rows_pairs mode sort_output)]))
    /\ Forall2
         (fun c r =>
            r ≡ₚ theta_rows_by_right op (concat (clusters_left sort_output))
                   (right_cluster_at sort_output c))
         (seq 0 cluster_count) rows.
Proof.
  intros Houter Hleft Hright. unfold merge_phase.
  destruct (end_of_table_returns HYRISE_DEBUG cluster_count sort_output
              some_cluster left_count right_count (clusters_left sort_output))
    as [el Hel]; [lia |].
  destruct (end_of_table_returns HYRISE_DEBUG cluster_count sort_output
              some_cluster left_count right_count (clusters_right sort_output))
    as [er ->]; [lia |].
  rewrite Hel. run.
  fold (merge_impl left_table column_ids op mode cluster_count sort_output
          el er).
  unfold _perform_join. cbn [_cluster_count _mode _op merge_impl].
  destruct (cluster_jobs_greater el er
              ltac:(destruct Houter as [E | [E | E]]; rewrite E;
                    split; discriminate) Hel)
    as (rows & -> & Hrows).
  exists rows. split; [| exact Hrows].
  run.
  fold (merge_impl left_table column_ids op mode cluster_count sort_output
          el er).
  unfold PredicateCondition_eqb.
  rewrite (bool_decide_eq_false_2 _ (greater_is_inequality op greater)).
  cbn [negb]. rewrite !andb_true_r.
  unfold outer_padding, null_rows_pairs.
  destruct Houter as [E | [E | E]]; rewrite E in *;
    repeat match goal with
    | |- context [JoinMode_eqb ?a ?b] =>
        let v := eval vm_compute in (JoinMode_eqb a b) in
        change (JoinMode_eqb a b) with v
    end;
    cbn [orb].
  - rewrite left_patch_greater
      by (auto || (apply Hleft; discriminate)).
    run. rewrite append_pairs_first_rows.
    cbn [_output_pos_lists_left _output_pos_lists_right].
    rewrite !map_app, !map_map. cbn [fst snd map].
    rewrite map_id, !app_nil_r.
    destruct (some_pair op _ _); rewrite ?app_nil_r; reflexivity.
  - run. rewrite right_patch_greater
      by (auto || (apply Hright; discriminate)).
    run. rewrite append_pairs_first_rows.
    cbn [_output_pos_lists_left _output_pos_lists_right app map].
    rewrite !map_map. cbn [fst snd].
    rewrite map_id. reflexivity.
  - rewrite left_patch_greater
      by (auto || (apply Hleft; discriminate)).
    run. rewrite append_pairs_first_rows.
    rewrite right_patch_greater
      by (auto || (apply Hright; discriminate)).
    run. rewrite append_pairs_first_rows.
    cbn [_output_pos_lists_left _output_pos_lists_right].
    rewrite !map_app, !map_map. cbn [fst snd map].
    rewrite !map_id, !list_alter_alter_eq.
    assert (Halter :
      alter
        ((fun r : list (RowID * RowID) =>
            r ++ (if some_pair op (concat (clusters_left sort_output))
                       (concat (clusters_right sort_output))
                  then unmatched_left op (concat (clusters_left sort_output))
                         (concat (clusters_right sort_output))
                  else []))
         ∘ (fun r : list (RowID * RowID) =>
              r ++ (if some_pair op (concat (clusters_left sort_output))
                         (concat (clusters_right sort_output))
                    then unmatched_right op
                           (concat (clusters_left sort_output))
                           (concat (clusters_right sort_output))
                    else []))) 0 rows
      = alter
          (fun r : list (RowID * RowID) =>
             r ++ (if some_pair op (concat (clusters_left sort_output))
                        (concat (clusters_right sort_output))
                   then unmatched_right op
                          (concat (clusters_left sort_output))
                          (concat (clusters_right sort_output))
                        ++ unmatched_left op
                             (concat (clusters_left sort_output))
                             (concat (clusters_right sort_output))
                   else [])) 0 rows).
    { apply list_alter_ext; [| reflexivity]. intros r _. simpl.
      rewrite <- app_assoc. f_equal.
      destruct (some_pair op _ _); reflexivity. }
    now rewrite Halter.
Qed.

End GreaterThanJoinResult.

Section ThetaJoinRows.
Import Storage JoinSortMerge.

Lemma theta_rows_concat (op : PredicateCondition)
    (clusters : MaterializedSegmentList) (partners : MaterializedSegment) :
  theta_rows op (concat clusters) partners
  = concat (map (fun rows => theta_rows op rows partners) clusters).
Proof.
  induction clusters as [|rows clusters IH]; simpl; [reflexivity |].
  rewrite <- IH. unfold theta_rows. now rewrite map_app, concat_app.
Qed.

Lemma theta_rows_by_right_concat (op : PredicateCondition)
    (rows : MaterializedSegment) (clusters : MaterializedSegmentList) :
  theta_rows_by_right op rows (concat clusters)
  = concat
      (map (fun partners => theta_rows_by_right op rows partners) clusters).
Proof.
  induction clusters as [|partners clusters IH]; simpl; [reflexivity |].
  rewrite <- IH. unfold theta_rows_by_right. now rewrite map_app, concat_app.
Qed.

Lemma concat_map_app {A B : Type} (f g : A -> list B) (k : list A) :
  concat (map (fun y => f y ++ g y) k)
  ≡ₚ concat (map f k) ++ concat (map g k).
Proof.
  induction k as [|y k IH]; simpl; [reflexivity |].
  rewrite IH. solve_Permutation.
Qed.

(** The pairs of a join, ordered by their right rows, are the pairs
    ordered by their left rows. *)
Lemma theta_rows_by_right_rows (op : PredicateCondition)
    (rows partners : MaterializedSegment) :
  theta_rows_by_right op rows partners ≡ₚ theta_rows op rows partners.
Proof.
  induction rows as [|x rows IH].
  - unfold theta_rows_by_right, theta_rows. simpl.
    induction partners as [|y partners IHp]; simpl; [reflexivity | exact IHp].
  - unfold theta_rows at 1. cbn [map concat].
    fold (theta_rows op rows partners). rewrite <- IH.
    unfold theta_rows_by_right.
    transitivity
      (concat
         (map
            (fun y =>
               (if satisfies op (value x) (value y)
                then [(row_id x, row_id y)] else [])
               ++ map (fun x' => (row_id x', row_id y))
                    (List.filter
                       (fun x' => satisfies op (value x') (value y)) rows))
            partners)).
    + apply eq_subrelation; [apply _ |]. f_equal. apply map_ext.
      intros y. simpl. now destruct (satisfies op (value x) (value y)).
    + rewrite concat_map_app. apply Permutation_app; [| reflexivity].
      apply eq_subrelation; [apply _ |]. clear IH.
      induction partners as [|y partners IHp]; simpl; [reflexivity |].
      destruct (satisfies op (value x) (value y)); simpl; now rewrite IHp.
Qed.

Lemma concat_permuted {A : Type} (spec : nat -> list A) (indices : list nat)
    (rows : list (list A)) :
  Forall2 (fun c r => r ≡ₚ spec c) indices rows ->
  concat rows ≡ₚ concat (map spec indices).
Proof.
  induction 1 as [|c r indices rows Hr _ IH]; simpl; [reflexivity |].
  now rewrite Hr, IH.
Qed.

Lemma map_clusters {A : Type} (f : MaterializedSegment -> A)
    (clusters : MaterializedSegmentList) :
  map (fun c => f (default [] (clusters !! c))) (seq 0 (length clusters))
  = map f clusters.
Proof.
  apply list_eq. intros c. rewrite !list_lookup_fmap.
  destruct (Nat.lt_ge_cases c (length clusters)) as [Hc | Hc].
  - rewrite lookup_seq_lt by exact Hc. simpl.
    destruct (lookup_lt_is_Some_2 clusters c Hc) as [s Hs]. now rewrite Hs.
  - rewrite lookup_seq_ge by exact Hc. simpl.
    now rewrite (proj2 (lookup_ge_None clusters c) Hc).
Qed.

(** The pairs of all clusters of a join whose lists are filled by the
    right rows. *)
Lemma by_right_rows_of_clusters (op : PredicateCondition)
    (sort_output : RadixClusterOutput) (cluster_count : nat) :
  length (clusters_right sort_output) = cluster_count ->
  concat
    (map (fun c =>
            theta_rows_by_right op (concat (clusters_left sort_output))
              (right_cluster_at sort_output c))
       (seq 0 cluster_count))
  ≡ₚ theta_rows op (concat (clusters_left sort_output))
       (concat (clusters_right sort_output)).
Proof.
  intros Hr.
  rewrite <- theta_rows_by_right_rows, theta_rows_by_right_concat.
  unfold right_cluster_at. rewrite <- Hr.
  now rewrite (map_clusters
                 (fun partners =>
                    theta_rows_by_right op
                      (concat (clusters_left sort_output)) partners)).
Qed.

End ThetaJoinRows.

Section GreaterThanJoinTheorems.
Import Storage JoinSortMerge.

(** X15: the result of an inner sort-merge join on [>] or [>=].  On
    clusters that are sorted by value and cut at common split values the
    merge returns, and the position lists of cluster [c] hold, side by
    side, the pairs of the rows of the right cluster [c] with every row
    of the whole left table whose join value satisfies the condition:
    every pair of the join once, in the lists of the cluster of its
    right row.  The order of the pairs inside the lists of a cluster is
    left open.  All lists together hold the pairs of the join of the two
    tables. *)
Theorem inner_join_on_greater_than (HYRISE_DEBUG : bool) (left_table : Table)
    (column_ids : ColumnID * ColumnID) (op : PredicateCondition)
    (cluster_count : nat) (sort_output : RadixClusterOutput) :
  op = GreaterThan \/ op = GreaterThanEquals ->
  0 < cluster_count ->
  length (clusters_left sort_output) = cluster_count ->
  length (clusters_right sort_output) = cluster_count ->
  Forall sorted_by_value (clusters_left sort_output) ->
  Forall sorted_by_value (clusters_right sort_output) ->
  range_clustered (clusters_left sort_output) (clusters_right sort_output) ->
  exists rows : list (list (RowID * RowID)),
    merge_phase HYRISE_DEBUG left_table column_ids op Inner cluster_count
      sort_output
    = Returned (mkOutput (map (map fst) rows) (map (map snd) rows))
    /\ Forall2
         (fun c r =>
            r ≡ₚ theta_rows_by_right op (concat (clusters_left sort_output))
                   (right_cluster_at sort_output c))
         (seq 0 cluster_count) rows
    /\ concat rows
       ≡ₚ theta_rows op (concat (clusters_left sort_output))
            (concat (clusters_right sort_output)).
Proof.
  intros Hgreater Hsome Hlc Hrc Hls Hrs Hclustered.
  destruct (merge_phase_inner_greater HYRISE_DEBUG left_table column_ids op
              Inner cluster_count sort_output Hsome Hlc Hrc Hls Hrs Hgreater
              Hclustered eq_refl)
    as (rows & Hmerge & Hrows).
  exists rows. split; [exact Hmerge | split; [exact Hrows |]].
  rewrite (concat_permuted _ _ _ Hrows).
  now apply by_right_rows_of_clusters.
Qed.

Lemma inner_join_on_greater_than_witness :
  Forall sorted_by_value (clusters_left range_clusters)
  /\ Forall sorted_by_value (clusters_right range_clusters)
  /\ range_clustered (clusters_left range_clusters)
       (clusters_right range_clusters)
  /\ exists rows : list (list (RowID * RowID)),
       merge_phase true left_with_padding (0, 0) GreaterThan Inner 2
         range_clusters
       = Returned (mkOutput (map (map fst) rows) (map (map snd) rows))
       /\ Forall2
            (fun c r =>
               r ≡ₚ theta_rows_by_right GreaterThan
                      (concat (clusters_left range_clusters))
                      (right_cluster_at range_clusters c))
            (seq 0 2) rows
       /\ concat rows
          ≡ₚ theta_rows GreaterThan (concat (clusters_left range_clusters))
               (concat (clusters_right range_clusters)).
Proof.
  split; [exact range_clusters_left_sorted |].
  split; [exact range_clusters_right_sorted |].
  split; [exact range_clusters_clustered |].
  exact (inner_join_on_greater_than true left_with_padding (0, 0) GreaterThan
           2 range_clusters (or_introl eq_refl) ltac:(lia) eq_refl eq_refl
           range_clusters_left_sorted range_clusters_right_sorted
           range_clusters_clustered).
Defined.

(** The inner join of the example on [>]: the right row with the value 0
    with the left rows with the values 1 and 3, the right row with the
    value 2 with the left row with the value 3, all in the lists of the
    first cluster. *)
Example inner_join_on_greater_than_of_example :
  merge_phase true left_with_padding (0, 0) GreaterThan Inner 2 range_clusters
  = Returned
      (mkOutput [[mkRowID 0 0; mkRowID 0 1; mkRowID 0 1]; []]
                [[mkRowID 0 0; mkRowID 0 0; mkRowID 0 1]; []]).
Proof. vm_compute. reflexivity. Qed.

(** X16: the result of an outer sort-merge join on [>] or [>=], in mode
    [Left], [Right] or [Outer].  On clusters that are sorted by value and
    cut at common split values, with a row on the side whose extreme
    values the mode reads, the merge returns.  The lists of cluster [c]
    hold the pairs of the rows of the right cluster [c] with their
    partners in the whole left table, as for an inner join, in an order
    that is left open.  If the join
    has at least one pair, the lists of cluster 0 go on with the right
    rows that have no partner, [NULL_ROW_ID] at their left, in mode
    [Left] and [Outer], and then with the left rows that have no
    partner, [NULL_ROW_ID] at their right, in mode [Right] and [Outer];
    if no pair satisfies the condition, no row is padded.  One more pair
    of lists holds the rows with a NULL join value. *)
Theorem outer_join_on_greater_than (HYRISE_DEBUG : bool) (left_table : Table)
    (column_ids : ColumnID * ColumnID) (op : PredicateCondition)
    (mode : JoinMode) (cluster_count : nat)
    (sort_output : RadixClusterOutput) :
  op = GreaterThan \/ op = GreaterThanEquals ->
  mode = Left \/ mode = Right \/ mode = Outer ->
  0 < cluster_count ->
  length (clusters_left sort_output) = cluster_count ->
  length (clusters_right sort_output) = cluster_count ->
  Forall sorted_by_value (clusters_left sort_output) ->
  Forall sorted_by_value (clusters_right sort_output) ->
  range_clustered (clusters_left sort_output) (clusters_right sort_output) ->
  (mode <> Right -> concat (clusters_left sort_output) <> []) ->
  (mode <> Left -> concat (clusters_right sort_output) <> []) ->
  exists rows : list (list (RowID * RowID)),
    merge_phase HYRISE_DEBUG left_table column_ids op mode cluster_count
      sort_output
    = Returned
        (mkOutput
           (map (map fst)
              (alter
                 (fun r =>
                    r ++ outer_padding op mode
                           (concat (clusters_left sort_output))
                           (concat (clusters_right sort_output))) 0 rows)
            ++ [map fst (null_rows_pairs mode sort_output)])
           (map (map snd)
              (alter
                 (fun r =>
                    r ++ outer_padding op mode
                           (concat (clusters_left sort_output))
                           (concat (clusters_right sort_output))) 0 rows)
            ++ [map snd (null_rows_pairs mode sort_output)]))
    /\ Forall2
         (fun c r =>
            r ≡ₚ theta_rows_by_right op (concat (clusters_left sort_output))
                   (right_cluster_at sort_output c))
         (seq 0 cluster_count) rows.
Proof.
  intros Hgreater Houter Hsome Hlc Hrc Hls Hrs Hclustered Hleft Hright.
  now apply merge_phase_outer_greater.
Qed.

Lemma outer_join_on_greater_than_witness :
  Forall sorted_by_value (clusters_left range_clusters)
  /\ Forall sorted_by_value (clusters_right range_clusters)
  /\ range_clustered (clusters_left range_clusters)
       (clusters_right range_clusters)
  /\ exists rows : list (list (RowID * RowID)),
       merge_phase true left_with_padding (0, 0) GreaterThan Outer 2
         range_clusters
       = Returned
           (mkOutput
              (map (map fst)
                 (alter
                    (fun r =>
                       r ++ outer_padding GreaterThan Outer
                              (concat (clusters_left range_clusters))
                              (concat (clusters_right range_clusters))) 0 rows)
               ++ [map fst (null_rows_pairs Outer range_clusters)])
              (map (map snd)
                 (alter
                    (fun r =>
                       r ++ outer_padding GreaterThan Outer
                              (concat (clusters_left range_clusters))
                              (concat (clusters_right range_clusters))) 0 rows)
               ++ [map snd (null_rows_pairs Outer range_clusters)]))
       /\ Forall2
            (fun c r =>
               r ≡ₚ theta_rows_by_right GreaterThan
                      (concat (clusters_left range_clusters))
                      (right_cluster_at range_clusters c))
            (seq 0 2) rows.
Proof.
  assert (Hleft : Outer <> Right -> concat (clusters_left range_clusters) <> [])
    by (intros _; discriminate).
  assert (Hright : Outer <> Left -> concat (clusters_right range_clusters) <> [])
    by (intros _; discriminate).
  split; [exact range_clusters_left_sorted |].
  split; [exact range_clusters_right_sorted |].
  split; [exact range_clusters_clustered |].
  exact (outer_join_on_greater_than true left_with_padding (0, 0) GreaterThan
           Outer 2 range_clusters (or_introl eq_refl)
           (or_intror (or_intror eq_refl)) ltac:(lia) eq_refl eq_refl
           range_clusters_left_sorted range_clusters_right_sorted
           range_clusters_clustered Hleft Hright).
Defined.

(** The outer join of the example on [>].  The right row with the value
    4 has no partner and is padded; every left row has a partner. *)
Example outer_join_on_greater_than_of_example :
  merge_phase true left_with_padding (0, 0) GreaterThan Outer 2 range_clusters
  = Returned
      (mkOutput
         [[mkRowID 0 0; mkRowID 0 1; mkRowID 0 1; NULL_ROW_ID]; [];
          [mkRowID 0 2]]
         [[mkRowID 0 0; mkRowID 0 0; mkRowID 0 1; mkRowID 0 2]; [];
          [NULL_ROW_ID]]).
Proof. vm_compute. reflexivity. Qed.

End GreaterThanJoinTheorems.

(** ** Sort-merge join on [<>]: the pairs of a cluster *)

Section NotEqualsCluster.
Import Storage JoinSortMerge.

Variable left_table : Table.
Variable column_ids : ColumnID * ColumnID.
Variable mode : JoinMode.
Variable cluster_count : nat.
Variable sort_output : RadixClusterOutput.
Variables end_left end_right : TablePosition.

(** The join, and the joins on [<] and on [>] of the same inputs, whose
    pairs it emits. *)
Definition ne_impl : Impl :=
  merge_impl left_table column_ids NotEquals mode cluster_count sort_output
    end_left end_right.
Definition lt_impl : Impl :=
  merge_impl left_table column_ids LessThan mode cluster_count sort_output
    end_left end_right.
Definition gt_impl : Impl :=
  merge_impl left_table column_ids GreaterThan mode cluster_count sort_output
    end_left end_right.

Variable cluster_number : nat.
Variables left_cluster right_cluster : MaterializedSegment.
Hypothesis left_sorted : sorted_by_value left_cluster.
Hypothesis right_sorted : sorted_by_value right_cluster.
Hypothesis left_at :
  clusters_left sort_output !! cluster_number = Some left_cluster.
Hypothesis right_at :
  clusters_right sort_output !! cluster_number = Some right_cluster.
Hypothesis kept : mode <> Semi /\ mode <> Anti.
Hypothesis left_end :
  exists last,
    clusters_left sort_output !! (length (clusters_left sort_output) - 1)
    = Some last
    /\ end_left
       = mkTablePosition (length (clusters_left sort_output) - 1) (length last).
Hypothesis right_end :
  exists last,
    clusters_right sort_output !! (length (clusters_right sort_output) - 1)
    = Some last
    /\ end_right
       = mkTablePosition (length (clusters_right sort_output) - 1)
           (length last).

Lemma ne_pairs_kept : pairs_kept ne_impl = true.
Proof.
  destruct kept as [Hs Ha]. unfold pairs_kept. simpl.
  destruct mode; try reflexivity;
    [now contradiction Hs | now contradiction Ha].
Qed.

(** The pairs of left rows with the right rows above them, and of right
    rows with the left rows above them. *)
Definition below_rows (rows : MaterializedSegment) : list (RowID * RowID) :=
  less_rows lt_impl cluster_number right_cluster rows.
Definition above_rows (rows : MaterializedSegment) : list (RowID * RowID) :=
  greater_rows gt_impl cluster_number left_cluster rows.

(** The rows of the two runs, of the left rows from [s] to the end of the
    left table, and of the right rows from [s] to the end of the right
    table. *)
Definition run_ids (cluster : MaterializedSegment) (s e : nat) : list RowID :=
  map row_id (take (e - s) (drop s cluster)).
Definition left_ids_from (s : nat) : list RowID :=
  map row_id (drop s left_cluster ++ later_left_rows gt_impl cluster_number).
Definition right_ids_from (s : nat) : list RowID :=
  map row_id (drop s right_cluster ++ later_rows lt_impl cluster_number).

Lemma join_runs_not_equals out ls le rs re compare_result :
  _join_runs ne_impl out (cluster_range cluster_number ls le)
    (cluster_range cluster_number rs re) compare_result
  = Returned
      match compare_result with
      | Greater =>
          append_pairs out cluster_number
            (list_prod (left_ids_from ls) (run_ids right_cluster rs re))
      | Equal =>
          append_pairs
            (append_pairs out cluster_number
               (list_prod (left_ids_from le) (run_ids right_cluster rs re)))
            cluster_number
            (list_prod (run_ids left_cluster ls le) (right_ids_from re))
      | Less =>
          append_pairs out cluster_number
            (list_prod (run_ids left_cluster ls le) (right_ids_from rs))
      end.
Proof.
  destruct left_end as (llast & Hllast & Hlend).
  destruct right_end as (rlast & Hrlast & Hrend).
  assert (Hlrange : forall s,
    left_rows ne_impl (to (mkTablePosition cluster_number s) end_left)
    = left_ids_from s).
  { intros s. unfold left_rows, left_ids_from. rewrite Hlend.
    exact (rows_to_end _ _ s _ _ left_at Hllast). }
  assert (Hrrange : forall s,
    right_rows ne_impl (to (mkTablePosition cluster_number s) end_right)
    = right_ids_from s).
  { intros s. unfold right_rows, right_ids_from. rewrite Hrend.
    exact (rows_to_end _ _ s _ _ right_at Hrlast). }
  assert (Hleft :
    left_rows ne_impl (cluster_range cluster_number ls le)
    = run_ids left_cluster ls le).
  { unfold left_rows, run_ids. rewrite for_every_row_id_cluster_range.
    cbn [_sorted_left_table ne_impl merge_impl]. now rewrite left_at. }
  assert (Hright :
    right_rows ne_impl (cluster_range cluster_number rs re)
    = run_ids right_cluster rs re).
  { unfold right_rows, run_ids. rewrite for_every_row_id_cluster_range.
    cbn [_sorted_right_table ne_impl merge_impl]. now rewrite right_at. }
  unfold _join_runs.
  cbn [cluster_range range_start range_end cluster _op ne_impl merge_impl
       _end_of_left_table _end_of_right_table].
  fold ne_impl.
  fold (cluster_range cluster_number ls le).
  fold (cluster_range cluster_number rs re).
  destruct compare_result;
    rewrite !emit_all_combinations_pairs by exact ne_pairs_kept;
    rewrite ?Hlrange, ?Hrrange, ?Hleft, ?Hright; reflexivity.
Qed.

(** The invariant of the merge loop. *)
Definition not_equals_invariant (out0 : Output) (runs : Runs) (out : Output)
    : Prop :=
  (exists pairs,
     out = append_pairs out0 cluster_number pairs
     /\ pairs ≡ₚ below_rows (take (left_run_start runs) left_cluster)
                 ++ above_rows (take (right_run_start runs) right_cluster))
  /\ (forall j y i x,
        j < right_run_start runs -> right_cluster !! j = Some y ->
        left_run_start runs <= i -> left_cluster !! i = Some x ->
        (value y < value x)%Z)
  /\ (forall i x j y,
        i < left_run_start runs -> left_cluster !! i = Some x ->
        right_run_start runs <= j -> right_cluster !! j = Some y ->
        (value x < value y)%Z).

(** The pairs of a range of left rows whose partners on [<] in this
    cluster are the right rows from [s] on. *)
Lemma emitted_below a b s :
  (forall i x j y,
     a <= i < b -> left_cluster !! i = Some x ->
     j < s -> right_cluster !! j = Some y -> (value y <= value x)%Z) ->
  (forall i x j y,
     a <= i < b -> left_cluster !! i = Some x ->
     s <= j -> right_cluster !! j = Some y -> (value x < value y)%Z) ->
  list_prod (run_ids left_cluster a b) (right_ids_from s)
  = below_rows (take (b - a) (drop a left_cluster)).
Proof.
  intros Hbefore Hfrom.
  apply (emitted_less lt_impl cluster_number left_cluster right_cluster a b s).
  - intros i x j y Hi Hx Hj Hy. simpl. apply Z.ltb_ge. eauto.
  - intros i x j y Hi Hx Hj Hy. simpl. apply Z.ltb_lt. eauto.
Qed.

(** The pairs of a range of right rows whose partners on [>] in this
    cluster are the left rows from [s] on. *)
Lemma emitted_above a b s :
  (forall j y i x,
     a <= j < b -> right_cluster !! j = Some y ->
     i < s -> left_cluster !! i = Some x -> (value x <= value y)%Z) ->
  (forall j y i x,
     a <= j < b -> right_cluster !! j = Some y ->
     s <= i -> left_cluster !! i = Some x -> (value y < value x)%Z) ->
  list_prod (left_ids_from s) (run_ids right_cluster a b)
  ≡ₚ above_rows (take (b - a) (drop a right_cluster)).
Proof.
  intros Hbefore Hfrom.
  apply (emitted_greater gt_impl cluster_number left_cluster right_cluster
           a b s).
  - intros j y i x Hj Hy Hi Hx. simpl. rewrite Z.gtb_ltb. apply Z.ltb_ge.
    eauto.
  - intros j y i x Hj Hy Hi Hx. simpl. rewrite Z.gtb_ltb. apply Z.ltb_lt.
    eauto.
Qed.

Lemma below_rows_run s e :
  s <= e ->
  below_rows (take e left_cluster)
  = below_rows (take s left_cluster)
    ++ below_rows (take (e - s) (drop s left_cluster)).
Proof.
  intros Hse. unfold below_rows. rewrite <- less_rows_app.
  f_equal. rewrite take_take_drop. f_equal. lia.
Qed.

Lemma above_rows_run s e :
  s <= e ->
  above_rows (take e right_cluster)
  = above_rows (take s right_cluster)
    ++ above_rows (take (e - s) (drop s right_cluster)).
Proof.
  intros Hse. unfold above_rows. rewrite <- greater_rows_app.
  f_equal. rewrite take_take_drop. f_equal. lia.
Qed.

Lemma not_equals_invariant_step out0 runs out l r out' :
  runs_ok left_cluster right_cluster runs ->
  not_equals_invariant out0 runs out ->
  left_cluster !! left_run_start runs = Some l ->
  right_cluster !! right_run_start runs = Some r ->
  _join_runs ne_impl out (left_run cluster_number runs)
    (right_run cluster_number runs) (_compare (value l) (value r))
  = Returned out' ->
  not_equals_invariant out0 (next_runs left_cluster right_cluster runs l r)
    out'.
Proof.
  intros (Hle & Hre & Hlb & Hrb) ((pairs & Hout & Hpairs) & I1 & I2) Hl Hr
    Hruns.
  unfold left_run, right_run in Hruns.
  rewrite join_runs_not_equals in Hruns.
  pose proof (run_length_spec left_cluster _ l left_sorted Hl) as (L1 & L2 & L3).
  pose proof (run_length_spec right_cluster _ r right_sorted Hr) as (R1 & R2 & R3).
  simpl in L1, L2, L3, R1, R2, R3. rewrite <- Hle in L1, L2, L3.
  rewrite <- Hre in R1, R2, R3.
  assert (Hleft_le : forall i x,
    left_run_start runs <= i -> left_cluster !! i = Some x ->
    (value l <= value x)%Z).
  { intros i x Hi Hx. exact (left_sorted _ _ l x Hi Hl Hx). }
  assert (Hright_le : forall j y,
    right_run_start runs <= j -> right_cluster !! j = Some y ->
    (value r <= value y)%Z).
  { intros j y Hj Hy. exact (right_sorted _ _ r y Hj Hr Hy). }
  unfold next_runs, _compare in *.
  destruct (Z.ltb_spec (value l) (value r)) as [Hlt | Hge].
  - (* Less *)
    injection Hruns as <-. unfold advance_left, not_equals_invariant.
    cbn [left_run_start right_run_start left_run_end right_run_end].
    split; [| split].
    + eexists. split; [rewrite Hout, append_pairs_app; reflexivity |].
      rewrite (emitted_below (left_run_start runs) (left_run_end runs)
                 (right_run_start runs)).
      * rewrite (below_rows_run (left_run_start runs) (left_run_end runs))
          by lia.
        rewrite Hpairs. rewrite <- !app_assoc.
        apply Permutation_app_head, Permutation_app_comm.
      * intros i x j y Hi Hx Hj Hy.
        pose proof (I1 j y i x Hj Hy ltac:(lia) Hx). lia.
      * intros i x j y Hi Hx Hj Hy.
        pose proof (L2 i x Hi Hx). pose proof (Hright_le j y Hj Hy). lia.
    + intros j y i x Hj Hy Hi Hx. apply (I1 j y i x); auto. lia.
    + intros i x j y Hi Hx Hj Hy.
      destruct (Nat.lt_ge_cases i (left_run_start runs)) as [Hb | Hb].
      * apply (I2 i x j y); auto.
      * pose proof (L2 i x ltac:(lia) Hx).
        pose proof (Hright_le j y Hj Hy). lia.
  - destruct (Z.eqb_spec (value l) (value r)) as [Heq | Hne].
    + (* Equal *)
      injection Hruns as <-.
      unfold advance_left, advance_right, not_equals_invariant.
      cbn [left_run_start right_run_start left_run_end right_run_end].
      split; [| split].
      * eexists. split; [rewrite Hout, !append_pairs_app; reflexivity |].
        rewrite (emitted_below (left_run_start runs) (left_run_end runs)
                   (right_run_end runs)).
        -- rewrite (emitted_above (right_run_start runs) (right_run_end runs)
                      (left_run_end runs)).
           ++ rewrite (below_rows_run (left_run_start runs)
                         (left_run_end runs)) by lia.
              rewrite (above_rows_run (right_run_start runs)
                         (right_run_end runs)) by lia.
              rewrite Hpairs. solve_Permutation.
           ++ intros j y i x Hj Hy Hi Hx. pose proof (R2 j y Hj Hy).
              destruct (Nat.lt_ge_cases i (left_run_start runs)) as [Hb | Hb].
              ** pose proof (I2 i x j y Hb Hx ltac:(lia) Hy). lia.
              ** pose proof (L2 i x ltac:(lia) Hx). lia.
           ++ intros j y i x Hj Hy Hi Hx. pose proof (R2 j y Hj Hy).
              pose proof (L3 i x Hi Hx). lia.
        -- intros i x j y Hi Hx Hj Hy. pose proof (L2 i x Hi Hx).
           destruct (Nat.lt_ge_cases j (right_run_start runs)) as [Hb | Hb].
           ++ pose proof (I1 j y i x Hb Hy ltac:(lia) Hx). lia.
           ++ pose proof (R2 j y ltac:(lia) Hy). lia.
        -- intros i x j y Hi Hx Hj Hy. pose proof (L2 i x Hi Hx).
           pose proof (R3 j y Hj Hy). lia.
      * intros j y i x Hj Hy Hi Hx. pose proof (L3 i x Hi Hx).
        destruct (Nat.lt_ge_cases j (right_run_start runs)) as [Hb | Hb].
        -- pose proof (I1 j y i x Hb Hy ltac:(lia) Hx). lia.
        -- pose proof (R2 j y ltac:(lia) Hy). lia.
      * intros i x j y Hi Hx Hj Hy. pose proof (R3 j y Hj Hy).
        destruct (Nat.lt_ge_cases i (left_run_start runs)) as [Hb | Hb].
        -- pose proof (I2 i x j y Hb Hx ltac:(lia) Hy). lia.
        -- pose proof (L2 i x ltac:(lia) Hx). lia.
    + (* Greater *)
      injection Hruns as <-. unfold advance_right, not_equals_invariant.
      cbn [left_run_start right_run_start left_run_end right_run_end].
      split; [| split].
      * eexists. split; [rewrite Hout, append_pairs_app; reflexivity |].
        rewrite (emitted_above (right_run_start runs) (right_run_end runs)
                   (left_run_start runs)).
        -- rewrite (above_rows_run (right_run_start runs)
                      (right_run_end runs)) by lia.
           rewrite Hpairs. now rewrite <- !app_assoc.
        -- intros j y i x Hj Hy Hi Hx.
           pose proof (I2 i x j y Hi Hx ltac:(lia) Hy). lia.
        -- intros j y i x Hj Hy Hi Hx. pose proof (R2 j y Hj Hy).
           pose proof (Hleft_le i x Hi Hx). lia.
      * intros j y i x Hj Hy Hi Hx.
        destruct (Nat.lt_ge_cases j (right_run_start runs)) as [Hb | Hb].
        -- apply (I1 j y i x); auto.
        -- pose proof (R2 j y ltac:(lia) Hy).
           pose proof (Hleft_le i x Hi Hx). lia.
      * intros i x j y Hi Hx Hj Hy. apply (I2 i x j y); auto. lia.
Qed.

(** [_join_cluster] of a join on [<>] appends the pairs of every row of
    the left cluster with the right rows above it, and of every row of
    the right cluster with the left rows above it: every pair once. *)
Lemma join_cluster_not_equals out0 :
  exists pairs,
    _join_cluster ne_impl out0 cluster_number
    = Returned (append_pairs out0 cluster_number pairs)
    /\ pairs ≡ₚ below_rows left_cluster ++ above_rows right_cluster.
Proof.
  unfold _join_cluster.
  cbn [_sorted_left_table _sorted_right_table ne_impl merge_impl].
  rewrite left_at, right_at. run. fold ne_impl.
  destruct (join_cluster_loop_spec ne_impl cluster_number left_cluster
              right_cluster left_sorted right_sorted eq_refl
              (not_equals_invariant out0))
    with (fuel := length left_cluster + length right_cluster)
         (runs := mkRuns 0 (0 + _run_length 0 left_cluster)
                         0 (0 + _run_length 0 right_cluster))
         (out := out0)
    as (runs & out & Hloop & Hok & ((pairs & Hout & Hpairs) & I1 & I2) & Hleft).
  - intros runs out l r out' Hok Hinv Hl Hr Hruns.
    eapply not_equals_invariant_step; eauto.
  - unfold runs_ok. simpl. repeat split; lia.
  - unfold not_equals_invariant. simpl.
    split; [| split; intros; lia].
    exists []. rewrite append_pairs_nil. split; reflexivity.
  - unfold rows_ahead. simpl. lia.
  - rewrite Hloop. run.
    replace (JoinMode_eqb (_mode ne_impl) Anti) with false
      by (symmetry; pose proof ne_pairs_kept as Hk; unfold pairs_kept in Hk;
          apply andb_true_iff in Hk as [_ H]; now apply negb_true_iff in H).
    unfold runs_left in Hleft. destruct Hok as (_ & _ & Hlb & Hrb).
    destruct (Nat.ltb_spec (left_run_start runs) (length left_cluster))
      as [Hl | Hl].
    + destruct (Nat.ltb_spec (right_run_start runs) (length right_cluster))
        as [Hr | Hr]; [discriminate |].
      rewrite join_runs_not_equals. run. eexists. split.
      * rewrite Hout, append_pairs_app. reflexivity.
      * rewrite (emitted_below (left_run_start runs) (length left_cluster)
                   (right_run_start runs)).
        -- rewrite Hpairs.
           rewrite (take_ge right_cluster) by lia.
           rewrite <- (take_drop (left_run_start runs) left_cluster) at 4.
           unfold below_rows at 3. rewrite less_rows_app.
           fold (below_rows (take (left_run_start runs) left_cluster)).
           fold (below_rows (drop (left_run_start runs) left_cluster)).
           rewrite (firstn_all2 (n := length left_cluster
                                      - left_run_start runs))
             by (rewrite length_drop; lia).
           rewrite <- !app_assoc. apply Permutation_app_head.
           apply Permutation_app_comm.
        -- intros i x j y Hi Hx Hj Hy.
           pose proof (I1 j y i x Hj Hy ltac:(lia) Hx). lia.
        -- intros i x j y Hi Hx Hj Hy. apply lookup_lt_Some in Hy. lia.
    + destruct (Nat.ltb_spec (right_run_start runs) (length right_cluster))
        as [Hr | Hr].
      * rewrite join_runs_not_equals. run. eexists. split.
        -- rewrite Hout, append_pairs_app. reflexivity.
        -- rewrite (emitted_above (right_run_start runs)
                      (length right_cluster) (left_run_start runs)).
           ++ rewrite Hpairs.
              rewrite (take_ge left_cluster) by lia.
              rewrite <- (take_drop (right_run_start runs) right_cluster) at 4.
              unfold above_rows at 3. rewrite greater_rows_app.
              fold (above_rows (take (right_run_start runs) right_cluster)).
              fold (above_rows (drop (right_run_start runs) right_cluster)).
              rewrite (firstn_all2 (n := length right_cluster
                                         - right_run_start runs))
                by (rewrite length_drop; lia).
              now rewrite <- !app_assoc.
           ++ intros j y i x Hj Hy Hi Hx.
              pose proof (I2 i x j y Hi Hx ltac:(lia) Hy). lia.
           ++ intros j y i x Hj Hy Hi Hx. apply lookup_lt_Some in Hx. lia.
      * run. exists pairs. split; [now rewrite Hout |].
        now rewrite !take_ge in Hpairs by lia.
Qed.

End NotEqualsCluster.

Section NotEqualsJoin.
Import Storage JoinSortMerge.

Variable HYRISE_DEBUG : bool.
Variable left_table : Table.
Variable column_ids : ColumnID * ColumnID.
Variable cluster_count : nat.
Variable sort_output : RadixClusterOutput.

Hypothesis some_cluster : 0 < cluster_count.
Hypothesis left_count : length (clusters_left sort_output) = cluster_count.
Hypothesis right_count : length (clusters_right sort_output) = cluster_count.
Hypothesis left_sorted : Forall sorted_by_value (clusters_left sort_output).
Hypothesis right_sorted : Forall sorted_by_value (clusters_right sort_output).
Hypothesis clustered :
  range_clustered (clusters_left sort_output) (clusters_right sort_output).

(** The pairs of cluster [c]: the rows of the left cluster with the rows
    of the right table above them, and the rows of the right cluster
    with the rows of the left table above them. *)
Definition not_equals_cluster_rows (c : nat) : list (RowID * RowID) :=
  theta_rows LessThan (left_cluster_at sort_output c)
    (concat (clusters_right sort_output))
  ++ theta_rows_by_right GreaterThan (concat (clusters_left sort_output))
       (right_cluster_at sort_output c).

Lemma perform_join_cluster_not_equals end_left end_right out c :
  (exists last,
     clusters_left sort_output !! (length (clusters_left sort_output) - 1)
     = Some last
     /\ end_left
        = mkTablePosition (length (clusters_left sort_output) - 1)
            (length last)) ->
  (exists last,
     clusters_right sort_output !! (length (clusters_right sort_output) - 1)
     = Some last
     /\ end_right
        = mkTablePosition (length (clusters_right sort_output) - 1)
            (length last)) ->
  c < cluster_count ->
  length (_output_pos_lists_left out) = cluster_count ->
  length (_output_pos_lists_right out) = cluster_count ->
  exists rows,
    perform_join_cluster
      (merge_impl left_table column_ids NotEquals Inner cluster_count
         sort_output end_left end_right) out c
    = Returned
        (mkOutput
           (<[c:=map fst rows]> (_output_pos_lists_left out))
           (<[c:=map snd rows]> (_output_pos_lists_right out)))
    /\ rows ≡ₚ not_equals_cluster_rows c.
Proof.
  intros Hlend Hrend Hc Hleft Hright.
  destruct (cluster_lookups cluster_count sort_output some_cluster left_count
              right_count left_sorted right_sorted c Hc)
    as (Hl & Hr & Hls & Hrs).
  unfold perform_join_cluster.
  cbn [_mode _op merge_impl JoinMode_eqb PredicateCondition_eqb].
  replace ((JoinMode_eqb Inner Inner || JoinMode_eqb Inner Semi)
           && PredicateCondition_eqb NotEquals Equals) with false
    by reflexivity.
  destruct (join_cluster_not_equals left_table column_ids Inner cluster_count
              sort_output end_left end_right c
              (left_cluster_at sort_output c) (right_cluster_at sort_output c)
              Hls Hrs Hl Hr ltac:(split; discriminate) Hlend Hrend
              (mkOutput (<[c:=[]]> (_output_pos_lists_left out))
                        (<[c:=[]]> (_output_pos_lists_right out))))
    as (rows & Hjoin & Hrows).
  exists rows. split.
  - unfold ne_impl in Hjoin. rewrite Hjoin.
    unfold append_pairs. simpl. f_equal. f_equal.
    + rewrite list_insert_alter, list_alter_alter_eq, list_insert_alter.
      apply list_alter_ext; auto.
    + rewrite list_insert_alter, list_alter_alter_eq, list_insert_alter.
      apply list_alter_ext; auto.
  - unfold below_rows, above_rows, lt_impl, gt_impl in Hrows.
    rewrite (less_rows_theta left_table column_ids LessThan Inner
               cluster_count sort_output some_cluster left_count right_count
               (or_introl eq_refl) clustered end_left end_right c _ _ Hl Hr)
      in Hrows.
    rewrite (greater_rows_theta left_table column_ids GreaterThan Inner
               cluster_count sort_output some_cluster left_count right_count
               (or_introl eq_refl) clustered end_left end_right c _ _ Hl Hr)
      in Hrows.
    exact Hrows.
Qed.

Lemma merge_phase_not_equals :
  exists rows : list (list (RowID * RowID)),
    merge_phase HYRISE_DEBUG left_table column_ids NotEquals Inner
      cluster_count sort_output
    = Returned (mkOutput (map (map fst) rows) (map (map snd) rows))
    /\ Forall2 (fun c r => r ≡ₚ not_equals_cluster_rows c)
         (seq 0 cluster_count) rows.
Proof.
  unfold merge_phase.
  destruct (end_of_table_returns HYRISE_DEBUG cluster_count sort_output
              some_cluster left_count right_count (clusters_left sort_output))
    as [el Hel]; [lia |].
  destruct (end_of_table_returns HYRISE_DEBUG cluster_count sort_output
              some_cluster left_count right_count (clusters_right sort_output))
    as [er Her]; [lia |].
  rewrite Hel, Her. run.
  fold (merge_impl left_table column_ids NotEquals Inner cluster_count
          sort_output el er).
  unfold _perform_join. cbn [_cluster_count _mode _op merge_impl].
  destruct (for_each_cluster_permuted
              (perform_join_cluster
                 (merge_impl left_table column_ids NotEquals Inner
                    cluster_count sort_output el er))
              not_equals_cluster_rows cluster_count)
    as (rows & -> & Hrows).
  - intros out c Hc Hl Hr.
    apply perform_join_cluster_not_equals; auto;
      eapply end_of_table_value; eauto.
  - exists rows. split; [| exact Hrows]. run. reflexivity.
Qed.

End NotEqualsJoin.


Section NotEqualsRows.
Import Storage JoinSortMerge.

Lemma filter_below_above (v : Z) (partners : MaterializedSegment) :
  List.filter (fun y => satisfies LessThan v (value y)) partners
  ++ List.filter (fun y => satisfies GreaterThan v (value y)) partners
  ≡ₚ List.filter (fun y => satisfies NotEquals v (value y)) partners.
Proof.
  induction partners as [|y partners IH]; simpl; [reflexivity |].
  rewrite Z.gtb_ltb.
  destruct (Z.ltb_spec v (value y)) as [Hlt | Hge];
    destruct (Z.ltb_spec (value y) v) as [Hgt | Hle];
    destruct (Z.eqb_spec v (value y)) as [Heq | Hne];
    simpl; try lia; rewrite <- IH; solve_Permutation.
Qed.

(** The pairs on [<] and the pairs on [>] are the pairs on [<>]. *)
Lemma theta_rows_not_equals (rows partners : MaterializedSegment) :
  theta_rows LessThan rows partners ++ theta_rows GreaterThan rows partners
  ≡ₚ theta_rows NotEquals rows partners.
Proof.
  induction rows as [|x rows IH]; [reflexivity |].
  unfold theta_rows. cbn [map concat].
  fold (theta_rows LessThan rows partners).
  fold (theta_rows GreaterThan rows partners).
  fold (theta_rows NotEquals rows partners).
  rewrite <- IH, <- (filter_below_above (value x) partners), map_app.
  solve_Permutation.
Qed.

(** The pairs of all clusters of a join on [<>]. *)
Lemma not_equals_rows_of_clusters (sort_output : RadixClusterOutput)
    (cluster_count : nat) :
  length (clusters_left sort_output) = cluster_count ->
  length (clusters_right sort_output) = cluster_count ->
  concat (map (not_equals_cluster_rows sort_output) (seq 0 cluster_count))
  ≡ₚ theta_rows NotEquals (concat (clusters_left sort_output))
       (concat (clusters_right sort_output)).
Proof.
  intros Hl Hr. unfold not_equals_cluster_rows.
  rewrite (concat_map_app
             (fun c => theta_rows LessThan (left_cluster_at sort_output c)
                         (concat (clusters_right sort_output)))).
  rewrite <- theta_rows_not_equals.
  apply Permutation_app.
  - rewrite theta_rows_concat. unfold left_cluster_at. rewrite <- Hl.
    now rewrite (map_clusters
                   (fun rows => theta_rows LessThan rows
                                  (concat (clusters_right sort_output)))).
  - now apply by_right_rows_of_clusters.
Qed.

End NotEqualsRows.

Section NotEqualsJoinResult.
Import Storage JoinSortMerge.

(** X17: the result of an inner sort-merge join on [<>].  On clusters
    that are sorted by value and cut at common split values the merge
    returns, and the position lists of cluster [c] hold, side by side,
    the pairs of the rows of the left cluster [c] with the rows of the
    whole right table that have a larger join value, and the pairs of
    the rows of the right cluster [c] with the rows of the whole left
    table that have a larger join value: every pair of rows with
    different join values once, in the lists of the cluster of its row
    with the smaller value.  The order of the pairs inside the lists of
    a cluster is left open.  All lists together hold the pairs of the
    rows of the two tables whose join values differ. *)
Theorem inner_join_on_not_equals (HYRISE_DEBUG : bool) (left_table : Table)
    (column_ids : ColumnID * ColumnID) (cluster_count : nat)
    (sort_output : RadixClusterOutput) :
  0 < cluster_count ->
  length (clusters_left sort_output) = cluster_count ->
  length (clusters_right sort_output) = cluster_count ->
  Forall sorted_by_value (clusters_left sort_output) ->
  Forall sorted_by_value (clusters_right sort_output) ->
  range_clustered (clusters_left sort_output) (clusters_right sort_output) ->
  exists rows : list (list (RowID * RowID)),
    merge_phase HYRISE_DEBUG left_table column_ids NotEquals Inner
      cluster_count sort_output
    = Returned (mkOutput (map (map fst) rows) (map (map snd) rows))
    /\ Forall2
         (fun c r =>
            r ≡ₚ theta_rows LessThan (left_cluster_at sort_output c)
                   (concat (clusters_right sort_output))
                 ++ theta_rows_by_right GreaterThan
                      (concat (clusters_left sort_output))
                      (right_cluster_at sort_output c))
         (seq 0 cluster_count) rows
    /\ concat rows
       ≡ₚ theta_rows NotEquals (concat (clusters_left sort_output))
            (concat (clusters_right sort_output)).
Proof.
  intros Hsome Hlc Hrc Hls Hrs Hclustered.
  destruct (merge_phase_not_equals HYRISE_DEBUG left_table column_ids
              cluster_count sort_output Hsome Hlc Hrc Hls Hrs Hclustered)
    as (rows & Hmerge & Hrows).
  exists rows. split; [exact Hmerge | split; [exact Hrows |]].
  rewrite (concat_permuted _ _ _ Hrows).
  now apply not_equals_rows_of_clusters.
Qed.

Lemma inner_join_on_not_equals_witness :
  Forall sorted_by_value (clusters_left range_clusters)
  /\ Forall sorted_by_value (clusters_right range_clusters)
  /\ range_clustered (clusters_left range_clusters)
       (clusters_right range_clusters)
  /\ exists rows : list (list (RowID * RowID)),
       merge_phase true left_with_padding (0, 0) NotEquals Inner 2
         range_clusters
       = Returned (mkOutput (map (map fst) rows) (map (map snd) rows))
       /\ Forall2
            (fun c r =>
               r ≡ₚ theta_rows LessThan (left_cluster_at range_clusters c)
                      (concat (clusters_right range_clusters))
                    ++ theta_rows_by_right GreaterThan
                         (concat (clusters_left range_clusters))
                         (right_cluster_at range_clusters c))
            (seq 0 2) rows
       /\ concat rows
          ≡ₚ theta_rows NotEquals (concat (clusters_left range_clusters))
               (concat (clusters_right range_clusters)).
Proof.
  split; [exact range_clusters_left_sorted |].
  split; [exact range_clusters_right_sorted |].
  split; [exact range_clusters_clustered |].
  exact (inner_join_on_not_equals true left_with_padding (0, 0) 2
           range_clusters ltac:(lia) eq_refl eq_refl
           range_clusters_left_sorted range_clusters_right_sorted
           range_clusters_clustered).
Defined.

(** The inner join of the example on [<>]: the left rows have the values
    1 and 3, the right rows the values 0, 2 and 4, and all six pairs are
    in the output. *)
Example inner_join_on_not_equals_of_example :
  merge_phase true left_with_padding (0, 0) NotEquals Inner 2 range_clusters
  = Returned
      (mkOutput
         [[mkRowID 0 0; mkRowID 0 1; mkRowID 0 0; mkRowID 0 0; mkRowID 0 1];
          [mkRowID 0 1]]
         [[mkRowID 0 0; mkRowID 0 0; mkRowID 0 1; mkRowID 0 2; mkRowID 0 1];
          [mkRowID 0 2]]).
Proof. vm_compute. reflexivity. Qed.

End NotEqualsJoinResult.

(** ** Sort-merge join on equality that keeps the right rows *)

Section EquiOuterCluster.
Import Storage JoinSortMerge.

Variable impl : Impl.
Variable cluster_number : nat.
Variables left_cluster right_cluster : MaterializedSegment.
Hypothesis left_sorted : sorted_by_value left_cluster.
Hypothesis right_sorted : sorted_by_value right_cluster.
Hypothesis left_at :
  _sorted_left_table impl !! cluster_number = Some left_cluster.
Hypothesis right_at :
  _sorted_right_table impl !! cluster_number = Some right_cluster.
Hypothesis equi : _op impl = Equals.
Hypothesis kept : pairs_kept impl = true.

Definition pads_right : bool :=
  JoinMode_eqb (_mode impl) Right || JoinMode_eqb (_mode impl) Outer.

(** What a join on equality owes to the rows [rows] of the right
    cluster: those without a partner in the left cluster, with
    [NULL_ROW_ID] at their left, if the mode keeps the right rows. *)
Definition right_pads (rows : MaterializedSegment) : list (RowID * RowID) :=
  if pads_right then unmatched_right Equals left_cluster rows else [].

Lemma right_pads_app rows1 rows2 :
  right_pads (rows1 ++ rows2) = right_pads rows1 ++ right_pads rows2.
Proof.
  unfold right_pads, unmatched_right. destruct pads_right; [| reflexivity].
  now rewrite List.filter_app, map_app.
Qed.

Definition run_rows (cluster : MaterializedSegment) (s e : nat)
    : MaterializedSegment :=
  take (e - s) (drop s cluster).

Lemma join_runs_equi_outer out ls le rs re compare_result :
  _join_runs impl out (cluster_range cluster_number ls le)
    (cluster_range cluster_number rs re) compare_result
  = Returned
      match compare_result with
      | Equal =>
          append_pairs out cluster_number
            (list_prod (map row_id (run_rows left_cluster ls le))
               (map row_id (run_rows right_cluster rs re)))
      | Less =>
          if pads_left impl
          then append_pairs out cluster_number
                 (map (fun x => (row_id x, NULL_ROW_ID))
                    (run_rows left_cluster ls le))
          else out
      | Greater =>
          if pads_right
          then append_pairs out cluster_number
                 (map (fun y => (NULL_ROW_ID, row_id y))
                    (run_rows right_cluster rs re))
          else out
      end.
Proof.
  assert (Hleft :
    left_rows impl (cluster_range cluster_number ls le)
    = map row_id (run_rows left_cluster ls le)).
  { unfold left_rows. now rewrite for_every_row_id_cluster_range, left_at. }
  assert (Hright :
    right_rows impl (cluster_range cluster_number rs re)
    = map row_id (run_rows right_cluster rs re)).
  { unfold right_rows. now rewrite for_every_row_id_cluster_range, right_at. }
  unfold _join_runs. rewrite equi.
  cbn [cluster_range range_start range_end cluster].
  fold (cluster_range cluster_number ls le).
  fold (cluster_range cluster_number rs re).
  unfold pads_left, pads_right.
  destruct compare_result.
  - destruct (_ || _); [| reflexivity].
    now rewrite emit_right_null_combinations_pairs, Hleft, map_map.
  - destruct (_ || _); [| reflexivity].
    now rewrite emit_left_null_combinations_pairs, Hright, map_map.
  - now rewrite emit_all_combinations_pairs, Hleft, Hright by exact kept.
Qed.

(** The rows of a range of the left cluster that have no partner. *)
Lemma left_rows_unmatched a b :
  (forall i x j y,
     a <= i < b -> left_cluster !! i = Some x ->
     right_cluster !! j = Some y -> value y <> value x) ->
  (if pads_left impl
   then map (fun x => (row_id x, NULL_ROW_ID)) (run_rows left_cluster a b)
   else [])
  = equi_rows (pads_left impl) (run_rows left_cluster a b) right_cluster.
Proof.
  intros Hno. unfold equi_rows.
  transitivity
    (concat
       (map (fun x => if pads_left impl then [(row_id x, NULL_ROW_ID)] else [])
          (run_rows left_cluster a b))).
  - destruct (pads_left impl).
    + now rewrite <- concat_map_singleton.
    + induction (run_rows left_cluster a b) as [|x l IH]; simpl; auto.
  - apply concat_map_ext_lookup. intros k x Hk.
    apply lookup_run in Hk as [Hx Hk]. symmetry. apply no_partner.
    intros j y Hy. exact (Hno _ x j y Hk Hx Hy).
Qed.

(** The rows of a range of the right cluster that have no partner. *)
Lemma right_rows_unmatched a b :
  (forall j y i x,
     a <= j < b -> right_cluster !! j = Some y ->
     left_cluster !! i = Some x -> value x <> value y) ->
  (if pads_right
   then map (fun y => (NULL_ROW_ID, row_id y)) (run_rows right_cluster a b)
   else [])
  = right_pads (run_rows right_cluster a b).
Proof.
  intros Hno. unfold right_pads, unmatched_right.
  destruct pads_right; [| reflexivity]. f_equal. symmetry.
  apply filter_all. intros k y Hk. apply lookup_run in Hk as [Hy Hk].
  apply negb_true_iff. unfold right_matched.
  apply not_true_is_false. intros H.
  apply existsb_exists in H as (x & Hx & Heq).
  apply list_elem_of_In, list_elem_of_lookup in Hx as [i Hi].
  simpl in Heq. apply Z.eqb_eq in Heq.
  exact (Hno _ y i x Hk Hy Hi Heq).
Qed.

(** The rows of a range of the right cluster that have a partner. *)
Lemma right_rows_matched a b :
  (forall j y,
     a <= j < b -> right_cluster !! j = Some y ->
     exists i x, left_cluster !! i = Some x /\ value x = value y) ->
  right_pads (run_rows right_cluster a b) = [].
Proof.
  intros Hsome. unfold right_pads, unmatched_right.
  destruct pads_right; [| reflexivity].
  rewrite filter_none; [reflexivity |].
  intros k y Hk. apply lookup_run in Hk as [Hy Hk].
  apply negb_false_iff. unfold right_matched. apply existsb_exists.
  destruct (Hsome _ y Hk Hy) as (i & x & Hx & Heq).
  exists x. split.
  - apply list_elem_of_In. eapply list_elem_of_lookup_2. exact Hx.
  - simpl. now apply Z.eqb_eq.
Qed.

(** The pairs of a left run whose value is the one of the right run. *)
Lemma runs_matched ls le rs re :
  rs < re <= length right_cluster ->
  (forall i x j y,
     ls <= i < le -> left_cluster !! i = Some x ->
     rs <= j < re -> right_cluster !! j = Some y -> value y = value x) ->
  (forall i x j y,
     ls <= i < le -> left_cluster !! i = Some x ->
     j < rs -> right_cluster !! j = Some y -> (value y < value x)%Z) ->
  (forall i x j y,
     ls <= i < le -> left_cluster !! i = Some x ->
     re <= j -> right_cluster !! j = Some y -> (value x < value y)%Z) ->
  list_prod (map row_id (run_rows left_cluster ls le))
    (map row_id (run_rows right_cluster rs re))
  = equi_rows (pads_left impl) (run_rows left_cluster ls le) right_cluster.
Proof.
  intros Hb Hin Hbefore Hafter. rewrite list_prod_map. unfold equi_rows.
  apply concat_map_ext_lookup. intros k x Hk.
  apply lookup_run in Hk as [Hx Hk]. symmetry.
  apply (partners_in_run impl right_cluster x rs re Hb).
  - intros j y Hj Hy. exact (Hin _ x j y Hk Hx Hj Hy).
  - intros j y Hj Hy. exact (Hbefore _ x j y Hk Hx Hj Hy).
  - intros j y Hj Hy. exact (Hafter _ x j y Hk Hx Hj Hy).
Qed.

(** The invariant of the merge loop. *)
Definition equi_outer_invariant (out0 : Output) (runs : Runs) (out : Output)
    : Prop :=
  (exists pairs,
     out = append_pairs out0 cluster_number pairs
     /\ pairs ≡ₚ equi_rows (pads_left impl)
                   (take (left_run_start runs) left_cluster) right_cluster
                 ++ right_pads (take (right_run_start runs) right_cluster))
  /\ (forall j y i x,
        j < right_run_start runs -> right_cluster !! j = Some y ->
        left_run_start runs <= i -> left_cluster !! i = Some x ->
        (value y < value x)%Z)
  /\ (forall i x j y,
        i < left_run_start runs -> left_cluster !! i = Some x ->
        right_run_start runs <= j -> right_cluster !! j = Some y ->
        (value x < value y)%Z).

Lemma equi_rows_run s e :
  s <= e ->
  equi_rows (pads_left impl) (take e left_cluster) right_cluster
  = equi_rows (pads_left impl) (take s left_cluster) right_cluster
    ++ equi_rows (pads_left impl) (run_rows left_cluster s e) right_cluster.
Proof.
  intros Hse. rewrite <- equi_rows_app. f_equal. unfold run_rows.
  rewrite take_take_drop. f_equal. lia.
Qed.

Lemma right_pads_run s e :
  s <= e ->
  right_pads (take e right_cluster)
  = right_pads (take s right_cluster)
    ++ right_pads (run_rows right_cluster s e).
Proof.
  intros Hse. rewrite <- right_pads_app. f_equal. unfold run_rows.
  rewrite take_take_drop. f_equal. lia.
Qed.

Lemma append_pairs_if (b : bool) out pairs :
  (if b then append_pairs out cluster_number pairs else out)
  = append_pairs out cluster_number (if b then pairs else []).
Proof. destruct b; [reflexivity | now rewrite append_pairs_nil]. Qed.

Lemma equi_outer_invariant_step out0 runs out l r out' :
  runs_ok left_cluster right_cluster runs ->
  equi_outer_invariant out0 runs out ->
  left_cluster !! left_run_start runs = Some l ->
  right_cluster !! right_run_start runs = Some r ->
  _join_runs impl out (left_run cluster_number runs)
    (right_run cluster_number runs) (_compare (value l) (value r))
  = Returned out' ->
  equi_outer_invariant out0 (next_runs left_cluster right_cluster runs l r)
    out'.
Proof.
  intros (Hle & Hre & Hlb & Hrb) ((pairs & Hout & Hpairs) & I1 & I2) Hl Hr
    Hruns.
  unfold left_run, right_run in Hruns.
  rewrite join_runs_equi_outer in Hruns.
  pose proof (run_length_spec left_cluster _ l left_sorted Hl) as (L1 & L2 & L3).
  pose proof (run_length_spec right_cluster _ r right_sorted Hr) as (R1 & R2 & R3).
  simpl in L1, L2, L3, R1, R2, R3. rewrite <- Hle in L1, L2, L3.
  rewrite <- Hre in R1, R2, R3.
  assert (Hleft_le : forall i x,
    left_run_start runs <= i -> left_cluster !! i = Some x ->
    (value l <= value x)%Z).
  { intros i x Hi Hx. exact (left_sorted _ _ l x Hi Hl Hx). }
  assert (Hright_le : forall j y,
    right_run_start runs <= j -> right_cluster !! j = Some y ->
    (value r <= value y)%Z).
  { intros j y Hj Hy. exact (right_sorted _ _ r y Hj Hr Hy). }
  unfold next_runs, _compare in *.
  destruct (Z.ltb_spec (value l) (value r)) as [Hlt | Hge].
  - (* Less *)
    rewrite append_pairs_if in Hruns. injection Hruns as <-.
    unfold advance_left, equi_outer_invariant.
    cbn [left_run_start right_run_start left_run_end right_run_end].
    split; [| split].
    + eexists. split; [rewrite Hout, append_pairs_app; reflexivity |].
      rewrite (left_rows_unmatched (left_run_start runs) (left_run_end runs)).
      * rewrite (equi_rows_run (left_run_start runs) (left_run_end runs))
          by lia.
        rewrite Hpairs. solve_Permutation.
      * intros i x j y Hi Hx Hy. pose proof (L2 i x Hi Hx).
        destruct (Nat.lt_ge_cases j (right_run_start runs)) as [Hb | Hb].
        -- pose proof (I1 j y i x Hb Hy ltac:(lia) Hx). lia.
        -- pose proof (Hright_le j y Hb Hy). lia.
    + intros j y i x Hj Hy Hi Hx. apply (I1 j y i x); auto. lia.
    + intros i x j y Hi Hx Hj Hy.
      destruct (Nat.lt_ge_cases i (left_run_start runs)) as [Hb | Hb].
      * apply (I2 i x j y); auto.
      * pose proof (L2 i x ltac:(lia) Hx).
        pose proof (Hright_le j y Hj Hy). lia.
  - destruct (Z.eqb_spec (value l) (value r)) as [Heq | Hne].
    + (* Equal *)
      injection Hruns as <-.
      unfold advance_left, advance_right, equi_outer_invariant.
      cbn [left_run_start right_run_start left_run_end right_run_end].
      split; [| split].
      * eexists. split; [rewrite Hout, append_pairs_app; reflexivity |].
        rewrite (runs_matched (left_run_start runs) (left_run_end runs)
                   (right_run_start runs) (right_run_end runs)).
        -- rewrite (equi_rows_run (left_run_start runs) (left_run_end runs))
             by lia.
           rewrite (right_pads_run (right_run_start runs)
                      (right_run_end runs)) by lia.
           rewrite (right_rows_matched (right_run_start runs)
                      (right_run_end runs)).
           ++ rewrite Hpairs, app_nil_r. solve_Permutation.
           ++ intros j y Hj Hy. exists (left_run_start runs), l.
              split; [exact Hl |]. rewrite (R2 j y Hj Hy). exact Heq.
        -- lia.
        -- intros i x j y Hi Hx Hj Hy.
           rewrite (L2 i x Hi Hx), (R2 j y Hj Hy). now symmetry.
        -- intros i x j y Hi Hx Hj Hy.
           pose proof (I1 j y i x Hj Hy ltac:(lia) Hx). lia.
        -- intros i x j y Hi Hx Hj Hy. pose proof (L2 i x Hi Hx).
           pose proof (R3 j y Hj Hy). lia.
      * intros j y i x Hj Hy Hi Hx. pose proof (L3 i x Hi Hx).
        destruct (Nat.lt_ge_cases j (right_run_start runs)) as [Hb | Hb].
        -- pose proof (I1 j y i x Hb Hy ltac:(lia) Hx). lia.
        -- pose proof (R2 j y ltac:(lia) Hy). lia.
      * intros i x j y Hi Hx Hj Hy. pose proof (R3 j y Hj Hy).
        destruct (Nat.lt_ge_cases i (left_run_start runs)) as [Hb | Hb].
        -- pose proof (I2 i x j y Hb Hx ltac:(lia) Hy). lia.
        -- pose proof (L2 i x ltac:(lia) Hx). lia.
    + (* Greater *)
      rewrite append_pairs_if in Hruns. injection Hruns as <-.
      unfold advance_right, equi_outer_invariant.
      cbn [left_run_start right_run_start left_run_end right_run_end].
      split; [| split].
      * eexists. split; [rewrite Hout, append_pairs_app; reflexivity |].
        rewrite (right_rows_unmatched (right_run_start runs)
                   (right_run_end runs)).
        -- rewrite (right_pads_run (right_run_start runs)
                      (right_run_end runs)) by lia.
           rewrite Hpairs. solve_Permutation.
        -- intros j y i x Hj Hy Hx. pose proof (R2 j y Hj Hy).
           destruct (Nat.lt_ge_cases i (left_run_start runs)) as [Hb | Hb].
           ++ pose proof (I2 i x j y Hb Hx ltac:(lia) Hy). lia.
           ++ pose proof (Hleft_le i x Hb Hx). lia.
      * intros j y i x Hj Hy Hi Hx.
        destruct (Nat.lt_ge_cases j (right_run_start runs)) as [Hb | Hb].
        -- apply (I1 j y i x); auto.
        -- pose proof (R2 j y ltac:(lia) Hy).
           pose proof (Hleft_le i x Hi Hx). lia.
      * intros i x j y Hi Hx Hj Hy. apply (I2 i x j y); auto. lia.
Qed.

(** [_join_cluster] of a join on equality appends what the join owes to
    the rows of the left cluster and to the rows of the right cluster:
    the pairs of equal join values, the left rows without partner if the
    mode keeps the left rows, the right rows without partner if it keeps
    the right rows. *)
Lemma join_cluster_equi_outer out0 :
  exists pairs,
    _join_cluster impl out0 cluster_number
    = Returned (append_pairs out0 cluster_number pairs)
    /\ pairs ≡ₚ equi_rows (pads_left impl) left_cluster right_cluster
                ++ right_pads right_cluster.
Proof.
  unfold _join_cluster. rewrite left_at, right_at. run.
  destruct (join_cluster_loop_spec impl cluster_number left_cluster
              right_cluster left_sorted right_sorted
              ltac:(now rewrite equi)
              (equi_outer_invariant out0))
    with (fuel := length left_cluster + length right_cluster)
         (runs := mkRuns 0 (0 + _run_length 0 left_cluster)
                         0 (0 + _run_length 0 right_cluster))
         (out := out0)
    as (runs & out & Hloop & Hok & ((pairs & Hout & Hpairs) & I1 & I2) & Hleft).
  - intros runs out l r out' Hok Hinv Hl Hr Hruns.
    eapply equi_outer_invariant_step; eauto.
  - unfold runs_ok. simpl. repeat split; lia.
  - unfold equi_outer_invariant. simpl.
    split; [| split; intros; lia].
    exists []. rewrite append_pairs_nil. split; [reflexivity |].
    unfold right_pads, unmatched_right. now destruct pads_right.
  - unfold rows_ahead. simpl. lia.
  - rewrite Hloop. run.
    replace (JoinMode_eqb (_mode impl) Anti) with false
      by (symmetry; unfold pairs_kept in kept;
          apply andb_true_iff in kept as [_ H]; now apply negb_true_iff in H).
    unfold runs_left in Hleft. destruct Hok as (_ & _ & Hlb & Hrb).
    destruct (Nat.ltb_spec (left_run_start runs) (length left_cluster))
      as [Hl | Hl].
    + destruct (Nat.ltb_spec (right_run_start runs) (length right_cluster))
        as [Hr | Hr]; [discriminate |].
      rewrite join_runs_equi_outer, append_pairs_if. run. eexists. split.
      * rewrite Hout, append_pairs_app. reflexivity.
      * rewrite (left_rows_unmatched (left_run_start runs)
                   (length left_cluster)).
        -- rewrite Hpairs, (take_ge right_cluster) by lia.
           rewrite <- (take_drop (left_run_start runs) left_cluster) at 4.
           rewrite equi_rows_app. unfold run_rows.
           rewrite (firstn_all2 (n := length left_cluster
                                      - left_run_start runs))
             by (rewrite length_drop; lia).
           solve_Permutation.
        -- intros i x j y Hi Hx Hy.
           pose proof (lookup_lt_Some _ _ _ Hy).
           pose proof (I1 j y i x ltac:(lia) Hy ltac:(lia) Hx). lia.
    + destruct (Nat.ltb_spec (right_run_start runs) (length right_cluster))
        as [Hr | Hr].
      * rewrite join_runs_equi_outer, append_pairs_if. run. eexists. split.
        -- rewrite Hout, append_pairs_app. reflexivity.
        -- rewrite (right_rows_unmatched (right_run_start runs)
                      (length right_cluster)).
           ++ assert (Hwhole :
                right_pads right_cluster
                = right_pads (take (right_run_start runs) right_cluster)
                  ++ right_pads (drop (right_run_start runs) right_cluster))
                by now rewrite <- right_pads_app, take_drop.
              rewrite Hpairs, (take_ge left_cluster), Hwhole by lia.
              unfold run_rows.
              rewrite (firstn_all2 (n := length right_cluster
                                         - right_run_start runs))
                by (rewrite length_drop; lia).
              now rewrite <- !app_assoc.
           ++ intros j y i x Hj Hy Hx.
              pose proof (lookup_lt_Some _ _ _ Hx).
              pose proof (I2 i x j y ltac:(lia) Hx ltac:(lia) Hy). lia.
      * run. exists pairs. split; [now rewrite Hout |].
        now rewrite !take_ge in Hpairs by lia.
Qed.

End EquiOuterCluster.

Section EquiOuterJoin.
Import Storage JoinSortMerge.

Variable HYRISE_DEBUG : bool.
Variable left_table : Table.
Variable column_ids : ColumnID * ColumnID.
Variable mode : JoinMode.
Variable cluster_count : nat.
Variable sort_output : RadixClusterOutput.

Hypothesis some_cluster : 0 < cluster_count.
Hypothesis left_count : length (clusters_left sort_output) = cluster_count.
Hypothesis right_count : length (clusters_right sort_output) = cluster_count.
Hypothesis left_sorted : Forall sorted_by_value (clusters_left sort_output).
Hypothesis right_sorted : Forall sorted_by_value (clusters_right sort_output).
Hypothesis right_kept : mode = Right \/ mode = Outer.

(** The pairs of cluster [c]. *)
Definition equi_outer_cluster_rows (c : nat) : list (RowID * RowID) :=
  equi_rows (JoinMode_eqb mode Outer) (left_cluster_at sort_output c)
    (right_cluster_at sort_output c)
  ++ unmatched_right Equals (left_cluster_at sort_output c)
       (right_cluster_at sort_output c).

Lemma perform_join_cluster_equi_outer end_left end_right out c :
  c < cluster_count ->
  length (_output_pos_lists_left out) = cluster_count ->
  length (_output_pos_lists_right out) = cluster_count ->
  exists rows,
    perform_join_cluster
      (merge_impl left_table column_ids Equals mode cluster_count
         sort_output end_left end_right) out c
    = Returned
        (mkOutput
           (<[c:=map fst rows]> (_output_pos_lists_left out))
           (<[c:=map snd rows]> (_output_pos_lists_right out)))
    /\ rows ≡ₚ equi_outer_cluster_rows c.
Proof.
  intros Hc Hleft Hright.
  destruct (cluster_lookups cluster_count sort_output some_cluster left_count
              right_count left_sorted right_sorted c Hc)
    as (Hl & Hr & Hls & Hrs).
  set (impl := merge_impl left_table column_ids Equals mode cluster_count
                 sort_output end_left end_right).
  unfold perform_join_cluster. fold impl.
  replace ((JoinMode_eqb (_mode impl) Inner || JoinMode_eqb (_mode impl) Semi)
           && PredicateCondition_eqb (_op impl) Equals) with false
    by (simpl; destruct right_kept as [-> | ->]; reflexivity).
  assert (Hkept : pairs_kept impl = true).
  { unfold pairs_kept. simpl. destruct right_kept as [-> | ->]; reflexivity. }
  destruct (join_cluster_equi_outer impl c (left_cluster_at sort_output c)
              (right_cluster_at sort_output c) Hls Hrs Hl Hr eq_refl Hkept
              (mkOutput (<[c:=[]]> (_output_pos_lists_left out))
                        (<[c:=[]]> (_output_pos_lists_right out))))
    as (rows & Hjoin & Hrows).
  exists rows. split.
  - rewrite Hjoin. unfold append_pairs. simpl. f_equal. f_equal.
    + rewrite list_insert_alter, list_alter_alter_eq, list_insert_alter.
      apply list_alter_ext; auto.
    + rewrite list_insert_alter, list_alter_alter_eq, list_insert_alter.
      apply list_alter_ext; auto.
  - rewrite Hrows. unfold equi_outer_cluster_rows, right_pads, pads_right,
      pads_left. simpl.
    destruct right_kept as [-> | ->]; reflexivity.
Qed.

Lemma merge_phase_equi_outer :
  exists rows : list (list (RowID * RowID)),
    merge_phase HYRISE_DEBUG left_table column_ids Equals mode cluster_count
      sort_output
    = Returned
        (mkOutput
           (map (map fst) rows ++ [map fst (null_rows_pairs mode sort_output)])
           (map (map snd) rows ++ [map snd (null_rows_pairs mode sort_output)]))
    /\ Forall2 (fun c r => r ≡ₚ equi_outer_cluster_rows c)
         (seq 0 cluster_count) rows.
Proof.
  unfold merge_phase.
  destruct (end_of_table_returns HYRISE_DEBUG cluster_count sort_output
              some_cluster left_count right_count (clusters_left sort_output))
    as [el ->]; [lia |].
  destruct (end_of_table_returns HYRISE_DEBUG cluster_count sort_output
              some_cluster left_count right_count (clusters_right sort_output))
    as [er ->]; [lia |].
  run.
  fold (merge_impl left_table column_ids Equals mode cluster_count
          sort_output el er).
  unfold _perform_join. cbn [_cluster_count _mode _op merge_impl].
  destruct (for_each_cluster_permuted
              (perform_join_cluster
                 (merge_impl left_table column_ids Equals mode
                    cluster_count sort_output el er))
              equi_outer_cluster_rows cluster_count)
    as (rows & -> & Hrows).
  - intros out c Hc Hl Hr. now apply perform_join_cluster_equi_outer.
  - exists rows. split; [| exact Hrows].
    replace (PredicateCondition_eqb Equals Equals) with true by reflexivity.
    cbn [negb]. rewrite !andb_false_r. run.
    unfold null_rows_pairs.
    destruct right_kept as [E | E]; rewrite E;
      repeat match goal with
      | |- context [JoinMode_eqb ?a ?b] =>
          let v := eval vm_compute in (JoinMode_eqb a b) in
          change (JoinMode_eqb a b) with v
      end;
      cbn [orb app map]; rewrite ?map_app, !map_map; cbn [fst snd];
      rewrite ?map_id; reflexivity.
Qed.

End EquiOuterJoin.

Section EquiOuterJoinResult.
Import Storage JoinSortMerge.

(** X18: the result of a right outer and of a full outer sort-merge join
    on equality.  On clusters that are sorted by value the merge
    returns, and the position lists of cluster [c] hold, side by side:
    for every row of the left cluster [c] its pairs with the rows of the
    right cluster [c] that have the same join value, or, in mode [Outer]
    and if there is none, the row with [NULL_ROW_ID] at its right; and
    every row of the right cluster [c] that has no partner in the left
    cluster, with [NULL_ROW_ID] at its left.  The order of the pairs
    inside the lists of a cluster is left open.  One more pair of lists
    holds the rows with a NULL join value. *)
Theorem right_outer_equi_join_pairs (HYRISE_DEBUG : bool) (left_table : Table)
    (column_ids : ColumnID * ColumnID) (mode : JoinMode)
    (cluster_count : nat) (sort_output : RadixClusterOutput) :
  mode = Right \/ mode = Outer ->
  0 < cluster_count ->
  length (clusters_left sort_output) = cluster_count ->
  length (clusters_right sort_output) = cluster_count ->
  Forall sorted_by_value (clusters_left sort_output) ->
  Forall sorted_by_value (clusters_right sort_output) ->
  exists rows : list (list (RowID * RowID)),
    merge_phase HYRISE_DEBUG left_table column_ids Equals mode cluster_count
      sort_output
    = Returned
        (mkOutput
           (map (map fst) rows ++ [map fst (null_rows_pairs mode sort_output)])
           (map (map snd) rows ++ [map snd (null_rows_pairs mode sort_output)]))
    /\ Forall2
         (fun c r =>
            r ≡ₚ equi_rows (JoinMode_eqb mode Outer)
                   (left_cluster_at sort_output c)
                   (right_cluster_at sort_output c)
                 ++ unmatched_right Equals (left_cluster_at sort_output c)
                      (right_cluster_at sort_output c))
         (seq 0 cluster_count) rows.
Proof.
  intros Hmode Hsome Hlc Hrc Hls Hrs.
  now apply merge_phase_equi_outer.
Qed.

Lemma right_outer_equi_join_pairs_witness :
  Forall sorted_by_value (clusters_left equi_clusters)
  /\ Forall sorted_by_value (clusters_right equi_clusters)
  /\ exists rows : list (list (RowID * RowID)),
       merge_phase true equi_left_input (0, 0) Equals Outer 2 equi_clusters
       = Returned
           (mkOutput
              (map (map fst) rows
               ++ [map fst (null_rows_pairs Outer equi_clusters)])
              (map (map snd) rows
               ++ [map snd (null_rows_pairs Outer equi_clusters)]))
       /\ Forall2
            (fun c r =>
               r ≡ₚ equi_rows (JoinMode_eqb Outer Outer)
                      (left_cluster_at equi_clusters c)
                      (right_cluster_at equi_clusters c)
                    ++ unmatched_right Equals
                         (left_cluster_at equi_clusters c)
                         (right_cluster_at equi_clusters c))
            (seq 0 2) rows.
Proof.
  split; [exact equi_clusters_left_sorted |].
  split; [exact equi_clusters_right_sorted |].
  exact (right_outer_equi_join_pairs true equi_left_input (0, 0) Outer 2
           equi_clusters (or_intror eq_refl) ltac:(lia) eq_refl eq_refl
           equi_clusters_left_sorted equi_clusters_right_sorted).
Defined.

(** The full outer join of the example on equality: the left row with
    the value 1 and the right row with the value 5 have no partner and
    are padded, the left row with the value 2 has two partners, and the
    left row with the NULL value comes last. *)
Example outer_equi_join_of_example :
  merge_phase true equi_left_input (0, 0) Equals Outer 2 equi_clusters
  = Returned
      (mkOutput
         [[mkRowID 0 0; mkRowID 0 1; mkRowID 0 1]; [NULL_ROW_ID];
          [mkRowID 0 2]]
         [[NULL_ROW_ID; mkRowID 0 0; mkRowID 0 1]; [mkRowID 0 2];
          [NULL_ROW_ID]]).
Proof. vm_compute. reflexivity. Qed.

End EquiOuterJoinResult.

(** ** Executing tasks: every task runs once *)

Section TaskExecutionProperties.
Import Task TaskExecution.

Variable HYRISE_DEBUG : bool.

(** A task that [execute] can start. *)
Definition startable (t : AbstractTask) : bool :=
  TaskState_eqb (_state t) Scheduled
  || TaskState_eqb (_state t) AssignedToWorker.

Definition startable_count (w : Tasks) : nat :=
  length (List.filter startable (store w)).

Definition state_of (w : Tasks) (t : TaskID) : option TaskState :=
  _state <$> store w !! t.

(** The tasks whose [_on_execute] a sequence of calls holds. *)
Fixpoint executed (calls : list Event) : list TaskID :=
  match calls with
  | [] => []
  | on_execute t :: rest => t :: executed rest
  | _ :: rest => executed rest
  end.

Lemma executed_app calls1 calls2 :
  executed (calls1 ++ calls2) = executed calls1 ++ executed calls2.
Proof.
  induction calls1 as [|[t | t | t] calls1 IH]; simpl; auto. now f_equal.
Qed.

Lemma filter_alter_count {A : Type} (f : A -> bool) (g : A -> A)
    (l : list A) (i : nat) (x : A) :
  l !! i = Some x ->
  length (List.filter f (alter g i l)) + (if f x then 1 else 0)
  = length (List.filter f l) + (if f (g x) then 1 else 0).
Proof.
  revert i. induction l as [|a l IH]; intros [|i] H; try discriminate.
  - injection H as ->. simpl.
    destruct (f x), (f (g x)); simpl; lia.
  - change (alter g (S i) (a :: l)) with (a :: alter g i l).
    change ((a :: l) !! S i) with (l !! i) in H.
    specialize (IH i H). cbn [List.filter].
    destruct (f a); cbn [length]; lia.
Qed.

Lemma alter_missing {A : Type} (g : A -> A) (l : list A) (i : nat) :
  l !! i = None -> alter g i l = l.
Proof.
  revert i. induction l as [|a l IH]; intros [|i] H; try discriminate;
    try reflexivity.
  change (alter g (S i) (a :: l)) with (a :: alter g i l).
  f_equal. now apply IH.
Qed.

(** What a transition that returns has done. *)
Lemma transition_returned (w : Tasks) (this : TaskID) (new_state : TaskState)
    (w' : Tasks) (success : bool) :
  transition w this new_state = Returned (w', success) ->
  exists task,
    store w !! this = Some task
    /\ snd (_try_transition_to (_state task) new_state) = Returned success
    /\ w' = with_store w (alter (set_state new_state) this (store w)).
Proof.
  unfold transition. intros H.
  apply bind_returned in H as (task & Htask & H).
  apply defined_returned in Htask.
  apply bind_returned in H as (s & Hs & H).
  injection H as <- <-. exists task. repeat split; auto.
Qed.

(** What a call, or a sequence of calls, that returns has done to the
    tasks: the tasks of [ran] have been executed, each once; they were
    startable and are [Done]; no other task has changed its state. *)
Definition has_run (w w' : Tasks) (ran : list TaskID) : Prop :=
  length (store w') = length (store w)
  /\ callbacks w' = callbacks w
  /\ (exists calls, events w' = events w ++ calls /\ executed calls = ran)
  /\ NoDup ran
  /\ (forall u, u ∈ ran ->
        exists task, store w !! u = Some task /\ startable task = true)
  /\ (forall u, u ∈ ran -> state_of w' u = Some Done)
  /\ (forall u, u ∉ ran -> state_of w' u = state_of w u)
  /\ (forall u task task',
        store w !! u = Some task -> store w' !! u = Some task' ->
        _successors task' = _successors task)
  /\ startable_count w' + length ran = startable_count w.

Lemma has_run_nothing (w : Tasks) : has_run w w [].
Proof.
  unfold has_run.
  split; [reflexivity |]. split; [reflexivity |].
  split; [exists []; now rewrite app_nil_r |].
  split; [constructor |].
  split; [intros u Hu; inversion Hu |].
  split; [intros u Hu; inversion Hu |].
  split; [reflexivity |].
  split; [intros u task task' H1 H2; congruence |].
  simpl. lia.
Qed.

Lemma has_run_trans (w1 w2 w3 : Tasks) (ran1 ran2 : list TaskID) :
  has_run w1 w2 ran1 -> has_run w2 w3 ran2 -> has_run w1 w3 (ran1 ++ ran2).
Proof.
  intros (L1 & C1 & (calls1 & E1 & X1) & N1 & S1 & D1 & F1 & U1 & M1)
         (L2 & C2 & (calls2 & E2 & X2) & N2 & S2 & D2 & F2 & U2 & M2).
  assert (Hdisjoint : forall u, u ∈ ran1 -> u ∉ ran2).
  { intros u H1 H2. specialize (D1 u H1).
    destruct (S2 u H2) as (task & Htask & Hst).
    unfold state_of in D1. rewrite Htask in D1. simpl in D1.
    injection D1 as D1. unfold startable in Hst. rewrite D1 in Hst.
    discriminate Hst. }
  unfold has_run.
  split; [congruence |]. split; [congruence |].
  split.
  { exists (calls1 ++ calls2). split.
    - now rewrite E2, E1, app_assoc.
    - now rewrite executed_app, X1, X2. }
  split; [apply NoDup_app; auto |].
  split.
  { intros u Hu. apply elem_of_app in Hu as [Hu | Hu]; [now apply S1 |].
    destruct (S2 u Hu) as (task & Htask & Hst).
    assert (Hnot : u ∉ ran1) by (intros H; exact (Hdisjoint u H Hu)).
    pose proof (F1 u Hnot) as Hsame. unfold state_of in Hsame.
    rewrite Htask in Hsame. simpl in Hsame.
    destruct (store w1 !! u) as [task1 |] eqn:H1; [| discriminate].
    exists task1. split; [reflexivity |].
    simpl in Hsame. injection Hsame as Hsame.
    unfold startable in *. now rewrite <- Hsame. }
  split.
  { intros u Hu. apply elem_of_app in Hu as [Hu | Hu]; [| now apply D2].
    rewrite F2; [now apply D1 |]. now apply Hdisjoint. }
  split.
  { intros u Hu. rewrite elem_of_app in Hu.
    rewrite F2, F1; auto. }
  split.
  { intros u task task' H1 H3.
    destruct (lookup_lt_is_Some_2 (store w2) u) as [task2 H2].
    { rewrite L1. apply lookup_lt_Some in H1. exact H1. }
    rewrite (U2 u task2 task' H2 H3). exact (U1 u task task2 H1 H2). }
  rewrite length_app. lia.
Qed.

(** The tasks that have been marked as done. *)
Definition finished (w w' : Tasks) (ran : list TaskID) : Prop :=
  forall u, u ∈ done w' <-> u ∈ done w \/ u ∈ ran.

Lemma finished_trans (w1 w2 w3 : Tasks) (ran1 ran2 : list TaskID) :
  finished w1 w2 ran1 -> finished w2 w3 ran2 -> finished w1 w3 (ran1 ++ ran2).
Proof.
  intros H1 H2 u. rewrite (H2 u), (H1 u), elem_of_app. tauto.
Qed.

(** The tasks whose done callback a sequence of calls holds. *)
Fixpoint called_back (calls : list Event) : list TaskID :=
  match calls with
  | [] => []
  | done_callback t :: rest => t :: called_back rest
  | _ :: rest => called_back rest
  end.

Lemma called_back_app calls1 calls2 :
  called_back (calls1 ++ calls2) = called_back calls1 ++ called_back calls2.
Proof.
  induction calls1 as [|[t | t | t] calls1 IH]; simpl; auto. now f_equal.
Qed.

Definition has_callback (w : Tasks) (u : TaskID) : bool :=
  bool_decide (u ∈ callbacks w).

(** The done callbacks that have been called: those of the tasks of
    [ran] that have one, each once. *)
Definition notified (w w' : Tasks) (ran : list TaskID) : Prop :=
  exists calls,
    events w' = events w ++ calls
    /\ called_back calls ≡ₚ List.filter (has_callback w) ran.

Lemma notified_trans (w1 w2 w3 : Tasks) (ran1 ran2 : list TaskID) :
  callbacks w2 = callbacks w1 ->
  notified w1 w2 ran1 -> notified w2 w3 ran2 -> notified w1 w3 (ran1 ++ ran2).
Proof.
  intros C (calls1 & E1 & P1) (calls2 & E2 & P2).
  exists (calls1 ++ calls2). split.
  - now rewrite E2, E1, app_assoc.
  - rewrite called_back_app, List.filter_app, P1, P2.
    unfold has_callback. now rewrite C.
Qed.

Lemma notified_nothing (w w' : Tasks) (calls : list Event) :
  events w' = events w ++ calls -> called_back calls = [] ->
  notified w w' [].
Proof. intros E C. exists calls. split; [exact E |]. now rewrite C. Qed.

Lemma startable_count_bound (w : Tasks) :
  startable_count w <= length (store w).
Proof. unfold startable_count. apply List.filter_length_le. Qed.

(** A change of a field other than [_state] and [_successors], and a
    recorded call other than [on_execute]. *)
Lemma has_run_pending (w : Tasks) (this : TaskID) (n : nat) :
  has_run w
    (with_store w (alter (set_pending_predecessors n) this (store w))) [].
Proof.
  unfold has_run, with_store, state_of. cbn [store callbacks events].
  split; [apply length_alter |]. split; [reflexivity |].
  split; [exists []; now rewrite app_nil_r |].
  split; [constructor |].
  split; [intros u Hu; inversion Hu |].
  split; [intros u Hu; inversion Hu |].
  split.
  { intros u _. destruct (decide (u = this)) as [-> | Hne].
    - rewrite list_lookup_alter_eq. now destruct (store w !! this).
    - now rewrite list_lookup_alter_ne by auto. }
  split.
  { intros u task task' H1 H2. destruct (decide (u = this)) as [-> | Hne].
    - rewrite list_lookup_alter_eq, H1 in H2. now injection H2 as <-.
    - rewrite list_lookup_alter_ne in H2 by auto. congruence. }
  unfold startable_count. cbn [store length].
  destruct (store w !! this) as [task |] eqn:Htask.
  - pose proof (filter_alter_count startable (set_pending_predecessors n)
                  (store w) this task Htask) as H.
    change (startable (set_pending_predecessors n task)) with (startable task)
      in H.
    destruct (startable task); lia.
  - rewrite alter_missing by exact Htask. lia.
Qed.

Lemma has_run_record (w : Tasks) (e : Event) :
  executed [e] = [] -> has_run w (record w e) [].
Proof.
  intros He. unfold has_run, record, state_of. cbn [store callbacks events].
  split; [reflexivity |]. split; [reflexivity |].
  split; [exists [e]; auto |].
  split; [constructor |].
  split; [intros u Hu; inversion Hu |].
  split; [intros u Hu; inversion Hu |].
  split; [reflexivity |].
  split; [intros u task task' H1 H2; congruence |].
  unfold startable_count. simpl. lia.
Qed.

(** The start of a task: it was startable, its [_on_execute] is called,
    and it is [Done]. *)
Lemma has_run_started (w w1 w3 : Tasks) (this : TaskID) (s1 s3 : bool) :
  transition w this Started = Returned (w1, s1) ->
  transition (record w1 (on_execute this)) this Done = Returned (w3, s3) ->
  has_run w w3 [this] /\ done w3 = done w
  /\ state_of w3 this = Some Done.
Proof.
  intros H1 H3.
  apply transition_returned in H1 as (task & Htask & Hok & ->).
  apply transition_returned in H3 as (task1 & Htask1 & Hok1 & ->).
  cbn [store with_store record] in *.
  rewrite list_lookup_alter_eq, Htask in Htask1. injection Htask1 as <-.
  assert (Hstartable : startable task = true).
  { unfold startable. destruct task as [st p ps ss]. simpl in *.
    destruct st; simpl in *; try discriminate; reflexivity. }
  rewrite list_alter_alter_eq.
  assert (Hlookup : forall u,
    alter (set_state Done ∘ set_state Started) this (store w) !! u
    = if decide (u = this) then Some (set_state Done task)
      else store w !! u).
  { intros u. destruct (decide (u = this)) as [-> | Hne].
    - now rewrite list_lookup_alter_eq, Htask.
    - now rewrite list_lookup_alter_ne by auto. }
  split; [| split; [reflexivity |]].
  - unfold has_run, state_of. cbn [store callbacks events].
    split; [apply length_alter |]. split; [reflexivity |].
    split; [exists [on_execute this]; auto |].
    split; [apply NoDup_singleton |].
    split.
    { intros u Hu. apply list_elem_of_singleton in Hu as ->. eauto. }
    split.
    { intros u Hu. apply list_elem_of_singleton in Hu as ->.
      rewrite Hlookup. now rewrite decide_True by reflexivity. }
    split.
    { intros u Hu. rewrite Hlookup.
      rewrite decide_False; [reflexivity |].
      intros ->. apply Hu. now apply list_elem_of_singleton. }
    split.
    { intros u t1 t2 Hu1 Hu2. rewrite Hlookup in Hu2.
      destruct (decide (u = this)) as [-> | Hne].
      - injection Hu2 as <-. rewrite Htask in Hu1. now injection Hu1 as <-.
      - congruence. }
    unfold startable_count. cbn [store length].
    pose proof (filter_alter_count startable (set_state Done ∘ set_state Started)
                  (store w) this task Htask) as H.
    rewrite Hstartable in H.
    change (startable ((set_state Done ∘ set_state Started) task))
      with false in H.
    change (length [this]) with 1. cbn [store with_store record].
    change (if false then 1 else 0) with 0 in H. lia.
  - unfold state_of. cbn [store]. rewrite Hlookup.
    now rewrite decide_True by reflexivity.
Qed.

(** *** The counters of pending predecessors *)

(** How often the task [p] has yet to notify the task [t]. *)
Definition owed_by (t : TaskID) (p : AbstractTask) : nat :=
  if TaskState_eqb (_state p) Done then 0
  else count_occ Nat.eq_dec (_successors p) t.

Definition owed (s : TaskStore) (t : TaskID) : nat :=
  list_sum (map (owed_by t) s).

(** The counter of every task is the number of notifications it has yet
    to get: those of the tasks that are not done, and those of [debt],
    the successors that executions under way have yet to notify. *)
Definition consistent (s : TaskStore) (debt : list TaskID) : Prop :=
  forall t task, s !! t = Some task ->
    _pending_predecessors task = owed s t + count_occ Nat.eq_dec debt t.

Definition counters_consistent (s : TaskStore) : bool :=
  forallb
    (fun t =>
       match s !! t with
       | Some task => Nat.eqb (_pending_predecessors task) (owed s t)
       | None => true
       end)
    (seq 0 (length s)).

Lemma counters_consistent_spec (s : TaskStore) :
  counters_consistent s = true <-> consistent s [].
Proof.
  unfold counters_consistent, consistent. rewrite forallb_forall. split.
  - intros H t task Ht. specialize (H t). rewrite Ht in H.
    cbn [count_occ]. rewrite Nat.add_0_r. apply Nat.eqb_eq, H.
    apply in_seq. apply lookup_lt_Some in Ht. lia.
  - intros H t _. destruct (s !! t) as [task |] eqn:Ht; [| reflexivity].
    apply Nat.eqb_eq. rewrite (H t task Ht). cbn [count_occ]. lia.
Qed.

Lemma sum_alter {A : Type} (f : A -> nat) (g : A -> A) (l : list A)
    (i : nat) (x : A) :
  l !! i = Some x ->
  list_sum (map f (alter g i l)) + f x = list_sum (map f l) + f (g x).
Proof.
  revert i. induction l as [|a l IH]; intros [|i] H; try discriminate.
  - injection H as ->. cbn. lia.
  - change (alter g (S i) (a :: l)) with (a :: alter g i l).
    change ((a :: l) !! S i) with (l !! i) in H.
    specialize (IH i H). cbn [map].
    change (list_sum (f a :: map f (alter g i l)))
      with (f a + list_sum (map f (alter g i l))).
    change (list_sum (f a :: map f l)) with (f a + list_sum (map f l)).
    lia.
Qed.

Lemma owed_alter (s : TaskStore) (g : AbstractTask -> AbstractTask)
    (i : TaskID) (t : TaskID) :
  (forall x, s !! i = Some x -> owed_by t (g x) = owed_by t x) ->
  owed (alter g i s) t = owed s t.
Proof.
  intros Hg. unfold owed. destruct (s !! i) as [x |] eqn:Hx.
  - pose proof (sum_alter (owed_by t) g s i x Hx) as H.
    rewrite (Hg x eq_refl) in H. lia.
  - now rewrite alter_missing.
Qed.

Lemma sum_zero {A : Type} (f : A -> nat) (l : list A) (i : nat) (x : A) :
  list_sum (map f l) = 0 -> l !! i = Some x -> f x = 0.
Proof.
  revert i. induction l as [|a l IH]; intros [|i] H Hx; try discriminate.
  - injection Hx as ->. cbn in H. lia.
  - cbn [map] in H.
    change (list_sum (f a :: map f l)) with (f a + list_sum (map f l)) in H.
    apply (IH i); [lia | exact Hx].
Qed.

(** A task that is owed nothing: all its predecessors are done. *)
Lemma owed_zero (s : TaskStore) (t : TaskID) :
  owed s t = 0 ->
  forall p task, s !! p = Some task -> t ∈ _successors task ->
    _state task = Done.
Proof.
  intros H p task Hp Ht.
  pose proof (sum_zero (owed_by t) s p task H Hp) as Hz.
  unfold owed_by, TaskState_eqb in Hz.
  destruct (bool_decide_reflect (_state task = Done)) as [E | _];
    [exact E |].
  exfalso. apply list_elem_of_In in Ht.
  apply (count_occ_In Nat.eq_dec) in Ht. lia.
Qed.

Lemma decrement_succ (n : nat) : decrement (S n) = n.
Proof. unfold decrement. cbn [Nat.eqb]. lia. Qed.

(** A notification: the successor's counter is decremented. *)
Lemma consistent_decrement (s : TaskStore) (t0 : TaskID)
    (task : AbstractTask) (debt : list TaskID) :
  s !! t0 = Some task ->
  consistent s (t0 :: debt) ->
  consistent
    (alter (set_pending_predecessors
              (decrement (_pending_predecessors task))) t0 s) debt
  /\ decrement (_pending_predecessors task)
     = owed s t0 + count_occ Nat.eq_dec debt t0.
Proof.
  intros Htask H.
  assert (Hdec : decrement (_pending_predecessors task)
                 = owed s t0 + count_occ Nat.eq_dec debt t0).
  { rewrite (H t0 task Htask), count_occ_cons_eq by reflexivity.
    rewrite Nat.add_succ_r. apply decrement_succ. }
  split; [| exact Hdec].
  intros t task' Ht. rewrite owed_alter by reflexivity.
  destruct (decide (t = t0)) as [-> | Hne].
  - rewrite list_lookup_alter_eq, Htask in Ht. injection Ht as <-.
    exact Hdec.
  - rewrite list_lookup_alter_ne in Ht by auto.
    rewrite (H t task' Ht), count_occ_cons_neq by auto. reflexivity.
Qed.

(** A change of state of a task that is not done and is not done
    afterwards. *)
Lemma consistent_state (s : TaskStore) (this : TaskID) (task : AbstractTask)
    (st : TaskState) (debt : list TaskID) :
  s !! this = Some task -> _state task <> Done -> st <> Done ->
  consistent s debt ->
  consistent (alter (set_state st) this s) debt.
Proof.
  intros Htask Hnot Hst H t task' Ht.
  rewrite owed_alter.
  - destruct (decide (t = this)) as [-> | Hne].
    + rewrite list_lookup_alter_eq, Htask in Ht. injection Ht as <-.
      exact (H this task Htask).
    + rewrite list_lookup_alter_ne in Ht by auto. exact (H t task' Ht).
  - intros x Hx. rewrite Htask in Hx. injection Hx as <-.
    unfold owed_by, TaskState_eqb. cbn [_state _successors set_state].
    rewrite !bool_decide_eq_false_2 by assumption. reflexivity.
Qed.

(** The end of a task: it has its successors to notify. *)
Lemma consistent_done (s : TaskStore) (this : TaskID) (task : AbstractTask)
    (debt : list TaskID) :
  s !! this = Some task -> _state task <> Done ->
  consistent s debt ->
  consistent (alter (set_state Done) this s) (_successors task ++ debt).
Proof.
  intros Htask Hnot H t task' Ht.
  pose proof (sum_alter (owed_by t) (set_state Done) s this task Htask)
    as Hsum.
  fold (owed (alter (set_state Done) this s) t) in Hsum.
  fold (owed s t) in Hsum.
  assert (H1 : owed_by t task = count_occ Nat.eq_dec (_successors task) t).
  { unfold owed_by, TaskState_eqb.
    now rewrite bool_decide_eq_false_2 by assumption. }
  assert (H2 : owed_by t (set_state Done task) = 0) by reflexivity.
  rewrite count_occ_app.
  destruct (decide (t = this)) as [-> | Hne].
  - rewrite list_lookup_alter_eq, Htask in Ht. injection Ht as <-.
    cbn [_pending_predecessors set_state].
    rewrite (H this task Htask). lia.
  - rewrite list_lookup_alter_ne in Ht by auto.
    rewrite (H t task' Ht). lia.
Qed.

Lemma has_run_done (w w' : Tasks) (ran : list TaskID) (d : list TaskID) :
  has_run w w' ran ->
  has_run w (mkTasks (store w') (callbacks w') d (events w')) ran.
Proof. intros H. exact H. Qed.

(** The tasks of the store name their successors by identifiers of the
    store, and no task is in the middle of its execution. *)
Definition well_formed (w : Tasks) : bool :=
  forallb
    (fun task =>
       forallb (fun successor => successor <? length (store w))
         (_successors task)
       && negb (TaskState_eqb (_state task) Started))
    (store w).

Lemma well_formed_spec (w : Tasks) :
  well_formed w = true <->
  forall u task, store w !! u = Some task ->
    Forall (fun s => s < length (store w)) (_successors task)
    /\ _state task <> Started.
Proof.
  unfold well_formed. rewrite forallb_forall. split.
  - intros H u task Hu.
    assert (Hin : In task (store w)).
    { apply list_elem_of_In. eapply list_elem_of_lookup_2. exact Hu. }
    specialize (H task Hin). apply andb_true_iff in H as [H1 H2]. split.
    + apply Forall_forall. intros s Hs. rewrite forallb_forall in H1.
      apply Nat.ltb_lt. apply H1. now apply list_elem_of_In.
    + apply negb_true_iff in H2. unfold TaskState_eqb in H2.
      now apply bool_decide_eq_false in H2.
  - intros H task Hin. apply list_elem_of_In in Hin.
    apply list_elem_of_lookup in Hin as [u Hu].
    destruct (H u task Hu) as [H1 H2]. apply andb_true_iff. split.
    + apply forallb_forall. intros s Hs. apply Nat.ltb_lt.
      rewrite Forall_forall in H1. apply H1. now apply list_elem_of_In.
    + apply negb_true_iff. unfold TaskState_eqb.
      now apply bool_decide_eq_false.
Qed.

Lemma well_formed_has_run (w w' : Tasks) (ran : list TaskID) :
  well_formed w = true -> has_run w w' ran -> well_formed w' = true.
Proof.
  intros Hwf (L & _ & _ & _ & _ & D & F & U & _).
  rewrite well_formed_spec in *. intros u task' Hu'.
  destruct (lookup_lt_is_Some_2 (store w) u) as [task Hu].
  { rewrite <- L. apply lookup_lt_Some in Hu'. exact Hu'. }
  destruct (Hwf u task Hu) as [H1 H2]. split.
  - rewrite (U u task task' Hu Hu'), L. exact H1.
  - destruct (decide (u ∈ ran)) as [Hin | Hout].
    + specialize (D u Hin). unfold state_of in D. rewrite Hu' in D.
      injection D as ->. discriminate.
    + specialize (F u Hout). unfold state_of in F. rewrite Hu, Hu' in F.
      injection F as ->. exact H2.
Qed.

Lemma startable_count_positive (w : Tasks) (this : TaskID)
    (task : AbstractTask) :
  store w !! this = Some task -> startable task = true ->
  0 < startable_count w.
Proof.
  intros Htask Hst. unfold startable_count.
  assert (Hin : In task (List.filter startable (store w))).
  { apply filter_In. split; [| exact Hst].
    apply list_elem_of_In. eapply list_elem_of_lookup_2. exact Htask. }
  destruct (List.filter startable (store w)); [destruct Hin |].
  simpl. lia.
Qed.

Lemma transition_succeeds (w : Tasks) (this : TaskID) (new_state : TaskState)
    (task : AbstractTask) (success : bool) :
  store w !! this = Some task ->
  snd (_try_transition_to (_state task) new_state) = Returned success ->
  transition w this new_state
  = Returned
      (with_store w (alter (set_state new_state) this (store w)), success).
Proof.
  intros H1 H2. unfold transition. rewrite H1. run. rewrite H2. run.
  reflexivity.
Qed.

(** A task that [execute] may be called on: it has been scheduled and is
    not yet started and, where the build checks it, it is ready. *)
Definition can_run (w : Tasks) (this : TaskID) : Prop :=
  exists task,
    store w !! this = Some task
    /\ startable task = true
    /\ (HYRISE_DEBUG = true -> is_ready task = true).

(** *** The order of execution *)

(** When [_on_execute] of a task is called, each of its predecessors is
    done: it was [Done] before, or has been executed earlier. *)
Definition in_order (w : Tasks) (calls : list Event) : Prop :=
  forall i u, calls !! i = Some (on_execute u) ->
    forall p task, store w !! p = Some task -> u ∈ _successors task ->
      _state task = Done \/ p ∈ executed (take i calls).

Definition ordered (w w' : Tasks) : Prop :=
  exists calls, events w' = events w ++ calls /\ in_order w calls.

Lemma executed_lookup (calls : list Event) (i : nat) (u : TaskID) :
  calls !! i = Some (on_execute u) -> u ∈ executed calls.
Proof.
  revert i. induction calls as [|e calls IH]; intros [|i] H;
    try discriminate.
  - injection H as ->. cbn. apply elem_of_cons. now left.
  - change ((e :: calls) !! S i) with (calls !! i) in H.
    specialize (IH i H). destruct e; cbn [executed]; auto.
    apply elem_of_cons. now right.
Qed.

Lemma ordered_events (w w1 w2 : Tasks) (calls : list Event) :
  ordered w w1 -> events w2 = events w1 ++ calls -> executed calls = [] ->
  ordered w w2.
Proof.
  intros (calls1 & E1 & O1) E2 X. exists (calls1 ++ calls). split.
  - now rewrite E2, E1, app_assoc.
  - intros i u Hi p task Hp Hu.
    destruct (decide (i < length calls1)) as [Hlt | Hge].
    + rewrite lookup_app_l in Hi by exact Hlt.
      rewrite take_app_le by lia. exact (O1 i u Hi p task Hp Hu).
    + rewrite lookup_app_r in Hi by lia.
      apply executed_lookup in Hi. rewrite X in Hi. inversion Hi.
Qed.

Lemma ordered_nothing (w w' : Tasks) (calls : list Event) :
  events w' = events w ++ calls -> executed calls = [] -> ordered w w'.
Proof.
  intros E X. apply (ordered_events w w w' calls); auto.
  exists []. split; [now rewrite app_nil_r |].
  intros i u Hi. destruct i; discriminate Hi.
Qed.

Lemma ordered_trans (w1 w2 w3 : Tasks) (ran : list TaskID) :
  has_run w1 w2 ran -> ordered w1 w2 -> ordered w2 w3 -> ordered w1 w3.
Proof.
  intros (L & _ & (callsr & Er & Xr) & _ & _ & D & F & U & _)
         (c1 & E1 & O1) (c2 & E2 & O2).
  rewrite E1 in Er. apply app_inv_head in Er. subst callsr.
  exists (c1 ++ c2). split; [now rewrite E2, E1, app_assoc |].
  intros i u Hi p task Hp Hu.
  destruct (decide (i < length c1)) as [Hlt | Hge].
  - rewrite lookup_app_l in Hi by exact Hlt.
    rewrite take_app_le by lia. exact (O1 i u Hi p task Hp Hu).
  - rewrite lookup_app_r in Hi by lia.
    rewrite take_app_ge by lia. rewrite executed_app, Xr.
    destruct (lookup_lt_is_Some_2 (store w2) p) as [task2 Hp2].
    { rewrite L. eapply lookup_lt_Some; eauto. }
    pose proof (U p task task2 Hp Hp2) as Hsucc.
    destruct (O2 (i - length c1) u Hi p task2 Hp2) as [Hd | Hin].
    { rewrite Hsucc. exact Hu. }
    + destruct (decide (p ∈ ran)) as [Hr | Hn].
      * right. apply elem_of_app. now left.
      * left. specialize (F p Hn). unfold state_of in F.
        rewrite Hp, Hp2 in F. injection F as F. congruence.
    + right. apply elem_of_app. now right.
Qed.

(** No task is left behind: a task that is scheduled and ready after the
    call was ready before. *)
Definition none_left (w w' : Tasks) : Prop :=
  forall u task',
    store w' !! u = Some task' ->
    startable task' = true -> is_ready task' = true ->
    exists task, store w !! u = Some task /\ is_ready task = true.

Lemma none_left_same (w w' : Tasks) : store w' = store w -> none_left w w'.
Proof. intros E u task' Hu _ Hr. rewrite E in Hu. eauto. Qed.

Lemma none_left_trans (w1 w2 w3 : Tasks) (ran : list TaskID) :
  has_run w2 w3 ran -> none_left w1 w2 -> none_left w2 w3 ->
  none_left w1 w3.
Proof.
  intros (L & _ & _ & _ & _ & D & F & _) N1 N2 u task3 H3 Hst Hr.
  destruct (N2 u task3 H3 Hst Hr) as (task2 & H2 & Hr2).
  apply (N1 u task2 H2); [| exact Hr2].
  assert (Hout : u ∉ ran).
  { intros Hin. specialize (D u Hin). unfold state_of in D.
    rewrite H3 in D. injection D as D. unfold startable in Hst.
    rewrite D in Hst. discriminate. }
  specialize (F u Hout). unfold state_of in F. rewrite H3, H2 in F.
  injection F as F. unfold startable in *. now rewrite <- F.
Qed.

Lemma none_left_pending (w : Tasks) (s : TaskID) (task : AbstractTask)
    (n : nat) :
  store w !! s = Some task ->
  (Nat.eqb n 0 = true -> startable task = false) ->
  none_left w
    (with_store w (alter (set_pending_predecessors n) s (store w))).
Proof.
  intros Htask H u task' Hu Hst Hr. cbn [store with_store] in Hu.
  destruct (decide (u = s)) as [-> | Hne].
  - rewrite list_lookup_alter_eq, Htask in Hu. injection Hu as <-.
    unfold is_ready in Hr. cbn [_pending_predecessors
      set_pending_predecessors] in Hr.
    change (startable (set_pending_predecessors n task))
      with (startable task) in Hst.
    rewrite (H Hr) in Hst. discriminate.
  - rewrite list_lookup_alter_ne in Hu by auto. eauto.
Qed.

Definition ready (w : Tasks) (this : TaskID) : Prop :=
  exists task, store w !! this = Some task /\ is_ready task = true.

(** The call [this->execute()] returns; it has executed [this] first and
    then the tasks of [rest], and has called the task's own callback
    last. *)
Definition runs (fuel : nat) (w : Tasks) (this : TaskID) : Prop :=
  exists w' rest,
    execute HYRISE_DEBUG false fuel w this = Returned w'
    /\ has_run w w' (this :: rest)
    /\ finished w w' (this :: rest)
    /\ notified w w' (this :: rest)
    /\ (exists calls,
          events w'
          = events w ++ on_execute this :: calls
              ++ (if has_callback w this then [done_callback this] else []))
    /\ none_left w w'
    /\ forall debt,
         consistent (store w) debt ->
         consistent (store w') debt /\ (ready w this -> ordered w w').

Lemma on_predecessor_done_runs (fuel : nat) (w : Tasks) (s : TaskID) :
  (forall w this,
     well_formed w = true -> can_run w this -> startable_count w <= fuel ->
     runs fuel w this) ->
  well_formed w = true -> s < length (store w) -> startable_count w <= fuel ->
  exists w' ran,
    _on_predecessor_done false (execute HYRISE_DEBUG false fuel) w s
    = Returned w'
    /\ has_run w w' ran /\ finished w w' ran /\ notified w w' ran
    /\ none_left w w'
    /\ forall debt,
         consistent (store w) (s :: debt) ->
         consistent (store w') debt /\ ordered w w'.
Proof.
  intros IH Hwf Hs Hcount.
  destruct (lookup_lt_is_Some_2 (store w) s Hs) as [task Htask].
  unfold _on_predecessor_done. rewrite Htask. run.
  set (n := decrement (_pending_predecessors task)).
  set (w1 := with_store w (alter (set_pending_predecessors n) s (store w))).
  assert (H1 : has_run w w1 []) by apply has_run_pending.
  assert (F1 : finished w w1 []).
  { intros u. subst w1. cbn. rewrite elem_of_nil. tauto. }
  assert (N1 : notified w w1 []).
  { apply (notified_nothing w w1 []); [| reflexivity].
    subst w1. cbn. now rewrite app_nil_r. }
  assert (O1 : ordered w w1).
  { apply (ordered_nothing w w1 []); [| reflexivity].
    subst w1. cbn. now rewrite app_nil_r. }
  assert (K1 : forall debt,
             consistent (store w) (s :: debt) -> consistent (store w1) debt).
  { intros debt K. exact (proj1 (consistent_decrement _ s task debt Htask K)). }
  assert (Hstartable : is_scheduled task = startable task).
  { rewrite well_formed_spec in Hwf.
    destruct (Hwf s task Htask) as [_ Hstate].
    unfold is_scheduled, startable.
    destruct (_state task); try reflexivity. now contradiction Hstate. }
  destruct (Nat.eqb n 0) eqn:Hn.
  2: { exists w1, []. repeat (split; [now auto |]). split.
       - apply (none_left_pending w s task n Htask). congruence.
       - auto. }
  destruct (is_scheduled task) eqn:Hsched.
  2: { exists w1, []. repeat (split; [now auto |]). split.
       - apply (none_left_pending w s task n Htask). auto.
       - auto. }
  destruct (IH w1 s) as (w' & rest & He & Hr & Hf & Hn' & _ & Nl & K).
  - eapply well_formed_has_run; eauto.
  - exists (set_pending_predecessors n task). split.
    { subst w1. cbn [store with_store].
      now rewrite list_lookup_alter_eq, Htask. }
    split; [symmetry; exact Hstartable |].
    intros _. exact Hn.
  - destruct H1 as (_ & _ & _ & _ & _ & _ & _ & _ & H1).
    cbn [length] in H1. lia.
  - assert (Hs1 : store w1 !! s = Some (set_pending_predecessors n task)).
    { subst w1. cbn [store with_store].
      now rewrite list_lookup_alter_eq, Htask. }
    exists w', (s :: rest). split; [exact He |].
    split; [exact (has_run_trans w w1 w' [] (s :: rest) H1 Hr) |].
    split; [exact (finished_trans w w1 w' [] (s :: rest) F1 Hf) |].
    split; [exact (notified_trans w w1 w' [] (s :: rest) eq_refl N1 Hn') |].
    split.
    + intros u task' Hu Hst Hready.
      destruct (Nl u task' Hu Hst Hready) as (task1 & Hu1 & Hr1).
      destruct (decide (u = s)) as [-> | Hne].
      * destruct Hr as (_ & _ & _ & _ & _ & D & _).
        assert (Hin : s ∈ s :: rest) by (apply elem_of_cons; now left).
        specialize (D s Hin). unfold state_of in D. rewrite Hu in D.
        injection D as D. unfold startable in Hst. rewrite D in Hst.
        discriminate.
      * subst w1. cbn [store with_store] in Hu1.
        rewrite list_lookup_alter_ne in Hu1 by auto. eauto.
    + intros debt Kw. destruct (K debt (K1 debt Kw)) as [K' O'].
      split; [exact K' |].
      apply (ordered_trans w w1 w' [] H1 O1). apply O'.
      exists (set_pending_predecessors n task). split; [exact Hs1 |].
      exact Hn.
Qed.

Lemma successors_run (fuel : nat) (successors : list TaskID) :
  (forall w this,
     well_formed w = true -> can_run w this -> startable_count w <= fuel ->
     runs fuel w this) ->
  forall w,
    well_formed w = true ->
    Forall (fun s => s < length (store w)) successors ->
    startable_count w <= fuel ->
    exists w' ran,
      for_each (_on_predecessor_done false (execute HYRISE_DEBUG false fuel))
        w successors
      = Returned w'
      /\ has_run w w' ran /\ finished w w' ran /\ notified w w' ran
      /\ none_left w w'
      /\ forall debt,
           consistent (store w) (successors ++ debt) ->
           consistent (store w') debt /\ ordered w w'.
Proof.
  intros IH.
  induction successors as [|s successors IHs]; intros w Hwf Hall Hcount.
  - exists w, []. split; [reflexivity |]. split; [apply has_run_nothing |].
    split; [intros u; rewrite elem_of_nil; tauto |].
    split.
    { apply (notified_nothing w w []); [| reflexivity].
      now rewrite app_nil_r. }
    split; [now apply none_left_same |].
    intros debt K. split; [exact K |].
    apply (ordered_nothing w w []); [| reflexivity]. now rewrite app_nil_r.
  - inversion Hall as [|? ? Hs Hrest]; subst.
    destruct (on_predecessor_done_runs fuel w s IH Hwf Hs Hcount)
      as (w1 & ran1 & E1 & R1 & F1 & N1 & L1 & K1).
    destruct (IHs w1) as (w2 & ran2 & E2 & R2 & F2 & N2 & L2 & K2).
    + eapply well_formed_has_run; eauto.
    + destruct R1 as (L & _). rewrite L. exact Hrest.
    + destruct R1 as (_ & _ & _ & _ & _ & _ & _ & _ & M). lia.
    + exists w2, (ran1 ++ ran2). cbn [for_each]. rewrite E1. run.
      split; [exact E2 |].
      split; [exact (has_run_trans w w1 w2 ran1 ran2 R1 R2) |].
      split; [exact (finished_trans w w1 w2 ran1 ran2 F1 F2) |].
      split.
      { destruct R1 as (_ & C1 & _).
        exact (notified_trans w w1 w2 ran1 ran2 C1 N1 N2). }
      split; [exact (none_left_trans w w1 w2 ran2 R2 L1 L2) |].
      intros debt K.
      destruct (K1 (successors ++ debt) K) as [K1' O1].
      destruct (K2 debt K1') as [K2' O2].
      split; [exact K2' |]. exact (ordered_trans w w1 w2 ran1 R1 O1 O2).
Qed.

Lemma debug_assert_holds {A : Type} (cond : bool) (k : Outcome A) :
  (HYRISE_DEBUG = true -> cond = true) ->
  DebugAssert HYRISE_DEBUG cond k = k.
Proof.
  intros H. unfold DebugAssert, Assert.
  destruct HYRISE_DEBUG; [| reflexivity]. now rewrite H.
Qed.

Lemma execute_runs (fuel : nat) :
  forall w this,
    well_formed w = true -> can_run w this -> startable_count w <= fuel ->
    runs fuel w this.
Proof.
  induction fuel as [|fuel IH];
    intros w this Hwf (task & Htask & Hst & Hready) Hcount.
  - pose proof (startable_count_positive w this task Htask Hst). lia.
  - unfold runs. cbn [execute].
    assert (Hnotdone : _state task <> Done).
    { unfold startable in Hst. intros E. rewrite E in Hst. discriminate. }
    assert (T1 : transition w this Started
                 = Returned (with_store w (alter (set_state Started) this
                                             (store w)), true)).
    { apply (transition_succeeds w this Started task true Htask).
      unfold startable in Hst.
      destruct (_state task); try discriminate; reflexivity. }
    set (w1 := with_store w (alter (set_state Started) this (store w))) in *.
    assert (Htask1 : store w1 !! this = Some (set_state Started task)).
    { subst w1. cbn [store with_store].
      now rewrite list_lookup_alter_eq, Htask. }
    assert (T3 : transition (record w1 (on_execute this)) this Done
                 = Returned
                     (with_store (record w1 (on_execute this))
                        (alter (set_state Done) this
                           (store (record w1 (on_execute this)))), true)).
    { apply (transition_succeeds _ this Done (set_state Started task) true).
      - exact Htask1.
      - reflexivity. }
    set (w3 := with_store (record w1 (on_execute this))
                 (alter (set_state Done) this
                    (store (record w1 (on_execute this))))) in *.
    destruct (has_run_started w w1 w3 this true true T1 T3)
      as (R3 & D3 & S3).
    assert (Hevents3 : events w3 = events w ++ [on_execute this])
      by reflexivity.
    assert (C3 : callbacks w3 = callbacks w) by reflexivity.
    assert (N3 : notified w w3 [])
      by exact (notified_nothing w w3 [on_execute this] Hevents3 eq_refl).
    assert (Htask3 : exists task3,
               store w3 !! this = Some task3
               /\ _successors task3 = _successors task).
    { unfold state_of in S3.
      destruct (store w3 !! this) as [task3 |] eqn:E; [| discriminate].
      exists task3. split; [reflexivity |].
      destruct R3 as (_ & _ & _ & _ & _ & _ & _ & U & _).
      exact (U this task task3 Htask E). }
    destruct Htask3 as (task3 & Htask3 & Hsucc3).
    assert (Hwf3 : well_formed w3 = true)
      by (eapply well_formed_has_run; eauto).
    assert (L3 : none_left w w3).
    { intros u task' Hu Hstu Hru.
      destruct (decide (u = this)) as [-> | Hne].
      - unfold state_of in S3. rewrite Hu in S3. injection S3 as S3.
        unfold startable in Hstu. rewrite S3 in Hstu. discriminate.
      - subst w3 w1. cbn [store with_store record] in Hu.
        rewrite !list_lookup_alter_ne in Hu by auto. eauto. }
    assert (K3 : forall debt,
               consistent (store w) debt ->
               consistent (store w3) (_successors task3 ++ debt)).
    { intros debt K. rewrite Hsucc3.
      apply (consistent_done (store w1) this (set_state Started task) debt
               Htask1); [discriminate |].
      apply (consistent_state (store w) this task Started debt Htask);
        [exact Hnotdone | discriminate | exact K]. }
    assert (O3 : forall debt,
               consistent (store w) debt -> ready w this -> ordered w w3).
    { intros debt K (task0 & Htask0 & Hr0).
      rewrite Htask in Htask0. injection Htask0 as <-.
      exists [on_execute this]. split; [exact Hevents3 |].
      intros i u Hi p ptask Hp Hu. left.
      destruct i as [|i]; [| destruct i; discriminate Hi].
      injection Hi as <-.
      apply (owed_zero (store w) this) with (p := p); auto.
      pose proof (K this task Htask) as Hk.
      unfold is_ready in Hr0. apply Nat.eqb_eq in Hr0. lia. }
    destruct (successors_run fuel (_successors task3) IH w3 Hwf3)
      as (wl & ranl & El & Rl & Fl & Nl & Ll & Kl).
    { rewrite well_formed_spec in Hwf3.
      exact (proj1 (Hwf3 this task3 Htask3)). }
    { destruct R3 as (_ & _ & _ & _ & _ & _ & _ & _ & M).
      change (length [this]) with 1 in M. lia. }
    rewrite T1. run. rewrite Htask1. run.
    rewrite debug_assert_holds by exact Hready.
    rewrite T3. run. rewrite Htask3. run. rewrite El. run.
    pose proof (has_run_trans w w3 wl [this] ranl R3 Rl) as R.
    pose proof (notified_trans w w3 wl [] ranl C3 N3 Nl) as N.
    pose proof (none_left_trans w w3 wl ranl Rl L3 Ll) as L.
    assert (K : forall debt,
              consistent (store w) debt ->
              consistent (store wl) debt
              /\ (ready w this -> ordered w wl)).
    { intros debt Kw.
      destruct (Kl debt (K3 debt Kw)) as [K' O']. split; [exact K' |].
      intros Hr. exact (ordered_trans w w3 wl [this] R3 (O3 debt Kw Hr) O'). }
    destruct Nl as (callsl & Ecl & _).
    destruct N as (calls & Ec & Pc). cbn [app] in Pc.
    assert (Cl : callbacks wl = callbacks w).
    { destruct Rl as (_ & Cl & _). now rewrite Cl. }
    rewrite Cl. fold (has_callback w this).
    destruct (has_callback w this) eqn:Hcb.
    + exists (mkTasks (store wl) (callbacks wl) (this :: done wl)
                (events wl ++ [done_callback this])), ranl.
      split; [reflexivity |]. split.
      { apply (has_run_done w (record wl (done_callback this))).
        pose proof (has_run_trans w wl (record wl (done_callback this))
                      ([this] ++ ranl) [] R
                      (has_run_record wl (done_callback this) eq_refl))
          as R'.
        rewrite app_nil_r in R'. exact R'. }
      split.
      { intros u. cbn [done]. rewrite elem_of_cons, (Fl u), D3.
        rewrite !elem_of_cons. tauto. }
      split.
      { exists (calls ++ [done_callback this]). cbn [events]. split.
        - now rewrite Ec, app_assoc.
        - rewrite called_back_app, Pc. cbn [List.filter called_back].
          rewrite Hcb. solve_Permutation. }
      split.
      { exists callsl. cbn [events].
        rewrite Ecl, Hevents3, <- !app_assoc. reflexivity. }
      split; [exact L |].
      intros debt Kw. destruct (K debt Kw) as [K' O'].
      split; [exact K' |]. intros Hr.
      now apply (ordered_events w wl _ [done_callback this] (O' Hr)).
    + exists (mkTasks (store wl) (callbacks wl) (this :: done wl)
                (events wl)), ranl.
      split; [reflexivity |]. split.
      { exact (has_run_done w wl _ _ R). }
      split.
      { intros u. cbn [done]. rewrite elem_of_cons, (Fl u), D3.
        rewrite !elem_of_cons. tauto. }
      split.
      { exists calls. cbn [events]. split; [exact Ec |].
        rewrite Pc. cbn [List.filter]. now rewrite Hcb. }
      split.
      { exists callsl. cbn [events].
        rewrite Ecl, Hevents3, <- !app_assoc, app_nil_r. reflexivity. }
      split; [exact L |].
      intros debt Kw. destruct (K debt Kw) as [K' O'].
      split; [exact K' |]. intros Hr.
      apply (ordered_events w wl _ [] (O' Hr)); [| reflexivity].
      cbn [events]. now rewrite app_nil_r.
Qed.

End TaskExecutionProperties.

Section TaskExecutionTheorems.
Import Task TaskExecution.

Lemma execute_not_startable (HYRISE_DEBUG current_worker : bool) (fuel : nat)
    (w : Tasks) (this : TaskID) (task : AbstractTask) :
  store w !! this = Some task -> startable task = false ->
  execute HYRISE_DEBUG current_worker (S fuel) w this = Thrown logic_error.
Proof.
  intros Htask Hst. cbn [execute]. unfold transition. rewrite Htask. run.
  unfold startable in Hst.
  destruct (_state task); try discriminate; reflexivity.
Qed.

Lemma runs_calls (HYRISE_DEBUG : bool) (fuel : nat) (w : Tasks)
    (this : TaskID) :
  runs HYRISE_DEBUG fuel w this ->
  exists w' calls,
    execute HYRISE_DEBUG false fuel w this = Returned w'
    /\ events w'
       = events w ++ on_execute this :: calls
           ++ (if has_callback w this then [done_callback this] else [])
    /\ has_run w w'
         (this :: executed
                    (calls ++ (if has_callback w this
                               then [done_callback this] else [])))
    /\ finished w w'
         (this :: executed
                    (calls ++ (if has_callback w this
                               then [done_callback this] else [])))
    /\ called_back
         (calls ++ (if has_callback w this then [done_callback this] else []))
       ≡ₚ List.filter (has_callback w)
            (this :: executed
                       (calls ++ (if has_callback w this
                                  then [done_callback this] else []))).
Proof.
  intros (w' & rest & E & R & F & (callsn & En & Pn) & (calls & Ec) & _).
  exists w', calls. split; [exact E |]. split; [exact Ec |].
  pose proof R as (_ & _ & (callsr & Er & Xr) & _).
  rewrite Ec in Er. apply app_inv_head in Er. subst callsr.
  cbn [executed] in Xr. injection Xr as Xr.
  rewrite Ec in En. apply app_inv_head in En. subst callsn.
  cbn [called_back] in Pn.
  rewrite Xr. auto.
Qed.

(** Four tasks: task 0 precedes the tasks 1 and 2, task 1 precedes task 2,
    and task 2 precedes task 3.  Tasks 0, 1 and 2 have been scheduled,
    task 3 has not; tasks 0 and 2 have a done callback. *)
Definition example_tasks : Tasks :=
  mkTasks
    [mkTask Scheduled 0 [] [1; 2];
     mkTask Scheduled 1 [0] [2];
     mkTask Scheduled 2 [0; 1] [3];
     mkTask Created 1 [2] []]
    [0; 2] [] [].


(** X19: In a context without worker threads, [execute()] on a task that
    has been scheduled and is not yet started (and, in a debug build, is
    ready) returns.  It calls [_on_execute] of the task first and then of
    the tasks it executes in turn; every task is executed at most once,
    every executed task had been scheduled and is [Done] and marked done
    afterwards, and no other task changes its state or is marked done. *)
Theorem execute_runs_every_task_once (HYRISE_DEBUG : bool) (fuel : nat)
    (w : Tasks) (this : TaskID) (task : AbstractTask) :
  well_formed w = true ->
  store w !! this = Some task ->
  startable task = true ->
  (HYRISE_DEBUG = true -> is_ready task = true) ->
  startable_count w <= fuel ->
  exists w' calls,
    execute HYRISE_DEBUG false fuel w this = Returned w'
    /\ events w' = events w ++ on_execute this :: calls
    /\ NoDup (this :: executed calls)
    /\ (forall u, u ∈ this :: executed calls ->
          exists t, store w !! u = Some t /\ startable t = true)
    /\ (forall u, u ∈ this :: executed calls -> state_of w' u = Some Done)
    /\ (forall u, u ∉ this :: executed calls -> state_of w' u = state_of w u)
    /\ (forall u,
          is_done w' u = true
          <-> is_done w u = true \/ u ∈ this :: executed calls).
Proof.
  intros Hwf Htask Hst Hready Hcount.
  destruct (runs_calls HYRISE_DEBUG fuel w this) as (w' & calls & E & Ec & R & F & _).
  { apply execute_runs; auto. exists task. auto. }
  exists w', (calls ++ (if has_callback w this
                        then [done_callback this] else [])).
  destruct R as (_ & _ & _ & N & S & D & U & _).
  split; [exact E |]. split; [exact Ec |]. split; [exact N |].
  split; [exact S |]. split; [exact D |]. split; [exact U |].
  intros u. unfold is_done. rewrite !bool_decide_eq_true. apply F.
Qed.

Lemma execute_runs_every_task_once_witness :
  well_formed example_tasks = true
  /\ startable_count example_tasks <= 3
  /\ exists w' calls,
       execute true false 3 example_tasks 0 = Returned w'
       /\ events w' = events example_tasks ++ on_execute 0 :: calls
       /\ NoDup (0 :: executed calls)
       /\ (forall u, u ∈ 0 :: executed calls ->
             exists t, store example_tasks !! u = Some t
                       /\ startable t = true)
       /\ (forall u, u ∈ 0 :: executed calls -> state_of w' u = Some Done)
       /\ (forall u, u ∉ 0 :: executed calls ->
             state_of w' u = state_of example_tasks u)
       /\ (forall u,
             is_done w' u = true
             <-> is_done example_tasks u = true \/ u ∈ 0 :: executed calls).
Proof.
  split; [reflexivity |]. split; [vm_compute; lia |].
  exact (execute_runs_every_task_once true 3 example_tasks 0
           (mkTask Scheduled 0 [] [1; 2]) eq_refl eq_refl eq_refl
           (fun _ => eq_refl) ltac:(vm_compute; lia)).
Defined.

(** The execution of task 0 of the example: task 1 is executed when task 0
    is done, task 2 when both are; task 3 becomes ready but is not
    executed, because it has not been scheduled. *)
Example execute_example :
  execute true false 3 example_tasks 0
  = Returned
      (mkTasks
         [mkTask Done 0 [] [1; 2];
          mkTask Done 0 [0] [2];
          mkTask Done 0 [0; 1] [3];
          mkTask Created 0 [2] []]
         [0; 2] [0; 2; 1]
         [on_execute 0; on_execute 1; on_execute 2; done_callback 2;
          done_callback 0]).
Proof. vm_compute. reflexivity. Qed.

(** X20: A task is executed once only: after [execute()] has returned, a
    further [execute()] on the task, or on a task that it has executed,
    throws [std::logic_error]. *)
Theorem execute_twice_throws (HYRISE_DEBUG : bool) (fuel : nat)
    (w : Tasks) (this : TaskID) (task : AbstractTask) :
  well_formed w = true ->
  store w !! this = Some task ->
  startable task = true ->
  (HYRISE_DEBUG = true -> is_ready task = true) ->
  startable_count w <= fuel ->
  exists w' calls,
    execute HYRISE_DEBUG false fuel w this = Returned w'
    /\ events w' = events w ++ calls
    /\ this ∈ executed calls
    /\ forall u, u ∈ executed calls ->
         forall (debug current_worker : bool) (fuel' : nat),
           execute debug current_worker (S fuel') w' u = Thrown logic_error.
Proof.
  intros Hwf Htask Hst Hready Hcount.
  destruct (runs_calls HYRISE_DEBUG fuel w this) as (w' & calls & E & Ec & R & _).
  { apply execute_runs; auto. exists task. auto. }
  exists w', (on_execute this :: calls
              ++ (if has_callback w this then [done_callback this] else [])).
  split; [exact E |]. split; [exact Ec |]. cbn [executed].
  split; [apply elem_of_cons; now left |].
  intros u Hu debug current_worker fuel'.
  destruct R as (_ & _ & _ & _ & _ & D & _).
  specialize (D u Hu). unfold state_of in D.
  destruct (store w' !! u) as [t |] eqn:Ht; [| discriminate].
  injection D as D.
  apply (execute_not_startable debug current_worker fuel' w' u t Ht).
  unfold startable. now rewrite D.
Qed.

Lemma execute_twice_throws_witness :
  well_formed example_tasks = true
  /\ startable_count example_tasks <= 3
  /\ exists w' calls,
       execute true false 3 example_tasks 0 = Returned w'
       /\ events w' = events example_tasks ++ calls
       /\ 0 ∈ executed calls
       /\ forall u, u ∈ executed calls ->
            forall (debug current_worker : bool) (fuel' : nat),
              execute debug current_worker (S fuel') w' u
              = Thrown logic_error.
Proof.
  split; [reflexivity |]. split; [vm_compute; lia |].
  exact (execute_twice_throws true 3 example_tasks 0
           (mkTask Scheduled 0 [] [1; 2]) eq_refl eq_refl eq_refl
           (fun _ => eq_refl) ltac:(vm_compute; lia)).
Defined.

(** X21: [execute()] calls the done callback of every task it executes
    that has one, once, and of no other task; the callback of the task
    itself is called last, after its successors have been notified. *)
Theorem execute_calls_done_callbacks (HYRISE_DEBUG : bool) (fuel : nat)
    (w : Tasks) (this : TaskID) (task : AbstractTask) :
  well_formed w = true ->
  store w !! this = Some task ->
  startable task = true ->
  (HYRISE_DEBUG = true -> is_ready task = true) ->
  startable_count w <= fuel ->
  exists w' calls,
    execute HYRISE_DEBUG false fuel w this = Returned w'
    /\ events w'
       = events w ++ on_execute this :: calls
           ++ (if has_callback w this then [done_callback this] else [])
    /\ (forall u,
          u ∈ called_back (skipn (length (events w)) (events w'))
          <-> u ∈ executed (skipn (length (events w)) (events w'))
              /\ has_callback w u = true)
    /\ NoDup (called_back (skipn (length (events w)) (events w'))).
Proof.
  intros Hwf Htask Hst Hready Hcount.
  destruct (runs_calls HYRISE_DEBUG fuel w this)
    as (w' & calls & E & Ec & R & _ & P).
  { apply execute_runs; auto. exists task. auto. }
  exists w', calls.
  split; [exact E |]. split; [exact Ec |].
  rewrite Ec, drop_app_length. cbn [called_back executed].
  destruct R as (_ & _ & _ & N & _).
  split.
  - intros u. rewrite P. rewrite !list_elem_of_In, filter_In.
    reflexivity.
  - rewrite P. apply NoDup_ListNoDup, List.NoDup_filter.
    now apply NoDup_ListNoDup.
Qed.

Lemma execute_calls_done_callbacks_witness :
  well_formed example_tasks = true
  /\ startable_count example_tasks <= 3
  /\ exists w' calls,
       execute true false 3 example_tasks 0 = Returned w'
       /\ events w'
          = events example_tasks ++ on_execute 0 :: calls
              ++ (if has_callback example_tasks 0
                  then [done_callback 0] else [])
       /\ (forall u,
             u ∈ called_back (skipn (length (events example_tasks))
                                (events w'))
             <-> u ∈ executed (skipn (length (events example_tasks))
                                 (events w'))
                 /\ has_callback example_tasks u = true)
       /\ NoDup (called_back (skipn (length (events example_tasks))
                                (events w'))).
Proof.
  split; [reflexivity |]. split; [vm_compute; lia |].
  exact (execute_calls_done_callbacks true 3 example_tasks 0
           (mkTask Scheduled 0 [] [1; 2]) eq_refl eq_refl eq_refl
           (fun _ => eq_refl) ltac:(vm_compute; lia)).
Defined.

Lemma runs_order (HYRISE_DEBUG : bool) (fuel : nat) (w : Tasks)
    (this : TaskID) :
  runs HYRISE_DEBUG fuel w this ->
  exists w' ran,
    execute HYRISE_DEBUG false fuel w this = Returned w'
    /\ has_run w w' ran
    /\ none_left w w'
    /\ forall debt,
         consistent (store w) debt ->
         consistent (store w') debt /\ (ready w this -> ordered w w').
Proof.
  intros (w' & rest & E & R & _ & _ & _ & L & K).
  exists w', (this :: rest). auto.
Qed.

(** X22: Tasks are executed after their predecessors.  Where the counter
    of every task is the number of its predecessors that are not done, as
    [set_as_predecessor_of] sets it up, [execute()] on a ready task calls
    [_on_execute] of a task only when every predecessor of that task is
    done: it was [Done] before the call, or has been executed earlier in
    the call.  The counters are as exact after the call. *)
Theorem execute_respects_dependencies (HYRISE_DEBUG : bool) (fuel : nat)
    (w : Tasks) (this : TaskID) (task : AbstractTask) :
  well_formed w = true ->
  counters_consistent (store w) = true ->
  store w !! this = Some task ->
  startable task = true ->
  is_ready task = true ->
  startable_count w <= fuel ->
  exists w' calls,
    execute HYRISE_DEBUG false fuel w this = Returned w'
    /\ events w' = events w ++ calls
    /\ (forall i u, calls !! i = Some (on_execute u) ->
          forall p predecessor,
            store w !! p = Some predecessor ->
            u ∈ _successors predecessor ->
            _state predecessor = Done \/ p ∈ executed (take i calls))
    /\ counters_consistent (store w') = true.
Proof.
  intros Hwf Hc Htask Hst Hready Hcount.
  destruct (runs_order HYRISE_DEBUG fuel w this)
    as (w' & ran & E & _ & _ & K).
  { apply execute_runs; auto. exists task. auto. }
  apply counters_consistent_spec in Hc.
  destruct (K [] Hc) as [K' O].
  destruct O as (calls & Ec & O); [exists task; auto |].
  exists w', calls. split; [exact E |]. split; [exact Ec |].
  split; [exact O |]. now apply counters_consistent_spec.
Qed.

Lemma execute_respects_dependencies_witness :
  well_formed example_tasks = true
  /\ counters_consistent (store example_tasks) = true
  /\ startable_count example_tasks <= 3
  /\ exists w' calls,
       execute true false 3 example_tasks 0 = Returned w'
       /\ events w' = events example_tasks ++ calls
       /\ (forall i u, calls !! i = Some (on_execute u) ->
             forall p predecessor,
               store example_tasks !! p = Some predecessor ->
               u ∈ _successors predecessor ->
               _state predecessor = Done \/ p ∈ executed (take i calls))
       /\ counters_consistent (store w') = true.
Proof.
  split; [reflexivity |]. split; [reflexivity |].
  split; [vm_compute; lia |].
  exact (execute_respects_dependencies true 3 example_tasks 0
           (mkTask Scheduled 0 [] [1; 2]) eq_refl eq_refl eq_refl eq_refl
           eq_refl ltac:(vm_compute; lia)).
Defined.

(** X23: [execute()] leaves no task behind: a task that is scheduled and
    ready when the call has returned, and so has not been executed by it,
    was scheduled and ready before the call. *)
Theorem execute_leaves_no_ready_task (HYRISE_DEBUG : bool) (fuel : nat)
    (w : Tasks) (this : TaskID) (task : AbstractTask) :
  well_formed w = true ->
  store w !! this = Some task ->
  startable task = true ->
  (HYRISE_DEBUG = true -> is_ready task = true) ->
  startable_count w <= fuel ->
  exists w',
    execute HYRISE_DEBUG false fuel w this = Returned w'
    /\ forall u task',
         store w' !! u = Some task' ->
         is_scheduled task' = true -> is_ready task' = true ->
         exists task0,
           store w !! u = Some task0
           /\ is_scheduled task0 = true /\ is_ready task0 = true.
Proof.
  intros Hwf Htask Hst Hready Hcount.
  destruct (runs_order HYRISE_DEBUG fuel w this)
    as (w' & ran & E & R & L & _).
  { apply execute_runs; auto. exists task. auto. }
  exists w'. split; [exact E |].
  intros u task' Hu Hsched Hr.
  pose proof (well_formed_has_run w w' ran Hwf R) as Hwf'.
  rewrite well_formed_spec in Hwf'.
  destruct (Hwf' u task' Hu) as [_ Hstate].
  assert (Hstartable : startable task' = true).
  { unfold is_scheduled in Hsched. unfold startable.
    destruct (_state task'); try discriminate; try reflexivity.
    now contradiction Hstate. }
  destruct (L u task' Hu Hstartable Hr) as (task0 & Hu0 & Hr0).
  exists task0. split; [exact Hu0 |]. split; [| exact Hr0].
  destruct R as (_ & _ & _ & _ & _ & D & F & _).
  assert (Hout : u ∉ ran).
  { intros Hin. specialize (D u Hin). unfold state_of in D.
    rewrite Hu in D. injection D as D. rewrite D in Hstate.
    unfold is_scheduled in Hsched. rewrite D in Hsched. discriminate. }
  specialize (F u Hout). unfold state_of in F. rewrite Hu, Hu0 in F.
  injection F as F. unfold is_scheduled in *. now rewrite <- F.
Qed.

Lemma execute_leaves_no_ready_task_witness :
  well_formed example_tasks = true
  /\ startable_count example_tasks <= 3
  /\ exists w',
       execute true false 3 example_tasks 0 = Returned w'
       /\ forall u task',
            store w' !! u = Some task' ->
            is_scheduled task' = true -> is_ready task' = true ->
            exists task0,
              store example_tasks !! u = Some task0
              /\ is_scheduled task0 = true /\ is_ready task0 = true.
Proof.
  split; [reflexivity |]. split; [vm_compute; lia |].
  exact (execute_leaves_no_ready_task true 3 example_tasks 0
           (mkTask Scheduled 0 [] [1; 2]) eq_refl eq_refl eq_refl
           (fun _ => eq_refl) ltac:(vm_compute; lia)).
Defined.

Lemma increment_below (n : nat) :
  (N.of_nat n < UINT32_MAX)%N -> increment n = S n.
Proof.
  intros H. unfold increment.
  destruct (N.eqb_spec (N.of_nat n) UINT32_MAX) as [E | _]; [lia | reflexivity].
Qed.

(** The increment of the largest value of the counter. *)
Lemma increment_wraps : increment (N.to_nat UINT32_MAX) = 0.
Proof. unfold increment. now rewrite N2Nat.id, N.eqb_refl. Qed.

(** X24: [set_as_predecessor_of] keeps the counters exact: where the
    counter of every task is the number of its predecessors that are not
    done, it is so after [this->set_as_predecessor_of(successor)], unless
    [this] is [Done] already or the counter of [successor], an unsigned
    32-bit integer, has its largest value and wraps around. *)
Theorem set_as_predecessor_of_keeps_counters (s s' : TaskStore)
    (this successor : TaskID) (task successor_task : AbstractTask) :
  counters_consistent s = true ->
  s !! this = Some task ->
  _state task <> Done ->
  s !! successor = Some successor_task ->
  (N.of_nat (_pending_predecessors successor_task) < UINT32_MAX)%N ->
  set_as_predecessor_of s this successor = Returned s' ->
  counters_consistent s' = true.
Proof.
  intros Hc Htask Hnot Hsucc Hbelow H.
  apply counters_consistent_spec in Hc. apply counters_consistent_spec.
  unfold set_as_predecessor_of in H. rewrite Htask, Hsucc in H.
  cbn [mbind Outcome_mbind Outcome_bind defined] in H.
  unfold Assert in H.
  destruct (negb (is_scheduled task)); [| discriminate].
  injection H as <-.
  set (s1 := alter (add_pending_predecessor this) successor s).
  assert (Hthis1 : exists task1,
             s1 !! this = Some task1
             /\ _state task1 = _state task
             /\ _successors task1 = _successors task).
  { subst s1. destruct (decide (this = successor)) as [-> | Hne].
    - rewrite list_lookup_alter_eq, Htask. eauto.
    - rewrite list_lookup_alter_ne by auto. eauto. }
  destruct Hthis1 as (task1 & Htask1 & Hstate1 & Hsuccs1).
  intros t task' Ht. cbn [count_occ]. rewrite Nat.add_0_r.
  assert (Howed : owed (alter (add_successor successor) this s1) t
                  = owed s t + (if decide (t = successor) then 1 else 0)).
  { pose proof (sum_alter (owed_by t) (add_successor successor) s1 this
                  task1 Htask1) as Hsum.
    fold (owed (alter (add_successor successor) this s1) t) in Hsum.
    fold (owed s1 t) in Hsum.
    assert (E1 : owed s1 t = owed s t).
    { subst s1. now apply owed_alter. }
    assert (E2 : owed_by t (add_successor successor task1)
                 = owed_by t task1
                   + (if decide (t = successor) then 1 else 0)).
    { unfold owed_by, TaskState_eqb.
      cbn [_state _successors add_successor].
      rewrite !bool_decide_eq_false_2 by congruence.
      rewrite count_occ_app. cbn [count_occ].
      destruct (Nat.eq_dec successor t) as [-> | Hne].
      - now rewrite decide_True by reflexivity.
      - now rewrite decide_False by congruence. }
    lia. }
  rewrite Howed.
  assert (Hpending : exists task0,
             s !! t = Some task0
             /\ _pending_predecessors task'
                = _pending_predecessors task0
                  + (if decide (t = successor) then 1 else 0)).
  { destruct (decide (t = this)) as [-> | Hthis].
    - rewrite list_lookup_alter_eq, Htask1 in Ht. injection Ht as <-.
      cbn [_pending_predecessors add_successor].
      subst s1. destruct (decide (this = successor)) as [-> | Hne].
      + rewrite list_lookup_alter_eq, Hsucc in Htask1.
        injection Htask1 as <-. exists successor_task.
        split; [exact Hsucc |].
        cbn [_pending_predecessors add_pending_predecessor].
        rewrite increment_below by exact Hbelow. lia.
      + rewrite list_lookup_alter_ne in Htask1 by auto.
        exists task1. split; [exact Htask1 |]. lia.
    - rewrite list_lookup_alter_ne in Ht by auto. subst s1.
      destruct (decide (t = successor)) as [-> | Hne].
      + rewrite list_lookup_alter_eq, Hsucc in Ht. injection Ht as <-.
        exists successor_task. split; [exact Hsucc |].
        cbn [_pending_predecessors add_pending_predecessor].
        rewrite increment_below by exact Hbelow. lia.
      + rewrite list_lookup_alter_ne in Ht by auto.
        exists task'. split; [exact Ht |]. lia. }
  destruct Hpending as (task0 & Ht0 & ->).
  pose proof (Hc t task0 Ht0) as H0. cbn [count_occ] in H0. lia.
Qed.

Lemma set_as_predecessor_of_keeps_counters_witness :
  counters_consistent (store example_tasks) = true
  /\ (N.of_nat 1 < UINT32_MAX)%N
  /\ set_as_predecessor_of (store example_tasks) 3 1
     = Returned
         [mkTask Scheduled 0 [] [1; 2];
          mkTask Scheduled 2 [0; 3] [2];
          mkTask Scheduled 2 [0; 1] [3];
          mkTask Created 1 [2] [1]]
  /\ counters_consistent
       [mkTask Scheduled 0 [] [1; 2];
        mkTask Scheduled 2 [0; 3] [2];
        mkTask Scheduled 2 [0; 1] [3];
        mkTask Created 1 [2] [1]] = true.
Proof.
  split; [reflexivity |]. split; [reflexivity |]. split; [reflexivity |].
  exact (set_as_predecessor_of_keeps_counters (store example_tasks) _ 3 1
           (mkTask Created 1 [2] []) (mkTask Scheduled 1 [0] [2])
           eq_refl eq_refl ltac:(discriminate) eq_refl eq_refl eq_refl).
Defined.

(** A task that is [Done] notifies nobody: a successor it is given
    afterwards counts a predecessor that it will never hear of. *)
Example set_as_predecessor_of_done :
  set_as_predecessor_of
    [mkTask Done 0 [] []; mkTask Created 0 [] []] 0 1
  = Returned [mkTask Done 0 [] [1]; mkTask Created 1 [0] []]
  /\ counters_consistent [mkTask Done 0 [] []; mkTask Created 0 [] []] = true
  /\ counters_consistent [mkTask Done 0 [] [1]; mkTask Created 1 [0] []]
     = false.
Proof. repeat split. Qed.

End TaskExecutionTheorems.
